(** * AMOEBA / HIPPO multipole kernels of OpenMM's CUDA platform

    A shallow embedding of the host code of
    [plugins/amoeba/platforms/cuda/src/AmoebaCudaKernels.cpp] and of the
    device helpers of [kernels/hippoComputeField.cu], with the properties
    the specification states about them.  The later parts go on to the
    rest of these two files (force information, parameter updates, flags,
    accessors, the tile loop of [computeField]) and to the momentum
    kernels of [platforms/cuda/src/kernels/common.cu] and the array and
    kernel wrappers of [platforms/hip/src/HipArray.cpp].

    Numbers.  The device type [real] and the host type [double] are IEEE
    binary floating point.  Formulas whose statement is about exact
    arithmetic (mutual damping factors, B-spline moduli, system multipole
    moments) are embedded over an arithmetic interface [RealOps] with two
    instances: the real numbers [R], on which the algebraic theorems are
    proved, and binary64 ([PrimFloat.float]), on which the code can be run
    and on which rounding shows.  Integer buffers are [Z] with the
    wrap-around of their width written out. *)

From Stdlib Require Import Reals Lra Lia ZArith List Bool Permutation.
From Stdlib Require String.
From Stdlib Require Floats.
Import PrimFloat.PrimFloatNotations.
Import String.StringSyntax.
Import ListNotations.

(* ------------------------------------------------------------------ *)
(** * Arithmetic interface *)

(** The operations the code applies to [double] and [real] values.  [rofZ] is
    the conversion of an [int] to [double]; a decimal literal such as
    [1.5] is [dec 15 10], the quotient of two integers (in binary64 the
    correctly rounded quotient of two exactly representable integers is
    the double nearest to the decimal, which is the literal's value). *)
Class RealOps (T : Type) : Type := {
  rofZ : Z -> T;
  radd : T -> T -> T;
  rsub : T -> T -> T;
  rmul : T -> T -> T;
  rdiv : T -> T -> T;
  rsqrt : T -> T;
  rltb : T -> T -> bool;   (* a < b *)
  reqb : T -> T -> bool    (* a == b *)
}.

Declare Scope ops_scope.
Delimit Scope ops_scope with ops.
Notation "a + b" := (radd a b) : ops_scope.
Notation "a - b" := (rsub a b) : ops_scope.
Notation "a * b" := (rmul a b) : ops_scope.
Notation "a / b" := (rdiv a b) : ops_scope.

Definition dec {T} `{RealOps T} (num den : Z) : T := (rofZ num / rofZ den)%ops.

(** Exact arithmetic. *)
#[export] Instance RealOps_R : RealOps R := {
  rofZ := IZR;
  radd := Rplus;
  rsub := Rminus;
  rmul := Rmult;
  rdiv := Rdiv;
  rsqrt := sqrt;
  rltb := fun a b => if Rlt_dec a b then true else false;
  reqb := fun a b => if Req_dec_T a b then true else false
}.

(** binary64, round to nearest even, as the host computes. *)
Abbreviation float := PrimFloat.float.

Definition float_of_Z (z : Z) : float :=
  if (z <? 0)%Z then PrimFloat.opp (PrimFloat.of_uint63 (Uint63.of_Z (- z)))
  else PrimFloat.of_uint63 (Uint63.of_Z z).

#[export] Instance RealOps_float : RealOps float := {
  rofZ := float_of_Z;
  radd := PrimFloat.add;
  rsub := PrimFloat.sub;
  rmul := PrimFloat.mul;
  rdiv := PrimFloat.div;
  rsqrt := PrimFloat.sqrt;
  rltb := PrimFloat.ltb;
  reqb := PrimFloat.eqb
}.

(** Vectors of the device arrays ([real3], [real4]). *)
Record vec3 (T : Type) : Type := mkVec3 { v3x : T; v3y : T; v3z : T }.
Record vec4 (T : Type) : Type := mkVec4 { v4x : T; v4y : T; v4z : T; v4w : T }.
Arguments mkVec3 {T} _ _ _.
Arguments v3x {T} _.
Arguments v3y {T} _.
Arguments v3z {T} _.
Arguments mkVec4 {T} _ _ _ _.
Arguments v4x {T} _.
Arguments v4y {T} _.
Arguments v4z {T} _.
Arguments v4w {T} _.

(** A loop invariant carried through [fold_left]. *)
Lemma fold_left_invariant {A B : Type} (P : A -> Prop) (step : A -> B -> A) :
  (forall a b, P a -> P (step a b)) ->
  forall l a, P a -> P (fold_left step l a).
Proof.
  intros Hstep l. induction l as [| b l IH]; intros a Ha; simpl.
  - exact Ha.
  - apply IH, Hstep, Ha.
Qed.

(* ------------------------------------------------------------------ *)
(** * Damping-factor library ([hippoComputeField.cu]) *)

Module Damping.

Local Open Scope R_scope.

(** [computeDirectFieldDampingFactors(alpha, r, fdamp3, fdamp5, fdamp7)]:
    the three output references are returned as a triple. *)
Definition computeDirectFieldDampingFactors (alpha r : R) : R * R * R :=
  let ar := alpha * r in
  let ar2 := ar * ar in
  let ar3 := ar2 * ar in
  let ar4 := ar2 * ar2 in
  let expAR := exp (- ar) in
  let one := 1 in
  let fdamp3 := 1 - (1 + ar + ar2 * (one / 2)) * expAR in
  let fdamp5 := 1 - (1 + ar + ar2 * (one / 2) + ar3 * (one / 6)) * expAR in
  let fdamp7 :=
    1 - (1 + ar + ar2 * (one / 2) + ar3 * (one / 6) + ar4 * (one / 30)) * expAR in
  (fdamp3, fdamp5, fdamp7).

(** C4.  The direct-field damping factors are the truncated-exponential
    screening factors in [x = alpha * r]: each factor adds one term to the
    previous one, and the coefficient of [x^4] in [fdamp7] is [1/30]. *)
Theorem direct_damping_truncated_exponential :
  forall alpha r : R,
    let x := alpha * r in
    computeDirectFieldDampingFactors alpha r =
      (1 - (1 + x + x ^ 2 / 2) * exp (- x),
       1 - (1 + x + x ^ 2 / 2 + x ^ 3 / 6) * exp (- x),
       1 - (1 + x + x ^ 2 / 2 + x ^ 3 / 6 + x ^ 4 / 30) * exp (- x)).
Proof.
  intros alpha r x. unfold computeDirectFieldDampingFactors. fold x.
  cbv zeta.
  repeat (apply f_equal2); field.
Qed.

(** [computeMutualFieldDampingFactors(alphaI, alphaJ, r, fdamp3, fdamp5)]
    over the device type [real]: every operation is the one of the
    arithmetic [T] (each rounded on its own in binary floating point), in
    the order in which the source writes them.  [EXP] is the exponential
    the macro of that name expands to and [neg] the unary minus.  The test
    [alphaI == alphaJ] selects the degenerate closed form. *)
Section Mutual.

Context {T : Type} `{RealOps T}.
Variables (EXP neg : T -> T).

Local Open Scope ops_scope.
Local Notation "1" := (rofZ 1%Z) : ops_scope.
Local Notation "2" := (rofZ 2%Z) : ops_scope.
Local Notation "3" := (rofZ 3%Z) : ops_scope.
Local Notation "6" := (rofZ 6%Z) : ops_scope.
Local Notation "7" := (rofZ 7%Z) : ops_scope.
Local Notation "24" := (rofZ 24%Z) : ops_scope.
Local Notation "48" := (rofZ 48%Z) : ops_scope.
Local Notation "144" := (rofZ 144%Z) : ops_scope.

Definition computeMutualFieldDampingFactors (alphaI alphaJ r : T) : T * T :=
  let arI := alphaI * r in
  let arI2 := arI * arI in
  let arI3 := arI2 * arI in
  let expARI := EXP (neg arI) in
  let one := 1 in
  let seven := 7 in
  if reqb alphaI alphaJ then
    let arI4 := arI3 * arI in
    let arI5 := arI4 * arI in
    (1 - (1 + arI + arI2 * (one / 2) + arI3 * (seven / 48) + arI4 * (one / 48))
         * expARI,
     1 - (1 + arI + arI2 * (one / 2) + arI3 * (one / 6) + arI4 * (one / 24)
          + arI5 * (one / 144)) * expARI)
  else
    let arJ := alphaJ * r in
    let arJ2 := arJ * arJ in
    let arJ3 := arJ2 * arJ in
    let expARJ := EXP (neg arJ) in
    let aI2 := alphaI * alphaI in
    let aJ2 := alphaJ * alphaJ in
    let A := aJ2 / (aJ2 - aI2) in
    let B := aI2 / (aI2 - aJ2) in
    let A2 := A * A in
    let B2 := B * B in
    (1 - A2 * (1 + arI + arI2 * (one / 2)) * expARI
       - B2 * (1 + arJ + arJ2 * (one / 2)) * expARJ
       - 2 * A2 * B * (1 + arI) * expARI
       - 2 * B2 * A * (1 + arJ) * expARJ,
     1 - A2 * (1 + arI + arI2 * (one / 2) + arI3 * (one / 6)) * expARI
       - B2 * (1 + arJ + arJ2 * (one / 2) + arJ3 * (one / 6)) * expARJ
       - 2 * A2 * B * (1 + arI + arI2 * (one / 3)) * expARI
       - 2 * B2 * A * (1 + arJ + arJ2 * (one / 3)) * expARJ).

End Mutual.

(** In exact arithmetic the operations are those of the real numbers. *)
Lemma mutual_exact (alphaI alphaJ r : R) :
  computeMutualFieldDampingFactors exp Ropp alphaI alphaJ r =
  let arI := alphaI * r in
  let arI2 := arI * arI in
  let arI3 := arI2 * arI in
  let expARI := exp (- arI) in
  let one := 1 in
  let seven := 7 in
  if Req_dec_T alphaI alphaJ then
    let arI4 := arI3 * arI in
    let arI5 := arI4 * arI in
    (1 - (1 + arI + arI2 * (one / 2) + arI3 * (seven / 48) + arI4 * (one / 48))
         * expARI,
     1 - (1 + arI + arI2 * (one / 2) + arI3 * (one / 6) + arI4 * (one / 24)
          + arI5 * (one / 144)) * expARI)
  else
    let arJ := alphaJ * r in
    let arJ2 := arJ * arJ in
    let arJ3 := arJ2 * arJ in
    let expARJ := exp (- arJ) in
    let aI2 := alphaI * alphaI in
    let aJ2 := alphaJ * alphaJ in
    let A := aJ2 / (aJ2 - aI2) in
    let B := aI2 / (aI2 - aJ2) in
    let A2 := A * A in
    let B2 := B * B in
    (1 - A2 * (1 + arI + arI2 * (one / 2)) * expARI
       - B2 * (1 + arJ + arJ2 * (one / 2)) * expARJ
       - 2 * A2 * B * (1 + arI) * expARI
       - 2 * B2 * A * (1 + arJ) * expARJ,
     1 - A2 * (1 + arI + arI2 * (one / 2) + arI3 * (one / 6)) * expARI
       - B2 * (1 + arJ + arJ2 * (one / 2) + arJ3 * (one / 6)) * expARJ
       - 2 * A2 * B * (1 + arI + arI2 * (one / 3)) * expARI
       - 2 * B2 * A * (1 + arJ + arJ2 * (one / 3)) * expARJ).
Proof.
  unfold computeMutualFieldDampingFactors. cbn [reqb RealOps_R].
  destruct (Req_dec_T alphaI alphaJ); reflexivity.
Qed.

(** ** Exchange of the two atoms *)

Lemma mutual_damping_swap :
  forall alphaI alphaJ r,
    computeMutualFieldDampingFactors exp Ropp alphaI alphaJ r =
    computeMutualFieldDampingFactors exp Ropp alphaJ alphaI r.
Proof.
  intros aI aJ r. rewrite !mutual_exact; cbv zeta.
  destruct (Req_dec_T aI aJ) as [e | ne]; destruct (Req_dec_T aJ aI) as [e' | ne'];
    try congruence.
  cbv zeta. unfold Rdiv. f_equal; ring.
Qed.

(** ** The remainder of [exp (- t)] after its cubic Taylor polynomial *)

Lemma mvt_growth (f f' : R -> R) (K : R) (n : nat) :
  0 <= K ->
  (forall c, derivable_pt_lim f c (f' c)) ->
  f 0 = 0 ->
  (forall c, Rabs c <= 1 -> Rabs (f' c) <= K * Rabs c ^ n) ->
  forall t, Rabs t <= 1 -> Rabs (f t) <= K * Rabs t ^ S n.
Proof.
  intros HK Hd H0 Hb t Ht.
  assert (step : forall c, Rabs c <= Rabs t ->
                   Rabs (f' c * t) <= K * Rabs t ^ S n).
  { intros c Hc. rewrite Rabs_mult. simpl.
    assert (Hc1 : Rabs c <= 1) by lra.
    specialize (Hb c Hc1).
    assert (Hpow : Rabs c ^ n <= Rabs t ^ n).
    { apply pow_incr. split; [apply Rabs_pos | exact Hc]. }
    pose proof (Rabs_pos t). pose proof (Rabs_pos (f' c)).
    assert (0 <= Rabs c ^ n) by (apply pow_le, Rabs_pos).
    apply Rle_trans with (K * Rabs c ^ n * Rabs t).
    - apply Rmult_le_compat_r; assumption.
    - replace (K * (Rabs t * Rabs t ^ n)) with (K * Rabs t ^ n * Rabs t) by ring.
      apply Rmult_le_compat_r; [assumption|].
      apply Rmult_le_compat_l; assumption. }
  destruct (Rtotal_order t 0) as [Hneg | [Hz | Hpos]].
  - destruct (MVT_cor2 f f' t 0 Hneg (fun c _ => Hd c)) as [c [Hc Hin]].
    replace (f t) with (f' c * t) by (rewrite H0 in Hc; lra).
    apply step. rewrite !Rabs_left by lra. lra.
  - subst t. rewrite H0, Rabs_R0. simpl. lra.
  - destruct (MVT_cor2 f f' 0 t Hpos (fun c _ => Hd c)) as [c [Hc Hin]].
    replace (f t) with (f' c * t) by (rewrite H0 in Hc; lra).
    apply step. rewrite !Rabs_right by lra. lra.
Qed.

Lemma dlim_plus f g x a b :
  derivable_pt_lim f x a -> derivable_pt_lim g x b ->
  derivable_pt_lim (fun u => f u + g u) x (a + b).
Proof. exact (derivable_pt_lim_plus f g x a b). Qed.

Lemma dlim_minus f g x a b :
  derivable_pt_lim f x a -> derivable_pt_lim g x b ->
  derivable_pt_lim (fun u => f u - g u) x (a - b).
Proof. exact (derivable_pt_lim_minus f g x a b). Qed.

Lemma dlim_opp f x a :
  derivable_pt_lim f x a -> derivable_pt_lim (fun u => - f u) x (- a).
Proof. exact (derivable_pt_lim_opp f x a). Qed.

Lemma dlim_div_const f c x a :
  derivable_pt_lim f x a -> derivable_pt_lim (fun u => f u / c) x (a / c).
Proof.
  intro H. unfold Rdiv.
  replace (a * / c) with (a * / c + f x * 0) by ring.
  apply (derivable_pt_lim_mult f (fun _ => / c));
    [exact H | apply derivable_pt_lim_const].
Qed.

Lemma dlim_exp_neg x : derivable_pt_lim (fun u => exp (- u)) x (- exp (- x)).
Proof.
  replace (- exp (- x)) with (exp (- x) * (-1)) by ring.
  apply (derivable_pt_lim_comp (fun u => - u) exp).
  - replace (-1) with (- 1) by ring.
    apply (derivable_pt_lim_opp id x 1), derivable_pt_lim_id.
  - apply derivable_pt_lim_exp.
Qed.

Lemma dlim_eq f x a b :
  a = b -> derivable_pt_lim f x a -> derivable_pt_lim f x b.
Proof. intros <-. exact (fun H => H). Qed.

Ltac dlim :=
  repeat first
    [ apply dlim_exp_neg
    | exact (derivable_pt_lim_pow _ _)
    | exact (derivable_pt_lim_id _)
    | exact (derivable_pt_lim_const _ _)
    | apply dlim_minus | apply dlim_plus | apply dlim_opp
    | apply dlim_div_const ].

Definition expRem0 (t : R) : R := exp (- t) - 1.
Definition expRem1 (t : R) : R := exp (- t) - (1 - t).
Definition expRem2 (t : R) : R := exp (- t) - (1 - t + t ^ 2 / 2).
Definition expRem3 (t : R) : R := exp (- t) - (1 - t + t ^ 2 / 2 - t ^ 3 / 6).

Lemma expRem0_deriv t : derivable_pt_lim expRem0 t (- exp (- t)).
Proof. unfold expRem0. eapply dlim_eq; [| dlim]. ring. Qed.

Lemma expRem1_deriv t : derivable_pt_lim expRem1 t (- expRem0 t).
Proof. unfold expRem1, expRem0. eapply dlim_eq; [| dlim]. ring. Qed.

Lemma expRem2_deriv t : derivable_pt_lim expRem2 t (- expRem1 t).
Proof. unfold expRem2, expRem1. eapply dlim_eq; [| dlim]. simpl. field. Qed.

Lemma expRem3_deriv t : derivable_pt_lim expRem3 t (- expRem2 t).
Proof. unfold expRem3, expRem2. eapply dlim_eq; [| dlim]. simpl. field. Qed.

Lemma exp_neg_le_3 c : Rabs c <= 1 -> exp (- c) <= 3.
Proof.
  intro Hc. apply Rle_trans with (exp 1); [| exact exp_le_3].
  assert (Hle : - c <= 1).
  { unfold Rabs in Hc. destruct (Rcase_abs c); lra. }
  destruct Hle as [Hlt | Heq].
  - left. apply exp_increasing. exact Hlt.
  - rewrite Heq. right. reflexivity.
Qed.

Lemma expRem0_bound t : Rabs t <= 1 -> Rabs (expRem0 t) <= 3 * Rabs t ^ 1.
Proof.
  apply (mvt_growth expRem0 (fun c => - exp (- c)) 3 0); [lra | | |].
  - exact expRem0_deriv.
  - unfold expRem0. rewrite Ropp_0, exp_0. ring.
  - intros c Hc. rewrite Rabs_Ropp, Rabs_right.
    + simpl. pose proof (exp_neg_le_3 c Hc). lra.
    + left. apply exp_pos.
Qed.

Lemma expRem1_bound t : Rabs t <= 1 -> Rabs (expRem1 t) <= 3 * Rabs t ^ 2.
Proof.
  apply (mvt_growth expRem1 (fun c => - expRem0 c) 3 1); [lra | | |].
  - exact expRem1_deriv.
  - unfold expRem1. rewrite Ropp_0, exp_0. ring.
  - intros c Hc. rewrite Rabs_Ropp. apply expRem0_bound, Hc.
Qed.

Lemma expRem2_bound t : Rabs t <= 1 -> Rabs (expRem2 t) <= 3 * Rabs t ^ 3.
Proof.
  apply (mvt_growth expRem2 (fun c => - expRem1 c) 3 2); [lra | | |].
  - exact expRem2_deriv.
  - unfold expRem2. rewrite Ropp_0, exp_0. simpl. field.
  - intros c Hc. rewrite Rabs_Ropp. apply expRem1_bound, Hc.
Qed.

Lemma expRem3_bound t : Rabs t <= 1 -> Rabs (expRem3 t) <= 3 * Rabs t ^ 4.
Proof.
  apply (mvt_growth expRem3 (fun c => - expRem2 c) 3 3); [lra | | |].
  - exact expRem3_deriv.
  - unfold expRem3. rewrite Ropp_0, exp_0. simpl. field.
  - intros c Hc. rewrite Rabs_Ropp. apply expRem2_bound, Hc.
Qed.

(** The cubic remainder divided by [t^3], extended by [0] at [t = 0]. *)
Definition expQuot (t : R) : R :=
  if Req_dec_T t 0 then 0 else expRem3 t / t ^ 3.

Lemma expQuot_0 : expQuot 0 = 0.
Proof. unfold expQuot. destruct (Req_dec_T 0 0); [reflexivity | congruence]. Qed.

Lemma exp_neg_split t :
  exp (- t) = 1 - t + t ^ 2 / 2 - t ^ 3 / 6 + expQuot t * t ^ 3.
Proof.
  unfold expQuot. destruct (Req_dec_T t 0) as [-> | Hne].
  - rewrite Ropp_0, exp_0. simpl. field.
  - unfold expRem3. field. exact Hne.
Qed.

Lemma expQuot_continuous : continuity_pt expQuot 0.
Proof.
  intros eps Heps.
  exists (Rmin 1 (eps / 3)). split.
  - apply Rmin_pos; lra.
  - intros t [[_ Hne] Hdist]. simpl in Hdist |- *. unfold R_dist in *.
    rewrite expQuot_0, Rminus_0_r. rewrite Rminus_0_r in Hdist.
    assert (Ht1 : Rabs t <= 1).
    { apply Rle_trans with (Rmin 1 (eps / 3)); [lra | apply Rmin_l]. }
    assert (Ht2 : Rabs t < eps / 3).
    { apply Rlt_le_trans with (Rmin 1 (eps / 3)); [lra | apply Rmin_r]. }
    unfold expQuot. destruct (Req_dec_T t 0) as [Hz | Hnz]; [congruence |].
    assert (Habs : 0 < Rabs t) by (apply Rabs_pos_lt; exact Hnz).
    assert (Hcube : 0 < Rabs t ^ 3) by (apply pow_lt; exact Habs).
    unfold Rdiv. rewrite Rabs_mult, Rabs_inv, <- RPow_abs.
    pose proof (expRem3_bound t Ht1) as Hb.
    apply Rle_lt_trans with (3 * Rabs t ^ 4 * / Rabs t ^ 3).
    + apply Rmult_le_compat_r; [left; apply Rinv_0_lt_compat; exact Hcube | exact Hb].
    + replace (3 * Rabs t ^ 4 * / Rabs t ^ 3) with (3 * Rabs t).
      * lra.
      * field. lra.
Qed.

(** ** The general formula near equal exponents

    With [x = alphaI * r] and [t = (alphaJ - alphaI) * r] the general
    branch is [1 - exp (- x) * N / (t * (2 x + t))^3], where the cubic
    Taylor part of [N] is divisible by [t^3].  [quot3] and [quot5] are the
    quotients; [tail3] and [tail5] multiply the Taylor remainder. *)

Definition quot3 (x t : R) : R :=
  (8 * x ^ 3 + 8 * x ^ 4 + 4 * x ^ 5 + 7 / 6 * x ^ 6 + 1 / 6 * x ^ 7)
  + (12 * x ^ 2 + 12 * x ^ 3 + 6 * x ^ 4 + 3 / 2 * x ^ 5 - 1 / 12 * x ^ 6
     - 1 / 6 * x ^ 7) * t
  + (6 * x + 6 * x ^ 2 + 3 * x ^ 3 + 1 / 2 * x ^ 4 - 1 / 2 * x ^ 5
     - 5 / 12 * x ^ 6) * t ^ 2
  + (1 + 1 * x + 1 / 2 * x ^ 2 - 1 / 4 * x ^ 4 - 1 / 3 * x ^ 5) * t ^ 3
  + (- 1 / 12 * x ^ 4) * t ^ 4.

Definition quot5 (x t : R) : R :=
  (8 * x ^ 3 + 8 * x ^ 4 + 4 * x ^ 5 + 4 / 3 * x ^ 6 + 1 / 3 * x ^ 7
   + 1 / 18 * x ^ 8)
  + (12 * x ^ 2 + 12 * x ^ 3 + 6 * x ^ 4 + 2 * x ^ 5 + 5 / 12 * x ^ 6
     - 1 / 36 * x ^ 7 - 1 / 18 * x ^ 8) * t
  + (6 * x + 6 * x ^ 2 + 3 * x ^ 3 + 1 * x ^ 4 - 1 / 3 * x ^ 6
     - 7 / 36 * x ^ 7) * t ^ 2
  + (1 + 1 * x + 1 / 2 * x ^ 2 + 1 / 6 * x ^ 3 - 1 / 12 * x ^ 4
     - 13 / 36 * x ^ 5 - 1 / 4 * x ^ 6) * t ^ 3
  + (- 1 / 9 * x ^ 4 - 5 / 36 * x ^ 5) * t ^ 4
  + (- 1 / 36 * x ^ 4) * t ^ 5.

Definition tail3 (x t : R) : R :=
  let y := x + t in
  t * (2 * x + t) * (1 + y + y ^ 2 / 2) + 2 * y ^ 2 * (1 + y).

Definition tail5 (x t : R) : R :=
  let y := x + t in
  t * (2 * x + t) * (1 + y + y ^ 2 / 2 + y ^ 3 / 6)
  + 2 * y ^ 2 * (1 + y + y ^ 2 / 3).

Definition near3 (x t : R) : R :=
  exp (- x) * ((quot3 x t + x ^ 4 * tail3 x t * expQuot t) / (2 * x + t) ^ 3).

Definition near5 (x t : R) : R :=
  exp (- x) * ((quot5 x t + x ^ 4 * tail5 x t * expQuot t) / (2 * x + t) ^ 3).

Lemma near3_continuous x : x <> 0 -> continuity_pt (near3 x) 0.
Proof.
  intro Hx. pose proof expQuot_continuous as Hq.
  unfold near3, quot3, tail3. reg.
  rewrite Rplus_0_r. apply pow_nonzero. lra.
Qed.

Lemma near5_continuous x : x <> 0 -> continuity_pt (near5 x) 0.
Proof.
  intro Hx. pose proof expQuot_continuous as Hq.
  unfold near5, quot5, tail5. reg.
  rewrite Rplus_0_r. apply pow_nonzero. lra.
Qed.

Lemma mutual_general_near alphaI alphaJ r :
  r <> 0 -> alphaJ <> alphaI -> alphaJ + alphaI <> 0 ->
  computeMutualFieldDampingFactors exp Ropp alphaI alphaJ r =
    (1 - near3 (alphaI * r) ((alphaJ - alphaI) * r),
     1 - near5 (alphaI * r) ((alphaJ - alphaI) * r)).
Proof.
  intros Hr Hne Hsum.
  rewrite !mutual_exact; cbv zeta.
  destruct (Req_dec_T alphaI alphaJ) as [e | _]; [congruence |].
  cbv zeta. unfold near3, near5.
  replace (exp (- (alphaJ * r)))
    with (exp (- (alphaI * r)) * exp (- ((alphaJ - alphaI) * r)))
    by (rewrite <- exp_plus; f_equal; ring).
  rewrite (exp_neg_split ((alphaJ - alphaI) * r)).
  generalize (expQuot ((alphaJ - alphaI) * r)) as p.
  generalize (exp (- (alphaI * r))) as e. intros e p.
  assert (Hd : alphaJ - alphaI <> 0) by lra.
  unfold quot3, quot5, tail3, tail5. cbv zeta.
  f_equal; field; repeat split; try assumption;
    try (intro Hz;
         assert (Hf : (alphaJ - alphaI) * (alphaJ + alphaI) = 0) by lra;
         apply Rmult_integral in Hf; destruct Hf; lra);
    intro Hz; assert (Hf : (alphaJ + alphaI) * r = 0) by lra;
    apply Rmult_integral in Hf; destruct Hf; lra.
Qed.

Lemma mutual_degenerate_near alphaI r :
  alphaI * r <> 0 ->
  computeMutualFieldDampingFactors exp Ropp alphaI alphaI r =
    (1 - near3 (alphaI * r) 0, 1 - near5 (alphaI * r) 0).
Proof.
  intro Hx. rewrite !mutual_exact; cbv zeta.
  destruct (Req_dec_T alphaI alphaI) as [_ | ne]; [| congruence].
  cbv zeta. unfold near3, near5, quot3, quot5, tail3, tail5. cbv zeta.
  rewrite expQuot_0.
  generalize (exp (- (alphaI * r))) as e. intro e.
  assert (Hr : r <> 0) by (intro Hz; apply Hx; rewrite Hz; ring).
  assert (Ha : alphaI <> 0) by (intro Hz; apply Hx; rewrite Hz; ring).
  f_equal; field; split; assumption.
Qed.

(** ** The limit [alphaJ -> alphaI] *)

Lemma mutual_damping_limit_nonzero alphaI r :
  0 < r -> alphaI <> 0 ->
  forall eps, 0 < eps ->
  exists delta, 0 < delta /\
    forall alphaJ, alphaJ <> alphaI -> Rabs (alphaJ - alphaI) < delta ->
      Rabs (fst (computeMutualFieldDampingFactors exp Ropp alphaI alphaJ r)
            - fst (computeMutualFieldDampingFactors exp Ropp alphaI alphaI r)) < eps /\
      Rabs (snd (computeMutualFieldDampingFactors exp Ropp alphaI alphaJ r)
            - snd (computeMutualFieldDampingFactors exp Ropp alphaI alphaI r)) < eps.
Proof.
  intros Hr Ha eps Heps.
  set (x := alphaI * r).
  assert (Hx : x <> 0).
  { unfold x. intro Hz. apply Rmult_integral in Hz. destruct Hz; lra. }
  destruct (near3_continuous x Hx eps Heps) as [d3 [Hd3 H3]].
  destruct (near5_continuous x Hx eps Heps) as [d5 [Hd5 H5]].
  assert (Hax : 0 < Rabs x) by (apply Rabs_pos_lt; exact Hx).
  set (d := Rmin (Rabs x) (Rmin d3 d5)).
  assert (Hd : 0 < d) by (unfold d; repeat apply Rmin_pos; assumption).
  exists (d / r). split.
  - apply Rdiv_lt_0_compat; assumption.
  - intros alphaJ Hne Hclose.
    set (t := (alphaJ - alphaI) * r).
    assert (Ht : Rabs t < d).
    { unfold t. rewrite Rabs_mult, (Rabs_right r) by lra.
      apply Rmult_lt_reg_r with (/ r); [apply Rinv_0_lt_compat; exact Hr |].
      replace (Rabs (alphaJ - alphaI) * r * / r) with (Rabs (alphaJ - alphaI))
        by (field; lra).
      exact Hclose. }
    assert (Htx : Rabs t < Rabs x).
    { apply Rlt_le_trans with d; [exact Ht | apply Rmin_l]. }
    assert (Ht3 : Rabs t < d3).
    { apply Rlt_le_trans with d; [exact Ht |].
      apply Rle_trans with (Rmin d3 d5); [apply Rmin_r | apply Rmin_l]. }
    assert (Ht5 : Rabs t < d5).
    { apply Rlt_le_trans with d; [exact Ht |].
      apply Rle_trans with (Rmin d3 d5); [apply Rmin_r | apply Rmin_r]. }
    assert (Htn : t <> 0).
    { unfold t. intro Hz. apply Rmult_integral in Hz. destruct Hz; lra. }
    assert (Hsum : alphaJ + alphaI <> 0).
    { intro Hz. assert (Hxt : t = - (2 * x)) by (unfold t, x; nra).
      rewrite Hxt, Rabs_Ropp, Rabs_mult, (Rabs_right 2) in Htx by lra. lra. }
    rewrite (mutual_general_near alphaI alphaJ r) by (try assumption; lra).
    rewrite (mutual_degenerate_near alphaI r Hx).
    fold x t. simpl fst. simpl snd.
    assert (Hdom : D_x no_cond 0 t) by (split; [exact I | congruence]).
    assert (Hn3 : Rabs (near3 x t - near3 x 0) < eps).
    { apply (H3 t). split; [exact Hdom |].
      simpl. unfold R_dist. replace (t - 0) with t by ring. exact Ht3. }
    assert (Hn5 : Rabs (near5 x t - near5 x 0) < eps).
    { apply (H5 t). split; [exact Hdom |].
      simpl. unfold R_dist. replace (t - 0) with t by ring. exact Ht5. }
    split.
    + replace (1 - near3 x t - (1 - near3 x 0)) with (- (near3 x t - near3 x 0))
        by ring.
      rewrite Rabs_Ropp. exact Hn3.
    + replace (1 - near5 x t - (1 - near5 x 0)) with (- (near5 x t - near5 x 0))
        by ring.
      rewrite Rabs_Ropp. exact Hn5.
Qed.

Lemma mutual_damping_limit_zero alphaJ r :
  alphaJ <> 0 ->
  computeMutualFieldDampingFactors exp Ropp 0 alphaJ r =
  computeMutualFieldDampingFactors exp Ropp 0 0 r.
Proof.
  intro Hne. rewrite !mutual_exact; cbv zeta.
  destruct (Req_dec_T 0 alphaJ) as [e | _]; [congruence |].
  destruct (Req_dec_T 0 0) as [_ | ne]; [| congruence].
  cbv zeta. replace (0 * r) with 0 by ring. rewrite Ropp_0, exp_0.
  f_equal; field; intro Hz;
    assert (Hf : alphaJ * alphaJ = 0) by lra;
    apply Rmult_integral in Hf; destruct Hf; lra.
Qed.

(** C3.  In exact arithmetic (the operations of the real numbers, [exp]
    for [EXP]): for every [r > 0] the mutual-field damping factors do not
    change when the two exponents are exchanged, and the general
    two-exponential branch (taken when [alphaJ <> alphaI]) tends to the
    degenerate equal-exponent closed form as [alphaJ] tends to [alphaI]. *)
Theorem mutual_damping_symmetric_continuous :
  forall alphaI r, 0 < r ->
    (forall alphaJ,
        computeMutualFieldDampingFactors exp Ropp alphaI alphaJ r =
        computeMutualFieldDampingFactors exp Ropp alphaJ alphaI r) /\
    (forall eps, 0 < eps ->
      exists delta, 0 < delta /\
        forall alphaJ, alphaJ <> alphaI -> Rabs (alphaJ - alphaI) < delta ->
          Rabs (fst (computeMutualFieldDampingFactors exp Ropp alphaI alphaJ r)
                - fst (computeMutualFieldDampingFactors exp Ropp alphaI alphaI r)) < eps /\
          Rabs (snd (computeMutualFieldDampingFactors exp Ropp alphaI alphaJ r)
                - snd (computeMutualFieldDampingFactors exp Ropp alphaI alphaI r)) < eps).
Proof.
  intros alphaI r Hr. split.
  - intro alphaJ. apply mutual_damping_swap.
  - intros eps Heps.
    destruct (Req_dec_T alphaI 0) as [-> | Ha].
    + exists 1. split; [lra |].
      intros alphaJ Hne _.
      rewrite (mutual_damping_limit_zero alphaJ r Hne).
      rewrite !Rminus_diag, Rabs_R0. split; exact Heps.
    + apply mutual_damping_limit_nonzero; assumption.
Qed.

Lemma mutual_damping_symmetric_continuous_witness :
  (forall alphaJ,
      computeMutualFieldDampingFactors exp Ropp 2 alphaJ 1 =
      computeMutualFieldDampingFactors exp Ropp alphaJ 2 1) /\
  (forall eps, 0 < eps ->
    exists delta, 0 < delta /\
      forall alphaJ, alphaJ <> 2 -> Rabs (alphaJ - 2) < delta ->
        Rabs (fst (computeMutualFieldDampingFactors exp Ropp 2 alphaJ 1)
              - fst (computeMutualFieldDampingFactors exp Ropp 2 2 1)) < eps /\
        Rabs (snd (computeMutualFieldDampingFactors exp Ropp 2 alphaJ 1)
              - snd (computeMutualFieldDampingFactors exp Ropp 2 2 1)) < eps).
Proof.
  apply (mutual_damping_symmetric_continuous 2 1). lra.
Defined.

(** When the squares differ the two weights are a partial-fraction pair. *)
Lemma mutual_damping_weights alphaI alphaJ :
  alphaJ * alphaJ <> alphaI * alphaI ->
  alphaJ * alphaJ / (alphaJ * alphaJ - alphaI * alphaI)
  + alphaI * alphaI / (alphaI * alphaI - alphaJ * alphaJ) = 1.
Proof. intro H. field. split; lra. Qed.

(** ** Binary floating point

    In the device arithmetic each operation is rounded.  The exchange of
    the two atoms reorders the four subtractions of the general branch, and
    near [alphaI = alphaJ] the weights [A] and [B] of that branch grow like
    [1 / (aJ2 - aI2)] while the terms they multiply cancel. *)
Section Binary64.

Import PrimFloat.
Local Open Scope float_scope.

(** [EXP] in double precision at the three arguments used below: the
    binary64 numbers nearest to [e^-1], [e^-2] and [e^-(2 + 2^-22)]. *)
Definition EXP_binary64 (x : float) : float :=
  if x =? - 1 then 0x1.78b56362cef38p-2
  else if x =? - 2 then 0x1.152aaa3bf81ccp-3
  else if x =? - 0x1.000002p+1 then 0x1.152aa5e74d7c7p-3
  else nan.

(** C3, in binary64.  At [r = 1] the exchange of [alphaI = 1] and
    [alphaJ = 2] changes the last digit of [fdamp3]; and with [alphaI = 2]
    and [alphaJ = 2 + 2^-22] (the single-precision number next to 2) the
    general branch returns [(8192, 16384)], where the degenerate closed
    form at [alphaJ = 2] gives about [(0.1203, 0.0226)]. *)
Lemma mutual_damping_rounding_breaks_symmetry :
  fst (computeMutualFieldDampingFactors EXP_binary64 opp 1 2 1)
    = 0x1.54056b8064e54p-5 /\
  fst (computeMutualFieldDampingFactors EXP_binary64 opp 2 1 1)
    = 0x1.54056b8064e50p-5 /\
  (fst (computeMutualFieldDampingFactors EXP_binary64 opp 1 2 1) =?
   fst (computeMutualFieldDampingFactors EXP_binary64 opp 2 1 1)) = false /\
  computeMutualFieldDampingFactors EXP_binary64 opp 2 0x1.000002p+1 1
    = (8192, 16384) /\
  computeMutualFieldDampingFactors EXP_binary64 opp 2 2 1
    = (0x1.ecd55af4668a0p-4, 0x1.71ed22771d100p-6).
Proof. vm_compute. repeat split; reflexivity. Qed.

End Binary64.

End Damping.

(* ------------------------------------------------------------------ *)
(** * System multipole moments ([computeSystemMultipoleMoments]) *)

Module Moments.

Section Generic.

Context {T : Type} `{RealOps T}.
Local Open Scope ops_scope.

Local Notation "0" := (rofZ 0%Z) : ops_scope.
Local Notation "1" := (rofZ 1%Z) : ops_scope.
Local Notation "2" := (rofZ 2%Z) : ops_scope.
Local Notation "3" := (rofZ 3%Z) : ops_scope.

Definition zero3 : vec3 T := mkVec3 0 0 0.
Definition zero4 : vec4 T := mkVec4 0 0 0 0.

(** The mass-weighted centre: [velm[i].w] holds the inverse mass. *)
Record MassSum : Type := mkMassSum { totalMass : T; com0 : T; com1 : T; com2 : T }.

Definition centerOfMass (numAtoms : nat) (posq velm : list (vec4 T)) : MassSum :=
  let s :=
    fold_left
      (fun (a : MassSum) (i : nat) =>
         let mass := if rltb 0 (v4w (nth i velm zero4))
                     then 1 / v4w (nth i velm zero4) else 0 in
         mkMassSum (totalMass a + mass)
                   (com0 a + mass * v4x (nth i posq zero4))
                   (com1 a + mass * v4y (nth i posq zero4))
                   (com2 a + mass * v4z (nth i posq zero4)))
      (seq 0 numAtoms) (mkMassSum 0 0 0 0) in
  if rltb 0 (totalMass s)
  then mkMassSum (totalMass s) (com0 s / totalMass s) (com1 s / totalMass s)
                 (com2 s / totalMass s)
  else s.

Definition posqLocal (numAtoms : nat) (posq velm : list (vec4 T)) : list (vec4 T) :=
  let c := centerOfMass numAtoms posq velm in
  map (fun i => let p := nth i posq zero4 in
                mkVec4 (v4x p - com0 c) (v4y p - com1 c) (v4z p - com2 c) (v4w p))
      (seq 0 numAtoms).

(** The thirteen running sums of the function. *)
Record Sums : Type := mkSums {
  totalCharge : T; xdpl : T; ydpl : T; zdpl : T;
  xxqdp : T; xyqdp : T; xzqdp : T;
  yxqdp : T; yyqdp : T; yzqdp : T;
  zxqdp : T; zyqdp : T; zzqdp : T }.

(** Body of the first loop, for atom [i]. *)
Definition addAtom (local : list (vec4 T)) (labDipoleVec inducedDipoleVec : list (vec3 T))
    (s : Sums) (i : nat) : Sums :=
  let p := nth i local zero4 in
  let netDipoleX := v3x (nth i labDipoleVec zero3) + v3x (nth i inducedDipoleVec zero3) in
  let netDipoleY := v3y (nth i labDipoleVec zero3) + v3y (nth i inducedDipoleVec zero3) in
  let netDipoleZ := v3z (nth i labDipoleVec zero3) + v3z (nth i inducedDipoleVec zero3) in
  mkSums
    (totalCharge s + v4w p)
    (xdpl s + (v4x p * v4w p + netDipoleX))
    (ydpl s + (v4y p * v4w p + netDipoleY))
    (zdpl s + (v4z p * v4w p + netDipoleZ))
    (xxqdp s + (v4x p * v4x p * v4w p + 2 * v4x p * netDipoleX))
    (xyqdp s + (v4x p * v4y p * v4w p + v4x p * netDipoleY + v4y p * netDipoleX))
    (xzqdp s + (v4x p * v4z p * v4w p + v4x p * netDipoleZ + v4z p * netDipoleX))
    (yxqdp s + (v4y p * v4x p * v4w p + v4y p * netDipoleX + v4x p * netDipoleY))
    (yyqdp s + (v4y p * v4y p * v4w p + 2 * v4y p * netDipoleY))
    (yzqdp s + (v4y p * v4z p * v4w p + v4y p * netDipoleZ + v4z p * netDipoleY))
    (zxqdp s + (v4z p * v4x p * v4w p + v4z p * netDipoleX + v4x p * netDipoleZ))
    (zyqdp s + (v4z p * v4y p * v4w p + v4z p * netDipoleY + v4y p * netDipoleZ))
    (zzqdp s + (v4z p * v4z p * v4w p + 2 * v4z p * netDipoleZ)).

(** "Convert the quadrupole from traced to traceless form." *)
Definition toTraceless (s : Sums) : Sums :=
  let qave := (xxqdp s + yyqdp s + zzqdp s) / 3 in
  mkSums (totalCharge s) (xdpl s) (ydpl s) (zdpl s)
    (dec 15 10 * (xxqdp s - qave)) (dec 15 10 * xyqdp s) (dec 15 10 * xzqdp s)
    (dec 15 10 * yxqdp s) (dec 15 10 * (yyqdp s - qave)) (dec 15 10 * yzqdp s)
    (dec 15 10 * zxqdp s) (dec 15 10 * zyqdp s) (dec 15 10 * (zzqdp s - qave)).

(** Body of the second loop: the atomic quadrupole of atom [i], stored as
    the five values [xx, xy, xz, yy, yz] at [5*i .. 5*i+4]. *)
Definition addQuadrupole (quadrupoleVec : list T) (s : Sums) (i : nat) : Sums :=
  let q := fun k => nth (5 * i + k) quadrupoleVec 0 in
  mkSums (totalCharge s) (xdpl s) (ydpl s) (zdpl s)
    (xxqdp s + 3 * q 0%nat) (xyqdp s + 3 * q 1%nat) (xzqdp s + 3 * q 2%nat)
    (yxqdp s + 3 * q 1%nat) (yyqdp s + 3 * q 3%nat) (yzqdp s + 3 * q 4%nat)
    (zxqdp s + 3 * q 2%nat) (zyqdp s + 3 * q 4%nat)
    (zzqdp s + rofZ (-3) * (q 0%nat + q 3%nat)).

Definition debye : T := dec 480321 100000.

Definition outputMoments (s : Sums) : list T :=
  [ totalCharge s;
    rofZ 10 * xdpl s * debye; rofZ 10 * ydpl s * debye; rofZ 10 * zdpl s * debye;
    rofZ 100 * xxqdp s * debye; rofZ 100 * xyqdp s * debye; rofZ 100 * xzqdp s * debye;
    rofZ 100 * yxqdp s * debye; rofZ 100 * yyqdp s * debye; rofZ 100 * yzqdp s * debye;
    rofZ 100 * zxqdp s * debye; rofZ 100 * zyqdp s * debye; rofZ 100 * zzqdp s * debye ].

Definition zeroSums : Sums := mkSums 0 0 0 0 0 0 0 0 0 0 0 0 0.

Definition computeSystemMultipoleMoments (numAtoms : nat) (posq velm : list (vec4 T))
    (labDipoleVec inducedDipoleVec : list (vec3 T)) (quadrupoleVec : list T) : list T :=
  let local := posqLocal numAtoms posq velm in
  let s1 := fold_left (addAtom local labDipoleVec inducedDipoleVec)
                      (seq 0 numAtoms) zeroSums in
  let s2 := toTraceless s1 in
  let s3 := fold_left (addQuadrupole quadrupoleVec) (seq 0 numAtoms) s2 in
  outputMoments s3.

End Generic.

(** ** Exact arithmetic *)

Section Exact.

Local Open Scope R_scope.

Definition symmetricBlock (s : Sums (T := R)) : Prop :=
  xyqdp s = yxqdp s /\ xzqdp s = zxqdp s /\ yzqdp s = zyqdp s.

Definition tracelessBlock (s : Sums (T := R)) : Prop :=
  xxqdp s + yyqdp s + zzqdp s = 0.

Lemma addAtom_symmetric local lab ind s i :
  symmetricBlock s -> symmetricBlock (addAtom local lab ind s i).
Proof.
  intros (Hxy & Hxz & Hyz). unfold symmetricBlock, addAtom. cbn.
  rewrite Hxy, Hxz, Hyz. repeat split; ring.
Qed.

Lemma toTraceless_symmetric s :
  symmetricBlock s -> symmetricBlock (toTraceless s).
Proof.
  intros (Hxy & Hxz & Hyz). unfold symmetricBlock, toTraceless. cbn.
  rewrite Hxy, Hxz, Hyz. repeat split; reflexivity.
Qed.

Lemma toTraceless_traceless s : tracelessBlock (toTraceless s).
Proof. unfold tracelessBlock, toTraceless, dec. cbn. field. Qed.

Lemma addQuadrupole_invariant quad s i :
  symmetricBlock s /\ tracelessBlock s ->
  symmetricBlock (addQuadrupole quad s i) /\ tracelessBlock (addQuadrupole quad s i).
Proof.
  intros [(Hxy & Hxz & Hyz) Htr].
  unfold symmetricBlock, tracelessBlock, addQuadrupole in *. cbn in *.
  rewrite Hxy, Hxz, Hyz. repeat split; try reflexivity.
  match goal with |- ?a + ?qa + (?b + ?qb) + (?c + ?qc) = 0 =>
    replace (a + qa + (b + qb) + (c + qc)) with (a + b + c + (qa + qb + qc)) by ring
  end.
  rewrite Htr. ring.
Qed.

(** C10 (as amended).  In exact arithmetic the quadrupole block of the
    thirteen system moments is symmetric (elements 5 and 7, 6 and 10, 9 and
    11 agree) and its trace (elements 4, 8 and 12) is zero, for every
    input. *)
Theorem system_moments_symmetric_traceless_exact :
  forall (numAtoms : nat) (posq velm : list (vec4 R))
         (labDipoleVec inducedDipoleVec : list (vec3 R)) (quadrupoleVec : list R),
    let m := computeSystemMultipoleMoments numAtoms posq velm
               labDipoleVec inducedDipoleVec quadrupoleVec in
    length m = 13%nat /\
    nth 5 m 0 = nth 7 m 0 /\ nth 6 m 0 = nth 10 m 0 /\ nth 9 m 0 = nth 11 m 0 /\
    nth 4 m 0 + nth 8 m 0 + nth 12 m 0 = 0.
Proof.
  intros numAtoms posq velm lab ind quad m.
  unfold computeSystemMultipoleMoments in m.
  set (local := posqLocal numAtoms posq velm) in m.
  set (s1 := fold_left (addAtom local lab ind) (seq 0 numAtoms) zeroSums) in m.
  set (s3 := fold_left (addQuadrupole quad) (seq 0 numAtoms) (toTraceless s1)) in m.
  assert (H1 : symmetricBlock s1).
  { unfold s1. apply fold_left_invariant.
    - intros a b. apply addAtom_symmetric.
    - repeat split; reflexivity. }
  assert (H3 : symmetricBlock s3 /\ tracelessBlock s3).
  { unfold s3. apply (fold_left_invariant (fun s => symmetricBlock s /\ tracelessBlock s)).
    - intros a b. apply addQuadrupole_invariant.
    - split; [apply toTraceless_symmetric, H1 | apply toTraceless_traceless]. }
  destruct H3 as [(Hxy & Hxz & Hyz) Htr]. unfold tracelessBlock in Htr.
  subst m. unfold outputMoments. cbn [nth length].
  split; [reflexivity |]. cbn [rmul RealOps_R rofZ].
  rewrite Hxy, Hxz, Hyz. repeat split; try reflexivity.
  replace (100 * xxqdp s3 * debye + 100 * yyqdp s3 * debye + 100 * zzqdp s3 * debye)
    with (100 * debye * (xxqdp s3 + yyqdp s3 + zzqdp s3)) by ring.
  rewrite Htr. ring.
Qed.

End Exact.

(** ** binary64, as the double-precision build computes

    Two atoms of unit mass at [(0.1, 0.1, 0)] and [(-0.1, -0.1, 0)] (the
    centre of mass is the origin); the first carries the charge [0.5] and
    the net dipole [(-0.1, 0.3, 0)], the second nothing; no atomic
    quadrupoles. *)

Definition f (num den : Z) : float := dec num den.

Definition sample_posq : list (vec4 float) :=
  [ mkVec4 (f 1 10) (f 1 10) (f 0 1) (f 5 10);
    mkVec4 (f (-1) 10) (f (-1) 10) (f 0 1) (f 0 1) ].
Definition sample_velm : list (vec4 float) :=
  [ mkVec4 (f 0 1) (f 0 1) (f 0 1) (f 1 1); mkVec4 (f 0 1) (f 0 1) (f 0 1) (f 1 1) ].
Definition sample_labDipoles : list (vec3 float) :=
  [ mkVec3 (f (-1) 10) (f 3 10) (f 0 1); mkVec3 (f 0 1) (f 0 1) (f 0 1) ].
Definition sample_inducedDipoles : list (vec3 float) :=
  [ mkVec3 (f 0 1) (f 0 1) (f 0 1); mkVec3 (f 0 1) (f 0 1) (f 0 1) ].
Definition sample_quadrupoles : list float := repeat (f 0 1) 10.

Definition sample_moments : list float :=
  computeSystemMultipoleMoments 2 sample_posq sample_velm
    sample_labDipoles sample_inducedDipoles sample_quadrupoles.

(** C10, counterexample.  In binary64 the xy and yx elements of the
    sample differ: the two dipole cross terms are added in opposite
    orders ([x*dY + y*dX] against [y*dX + x*dY] after the charge term). *)
Lemma system_moments_asymmetric_binary64 :
  PrimFloat.eqb (nth 5 sample_moments (f 0 1)) (nth 7 sample_moments (f 0 1)) = false.
Proof. vm_compute. reflexivity. Qed.

End Moments.

(* ------------------------------------------------------------------ *)
(** * PME B-spline moduli ([initialize], "Initialize the B-spline moduli") *)

(** [v[i] = x] on a [std::vector]; an index outside the vector (undefined
    behaviour in the source) leaves the list unchanged. *)
Fixpoint upd {A : Type} (l : list A) (i : nat) (x : A) : list A :=
  match l, i with
  | [], _ => []
  | _ :: t, O => x :: t
  | a :: t, S i' => a :: upd t i' x
  end.

Lemma upd_length {A : Type} (l : list A) i x : length (upd l i x) = length l.
Proof.
  revert i. induction l as [| a l IH]; intros [| i]; simpl; try reflexivity.
  now rewrite IH.
Qed.

Lemma nth_upd_same {A : Type} (l : list A) i x d :
  (i < length l)%nat -> nth i (upd l i x) d = x.
Proof.
  revert i. induction l as [| a l IH]; intros [| i] Hi; simpl in *; try lia.
  - reflexivity.
  - apply IH. lia.
Qed.

Lemma nth_upd_other {A : Type} (l : list A) i j x d :
  i <> j -> nth j (upd l i x) d = nth j l d.
Proof.
  revert i j. induction l as [| a l IH]; intros [| i] [| j] Hij; simpl;
    try reflexivity; try congruence.
  apply IH. congruence.
Qed.

Module Moduli.

(** Modelled from the spec: the declaration of the constant [PmeOrder]
    (in the header of the kernel class) is not under [src/]; the
    specification gives the spline order as 5. *)
Definition PmeOrder : nat := 5.

(** [int jcut = 50]. *)
Definition jcut : nat := 50.

Section Generic.

Context {T : Type} `{RealOps T}.
(** [cos], [sin], [pow(double, int)] and [M_PI] of [<cmath>]. *)
Variables (rcos rsin : T -> T) (rpow : T -> nat -> T) (rpi : T).
Local Open Scope ops_scope.

Local Notation "0" := (rofZ 0%Z) : ops_scope.
Local Notation "1" := (rofZ 1%Z) : ops_scope.
Local Notation "2" := (rofZ 2%Z) : ops_scope.
Local Notation "'#' n" := (rofZ (Z.of_nat n)) (at level 9, n at level 9) : ops_scope.

(** [double data[PmeOrder]] at [x = 0.0]. *)
Definition splineData : list T :=
  let x := 0 in
  let data := upd (upd (repeat 0 PmeOrder) 0 (1 - x)) 1 x in
  fold_left
    (fun data i =>
       let denom := 1 / # i in
       let data := upd data i (x * nth (i - 1) data 0 * denom) in
       let data :=
         fold_left
           (fun data j =>
              upd data (i - j)
                  (((x + # j) * nth (i - j - 1) data 0
                    + (# (i - j + 1) - x) * nth (i - j) data 0) * denom))
           (seq 1 (i - 1)) data in
       upd data 0 ((1 - x) * nth 0 data 0 * denom))
    (seq 2 (PmeOrder - 2)) data.

(** [vector<double> bsplines_data(maxSize+1, 0.0)] filled at [2 .. PmeOrder+1]. *)
Definition bsplines_data (maxSize : nat) : list T :=
  fold_left (fun b i => upd b i (nth (i - 2) splineData 0))
            (seq 2 PmeOrder) (repeat 0 (maxSize + 1)).

(** "get the modulus of the discrete Fourier transform" *)
Definition dftModulus (bs : list T) (ndata i : nat) : T :=
  let factor := 2 * rpi / # ndata in
  let acc :=
    fold_left
      (fun (a : T * T) j =>
         let arg := factor * # i * # (j - 1) in
         (fst a + nth j bs 0 * rcos arg, snd a + nth j bs 0 * rsin arg))
      (seq 1 ndata) (0, 0) in
  fst acc * fst acc + snd acc * snd acc.

Definition dftModuli (bs : list T) (ndata : nat) : list T :=
  map (dftModulus bs ndata) (seq 0 ndata).

(** "Fix for exponential Euler spline interpolation failure." *)
Definition eps : T := dec 1 10000000.

Definition fixInterior (moduli : list T) (i : nat) : list T :=
  if rltb (nth i moduli 0) eps
  then upd moduli i (dec 9 10 * (nth (i - 1) moduli 0 + nth (i + 1) moduli 0))
  else moduli.

Definition floorCorrect (ndata : nat) (moduli : list T) : list T :=
  let moduli :=
    if rltb (nth 0 moduli 0) eps
    then upd moduli 0 (dec 9 10 * nth 1 moduli 0) else moduli in
  let moduli := fold_left fixInterior (seq 1 (ndata - 2)) moduli in
  if rltb (nth (ndata - 1) moduli 0) eps
  then upd moduli (ndata - 1) (dec 9 10 * nth (ndata - 2) moduli 0) else moduli.

(** "Compute and apply the optimal zeta coefficient."  [i] runs from [1]
    to [ndata] as in the source; [k] is the signed frequency. *)
Definition frequency (ndata i : nat) : Z :=
  let k := (Z.of_nat i - 1)%Z in
  if (ndata / 2 <? i)%nat then (k - Z.of_nat ndata)%Z else k.

Definition zetaSums (ndata : nat) (k : Z) : T * T :=
  let factor := rpi * rofZ k / # ndata in
  let s :=
    fold_left
      (fun (s : T * T) j =>
         let arg := factor / (factor + rpi * # j) in
         (fst s + rpow arg PmeOrder, snd s + rpow arg (2 * PmeOrder)))
      (seq 1 jcut) (1, 1) in
  fold_left
    (fun (s : T * T) j =>
       let arg := factor / (factor - rpi * # j) in
       (fst s + rpow arg PmeOrder, snd s + rpow arg (2 * PmeOrder)))
    (seq 1 jcut) s.

Definition zeta (ndata i : nat) : T :=
  let k := frequency ndata i in
  if (k =? 0)%Z then 1
  else let s := zetaSums ndata k in snd s / fst s.

Definition applyZetaAt (ndata : nat) (moduli : list T) (i : nat) : list T :=
  upd moduli (i - 1) (nth (i - 1) moduli 0 * zeta ndata i * zeta ndata i).

Definition applyZeta (ndata : nat) (moduli : list T) : list T :=
  fold_left (applyZetaAt ndata) (seq 1 ndata) moduli.

(** The moduli of one grid axis, as uploaded in double precision. *)
Definition bsplineModuli (maxSize ndata : nat) : list T :=
  applyZeta ndata (floorCorrect ndata (dftModuli (bsplines_data maxSize) ndata)).

(** *** The interior loop of the floor correction *)

Lemma fixInterior_length moduli i : length (fixInterior moduli i) = length moduli.
Proof.
  unfold fixInterior. destruct (rltb _ _); [apply upd_length | reflexivity].
Qed.

Lemma fixInterior_loop (moduli : list T) (n : nat) :
  (n + 1 < length moduli)%nat ->
  let m' := fold_left fixInterior (seq 1 n) moduli in
  length m' = length moduli /\
  (forall p, p = 0%nat \/ (n < p)%nat -> nth p m' 0 = nth p moduli 0) /\
  (forall p, (1 <= p <= n)%nat ->
     nth p m' 0 =
       if rltb (nth p moduli 0) eps
       then dec 9 10 * (nth (p - 1) m' 0 + nth (p + 1) moduli 0)
       else nth p moduli 0).
Proof.
  induction n as [| n IH]; intro Hn; cbn zeta.
  - simpl. split; [reflexivity |]. split; [reflexivity |]. intros p Hp. lia.
  - rewrite seq_S, fold_left_app. simpl fold_left.
    destruct IH as (Hlen & Hout & Hin); [lia |].
    set (m' := fold_left fixInterior (seq 1 n) moduli) in *.
    replace (1 + n)%nat with (S n) by lia.
    assert (Hcur : nth (S n) m' 0 = nth (S n) moduli 0) by (apply Hout; lia).
    assert (Hnext : nth (S n + 1) m' 0 = nth (S n + 1) moduli 0) by (apply Hout; lia).
    split; [now rewrite fixInterior_length |].
    unfold fixInterior. rewrite Hcur.
    destruct (rltb (nth (S n) moduli 0) eps) eqn:Hlt.
    + split.
      * intros p Hp. rewrite nth_upd_other by lia. apply Hout. lia.
      * intros p Hp. destruct (Nat.eq_dec p (S n)) as [-> | Hne].
        -- rewrite nth_upd_same by lia. rewrite Hlt.
           rewrite nth_upd_other by lia. rewrite Hnext.
           replace (S n - 1)%nat with n by lia. reflexivity.
        -- rewrite !nth_upd_other by lia. apply Hin. lia.
    + split.
      * intros p Hp. apply Hout. lia.
      * intros p Hp. destruct (Nat.eq_dec p (S n)) as [-> | Hne].
        -- rewrite Hlt. exact Hcur.
        -- apply Hin. lia.
Qed.

(** The floor correction, index by index.  The left neighbour is read
    after its own correction, the right neighbour before. *)
Lemma floorCorrect_spec (ndata : nat) (raw : list T) :
  (2 <= ndata)%nat -> length raw = ndata ->
  let fixed := floorCorrect ndata raw in
  length fixed = ndata /\
  nth 0 fixed 0 =
    (if rltb (nth 0 raw 0) eps then dec 9 10 * nth 1 raw 0 else nth 0 raw 0) /\
  (forall i, (1 <= i <= ndata - 2)%nat ->
     nth i fixed 0 =
       if rltb (nth i raw 0) eps
       then dec 9 10 * (nth (i - 1) fixed 0 + nth (i + 1) raw 0)
       else nth i raw 0) /\
  nth (ndata - 1) fixed 0 =
    (if rltb (nth (ndata - 1) raw 0) eps
     then dec 9 10 * nth (ndata - 2) fixed 0 else nth (ndata - 1) raw 0).
Proof.
  intros Hn Hlen. unfold floorCorrect.
  set (m0 := if rltb (nth 0 raw 0) eps
             then upd raw 0 (dec 9 10 * nth 1 raw 0) else raw).
  assert (Hlen0 : length m0 = ndata).
  { unfold m0. destruct (rltb _ _); [rewrite upd_length |]; exact Hlen. }
  assert (H0 : nth 0 m0 0 =
               if rltb (nth 0 raw 0) eps then dec 9 10 * nth 1 raw 0 else nth 0 raw 0).
  { unfold m0. destruct (rltb _ _); [apply nth_upd_same; lia | reflexivity]. }
  assert (Hrest : forall p, (1 <= p)%nat -> nth p m0 0 = nth p raw 0).
  { intros p Hp. unfold m0. destruct (rltb _ _); [apply nth_upd_other; lia | reflexivity]. }
  destruct (fixInterior_loop m0 (ndata - 2)) as (Hlen1 & Hout & Hin); [lia |].
  set (m1 := fold_left fixInterior (seq 1 (ndata - 2)) m0) in *.
  assert (Hlast : nth (ndata - 1) m1 0 = nth (ndata - 1) raw 0).
  { rewrite Hout by lia. apply Hrest. lia. }
  assert (Hin' : forall i, (1 <= i <= ndata - 2)%nat ->
            nth i m1 0 =
              if rltb (nth i raw 0) eps
              then dec 9 10 * (nth (i - 1) m1 0 + nth (i + 1) raw 0)
              else nth i raw 0).
  { intros i Hi. rewrite (Hin i Hi), !Hrest by lia. reflexivity. }
  cbn zeta. rewrite Hlast.
  destruct (rltb (nth (ndata - 1) raw 0) eps) eqn:Hlt.
  - split; [rewrite upd_length; lia |].
    split; [rewrite nth_upd_other by lia; rewrite Hout by lia; exact H0 |].
    split.
    + intros i Hi. rewrite !nth_upd_other by lia. apply Hin', Hi.
    + rewrite nth_upd_same by lia. rewrite nth_upd_other by lia. reflexivity.
  - split; [lia |].
    split; [rewrite Hout by lia; exact H0 |].
    split; [exact Hin' | exact Hlast].
Qed.

(** *** The zeta loop *)

Lemma applyZeta_loop (ndata : nat) (moduli : list T) (n : nat) :
  (n <= length moduli)%nat ->
  let m' := fold_left (applyZetaAt ndata) (seq 1 n) moduli in
  length m' = length moduli /\
  forall p, nth p m' 0 =
    if (p <? n)%nat
    then nth p moduli 0 * zeta ndata (p + 1) * zeta ndata (p + 1)
    else nth p moduli 0.
Proof.
  induction n as [| n IH]; intro Hn; cbn zeta.
  - simpl. split; reflexivity.
  - rewrite seq_S, fold_left_app. simpl fold_left.
    destruct IH as (Hlen & Hnth); [lia |].
    set (m' := fold_left (applyZetaAt ndata) (seq 1 n) moduli) in *.
    unfold applyZetaAt. replace (S n - 1)%nat with n by lia.
    split; [now rewrite upd_length |].
    intro p. destruct (Nat.eq_dec p n) as [-> | Hne].
    + rewrite nth_upd_same by lia. rewrite Hnth, Nat.ltb_irrefl.
      replace (n <? S n)%nat with true by (symmetry; apply Nat.ltb_lt; lia).
      replace (n + 1)%nat with (S n) by lia. reflexivity.
    + rewrite nth_upd_other by lia. rewrite Hnth.
      destruct (Nat.ltb_spec p n), (Nat.ltb_spec p (S n)); try lia; reflexivity.
Qed.

Lemma applyZeta_spec (ndata : nat) (moduli : list T) :
  length moduli = ndata ->
  length (applyZeta ndata moduli) = ndata /\
  forall i, (i < ndata)%nat ->
    nth i (applyZeta ndata moduli) 0 =
      nth i moduli 0 * zeta ndata (i + 1) * zeta ndata (i + 1).
Proof.
  intro Hlen. destruct (applyZeta_loop ndata moduli ndata) as (Hl & Hnth); [lia |].
  split; [unfold applyZeta; lia |].
  intros i Hi. unfold applyZeta. rewrite Hnth.
  replace (i <? ndata)%nat with true by (symmetry; apply Nat.ltb_lt; lia).
  reflexivity.
Qed.

Lemma dftModuli_length bs ndata : length (dftModuli bs ndata) = ndata.
Proof. unfold dftModuli. now rewrite length_map, length_seq. Qed.

End Generic.

(** ** Exact arithmetic: the correction as the specification words it *)

Section Exact.

Local Open Scope R_scope.

(** (1) Every modulus below [1e-7] is replaced: index 0 by
    [0.9 * moduli[1]], an interior index by
    [0.9 * (moduli[i-1] + moduli[i+1])], the last index by
    [0.9 * moduli[ndata-2]]; the others are kept.  The array is corrected
    in place from index 0 upwards, so [moduli[i-1]] is the value after the
    correction of index [i-1] and [moduli[i+1]] the value before that of
    index [i+1]. *)
Definition FloorCorrected (ndata : nat) (raw fixed : list R) : Prop :=
  let below := fun i => nth i raw 0 < 1 / 10000000 in
  (below 0%nat -> nth 0 fixed 0 = 9 / 10 * nth 1 raw 0) /\
  (~ below 0%nat -> nth 0 fixed 0 = nth 0 raw 0) /\
  (forall i, (1 <= i <= ndata - 2)%nat ->
     (below i -> nth i fixed 0 = 9 / 10 * (nth (i - 1) fixed 0 + nth (i + 1) raw 0)) /\
     (~ below i -> nth i fixed 0 = nth i raw 0)) /\
  (below (ndata - 1)%nat ->
     nth (ndata - 1) fixed 0 = 9 / 10 * nth (ndata - 2) fixed 0) /\
  (~ below (ndata - 1)%nat -> nth (ndata - 1) fixed 0 = nth (ndata - 1) raw 0).

(** (2) [zeta] at the signed frequency [k]: [1] at [k = 0], otherwise
    [sum2 / sum1] with fifty terms on each side. *)
Definition zetaSeries (ndata : nat) (k : Z) : R :=
  if (k =? 0)%Z then 1
  else
    let f := PI * IZR k / IZR (Z.of_nat ndata) in
    let up := fun j => f / (f + PI * IZR (Z.of_nat j)) in
    let down := fun j => f / (f - PI * IZR (Z.of_nat j)) in
    let sum1 := 1 + sum_f 1 50 (fun j => up j ^ 5) + sum_f 1 50 (fun j => down j ^ 5) in
    let sum2 := 1 + sum_f 1 50 (fun j => up j ^ 10) + sum_f 1 50 (fun j => down j ^ 10) in
    sum2 / sum1.

(** Index [i] holds the frequency [i] in the lower half of the axis and
    [i - ndata] in the upper half. *)
Definition signedFrequency (ndata i : nat) : Z :=
  if (i + 1 <=? ndata / 2)%nat then Z.of_nat i else (Z.of_nat i - Z.of_nat ndata)%Z.

Definition ZetaApplied (ndata : nat) (fixed final : list R) : Prop :=
  signedFrequency ndata 0 = 0%Z /\
  (forall i, (1 <= i < ndata)%nat -> signedFrequency ndata i <> 0%Z) /\
  forall i, (i < ndata)%nat ->
    nth i final 0 =
      nth i fixed 0 * zetaSeries ndata (signedFrequency ndata i) ^ 2.

Lemma fold_pair_sum (g h : nat -> R) (n : nat) (a b : R) :
  fold_left (fun (s : R * R) j => (fst s + g j, snd s + h j)) (seq 1 (S n)) (a, b)
  = (a + sum_f 1 (S n) g, b + sum_f 1 (S n) h).
Proof.
  induction n as [| n IH].
  - simpl. unfold sum_f. simpl. reflexivity.
  - rewrite seq_S, fold_left_app, IH. simpl fold_left. cbn [fst snd].
    unfold sum_f. replace (S (S n) - 1)%nat with (S (S n - 1)) by lia.
    rewrite !tech5. replace (S (S n - 1) + 1)%nat with (1 + S n)%nat by lia.
    change (1 + S n)%nat with (S (S n)). f_equal; ring.
Qed.

Lemma zetaSums_series (ndata : nat) (k : Z) :
  let f := PI * IZR k / IZR (Z.of_nat ndata) in
  let up := fun j => f / (f + PI * IZR (Z.of_nat j)) in
  let down := fun j => f / (f - PI * IZR (Z.of_nat j)) in
  zetaSums pow PI ndata k =
    (1 + sum_f 1 50 (fun j => up j ^ 5) + sum_f 1 50 (fun j => down j ^ 5),
     1 + sum_f 1 50 (fun j => up j ^ 10) + sum_f 1 50 (fun j => down j ^ 10)).
Proof.
  intros f up down. unfold zetaSums, jcut, PmeOrder.
  change (2 * 5)%nat with 10%nat.
  change (rofZ 1) with 1.
  rewrite (fold_pair_sum (fun j => up j ^ 5) (fun j => up j ^ 10) 49).
  rewrite (fold_pair_sum (fun j => down j ^ 5) (fun j => down j ^ 10) 49).
  reflexivity.
Qed.

Lemma frequency_signed (ndata i : nat) :
  frequency ndata (i + 1) = signedFrequency ndata i.
Proof.
  unfold frequency, signedFrequency.
  destruct (Nat.ltb_spec (ndata / 2) (i + 1)), (Nat.leb_spec (i + 1) (ndata / 2));
    lia.
Qed.

Lemma zeta_series (ndata i : nat) :
  zeta pow PI ndata (i + 1) = zetaSeries ndata (signedFrequency ndata i).
Proof.
  unfold zeta, zetaSeries. rewrite frequency_signed.
  destruct (signedFrequency ndata i =? 0)%Z; [reflexivity |].
  cbv zeta. rewrite zetaSums_series. reflexivity.
Qed.

(** The uncorrected modulus is the squared magnitude of the discrete
    Fourier transform of the spline values. *)
Definition DftSquaredMagnitude (bs : list R) (ndata : nat) (raw : list R) : Prop :=
  forall i, (i < ndata)%nat ->
    let theta := fun j => 2 * PI / IZR (Z.of_nat ndata) * IZR (Z.of_nat i)
                          * IZR (Z.of_nat (j - 1)) in
    nth i raw 0 =
      (sum_f 1 ndata (fun j => nth j bs 0 * cos (theta j))) ^ 2
      + (sum_f 1 ndata (fun j => nth j bs 0 * sin (theta j))) ^ 2.

Lemma splineData_values :
  splineData (T := R) = [1 / 24; 11 / 24; 11 / 24; 1 / 24; 0].
Proof.
  unfold splineData, PmeOrder. cbn -[IZR Rdiv Rmult Rplus Rminus].
  unfold dec. cbn -[IZR Rdiv Rmult Rplus Rminus].
  repeat (apply f_equal2; [field |]). reflexivity.
Qed.

Lemma dftModuli_spec (bs : list R) (ndata : nat) :
  DftSquaredMagnitude bs ndata (dftModuli cos sin PI bs ndata).
Proof.
  intros i Hi theta. unfold dftModuli.
  rewrite (nth_indep _ 0 (dftModulus cos sin PI bs ndata 0%nat))
    by (rewrite length_map, length_seq; exact Hi).
  rewrite (map_nth (dftModulus cos sin PI bs ndata)), seq_nth by exact Hi.
  unfold dftModulus. cbv zeta.
  destruct ndata as [| n]; [lia |].
  change (rofZ 0) with 0.
  simpl (0 + i)%nat. cbn [radd rsub rmul rdiv rofZ RealOps_R].
  match goal with
  | |- context [fold_left ?F (seq 1 (S n)) (0, 0)] =>
      replace (fold_left F (seq 1 (S n)) (0, 0))
        with (0 + sum_f 1 (S n) (fun j => nth j bs 0 * cos (theta j)),
              0 + sum_f 1 (S n) (fun j => nth j bs 0 * sin (theta j)))
        by (symmetry;
            apply (fold_pair_sum (fun j => nth j bs 0 * cos (theta j))
                                 (fun j => nth j bs 0 * sin (theta j))))
  end.
  cbn [fst snd]. ring.
Qed.

(** C7.  For a grid axis of [ndata >= 2] points: the moduli are first the
    squared magnitudes of the transform of the order-5 spline; every one
    below [1e-7] is then floor-corrected as [FloorCorrected] says; and
    every modulus is finally multiplied by the square of [zeta], which is
    [1] at the zero frequency and [sum2 / sum1] of the fifty-term series
    elsewhere. *)
Theorem bspline_moduli_floor_and_zeta :
  forall maxSize ndata : nat, (2 <= ndata)%nat ->
    let raw := dftModuli cos sin PI (bsplines_data maxSize) ndata in
    let fixed := floorCorrect ndata raw in
    let final := bsplineModuli cos sin pow PI maxSize ndata in
    length final = ndata /\
    DftSquaredMagnitude (bsplines_data maxSize) ndata raw /\
    FloorCorrected ndata raw fixed /\
    ZetaApplied ndata fixed final.
Proof.
  intros maxSize ndata Hn raw fixed final.
  assert (Hraw : length raw = ndata) by apply dftModuli_length.
  destruct (floorCorrect_spec ndata raw Hn Hraw) as (Hlen & H0 & Hmid & Hlast).
  fold fixed in Hlen, H0, Hmid, Hlast.
  destruct (applyZeta_spec pow PI ndata fixed Hlen) as (Hlenz & Hz).
  split; [exact Hlenz |].
  split; [apply dftModuli_spec |].
  split.
  - unfold FloorCorrected. cbv zeta.
    change (1 / 10000000) with (eps (T := R)).
    change (9 / 10) with (dec (T := R) 9 10).
    cbn [rltb RealOps_R] in H0, Hmid, Hlast.
    change (rofZ 0) with 0 in H0, Hmid, Hlast.
    repeat split.
    + intro Hb. rewrite H0.
      destruct (Rlt_dec (nth 0 raw 0) eps); [reflexivity | contradiction].
    + intro Hb. rewrite H0.
      destruct (Rlt_dec (nth 0 raw 0) eps); [contradiction | reflexivity].
    + intro Hb. rewrite (Hmid i) by assumption.
      destruct (Rlt_dec (nth i raw 0) eps); [reflexivity | contradiction].
    + intro Hb. rewrite (Hmid i) by assumption.
      destruct (Rlt_dec (nth i raw 0) eps); [contradiction | reflexivity].
    + intro Hb. rewrite Hlast.
      destruct (Rlt_dec (nth (ndata - 1) raw 0) eps); [reflexivity | contradiction].
    + intro Hb. rewrite Hlast.
      destruct (Rlt_dec (nth (ndata - 1) raw 0) eps); [contradiction | reflexivity].
  - unfold ZetaApplied. repeat split.
    + unfold signedFrequency. simpl (0 + 1)%nat.
      assert (1 <= ndata / 2)%nat by (apply Nat.div_le_lower_bound; lia).
      destruct (Nat.leb_spec 1 (ndata / 2)); [reflexivity | lia].
    + intros i Hi. unfold signedFrequency.
      destruct (Nat.leb_spec (i + 1) (ndata / 2)); lia.
    + intros i Hi.
      change (nth i final 0) with (nth i (applyZeta pow PI ndata fixed) (rofZ 0)).
      rewrite (Hz i Hi), zeta_series. change (rofZ 0) with 0.
      cbn [rmul RealOps_R]. ring.
Qed.

Lemma bspline_moduli_floor_and_zeta_witness :
  let raw := dftModuli cos sin PI (bsplines_data 8) 6 in
  let fixed := floorCorrect 6 raw in
  let final := bsplineModuli cos sin pow PI 8 6 in
  (2 <= 6)%nat /\
  length final = 6%nat /\
  DftSquaredMagnitude (bsplines_data 8) 6 raw /\
  FloorCorrected 6 raw fixed /\
  ZetaApplied 6 fixed final.
Proof.
  split; [lia | apply (bspline_moduli_floor_and_zeta 8 6); lia].
Defined.

End Exact.

End Moduli.

(* ------------------------------------------------------------------ *)
(** * Fixed-point accumulation of the field ([computeField], "Write results") *)

Module FixedPoint.

Local Open Scope Z_scope.

(** [(long long) v] of a floating-point value: truncation toward zero.
    The conversion of a NaN, an infinity or a value outside the range of
    [long long] is undefined in the source language: [None]. *)
Definition real_to_longlong (v : float) : option Z :=
  match FloatOps.Prim2SF v with
  | SpecFloat.S754_zero _ => Some 0
  | SpecFloat.S754_finite sign m e =>
      let magnitude := if 0 <=? e then Z.pos m * 2 ^ e else Z.pos m / 2 ^ (- e) in
      let n := if sign then - magnitude else magnitude in
      if (- 2 ^ 63 <=? n) && (n <? 2 ^ 63) then Some n else None
  | _ => None
  end.

(** [static_cast<unsigned long long>(n)]. *)
Definition to_ull (n : Z) : Z := n mod 2 ^ 64.

(** [static_cast<unsigned long long>((long long) (v*0x100000000))]. *)
Definition fixedPoint (v : float) : option Z :=
  option_map to_ull (real_to_longlong (v * float_of_Z 4294967296)%float).

(** [atomicAdd(&fieldBuffers[address], value)] on [unsigned long long]. *)
Definition atomicAdd (fieldBuffers : list Z) (address : nat) (value : Z) : list Z :=
  upd fieldBuffers address ((nth address fieldBuffers 0 + value) mod 2 ^ 64).

(** What one thread has at the end of a tile: the field of its own atom
    at [offset1] and, when the second block of additions runs ([x != y] in
    the exclusion loop, [atom2 < PADDED_NUM_ATOMS] in the second loop), the
    field it holds for the atom at [offset2]. *)
Record ThreadResult : Type := mkThreadResult {
  offset1 : nat;
  field : vec3 float;
  other : option (nat * vec3 float) }.

Section Kernel.

Variables (TILE_SIZE PADDED_NUM_ATOMS : nat).

Definition exclusionTileResult (x y tgx : nat) (field localField : vec3 float)
    : ThreadResult :=
  mkThreadResult (x * TILE_SIZE + tgx) field
    (if (x =? y)%nat then None else Some ((y * TILE_SIZE + tgx)%nat, localField)).

Definition tileResult (atom1 atom2 : nat) (field localField : vec3 float)
    : ThreadResult :=
  mkThreadResult atom1 field
    (if (atom2 <? PADDED_NUM_ATOMS)%nat then Some (atom2, localField) else None).

(** The three additions for one atom: x, y and z planes of the buffer. *)
Definition addends (offset : nat) (f : vec3 float) : option (list (nat * Z)) :=
  match fixedPoint (v3x f), fixedPoint (v3y f), fixedPoint (v3z f) with
  | Some vx, Some vy, Some vz =>
      Some [ (offset, vx);
             ((offset + PADDED_NUM_ATOMS)%nat, vy);
             ((offset + 2 * PADDED_NUM_ATOMS)%nat, vz) ]
  | _, _, _ => None
  end.

Definition writes (t : ThreadResult) : option (list (nat * Z)) :=
  match addends (offset1 t) (field t) with
  | None => None
  | Some first =>
      match other t with
      | None => Some first
      | Some (offset2, localField) =>
          match addends offset2 localField with
          | None => None
          | Some second => Some (first ++ second)
          end
      end
  end.

End Kernel.

(** The additions applied to the buffer, in the order given. *)
Definition accumulate (fieldBuffers : list Z) (adds : list (nat * Z)) : list Z :=
  fold_left (fun b a => atomicAdd b (fst a) (snd a)) adds fieldBuffers.

(** The threads' results written in the order given ([None]: a
    conversion was undefined). *)
Definition writeResults (PADDED_NUM_ATOMS : nat) (fieldBuffers : list Z)
    (threads : list ThreadResult) : option (list Z) :=
  fold_left
    (fun ob t =>
       match ob, writes PADDED_NUM_ATOMS t with
       | Some b, Some adds => Some (accumulate b adds)
       | _, _ => None
       end)
    threads (Some fieldBuffers).

(** The integers sent to one address. *)
Definition sentTo (address : nat) (adds : list (nat * Z)) : Z :=
  fold_right Z.add 0 (map snd (filter (fun a => (fst a =? address)%nat) adds)).

(** All additions of the threads, in the order given. *)
Definition allWrites (PADDED_NUM_ATOMS : nat) (threads : list ThreadResult)
    : option (list (nat * Z)) :=
  fold_right
    (fun t rest =>
       match writes PADDED_NUM_ATOMS t, rest with
       | Some w, Some r => Some (w ++ r)
       | _, _ => None
       end)
    (Some []) threads.

(** ** Two additions commute *)

Lemma upd_out_of_range {A : Type} (l : list A) i x :
  (length l <= i)%nat -> upd l i x = l.
Proof.
  revert i. induction l as [| a l IH]; intros [| i] Hi; simpl in *;
    try reflexivity; try lia.
  f_equal. apply IH. lia.
Qed.

Lemma upd_upd_same {A : Type} (l : list A) i x y :
  upd (upd l i x) i y = upd l i y.
Proof.
  revert i. induction l as [| a l IH]; intros [| i]; simpl; try reflexivity.
  f_equal. apply IH.
Qed.

Lemma upd_upd_comm {A : Type} (l : list A) i j x y :
  i <> j -> upd (upd l i x) j y = upd (upd l j y) i x.
Proof.
  revert i j. induction l as [| a l IH]; intros [| i] [| j] Hij; simpl;
    try reflexivity; try congruence.
  f_equal. apply IH. congruence.
Qed.

Lemma atomicAdd_length b a v : length (atomicAdd b a v) = length b.
Proof. apply upd_length. Qed.

Lemma atomicAdd_nth_same b a v :
  (a < length b)%nat -> nth a (atomicAdd b a v) 0 = (nth a b 0 + v) mod 2 ^ 64.
Proof. intro Ha. unfold atomicAdd. now rewrite nth_upd_same. Qed.

Lemma atomicAdd_nth_other b a a' v :
  a <> a' -> nth a' (atomicAdd b a v) 0 = nth a' b 0.
Proof. intro Ha. unfold atomicAdd. now rewrite nth_upd_other. Qed.

Lemma atomicAdd_comm b i v j w :
  atomicAdd (atomicAdd b i v) j w = atomicAdd (atomicAdd b j w) i v.
Proof.
  destruct (Nat.eq_dec i j) as [<- | Hij].
  - destruct (Nat.lt_ge_cases i (length b)) as [Hi | Hi].
    + unfold atomicAdd. rewrite !nth_upd_same, !upd_upd_same by assumption.
      f_equal. rewrite !Zplus_mod_idemp_l. f_equal. ring.
    + unfold atomicAdd. rewrite !upd_out_of_range; try reflexivity;
        rewrite ?upd_length; assumption.
  - unfold atomicAdd.
    rewrite (nth_upd_other b i j) by assumption.
    rewrite (nth_upd_other b j i) by congruence.
    apply upd_upd_comm. assumption.
Qed.

Lemma accumulate_app b l1 l2 :
  accumulate b (l1 ++ l2) = accumulate (accumulate b l1) l2.
Proof. apply fold_left_app. Qed.

Lemma accumulate_length adds : forall b, length (accumulate b adds) = length b.
Proof.
  induction adds as [| a adds IH]; intro b; [reflexivity |].
  change (accumulate b (a :: adds))
    with (accumulate (atomicAdd b (fst a) (snd a)) adds).
  rewrite IH. apply atomicAdd_length.
Qed.

Lemma accumulate_perm adds adds' :
  Permutation adds adds' -> forall b, accumulate b adds = accumulate b adds'.
Proof.
  induction 1 as [| a l l' _ IH | a a' l | l l' l'' _ IH1 _ IH2]; intro b.
  - reflexivity.
  - simpl. apply IH.
  - simpl. now rewrite atomicAdd_comm.
  - now rewrite IH1.
Qed.

(** ** The buffer holds a sum of integers *)

Lemma accumulate_nth adds : forall b a,
  (a < length b)%nat -> 0 <= nth a b 0 < 2 ^ 64 ->
  nth a (accumulate b adds) 0 = (nth a b 0 + sentTo a adds) mod 2 ^ 64.
Proof.
  induction adds as [| [a' v] adds IH]; intros b a Ha Hr.
  - simpl. rewrite Z.add_0_r, Z.mod_small; [reflexivity | exact Hr].
  - change (accumulate b ((a', v) :: adds))
      with (accumulate (atomicAdd b a' v) adds).
    assert (Hr' : 0 <= nth a (atomicAdd b a' v) 0 < 2 ^ 64).
    { destruct (Nat.eq_dec a' a) as [-> | Hne].
      - rewrite atomicAdd_nth_same by assumption. apply Z.mod_pos_bound. lia.
      - rewrite atomicAdd_nth_other by assumption. exact Hr. }
    rewrite IH; [| rewrite atomicAdd_length; exact Ha | exact Hr'].
    unfold sentTo. simpl filter.
    destruct (Nat.eqb_spec a' a) as [-> | Hne].
    + rewrite atomicAdd_nth_same by assumption. simpl.
      rewrite Zplus_mod_idemp_l. f_equal. ring.
    + rewrite atomicAdd_nth_other by assumption. reflexivity.
Qed.

(** ** Threads in any order *)

Lemma writeResults_none P threads :
  fold_left
    (fun ob t =>
       match ob, writes P t with
       | Some b, Some adds => Some (accumulate b adds)
       | _, _ => None
       end) threads None = None.
Proof. induction threads as [| t threads IH]; simpl; [reflexivity | exact IH]. Qed.

Lemma writeResults_allWrites P threads : forall b,
  writeResults P b threads = option_map (accumulate b) (allWrites P threads).
Proof.
  induction threads as [| t threads IH]; intro b; [reflexivity |].
  unfold writeResults. simpl.
  destruct (writes P t) as [w |].
  - fold (writeResults P (accumulate b w) threads). rewrite IH.
    destruct (allWrites P threads) as [r |]; simpl; [| reflexivity].
    now rewrite accumulate_app.
  - apply writeResults_none.
Qed.

Lemma allWrites_perm P threads threads' :
  Permutation threads threads' ->
  match allWrites P threads, allWrites P threads' with
  | Some a, Some a' => Permutation a a'
  | None, None => True
  | _, _ => False
  end.
Proof.
  induction 1 as [| t l l' _ IH | t t' l | l l' l'' _ IH1 _ IH2]; simpl.
  - constructor.
  - destruct (writes P t), (allWrites P l), (allWrites P l'); try exact I;
      try contradiction. now apply Permutation_app_head.
  - destruct (writes P t), (writes P t'), (allWrites P l); try exact I.
    rewrite !app_assoc. apply Permutation_app_tail, Permutation_app_comm.
  - destruct (allWrites P l), (allWrites P l'), (allWrites P l'');
      try exact I; try contradiction.
    eapply Permutation_trans; eassumption.
Qed.

(** ** What one thread adds *)

Lemma addends_defined P offset f vx vy vz :
  fixedPoint (v3x f) = Some vx -> fixedPoint (v3y f) = Some vy ->
  fixedPoint (v3z f) = Some vz ->
  addends P offset f
  = Some [ (offset, vx); ((offset + P)%nat, vy); ((offset + 2 * P)%nat, vz) ].
Proof. intros Hx Hy Hz. unfold addends. now rewrite Hx, Hy, Hz. Qed.

Lemma allWrites_concat P threads adds :
  Forall2 (fun t w => writes P t = Some w) threads adds ->
  allWrites P threads = Some (concat adds).
Proof.
  induction 1 as [| t w threads adds Hw _ IH]; [reflexivity |].
  simpl. now rewrite Hw, IH.
Qed.

(** C6.  Each of the two "Write results" blocks of [computeField] sends,
    for the thread's own atom and (when the second block of additions
    runs) for the atom whose field it holds, the three components of the
    field to the cells of that atom in the three planes of the buffer,
    each converted by [fixedPoint], the truncating conversion of
    [v * 2^32] to a 64-bit integer.  When every conversion is defined,
    writing the results of any list of threads leaves in each cell its
    initial content plus the sum of all the integers sent to that cell,
    modulo [2^64], and this buffer is the same for the threads taken in
    any other order and for the single additions taken in any order. *)
Theorem field_accumulation_fixed_point :
  forall (TILE_SIZE P : nat),
    (forall x y tgx f g vx vy vz wx wy wz,
       fixedPoint (v3x f) = Some vx -> fixedPoint (v3y f) = Some vy ->
       fixedPoint (v3z f) = Some vz ->
       (x <> y ->
        fixedPoint (v3x g) = Some wx /\ fixedPoint (v3y g) = Some wy /\
        fixedPoint (v3z g) = Some wz) ->
       let offset1 := (x * TILE_SIZE + tgx)%nat in
       let offset2 := (y * TILE_SIZE + tgx)%nat in
       writes P (exclusionTileResult TILE_SIZE x y tgx f g)
       = Some ([ (offset1, vx); ((offset1 + P)%nat, vy);
                 ((offset1 + 2 * P)%nat, vz) ]
               ++ if (x =? y)%nat then []
                  else [ (offset2, wx); ((offset2 + P)%nat, wy);
                         ((offset2 + 2 * P)%nat, wz) ])) /\
    (forall atom1 atom2 f g vx vy vz wx wy wz,
       fixedPoint (v3x f) = Some vx -> fixedPoint (v3y f) = Some vy ->
       fixedPoint (v3z f) = Some vz ->
       ((atom2 < P)%nat ->
        fixedPoint (v3x g) = Some wx /\ fixedPoint (v3y g) = Some wy /\
        fixedPoint (v3z g) = Some wz) ->
       writes P (tileResult P atom1 atom2 f g)
       = Some ([ (atom1, vx); ((atom1 + P)%nat, vy); ((atom1 + 2 * P)%nat, vz) ]
               ++ if (atom2 <? P)%nat
                  then [ (atom2, wx); ((atom2 + P)%nat, wy);
                         ((atom2 + 2 * P)%nat, wz) ]
                  else [])) /\
    (forall (fieldBuffers : list Z) (threads : list ThreadResult)
            (adds : list (list (nat * Z))),
       Forall (fun cell => 0 <= cell < 2 ^ 64) fieldBuffers ->
       Forall2 (fun t w => writes P t = Some w) threads adds ->
       exists final,
         writeResults P fieldBuffers threads = Some final /\
         List.length final = List.length fieldBuffers /\
         (forall address, (address < List.length fieldBuffers)%nat ->
            nth address final 0
            = (nth address fieldBuffers 0
               + fold_right Z.add 0
                   (map snd (filter (fun a => (fst a =? address)%nat)
                                    (concat adds)))) mod 2 ^ 64) /\
         (forall threads', Permutation threads threads' ->
            writeResults P fieldBuffers threads' = Some final) /\
         (forall order, Permutation (concat adds) order ->
            accumulate fieldBuffers order = final)).
Proof.
  intros TILE_SIZE P. split; [| split].
  - intros x y tgx f g vx vy vz wx wy wz Hx Hy Hz Hg offset1 offset2.
    unfold writes, exclusionTileResult. cbn [offset1 field other FixedPoint.offset1].
    rewrite (addends_defined P _ f vx vy vz Hx Hy Hz).
    destruct (Nat.eqb_spec x y) as [_ | Hxy]; [now rewrite app_nil_r |].
    destruct (Hg Hxy) as (Gx & Gy & Gz).
    now rewrite (addends_defined P _ g wx wy wz Gx Gy Gz).
  - intros atom1 atom2 f g vx vy vz wx wy wz Hx Hy Hz Hg.
    unfold writes, tileResult. cbn [field other FixedPoint.offset1].
    rewrite (addends_defined P _ f vx vy vz Hx Hy Hz).
    destruct (Nat.ltb_spec atom2 P) as [Hlt | _]; [| now rewrite app_nil_r].
    destruct (Hg Hlt) as (Gx & Gy & Gz).
    now rewrite (addends_defined P _ g wx wy wz Gx Gy Gz).
  - intros fieldBuffers threads adds Hcells Hadds.
    pose proof (allWrites_concat P threads adds Hadds) as Hall.
    exists (accumulate fieldBuffers (concat adds)).
    split; [| split; [| split; [| split]]].
    + now rewrite writeResults_allWrites, Hall.
    + apply accumulate_length.
    + intros address Haddr.
      apply (accumulate_nth (concat adds) fieldBuffers address Haddr).
      rewrite Forall_forall in Hcells. apply Hcells, nth_In, Haddr.
    + intros threads' Hperm. rewrite writeResults_allWrites.
      pose proof (allWrites_perm P threads threads' Hperm) as Hp.
      rewrite Hall in Hp.
      destruct (allWrites P threads') as [adds' |]; [| contradiction].
      simpl. f_equal. symmetry. apply accumulate_perm, Hp.
    + intros order Hperm. symmetry. apply accumulate_perm, Hperm.
Qed.

(** A sample with [PADDED_NUM_ATOMS = 2]: a thread of a diagonal tile of
    the first loop (atom 0, no second block of additions) and a thread of
    the second loop (atom 1, holding a field for atom 0). *)
Definition sample_thread0 : ThreadResult :=
  exclusionTileResult 32 0 0 0 (mkVec3 (dec 1 10) (dec (-1) 10) (dec 3 2))
                      (mkVec3 (dec 0 1) (dec 0 1) (dec 0 1)).
Definition sample_thread1 : ThreadResult :=
  tileResult 2 1 0 (mkVec3 (dec 1 4) (dec 1 4294967296) (dec (-1) 8589934592))
             (mkVec3 (dec (-1) 4) (dec 0 1) (dec 2 1)).

Lemma field_accumulation_fixed_point_witness :
  let fieldBuffers := [0; 0; 0; 18446744073709551615; 0; 0] in
  let threads := [sample_thread0; sample_thread1] in
  let adds :=
    [ [ (0%nat, 429496729); (2%nat, 18446744073280054887);
        (4%nat, 6442450944) ];
      [ (1%nat, 1073741824); (3%nat, 1); (5%nat, 0);
        (0%nat, 18446744072635809792); (2%nat, 0); (4%nat, 8589934592) ] ] in
  Forall (fun cell => 0 <= cell < 2 ^ 64) fieldBuffers /\
  Forall2 (fun t w => writes 2 t = Some w) threads adds /\
  exists final,
    writeResults 2 fieldBuffers threads = Some final /\
    List.length final = List.length fieldBuffers /\
    (forall address, (address < List.length fieldBuffers)%nat ->
       nth address final 0
       = (nth address fieldBuffers 0
          + fold_right Z.add 0
              (map snd (filter (fun a => (fst a =? address)%nat)
                               (concat adds)))) mod 2 ^ 64) /\
    (forall threads', Permutation threads threads' ->
       writeResults 2 fieldBuffers threads' = Some final) /\
    (forall order, Permutation (concat adds) order ->
       accumulate fieldBuffers order = final).
Proof.
  intros fieldBuffers threads adds.
  assert (Hcells : Forall (fun cell => 0 <= cell < 2 ^ 64) fieldBuffers)
    by (repeat constructor; lia).
  assert (Hadds : Forall2 (fun t w => writes 2 t = Some w) threads adds)
    by (repeat constructor; vm_compute; reflexivity).
  split; [exact Hcells |]. split; [exact Hadds |].
  exact (proj2 (proj2 (field_accumulation_fixed_point 32 2))
           fieldBuffers threads adds Hcells Hadds).
Defined.

(** The conversion truncates toward zero and the addition wraps. *)
Example fixedPoint_samples :
  fixedPoint (dec 3 2) = Some 6442450944 /\
  fixedPoint (dec 1 10) = Some 429496729 /\
  fixedPoint (dec (-1) 10) = Some (2 ^ 64 - 429496729) /\
  fixedPoint (dec 1 8589934592) = Some 0 /\
  fixedPoint (dec (-1) 8589934592) = Some 0 /\
  fixedPoint (dec 2147483648 1) = None.
Proof. vm_compute. repeat split; reflexivity. Qed.

Example writeResults_sample :
  writeResults 2 [0; 0; 0; 18446744073709551615; 0; 0] [sample_thread0; sample_thread1]
  = Some [18446744073065306521; 1073741824; 18446744073280054887; 0;
          15032385536; 0].
Proof. vm_compute. reflexivity. Qed.

Example atomicAdd_wraps : atomicAdd [2 ^ 64 - 1] 0 1 = [0].
Proof. vm_compute. reflexivity. Qed.

End FixedPoint.

(* ------------------------------------------------------------------ *)
(** * Host code of [CudaCalcAmoebaMultipoleForceKernel] *)

Module Host.

Inductive PolarizationType : Type := Mutual | Direct | Extrapolated.

Definition PolarizationType_eqb (a b : PolarizationType) : bool :=
  match a, b with
  | Mutual, Mutual | Direct, Direct | Extrapolated, Extrapolated => true
  | _, _ => false
  end.

(** Device arrays the host clears, uploads or copies by name. *)
Inductive Buffer : Type :=
  | pmeGrid | inducedField | inducedFieldPolar
  | inducedDipoleFieldGradient | inducedDipoleFieldGradientPolar
  | gkInducedField | gkInducedFieldPolar
  | inducedDipoleFieldGradientGk | inducedDipoleFieldGradientGkPolar
  | dampingAndThole | polarizability | multipoleParticles
  | localDipoles | localQuadrupoles | posq | points.

(** Kernels and library calls the host launches.  A constructor carries
    the arguments that the host sets anew before the launch. *)
Inductive Kernel : Type :=
  | computeMomentsKernel | computeFixedFieldKernel | recordInducedDipolesKernel
  | computeInducedFieldKernel | electrostaticsKernel | mapTorqueKernel
  | pmeTransformMultipolesKernel | pmeSpreadFixedMultipolesKernel
  | pmeFinishSpreadChargeKernel | pmeConvolutionKernel
  | pmeFixedPotentialKernel | pmeFixedForceKernel
  | pmeSpreadInducedDipolesKernel | pmeInducedPotentialKernel
  | pmeInducedForceKernel | pmeRecordInducedFieldDipolesKernel
  | pmeTransformPotentialKernel (phidp : bool)
  | cufftExecZ2Z (inverse : bool) | cufftExecC2C (inverse : bool)
  | recordDIISDipolesKernel (iteration : Z) (forGk : bool)
  | buildMatrixKernel (iteration : Z) | solveMatrixKernel (iteration : Z)
  | updateInducedFieldKernel (forGk : bool) (numPrev : Z)
  | initExtrapolatedKernel | iterateExtrapolatedKernel (order : Z)
  | computeExtrapolatedKernel | addExtrapolatedGradientKernel
  | computePotentialKernel
  | computeBornSumKernel | reduceBornSumKernel | gkForceKernel
  | surfaceAreaKernel | chainRuleKernel | ediffKernel.

(** The kernels created with the [torque] array among their arguments
    ([addArg(torque)] in [initialize], [&torque.getDevicePointer()] in
    [finishComputation]) and accumulating into it. *)
Definition accumulatesTorque (k : Kernel) : bool :=
  match k with
  | electrostaticsKernel | pmeFixedForceKernel | pmeInducedForceKernel
  | gkForceKernel | ediffKernel => true
  | _ => false
  end.

Definition MaxPrevDIISDipoles : Z := 20.

Section Model.

Context {T : Type} `{RealOps T}.
Local Open Scope ops_scope.

(** What an upload carries. *)
Inductive Payload : Type :=
  | Reals (values : list T)
  | Pairs (values : list (T * T))
  | Int4s (values : list (Z * Z * Z * Z))
  | Real4s (values : list (vec4 T)).

Inductive Event : Type :=
  | Launch (k : Kernel)
  | Clear (b : Buffer)
  | Upload (b : Buffer) (data : Payload)
  | CopyPosqToLastPositions
  | InitializeScaleFactors
  | InvalidateMolecules.

(** The device: its memory is abstract, every operation of the host on it
    is a transformer, and the host reads it through downloads. *)
Variable Device : Type.
Variable perform : Event -> Device -> Device.
Variable downloadErrors : Device -> list (T * T).
Variable downloadPosq downloadLastPositions downloadVelm : Device -> list (vec4 T).
Variable downloadLabDipoles downloadInducedDipole : Device -> list (vec3 T).
Variable downloadLabQuadrupoles downloadPotential : Device -> list T.
(** [(float) v]. *)
Variable toFloat : T -> T.

Record HostState : Type := mkHost {
  polarizationType : PolarizationType;
  maxInducedIterations : Z;
  inducedEpsilon : T;
  maxExtrapolationOrder : Z;
  usePME : bool;
  pmeGridIsInitialized : bool;
  useDoublePrecision : bool;
  useMixedPrecision : bool;
  contextHasGk : bool;           (* a GK force is among the context's forces *)
  gkKernel : bool;               (* gkKernel != NULL *)
  includeSurfaceArea : bool;
  hasInitializedScaleFactors : bool;
  hasQuadrupoles : bool;
  multipolesAreValid : bool;
  numAtoms : nat;                (* cu.getNumAtoms() *)
  paddedNumAtoms : nat;
  numThreadBlocks : Z;
  atomIndex : list nat;          (* cu.getAtomIndex() *)
  pinnedBuffer : list (vec4 T) }.

Record World : Type := mkWorld {
  host : HostState;
  dev : Device;
  trace : list Event }.

Definition emit (e : Event) (w : World) : World :=
  mkWorld (host w) (perform e (dev w)) (trace w ++ [e]).

Definition launch (k : Kernel) : World -> World := emit (Launch k).

Definition withHost (f : HostState -> HostState) (w : World) : World :=
  mkWorld (f (host w)) (dev w) (trace w).

Definition set_multipolesAreValid (b : bool) (h : HostState) : HostState :=
  mkHost (polarizationType h) (maxInducedIterations h) (inducedEpsilon h)
    (maxExtrapolationOrder h) (usePME h) (pmeGridIsInitialized h)
    (useDoublePrecision h) (useMixedPrecision h) (contextHasGk h) (gkKernel h)
    (includeSurfaceArea h) (hasInitializedScaleFactors h) (hasQuadrupoles h) b
    (numAtoms h) (paddedNumAtoms h) (numThreadBlocks h) (atomIndex h)
    (pinnedBuffer h).

Definition set_scaleFactorsInitialized (h : HostState) : HostState :=
  mkHost (polarizationType h) (maxInducedIterations h) (inducedEpsilon h)
    (maxExtrapolationOrder h) (usePME h) (pmeGridIsInitialized h)
    (useDoublePrecision h) (useMixedPrecision h) (contextHasGk h)
    (contextHasGk h || gkKernel h)
    (includeSurfaceArea h) true (hasQuadrupoles h) (multipolesAreValid h)
    (numAtoms h) (paddedNumAtoms h) (numThreadBlocks h) (atomIndex h)
    (pinnedBuffer h).

Definition set_pinnedBuffer (b : list (vec4 T)) (h : HostState) : HostState :=
  mkHost (polarizationType h) (maxInducedIterations h) (inducedEpsilon h)
    (maxExtrapolationOrder h) (usePME h) (pmeGridIsInitialized h)
    (useDoublePrecision h) (useMixedPrecision h) (contextHasGk h) (gkKernel h)
    (includeSurfaceArea h) (hasInitializedScaleFactors h) (hasQuadrupoles h)
    (multipolesAreValid h) (numAtoms h) (paddedNumAtoms h) (numThreadBlocks h)
    (atomIndex h) b.

(** A straight-line run of launches is the list of its events;
    [onlyIf c es] is a block guarded by a host-side condition. *)
Definition run (es : list Event) (w : World) : World :=
  fold_left (fun w e => emit e w) es w.

Definition onlyIf (c : bool) (es : list Event) : list Event :=
  if c then es else [].

Definition isExtrapolated (h : HostState) : bool :=
  PolarizationType_eqb (polarizationType h) Extrapolated.

Definition computeForwardFFT (h : HostState) : list Event :=
  if useDoublePrecision h then [Launch (cufftExecZ2Z false)]
  else [Launch (cufftExecC2C false)].

Definition computeInverseFFT (h : HostState) : list Event :=
  if useDoublePrecision h then [Launch (cufftExecZ2Z true)]
  else [Launch (cufftExecC2C true)].

(** The grid pass shared by [execute] and [computeInducedField]. *)
Definition spreadInducedDipoles (h : HostState) : list Event :=
  [Clear pmeGrid; Launch pmeSpreadInducedDipolesKernel]
  ++ onlyIf (useDoublePrecision h) [Launch pmeFinishSpreadChargeKernel]
  ++ computeForwardFFT h
  ++ [Launch pmeConvolutionKernel]
  ++ computeInverseFFT h
  ++ [Launch pmeInducedPotentialKernel].

Definition computeInducedFieldEvents (h : HostState) : list Event :=
  [Clear inducedField; Clear inducedFieldPolar]
  ++ onlyIf (isExtrapolated h)
       [Clear inducedDipoleFieldGradient; Clear inducedDipoleFieldGradientPolar]
  ++ onlyIf (gkKernel h)
       ([Clear gkInducedField; Clear gkInducedFieldPolar]
        ++ onlyIf (isExtrapolated h)
             [Clear inducedDipoleFieldGradientGk;
              Clear inducedDipoleFieldGradientGkPolar])
  ++ [Launch computeInducedFieldKernel]
  ++ onlyIf (pmeGridIsInitialized h)
       (spreadInducedDipoles h ++ [Launch pmeRecordInducedFieldDipolesKernel]).

Definition computeInducedField (w : World) : World :=
  run (computeInducedFieldEvents (host w)) w.

(** ** [iterateDipolesByDIIS] *)

Definition rmax (a b : T) : T := if rltb a b then b else a.

(** "Determine whether the iteration has converged." *)
Definition convergenceTest (h : HostState) (errors : list (T * T)) : bool :=
  let total1 := fold_left (fun t e => t + fst e) errors (rofZ 0) in
  let total2 := fold_left (fun t e => t + snd e) errors (rofZ 0) in
  rltb (dec 48033324 1000000
        * rsqrt (rmax total1 total2 / rofZ (Z.of_nat (numAtoms h))))
       (inducedEpsilon h).

(** "Record the dipoles and errors into the lists of previous dipoles." *)
Definition recordDipoles (iteration : Z) (w : World) : World :=
  run (onlyIf (gkKernel (host w)) [Launch (recordDIISDipolesKernel iteration true)]
       ++ [Launch (recordDIISDipolesKernel iteration false)]) w.

Definition iterateDipolesByDIIS (iteration : Z) (w : World) : bool * World :=
  let w1 := recordDipoles iteration w in
  let errors := downloadErrors (dev w1) in
  let numPrev := if (iteration + 1 <? MaxPrevDIISDipoles)%Z
                 then (iteration + 1)%Z else MaxPrevDIISDipoles in
  let w2 := run [Launch (buildMatrixKernel iteration);
                 Launch (solveMatrixKernel iteration)] w1 in
  if convergenceTest (host w2) errors then (true, w2)
  else (false,
        run ([Launch (updateInducedFieldKernel false numPrev)]
             ++ onlyIf (gkKernel (host w2))
                  [Launch (updateInducedFieldKernel true numPrev)]) w2).

(** ** [computeExtrapolatedDipoles] *)

Definition extrapolationOrders (h : HostState) : list Z :=
  map Z.of_nat (seq 1 (Z.to_nat (maxExtrapolationOrder h - 1))).

Definition computeExtrapolatedDipolesEvents (h : HostState) : list Event :=
  [Launch initExtrapolatedKernel]
  ++ flat_map (fun order => computeInducedFieldEvents h
                            ++ [Launch (iterateExtrapolatedKernel order)])
              (extrapolationOrders h)
  ++ [Launch computeExtrapolatedKernel]
  ++ computeInducedFieldEvents h.

(** ** [execute] *)

(** [for (int i = 0; i < maxInducedIterations; i++)] with its [break]. *)
Fixpoint inducedIterations (remaining : nat) (i : Z) (w : World) : World :=
  match remaining with
  | O => w
  | S remaining' =>
      let r := iterateDipolesByDIIS i (computeInducedField w) in
      if fst r then snd r else inducedIterations remaining' (i + 1)%Z (snd r)
  end.

Definition inducedLoop (w : World) : World :=
  inducedIterations (Z.to_nat (maxInducedIterations (host w))) 0%Z w.

Inductive Outcome (A : Type) : Type :=
  | Returned (value : A) (w : World)
  | Thrown (message : String.string) (w : World).
Arguments Returned {A} _ _.
Arguments Thrown {A} _ _.

Definition computeBornRadii : list Event :=
  [Launch computeBornSumKernel; Launch reduceBornSumKernel].

Definition finishComputation (h : HostState) : list Event :=
  [Launch gkForceKernel]
  ++ onlyIf (includeSurfaceArea h) [Launch surfaceAreaKernel]
  ++ [Launch chainRuleKernel; Launch ediffKernel].

Definition firstExecute (w : World) : World :=
  if hasInitializedScaleFactors (host w) then w
  else withHost set_scaleFactorsInitialized (emit InitializeScaleFactors w).

Definition fixedMultipolesReciprocal (h : HostState) : list Event :=
  [Launch pmeTransformMultipolesKernel; Launch pmeSpreadFixedMultipolesKernel]
  ++ onlyIf (useDoublePrecision h) [Launch pmeFinishSpreadChargeKernel]
  ++ computeForwardFFT h
  ++ [Launch pmeConvolutionKernel]
  ++ computeInverseFFT h
  ++ [Launch pmeFixedPotentialKernel; Launch (pmeTransformPotentialKernel false);
      Launch pmeFixedForceKernel].

Definition execute (w : World) : Outcome T :=
  let w := firstExecute w in
  let h := host w in
  let w := run [Launch computeMomentsKernel] w in
  let w :=
    if negb (pmeGridIsInitialized h) then
      let w := run (onlyIf (gkKernel h) computeBornRadii
                    ++ [Launch computeFixedFieldKernel;
                        Launch recordInducedDipolesKernel]
                    ++ onlyIf (isExtrapolated h)
                         (computeExtrapolatedDipolesEvents h)) w in
      let w := inducedLoop w in
      run ([Launch electrostaticsKernel]
           ++ onlyIf (gkKernel h) (finishComputation h)) w
    else
      let w := run (fixedMultipolesReciprocal h
                    ++ [Launch computeFixedFieldKernel;
                        Launch recordInducedDipolesKernel]
                    ++ spreadInducedDipoles h
                    ++ onlyIf (isExtrapolated h)
                         (computeExtrapolatedDipolesEvents h)) w in
      let w := inducedLoop w in
      run [Launch electrostaticsKernel; Launch (pmeTransformPotentialKernel true);
           Launch pmeInducedForceKernel] w in
  let w := run (onlyIf (isExtrapolated h) [Launch addExtrapolatedGradientKernel]
                ++ [Launch mapTorqueKernel; CopyPosqToLastPositions]) w in
  Returned (rofZ 0) (withHost (set_multipolesAreValid true) w).

(** ** Runs of events *)

Lemma run_app es1 es2 w : run (es1 ++ es2) w = run es2 (run es1 w).
Proof. apply fold_left_app. Qed.

Lemma run_host es : forall w, host (run es w) = host w.
Proof.
  induction es as [| e es IH]; intro w; [reflexivity |].
  change (run (e :: es) w) with (run es (emit e w)). now rewrite IH.
Qed.

Lemma run_trace es : forall w, trace (run es w) = trace w ++ es.
Proof.
  induction es as [| e es IH]; intro w.
  - simpl. now rewrite app_nil_r.
  - change (run (e :: es) w) with (run es (emit e w)).
    rewrite IH. simpl. now rewrite <- app_assoc.
Qed.

Lemma computeInducedField_host w : host (computeInducedField w) = host w.
Proof. apply run_host. Qed.

Lemma recordDipoles_host i w : host (recordDipoles i w) = host w.
Proof. apply run_host. Qed.

Lemma iterateDipolesByDIIS_host i w : host (snd (iterateDipolesByDIIS i w)) = host w.
Proof.
  unfold iterateDipolesByDIIS. cbv zeta.
  destruct (convergenceTest _ _); cbn [snd]; rewrite !run_host;
    apply recordDipoles_host.
Qed.

(** The events one call of [iterateDipolesByDIIS] adds. *)
Definition iterationEvents (h : HostState) (iteration : Z) (converged : bool)
    : list Event :=
  let numPrev := if (iteration + 1 <? MaxPrevDIISDipoles)%Z
                 then (iteration + 1)%Z else MaxPrevDIISDipoles in
  onlyIf (gkKernel h) [Launch (recordDIISDipolesKernel iteration true)]
  ++ [Launch (recordDIISDipolesKernel iteration false);
      Launch (buildMatrixKernel iteration); Launch (solveMatrixKernel iteration)]
  ++ onlyIf (negb converged)
       ([Launch (updateInducedFieldKernel false numPrev)]
        ++ onlyIf (gkKernel h) [Launch (updateInducedFieldKernel true numPrev)]).

Lemma iterateDipolesByDIIS_trace i w :
  trace (snd (iterateDipolesByDIIS i w))
  = trace w ++ iterationEvents (host w) i (fst (iterateDipolesByDIIS i w)).
Proof.
  unfold iterateDipolesByDIIS, iterationEvents, recordDipoles. cbv zeta.
  destruct (convergenceTest _ _); cbn [fst snd negb onlyIf];
    rewrite ?run_trace, ?run_host, ?app_nil_r, <- ?app_assoc; reflexivity.
Qed.

(** ** The iterations of the loop, one by one *)

Definition iterationStep (i : nat) (w : World) : bool * World :=
  iterateDipolesByDIIS (Z.of_nat i) (computeInducedField w).

(** The world after [n] iterations numbered [i], [i+1], ... *)
Fixpoint iterationsFrom (i n : nat) (w : World) : World :=
  match n with
  | O => w
  | S n' => iterationsFrom (S i) n' (snd (iterationStep i w))
  end.

(** The outcome of the convergence test of the iteration numbered
    [i + k], run after the [k] iterations before it. *)
Definition testFrom (i k : nat) (w : World) : bool :=
  fst (iterationStep (i + k) (iterationsFrom i k w)).

Lemma testFrom_S i k w :
  testFrom i (S k) w = testFrom (S i) k (snd (iterationStep i w)).
Proof. unfold testFrom. simpl. now rewrite Nat.add_succ_r. Qed.

Definition isSolve (e : Event) : bool :=
  match e with Launch (solveMatrixKernel _) => true | _ => false end.

Definition solves (tr : list Event) : nat := List.length (filter isSolve tr).

Lemma solves_app a b : solves (a ++ b) = (solves a + solves b)%nat.
Proof. unfold solves. now rewrite filter_app, length_app. Qed.

Lemma solves_onlyIf c es : solves es = 0%nat -> solves (onlyIf c es) = 0%nat.
Proof. destruct c; [exact (fun e => e) | reflexivity]. Qed.

Lemma computeInducedFieldEvents_solves h : solves (computeInducedFieldEvents h) = 0%nat.
Proof.
  unfold computeInducedFieldEvents, spreadInducedDipoles, computeForwardFFT,
    computeInverseFFT.
  destruct (isExtrapolated h), (gkKernel h), (pmeGridIsInitialized h),
    (useDoublePrecision h); reflexivity.
Qed.

Lemma iterationEvents_solves h i c : solves (iterationEvents h i c) = 1%nat.
Proof.
  unfold iterationEvents. destruct (gkKernel h), c; reflexivity.
Qed.

Lemma iterationStep_solves i w :
  solves (trace (snd (iterationStep i w))) = S (solves (trace w)).
Proof.
  unfold iterationStep. rewrite iterateDipolesByDIIS_trace.
  unfold computeInducedField at 1. rewrite run_trace, !solves_app.
  rewrite computeInducedFieldEvents_solves, iterationEvents_solves. lia.
Qed.

Lemma inducedIterations_spec remaining : forall i w,
  exists n, (n <= remaining)%nat /\
    inducedIterations remaining (Z.of_nat i) w = iterationsFrom i n w /\
    (forall k, (k + 1 < n)%nat -> testFrom i k w = false) /\
    ((n < remaining)%nat -> (1 <= n)%nat /\ testFrom i (n - 1) w = true) /\
    solves (trace (iterationsFrom i n w)) = (solves (trace w) + n)%nat.
Proof.
  induction remaining as [| r IH]; intros i w.
  - exists 0%nat. simpl. repeat split; intros; lia.
  - simpl inducedIterations. fold (iterationStep i w).
    destruct (fst (iterationStep i w)) eqn:Htest.
    + exists 1%nat. simpl. split; [lia |]. split; [reflexivity |].
      split; [intros k Hk; lia |]. split.
      * intros _. split; [lia |]. unfold testFrom. simpl.
        now rewrite Nat.add_0_r.
      * rewrite iterationStep_solves. lia.
    + replace (Z.of_nat i + 1)%Z with (Z.of_nat (S i)) by lia.
      destruct (IH (S i) (snd (iterationStep i w)))
        as (n & Hn & Hres & Hearly & Hstop & Hcount).
      exists (S n). split; [lia |]. split; [exact Hres |]. split; [| split].
      * intros [| k] Hk.
        -- unfold testFrom. simpl. now rewrite Nat.add_0_r.
        -- rewrite testFrom_S. apply Hearly. lia.
      * intro Hlt. split; [lia |].
        destruct Hstop as [Hn1 Ht]; [lia |].
        replace (S n - 1)%nat with (S (n - 1)) by lia.
        rewrite testFrom_S. exact Ht.
      * simpl iterationsFrom. rewrite Hcount, iterationStep_solves. lia.
Qed.

Lemma firstExecute_maxInducedIterations w :
  maxInducedIterations (host (firstExecute w)) = maxInducedIterations (host w).
Proof.
  unfold firstExecute. destruct (hasInitializedScaleFactors (host w)); reflexivity.
Qed.

Lemma inducedLoop_spec w :
  exists n, (n <= Z.to_nat (maxInducedIterations (host w)))%nat /\
    inducedLoop w = iterationsFrom 0 n w /\
    (forall k, (k + 1 < n)%nat -> testFrom 0 k w = false) /\
    ((n < Z.to_nat (maxInducedIterations (host w)))%nat ->
       (1 <= n)%nat /\ testFrom 0 (n - 1) w = true) /\
    solves (trace (inducedLoop w)) = (solves (trace w) + n)%nat.
Proof.
  destruct (inducedIterations_spec (Z.to_nat (maxInducedIterations (host w))) 0 w)
    as (n & Hn & Hres & Hearly & Hstop & Hcount).
  exists n. unfold inducedLoop. change 0%Z with (Z.of_nat 0).
  rewrite Hres. repeat split; try assumption; apply Hstop; assumption.
Qed.

(** The part of [execute] before the loop and the part after it. *)
Definition beforeLoop (h : HostState) : list Event :=
  [Launch computeMomentsKernel]
  ++ (if negb (pmeGridIsInitialized h)
      then onlyIf (gkKernel h) computeBornRadii
           ++ [Launch computeFixedFieldKernel; Launch recordInducedDipolesKernel]
           ++ onlyIf (isExtrapolated h) (computeExtrapolatedDipolesEvents h)
      else fixedMultipolesReciprocal h
           ++ [Launch computeFixedFieldKernel; Launch recordInducedDipolesKernel]
           ++ spreadInducedDipoles h
           ++ onlyIf (isExtrapolated h) (computeExtrapolatedDipolesEvents h)).

Definition afterLoop (h : HostState) : list Event :=
  (if negb (pmeGridIsInitialized h)
   then [Launch electrostaticsKernel] ++ onlyIf (gkKernel h) (finishComputation h)
   else [Launch electrostaticsKernel; Launch (pmeTransformPotentialKernel true);
         Launch pmeInducedForceKernel])
  ++ onlyIf (isExtrapolated h) [Launch addExtrapolatedGradientKernel]
  ++ [Launch mapTorqueKernel; CopyPosqToLastPositions].

Lemma execute_shape w :
  let h := host (firstExecute w) in
  execute w =
    Returned (rofZ 0)
      (withHost (set_multipolesAreValid true)
         (run (afterLoop h) (inducedLoop (run (beforeLoop h) (firstExecute w))))).
Proof.
  cbv zeta. unfold execute, beforeLoop, afterLoop. cbv zeta.
  destruct (pmeGridIsInitialized (host (firstExecute w))); cbn [negb];
    rewrite <- !run_app; reflexivity.
Qed.







(** ** Where the torque is mapped *)

Definition isMapTorque (e : Event) : bool :=
  match e with Launch mapTorqueKernel => true | _ => false end.

Definition noMapTorque (es : list Event) : bool :=
  forallb (fun e => negb (isMapTorque e)) es.

Lemma noMapTorque_app a b : noMapTorque (a ++ b) = noMapTorque a && noMapTorque b.
Proof. apply forallb_app. Qed.

Lemma computeInducedFieldEvents_noMap h : noMapTorque (computeInducedFieldEvents h) = true.
Proof.
  unfold computeInducedFieldEvents, spreadInducedDipoles, computeForwardFFT,
    computeInverseFFT.
  destruct (isExtrapolated h), (gkKernel h), (pmeGridIsInitialized h),
    (useDoublePrecision h); reflexivity.
Qed.

Lemma iterationEvents_noMap h i c : noMapTorque (iterationEvents h i c) = true.
Proof. unfold iterationEvents. destruct (gkKernel h), c; reflexivity. Qed.

Lemma noMapTorque_flat_map {A : Type} (f : A -> list Event) (l : list A) :
  (forall a, noMapTorque (f a) = true) -> noMapTorque (flat_map f l) = true.
Proof.
  intro Hf. induction l as [| a l IH]; [reflexivity |].
  cbn [flat_map]. now rewrite noMapTorque_app, Hf, IH.
Qed.

Lemma computeExtrapolatedDipolesEvents_noMap h :
  noMapTorque (computeExtrapolatedDipolesEvents h) = true.
Proof.
  unfold computeExtrapolatedDipolesEvents.
  rewrite !noMapTorque_app, computeInducedFieldEvents_noMap.
  rewrite noMapTorque_flat_map; [reflexivity |].
  intro order. now rewrite noMapTorque_app, computeInducedFieldEvents_noMap.
Qed.

Lemma iterationsFrom_trace n : forall i w,
  exists es, trace (iterationsFrom i n w) = trace w ++ es /\ noMapTorque es = true.
Proof.
  induction n as [| n IH]; intros i w.
  - exists []. simpl. now rewrite app_nil_r.
  - simpl iterationsFrom.
    destruct (IH (S i) (snd (iterationStep i w))) as (es & Hes & Hno).
    exists (computeInducedFieldEvents (host w)
            ++ iterationEvents (host w) (Z.of_nat i) (fst (iterationStep i w))
            ++ es).
    split.
    + rewrite Hes. unfold iterationStep.
      rewrite iterateDipolesByDIIS_trace, computeInducedField_host.
      unfold computeInducedField at 1. rewrite run_trace.
      now rewrite <- !app_assoc.
    + now rewrite !noMapTorque_app, computeInducedFieldEvents_noMap,
        iterationEvents_noMap, Hno.
Qed.

Lemma firstExecute_trace w :
  trace (firstExecute w)
  = trace w ++ onlyIf (negb (hasInitializedScaleFactors (host w)))
                      [InitializeScaleFactors].
Proof.
  unfold firstExecute. destruct (hasInitializedScaleFactors (host w)); simpl.
  - now rewrite app_nil_r.
  - reflexivity.
Qed.

Lemma beforeLoop_noMap h : noMapTorque (beforeLoop h) = true.
Proof.
  unfold beforeLoop, fixedMultipolesReciprocal, spreadInducedDipoles,
    computeForwardFFT, computeInverseFFT, computeBornRadii.
  pose proof (computeExtrapolatedDipolesEvents_noMap h) as Hx.
  unfold noMapTorque in *.
  destruct (pmeGridIsInitialized h), (gkKernel h), (useDoublePrecision h),
    (isExtrapolated h); cbn [negb onlyIf app forallb isMapTorque andb];
    rewrite ?Hx; reflexivity.
Qed.

(** The launches of [execute] after the loop that precede the mapping. *)
Definition forcesAfterLoop (h : HostState) : list Event :=
  (if negb (pmeGridIsInitialized h)
   then [Launch electrostaticsKernel] ++ onlyIf (gkKernel h) (finishComputation h)
   else [Launch electrostaticsKernel; Launch (pmeTransformPotentialKernel true);
         Launch pmeInducedForceKernel])
  ++ onlyIf (isExtrapolated h) [Launch addExtrapolatedGradientKernel].

Lemma afterLoop_split h :
  afterLoop h = forcesAfterLoop h ++ [Launch mapTorqueKernel; CopyPosqToLastPositions].
Proof. unfold afterLoop, forcesAfterLoop. now rewrite <- !app_assoc. Qed.

Lemma forcesAfterLoop_noMap h : noMapTorque (forcesAfterLoop h) = true.
Proof.
  unfold forcesAfterLoop, finishComputation.
  destruct (pmeGridIsInitialized h), (gkKernel h), (includeSurfaceArea h),
    (isExtrapolated h); reflexivity.
Qed.

(** In [execute] the mapping is the last launch: everything else the
    evaluation launches comes before it, and only the copy of the
    positions follows. *)
Lemma execute_maps_torque_last w :
  let h := host (firstExecute w) in
  exists w' before,
    execute w = Returned (rofZ 0) w' /\
    trace w' = trace w ++ before ++ [Launch mapTorqueKernel; CopyPosqToLastPositions] /\
    noMapTorque before = true /\
    In (Launch electrostaticsKernel) before /\
    (pmeGridIsInitialized h = true ->
       In (Launch pmeFixedForceKernel) before /\
       In (Launch pmeInducedForceKernel) before) /\
    (pmeGridIsInitialized h = false -> gkKernel h = true ->
       In (Launch gkForceKernel) before /\ In (Launch ediffKernel) before) /\
    (isExtrapolated h = true ->
       exists earlier, before = earlier ++ [Launch addExtrapolatedGradientKernel]).
Proof.
  intro h. rewrite execute_shape. fold h.
  destruct (inducedLoop_spec (run (beforeLoop h) (firstExecute w)))
    as (n & _ & Hres & _).
  destruct (iterationsFrom_trace n 0 (run (beforeLoop h) (firstExecute w)))
    as (loop & Hloop & Hnoloop).
  set (first := onlyIf (negb (hasInitializedScaleFactors (host w)))
                       [InitializeScaleFactors]).
  exists (withHost (set_multipolesAreValid true)
            (run (afterLoop h) (inducedLoop (run (beforeLoop h) (firstExecute w))))).
  exists (first ++ beforeLoop h ++ loop ++ forcesAfterLoop h).
  split; [reflexivity |]. split; [| split; [| split; [| split; [| split]]]].
  - cbn [trace withHost]. rewrite run_trace, Hres, Hloop, run_trace,
      firstExecute_trace, afterLoop_split. fold first.
    now rewrite <- !app_assoc.
  - rewrite !noMapTorque_app, beforeLoop_noMap, Hnoloop, forcesAfterLoop_noMap.
    unfold first. destruct (negb _); reflexivity.
  - do 3 (apply in_or_app; right).
    unfold forcesAfterLoop. apply in_or_app. left.
    destruct (negb (pmeGridIsInitialized h)); simpl; auto.
  - intro Hpme. split.
    + apply in_or_app. right. apply in_or_app. left.
      unfold beforeLoop. rewrite Hpme. cbn [negb].
      apply in_or_app. right. apply in_or_app. left.
      unfold fixedMultipolesReciprocal. do 5 (apply in_or_app; right).
      simpl. auto.
    + do 3 (apply in_or_app; right).
      unfold forcesAfterLoop. rewrite Hpme. cbn [negb].
      apply in_or_app. left. simpl. auto.
  - intros Hpme Hgk.
    assert (Hin : forall e, In e (finishComputation h) -> In e
                    (first ++ beforeLoop h ++ loop ++ forcesAfterLoop h)).
    { intros e He. do 3 (apply in_or_app; right).
      unfold forcesAfterLoop. rewrite Hpme, Hgk. cbn [negb onlyIf].
      apply in_or_app. left. apply in_or_app. right. exact He. }
    split; apply Hin; unfold finishComputation;
      destruct (includeSurfaceArea h); simpl; auto.
  - intro Hx.
    exists (first ++ beforeLoop h ++ loop
            ++ (if negb (pmeGridIsInitialized h)
                then [Launch electrostaticsKernel]
                     ++ onlyIf (gkKernel h) (finishComputation h)
                else [Launch electrostaticsKernel;
                      Launch (pmeTransformPotentialKernel true);
                      Launch pmeInducedForceKernel])).
    unfold forcesAfterLoop. rewrite Hx. cbn [onlyIf].
    now rewrite <- !app_assoc.
Qed.

(** ** [ensureMultipolesValid] and the accessors of cached state *)

(** The comparison loop with its [break]: some particle among the first
    [numParticles] has [x], [y] or [z] that compares [!=]. *)
Definition positionsDiffer (numParticles : nat) (pos1 pos2 : list (vec4 T)) : bool :=
  existsb
    (fun i =>
       let p := nth i pos1 (mkVec4 (rofZ 0) (rofZ 0) (rofZ 0) (rofZ 0)) in
       let q := nth i pos2 (mkVec4 (rofZ 0) (rofZ 0) (rofZ 0) (rofZ 0)) in
       negb (reqb (v4x p) (v4x q)) || negb (reqb (v4y p) (v4y q))
       || negb (reqb (v4z p) (v4z q)))
    (seq 0 numParticles).

(** Modelled from the spec: [ContextImpl::calcForcesAndEnergy] is not
    under [src/].  By section 6 of the specification it evaluates the
    forces of the context, which calls [execute] of this kernel (the force
    being in the groups the integrator evaluates). *)
Definition calcForcesAndEnergy (w : World) : Outcome T := execute w.

Definition andThen {A B : Type} (o : Outcome A) (k : A -> World -> Outcome B)
    : Outcome B :=
  match o with
  | Returned a w => k a w
  | Thrown m w => Thrown m w
  end.

Definition ensureMultipolesValid (w : World) : Outcome unit :=
  let w :=
    if multipolesAreValid (host w)
    then if positionsDiffer (numAtoms (host w)) (downloadPosq (dev w))
                            (downloadLastPositions (dev w))
         then withHost (set_multipolesAreValid false) w
         else w
    else w in
  if negb (multipolesAreValid (host w))
  then andThen (calcForcesAndEnergy w) (fun _ w => Returned tt w)
  else Returned tt w.

(** [dipoles.resize(n)] and [dipoles[order[i]] = value(i)] for [i < n]. *)
Definition resize {A : Type} (n : nat) (default : A) (v : list A) : list A :=
  firstn n v ++ repeat default (n - List.length v).

Definition placeByAtomIndex (n : nat) (order : list nat) (value : nat -> vec3 T)
    (dipoles : list (vec3 T)) : list (vec3 T) :=
  fold_left (fun out i => upd out (nth i order 0%nat) (value i)) (seq 0 n)
            (resize n (mkVec3 (rofZ 0) (rofZ 0) (rofZ 0)) dipoles).

Definition zeroVec3 : vec3 T := mkVec3 (rofZ 0) (rofZ 0) (rofZ 0).












(** The copy [cu.getPosq().copyTo(lastPositions)] leaves in
    [lastPositions] what [posq] holds, and leaves [posq] alone. *)
Hypothesis copy_writes_lastPositions :
  forall d, downloadLastPositions (perform CopyPosqToLastPositions d) = downloadPosq d.
Hypothesis copy_keeps_posq :
  forall d, downloadPosq (perform CopyPosqToLastPositions d) = downloadPosq d.

Lemma set_multipolesAreValid_same h :
  set_multipolesAreValid (multipolesAreValid h) h = h.
Proof. destruct h; reflexivity. Qed.

Lemma withHost_same (f : HostState -> HostState) w :
  f (host w) = host w -> withHost f w = w.
Proof. destruct w as [h d t]. unfold withHost. simpl. now intros ->. Qed.

Lemma execute_leaves_valid w :
  exists w', execute w = Returned (rofZ 0) w' /\
    multipolesAreValid (host w') = true /\
    downloadLastPositions (dev w') = downloadPosq (dev w').
Proof.
  rewrite execute_shape. cbv zeta. eexists. split; [reflexivity |].
  split; [reflexivity |].
  rewrite afterLoop_split, run_app. cbn [withHost dev run fold_left emit].
  now rewrite copy_writes_lastPositions, copy_keeps_posq.
Qed.

(** The cache is stale when it was invalidated or some position moved. *)
Definition stale (w : World) : bool :=
  negb (multipolesAreValid (host w))
  || positionsDiffer (numAtoms (host w)) (downloadPosq (dev w))
                     (downloadLastPositions (dev w)).

Lemma ensureMultipolesValid_spec w :
  exists w1,
    ensureMultipolesValid w = Returned tt w1 /\
    (stale w = false -> w1 = w) /\
    (stale w = true ->
       execute (withHost (set_multipolesAreValid false) w) = Returned (rofZ 0) w1 /\
       downloadLastPositions (dev w1) = downloadPosq (dev w1)) /\
    multipolesAreValid (host w1) = true.
Proof.
  unfold ensureMultipolesValid, stale, calcForcesAndEnergy.
  destruct (multipolesAreValid (host w)) eqn:Hvalid; cbn [negb orb].
  - destruct (positionsDiffer _ _ _) eqn:Hdiff.
    + cbn [withHost host set_multipolesAreValid multipolesAreValid negb].
      destruct (execute_leaves_valid (withHost (set_multipolesAreValid false) w))
        as (w1 & Hexec & Hv & Hpos).
      exists w1. unfold withHost in Hexec |- *. rewrite Hexec. cbn [andThen].
      repeat split; try assumption. discriminate.
    + rewrite Hvalid. cbn [negb]. exists w.
      repeat split; try assumption; discriminate.
  - rewrite Hvalid. cbn [negb].
    assert (Hsame : withHost (set_multipolesAreValid false) w = w).
    { apply withHost_same. rewrite <- Hvalid. apply set_multipolesAreValid_same. }
    destruct (execute_leaves_valid w) as (w1 & Hexec & Hv & Hpos).
    exists w1. rewrite Hsame, Hexec. cbn [andThen].
    repeat split; try assumption. discriminate.
Qed.

(** ** What the accessors return *)

(** The loop [dipoles[order[i]] = value(i)] alone, on any vector. *)
Lemma place_length (order : list nat) (value : nat -> vec3 T) (l : list nat) :
  forall out,
    List.length
      (fold_left (fun out i => upd out (nth i order 0%nat) (value i)) l out)
    = List.length out.
Proof.
  induction l as [| i l IH]; intro out; [reflexivity |].
  cbn [fold_left]. now rewrite IH, upd_length.
Qed.

Lemma place_other (order : list nat) (value : nat -> vec3 T) (l : list nat) j d :
  forall out,
    (forall i, In i l -> nth i order 0%nat <> j) ->
    nth j (fold_left (fun out i => upd out (nth i order 0%nat) (value i)) l out) d
    = nth j out d.
Proof.
  induction l as [| i l IH]; intros out Hl; [reflexivity |].
  cbn [fold_left]. rewrite IH by (intros k Hk; apply Hl; now right).
  apply nth_upd_other. apply Hl. now left.
Qed.

Lemma resize_length {A : Type} n (d : A) v :
  List.length (resize n d v) = n.
Proof.
  unfold resize. rewrite length_app, length_firstn, repeat_length. lia.
Qed.

Lemma nth_firstn_lt {A : Type} (l : list A) d : forall n i,
  (i < n)%nat -> nth i (firstn n l) d = nth i l d.
Proof.
  induction l as [| a l IH]; intros n i Hi.
  - now rewrite firstn_nil.
  - destruct n as [| n]; [lia |]. destruct i as [| i]; [reflexivity |].
    cbn. apply IH. lia.
Qed.

(** The entries of [order] below [n] are distinct. *)
Lemma order_injective (order : list nat) n i k :
  (n <= List.length order)%nat -> NoDup (firstn n order) ->
  (i < n)%nat -> (k < n)%nat ->
  nth i order 0%nat = nth k order 0%nat -> i = k.
Proof.
  intros Hlen Hnd Hi Hk Heq.
  rewrite <- (nth_firstn_lt order 0%nat n i Hi) in Heq.
  rewrite <- (nth_firstn_lt order 0%nat n k Hk) in Heq.
  apply (proj1 (NoDup_nth (firstn n order) 0%nat) Hnd);
    rewrite ?length_firstn; first [lia | exact Heq].
Qed.

(** ... and every index below [n] is among them. *)
Lemma order_surjective (order : list nat) n j :
  (n <= List.length order)%nat -> NoDup (firstn n order) ->
  (forall i, (i < n)%nat -> (nth i order 0%nat < n)%nat) ->
  (j < n)%nat -> exists i, (i < n)%nat /\ nth i order 0%nat = j.
Proof.
  intros Hlen Hnd Hrange Hj.
  assert (Hincl : incl (seq 0 n) (firstn n order)).
  { apply NoDup_length_incl.
    - exact Hnd.
    - rewrite length_seq, length_firstn. lia.
    - intros a Ha. apply (In_nth _ _ 0%nat) in Ha.
      destruct Ha as (i & Hi & <-). rewrite length_firstn in Hi.
      rewrite nth_firstn_lt by lia. apply in_seq.
      specialize (Hrange i ltac:(lia)). lia. }
  assert (Hin : In j (firstn n order)) by (apply Hincl, in_seq; lia).
  apply (In_nth _ _ 0%nat) in Hin. destruct Hin as (i & Hi & Hnth).
  rewrite length_firstn in Hi. exists i. split; [lia |].
  rewrite <- Hnth. symmetry. apply nth_firstn_lt. lia.
Qed.

Lemma place_at (order : list nat) (value : nat -> vec3 T) n d :
  (n <= List.length order)%nat -> NoDup (firstn n order) ->
  (forall i, (i < n)%nat -> (nth i order 0%nat < n)%nat) ->
  forall m out i,
    (m <= n)%nat -> List.length out = n -> (i < m)%nat ->
    nth (nth i order 0%nat)
        (fold_left (fun out i => upd out (nth i order 0%nat) (value i))
                   (seq 0 m) out) d
    = value i.
Proof.
  intros Hlen Hnd Hrange. induction m as [| m IH]; intros out i Hm Hout Hi; [lia |].
  rewrite seq_S, fold_left_app. cbn [fold_left plus].
  destruct (Nat.eq_dec i m) as [-> | Hne].
  - apply nth_upd_same. rewrite place_length, Hout. apply Hrange. lia.
  - rewrite nth_upd_other.
    + apply IH; lia.
    + intro Heq. apply Hne. symmetry.
      apply (order_injective order n m i); try assumption; lia.
Qed.










(** ** [copyParametersToContext] *)

(** One entry of the force, as [getMultipoleParameters] returns it; the
    dipole has three components and the quadrupole nine (row major). *)
Record MultipoleParameters : Type := mkMultipole {
  charge : T;
  dipole : list T;
  quadrupole : list T;
  axisType : Z;
  atomZ : Z;
  atomX : Z;
  atomY : Z;
  thole : T;
  damping : T;
  polarity : T }.

(** The host vectors the loop fills, and the pinned buffer it writes. *)
Record HostVectors : Type := mkVectors {
  posqBuffer : list (vec4 T);
  dampingAndTholeVec : list (T * T);
  polarizabilityVec : list T;
  localDipolesVec : list T;
  localQuadrupolesVec : list T;
  multipoleParticlesVec : list (Z * Z * Z * Z) }.

Definition zeroVec4 : vec4 T := mkVec4 (rofZ 0) (rofZ 0) (rofZ 0) (rofZ 0).

Definition setW (c : T) (p : vec4 T) : vec4 T :=
  mkVec4 (v4x p) (v4y p) (v4z p) c.

(** The body of [for (int i = 0; i < force.getNumMultipoles(); i++)]. *)
Definition recordMultipole (double : bool) (v : HostVectors)
    (ip : nat * MultipoleParameters) : HostVectors :=
  let (i, p) := ip in
  let c := if double then charge p else toFloat (charge p) in
  let q := fun j => toFloat (nth j (quadrupole p) (rofZ 0)) in
  mkVectors
    (upd (posqBuffer v) i (setW c (nth i (posqBuffer v) zeroVec4)))
    (dampingAndTholeVec v ++ [(toFloat (damping p), toFloat (thole p))])
    (polarizabilityVec v ++ [toFloat (polarity p)])
    (localDipolesVec v
       ++ map (fun j => toFloat (nth j (dipole p) (rofZ 0))) (seq 0 3))
    (localQuadrupolesVec v ++ [q 0%nat; q 1%nat; q 2%nat; q 4%nat; q 5%nat])
    (multipoleParticlesVec v ++ [(atomX p, atomY p, atomZ p, axisType p)]).

Definition recordMultipoles (double : bool) (force : list MultipoleParameters)
    (buffer : list (vec4 T)) : HostVectors :=
  fold_left (recordMultipole double)
    (combine (seq 0 (List.length force)) force)
    (mkVectors buffer [] [] [] [] []).

(** The body of the padding loop up to [cu.getPaddedNumAtoms()]. *)
Definition padMultipole (v : HostVectors) (i : nat) : HostVectors :=
  mkVectors (posqBuffer v)
    (dampingAndTholeVec v ++ [(rofZ 0, rofZ 0)])
    (polarizabilityVec v ++ [rofZ 0])
    (localDipolesVec v ++ repeat (rofZ 0) 3)
    (localQuadrupolesVec v ++ repeat (rofZ 0) 5)
    (multipoleParticlesVec v ++ [(0, 0, 0, 0)%Z]).

Definition padMultipoles (numMultipoles padded : nat) (v : HostVectors)
    : HostVectors :=
  fold_left padMultipole (seq numMultipoles (padded - numMultipoles)) v.

Definition uploads (v : HostVectors) : list Event :=
  [ Upload dampingAndThole (Pairs (dampingAndTholeVec v));
    Upload polarizability (Reals (polarizabilityVec v));
    Upload multipoleParticles (Int4s (multipoleParticlesVec v));
    Upload localDipoles (Reals (localDipolesVec v));
    Upload localQuadrupoles (Reals (localQuadrupolesVec v));
    Upload posq (Real4s (posqBuffer v)) ].

Local Open Scope string_scope.

Definition countChanged : String.string :=
  "updateParametersInContext: The number of multipoles has changed".
Definition quadrupolesExcluded : String.string :=
  "updateParametersInContext: Cannot set a non-zero quadrupole moment, because quadrupoles were excluded from the kernel".

Local Close Scope string_scope.

(** [q != 0.0] for some [q] of [localQuadrupolesVec]. *)
Definition someNonZero (qs : list T) : bool :=
  existsb (fun q => negb (reqb q (rofZ 0))) qs.

Definition copyParametersToContext (force : list MultipoleParameters)
    (w : World) : Outcome unit :=
  if negb (List.length force =? numAtoms (host w))%nat
  then Thrown countChanged w
  else
    (* cu.getPosq().download(cu.getPinnedBuffer()), then the loop *)
    let v := recordMultipoles (useDoublePrecision (host w)) force
               (downloadPosq (dev w)) in
    let w := withHost (set_pinnedBuffer (posqBuffer v)) w in
    if negb (hasQuadrupoles (host w)) && someNonZero (localQuadrupolesVec v)
    then Thrown quadrupolesExcluded w
    else
      let v := padMultipoles (List.length force) (paddedNumAtoms (host w)) v in
      let w := run (uploads v) w in
      let w := emit InvalidateMolecules w in
      Returned tt (withHost (set_multipolesAreValid false) w).

(** What the loop leaves in [localQuadrupolesVec]: of each quadrupole the
    entries 0, 1, 2, 4 and 5 (xx, xy, xz, yy, yz), narrowed to [float]. *)
Definition storedQuadrupoles (force : list MultipoleParameters) : list T :=
  flat_map
    (fun p => map (fun j => toFloat (nth j (quadrupole p) (rofZ 0)))
                  [0; 1; 2; 4; 5]%nat)
    force.

Lemma recordMultipole_loop double force : forall k v,
  let v' := fold_left (recordMultipole double)
              (combine (seq k (List.length force)) force) v in
  localQuadrupolesVec v' = localQuadrupolesVec v ++ storedQuadrupoles force.
Proof.
  induction force as [| p force IH]; intros k v; cbv zeta.
  - simpl. now rewrite app_nil_r.
  - cbn [List.length seq combine fold_left]. rewrite (IH (S k)).
    cbn [recordMultipole localQuadrupolesVec storedQuadrupoles flat_map map].
    now rewrite <- app_assoc.
Qed.

Lemma recordMultipoles_quadrupoles double force buffer :
  localQuadrupolesVec (recordMultipoles double force buffer)
  = storedQuadrupoles force.
Proof. unfold recordMultipoles. now rewrite recordMultipole_loop. Qed.

(** The device after a run of events. *)
Definition performAll (es : list Event) (d : Device) : Device :=
  fold_left (fun d e => perform e d) es d.

Lemma run_dev es : forall w, dev (run es w) = performAll es (dev w).
Proof.
  unfold run, performAll. induction es as [| e es IH]; intro w; simpl.
  - reflexivity.
  - now rewrite IH.
Qed.

(** C8 (amended).  [copyParametersToContext] throws when the number of
    multipoles differs from the number of atoms, leaving the world as it
    was.  With equal counts it throws when the kernel was built without
    quadrupoles and one of the entries 0, 1, 2, 4, 5 of a supplied
    quadrupole, narrowed to single precision, is non-zero; then the device
    and the list of operations on it are those before the call.  Otherwise
    it returns after the six uploads (damping and Thole, polarizability,
    axis particles, dipoles, quadrupoles, positions with the new charges)
    followed by the invalidation of the molecules, with the cached
    multipoles marked invalid. *)
Theorem copyParametersToContext_checks_before_uploads :
  forall (force : list MultipoleParameters) (w : World),
    let h := host w in
    let rejected :=
      negb (hasQuadrupoles h) && someNonZero (storedQuadrupoles force) in
    let v := padMultipoles (List.length force) (paddedNumAtoms h)
               (recordMultipoles (useDoublePrecision h) force
                  (downloadPosq (dev w))) in
    (List.length force <> numAtoms h ->
       copyParametersToContext force w = Thrown countChanged w) /\
    (List.length force = numAtoms h -> rejected = true ->
       exists w', copyParametersToContext force w = Thrown quadrupolesExcluded w' /\
         dev w' = dev w /\ trace w' = trace w) /\
    (List.length force = numAtoms h -> rejected = false ->
       exists w', copyParametersToContext force w = Returned tt w' /\
         trace w' = trace w ++ uploads v ++ [InvalidateMolecules] /\
         dev w' = perform InvalidateMolecules (performAll (uploads v) (dev w)) /\
         multipolesAreValid (host w') = false).
Proof.
  intros force w h rejected v. unfold copyParametersToContext.
  subst h rejected v. split; [| split].
  - intro Hne. apply Nat.eqb_neq in Hne. now rewrite Hne.
  - intros Heq Hrej. apply Nat.eqb_eq in Heq. rewrite Heq. cbn [negb].
    cbn [withHost host set_pinnedBuffer hasQuadrupoles].
    rewrite recordMultipoles_quadrupoles, Hrej.
    eexists. split; [reflexivity |]. split; reflexivity.
  - intros Heq Hrej. apply Nat.eqb_eq in Heq. rewrite Heq. cbn [negb].
    cbn [withHost host set_pinnedBuffer hasQuadrupoles paddedNumAtoms].
    rewrite recordMultipoles_quadrupoles, Hrej.
    eexists. split; [reflexivity |].
    cbn [withHost trace dev host emit set_multipolesAreValid multipolesAreValid].
    rewrite run_trace, run_dev. cbn [trace dev].
    rewrite <- app_assoc. repeat split.
Qed.

End Model.

Arguments Returned {T Device A} value w.
Arguments Thrown {T Device A} message w.

(** ** A small device to run the host code on

    single precision narrowing of a binary64 value, round to nearest even
    with gradual underflow, as [(float) x] computes it. *)
Definition to_single (x : float) : float :=
  match FloatOps.Prim2SF x with
  | SpecFloat.S754_finite s m e =>
      FloatOps.SF2Prim
        (SpecFloat.binary_normalize 24 128 (if s then Z.neg m else Z.pos m) e s)
  | _ => x
  end.

(** The device holds [posq] and [lastPositions]; the other arrays are not
    looked at by the samples. *)
Definition SampleDevice : Type := (list (vec4 float) * list (vec4 float))%type.

Definition samplePerform (e : @Event float) (d : SampleDevice) : SampleDevice :=
  match e with
  | CopyPosqToLastPositions => (fst d, fst d)
  | Upload posq (Real4s data) => (data, snd d)
  | _ => d
  end.

Definition zf : float := float_of_Z 0.

(** One atom, padded to two; direct polarization, no PME, no GK; the kernel
    was built without quadrupoles; the cache is valid for the position
    [(0, 0, 0)] and the atom now sits at [(1, 0, 0)]. *)
Definition sampleHost : @HostState float :=
  mkHost Direct 0 (dec 1 100000) 0 false false true false false false false
    true false true 1 2 1 [0%nat] [].

Definition sampleWorld : World SampleDevice :=
  mkWorld SampleDevice sampleHost
    ([mkVec4 (float_of_Z 1) zf zf zf; mkVec4 zf zf zf zf],
     [mkVec4 zf zf zf zf; mkVec4 zf zf zf zf])
    [].




(** Two quadrupoles with a non-zero component: the first has only its last
    entry (zz) set; the second is symmetric and traceless with
    [xx = 2^-200], [yy = -2^-200], which single precision narrows to zero. *)
Definition tiny : float := FloatOps.Z.ldexp (float_of_Z 1) (-200).

Definition sampleMultipole (q : list float) : @MultipoleParameters float :=
  mkMultipole (dec 5 10) [zf; zf; zf] q 0 (-1) (-1) (-1) zf zf zf.

Definition onlyZZ : list float :=
  [zf; zf; zf; zf; zf; zf; zf; zf; float_of_Z 1].
Definition tinyTraceless : list float :=
  [tiny; zf; zf; zf; PrimFloat.opp tiny; zf; zf; zf; zf].

Definition accepted (q : list float) : bool :=
  match copyParametersToContext SampleDevice samplePerform fst to_single
          [sampleMultipole q] sampleWorld with
  | Returned _ w =>
      negb (hasQuadrupoles (host SampleDevice w))
      && (List.length (trace SampleDevice w) =? 7)%nat
  | Thrown _ _ => false
  end.

(** C8, as the claim words it, fails: the kernel was built without
    quadrupoles, a supplied quadrupole component is non-zero, and the call
    returns after its uploads instead of throwing. *)
Lemma copyParametersToContext_accepts_nonzero_component :
  hasQuadrupoles sampleHost = false /\
  someNonZero onlyZZ = true /\ accepted onlyZZ = true /\
  someNonZero tinyTraceless = true /\ accepted tinyTraceless = true.
Proof. vm_compute. repeat split. Qed.

End Host.

(* ------------------------------------------------------------------ *)
(** * The HIPPO kernel ([CudaCalcHippoNonbondedForceKernel]) *)

Module Hippo.

Inductive Plan : Type := fftForward | fftBackward | dfftForward | dfftBackward.

Inductive Buffer : Type := pmeGrid1 | pmeGrid2 | inducedField.

(** The kernels and library calls of the class, and the interaction kernel
    of the nonbonded utilities to which [initialize] adds the HIPPO
    interaction with [torqueBuffers] among its arguments. *)
Inductive Kernel : Type :=
  | computeMomentsKernel | recordInducedDipolesKernel | mapTorqueKernel
  | fixedFieldKernel | fixedFieldExceptionKernel
  | mutualFieldKernel | mutualFieldExceptionKernel
  | computeExceptionsKernel
  | pmeTransformMultipolesKernel | pmeSpreadFixedMultipolesKernel
  | pmeFinishSpreadChargeKernel | pmeConvolutionKernel
  | pmeFixedPotentialKernel | pmeFixedForceKernel
  | pmeTransformPotentialKernel (induced : bool)
  | pmeSpreadInducedDipolesKernel | pmeInducedPotentialKernel (optOrder : Z)
  | pmeInducedForceKernel | pmeRecordInducedFieldDipolesKernel
  | pmeSelfEnergyKernel
  | dpmeGridIndexKernel | dpmeSpreadChargeKernel | dpmeFinishSpreadChargeKernel
  | dpmeEvalEnergyKernel | dpmeConvolutionKernel | dpmeInterpolateForceKernel
  | cufftExecD2Z (plan : Plan) | cufftExecR2C (plan : Plan)
  | cufftExecZ2D (plan : Plan) | cufftExecC2R (plan : Plan)
  | initExtrapolatedKernel | iterateExtrapolatedKernel (order : Z)
  | computeExtrapolatedKernel | polarizationEnergyKernel
  | nonbondedInteractionKernel.

Inductive Event : Type :=
  | Launch (k : Kernel)
  | Clear (b : Buffer)
  | SortAtomGridIndex
  | CopyPosqToLastPositions.

(** The kernels given the [torque] array: [pmeFixedForceArgs],
    [pmeInducedForceArgs], [pmeSelfEnergyArgs], [computeExceptionsArgs]
    and the [torqueBuffers] argument of the nonbonded interaction. *)
Definition accumulatesTorque (k : Kernel) : bool :=
  match k with
  | pmeFixedForceKernel | pmeInducedForceKernel | pmeSelfEnergyKernel
  | computeExceptionsKernel | nonbondedInteractionKernel => true
  | _ => false
  end.

Record HostState : Type := mkHost {
  usePME : bool;
  useDoublePrecision : bool;
  exceptionAtomsInitialized : bool;   (* exceptionAtoms.isInitialized() *)
  maxExtrapolationOrder : Z }.

Definition onlyIf (c : bool) (es : list Event) : list Event :=
  if c then es else [].

Definition forwardFFT (h : HostState) (plan : Plan) : list Event :=
  if useDoublePrecision h then [Launch (cufftExecD2Z plan)]
  else [Launch (cufftExecR2C plan)].

Definition backwardFFT (h : HostState) (plan : Plan) : list Event :=
  if useDoublePrecision h then [Launch (cufftExecZ2D plan)]
  else [Launch (cufftExecC2R plan)].

Definition computeInducedField (h : HostState) (optOrder : Z) : list Event :=
  [Clear inducedField; Launch mutualFieldKernel]
  ++ onlyIf (exceptionAtomsInitialized h) [Launch mutualFieldExceptionKernel]
  ++ onlyIf (usePME h)
       ([Clear pmeGrid1; Launch pmeSpreadInducedDipolesKernel]
        ++ onlyIf (useDoublePrecision h) [Launch pmeFinishSpreadChargeKernel]
        ++ forwardFFT h fftForward
        ++ [Launch pmeConvolutionKernel]
        ++ backwardFFT h fftBackward
        ++ [Launch (pmeInducedPotentialKernel optOrder);
            Launch pmeRecordInducedFieldDipolesKernel]).

Definition extrapolationOrders (h : HostState) : list Z :=
  map Z.of_nat (seq 1 (Z.to_nat (maxExtrapolationOrder h - 1))).

Definition computeExtrapolatedDipoles (h : HostState) : list Event :=
  [Launch recordInducedDipolesKernel; Launch initExtrapolatedKernel]
  ++ flat_map (fun order => computeInducedField h (order - 1)
                            ++ [Launch (iterateExtrapolatedKernel order)])
              (extrapolationOrders h)
  ++ [Launch computeExtrapolatedKernel]
  ++ computeInducedField h (maxExtrapolationOrder h - 1).

Definition reciprocalSpace (h : HostState) (includeEnergy : bool) : list Event :=
  [Launch pmeTransformMultipolesKernel; Launch pmeSpreadFixedMultipolesKernel]
  ++ onlyIf (useDoublePrecision h) [Launch pmeFinishSpreadChargeKernel]
  ++ forwardFFT h fftForward
  ++ [Launch pmeConvolutionKernel]
  ++ backwardFFT h fftBackward
  ++ [Launch pmeFixedPotentialKernel; Launch (pmeTransformPotentialKernel false);
      Launch pmeFixedForceKernel]
  ++ [Launch dpmeGridIndexKernel; SortAtomGridIndex; Clear pmeGrid2;
      Launch dpmeSpreadChargeKernel; Launch dpmeFinishSpreadChargeKernel]
  ++ forwardFFT h dfftForward
  ++ onlyIf includeEnergy [Launch dpmeEvalEnergyKernel]
  ++ [Launch dpmeConvolutionKernel]
  ++ backwardFFT h dfftBackward
  ++ [Launch dpmeInterpolateForceKernel].

(** The launches of [execute], in order; it returns [0.0] after them. *)
Definition execute (h : HostState) (includeEnergy : bool) : list Event :=
  [Launch computeMomentsKernel]
  ++ onlyIf (usePME h) (reciprocalSpace h includeEnergy)
  ++ [Launch fixedFieldKernel]
  ++ onlyIf (exceptionAtomsInitialized h) [Launch fixedFieldExceptionKernel]
  ++ computeExtrapolatedDipoles h
  ++ onlyIf includeEnergy [Launch polarizationEnergyKernel]
  ++ onlyIf (usePME h)
       [Launch (pmeTransformPotentialKernel true); Launch pmeInducedForceKernel;
        Launch pmeSelfEnergyKernel]
  ++ onlyIf (exceptionAtomsInitialized h) [Launch computeExceptionsKernel]
  ++ [CopyPosqToLastPositions].

Definition addTorquesToForces : list Event := [Launch mapTorqueKernel].

(** [TorquePostComputation::computeForceAndEnergy]. *)
Definition postComputation : list Event := addTorquesToForces.

(** Modelled from the spec: the context's force evaluation is not under
    [src/].  By sections 4.6 and 4.7 of the specification the mapping of
    the torques closes the evaluation: the context first calls [execute]
    of the force, then runs the interaction kernel of its nonbonded
    utilities, and last the post-computations registered with
    [addPostComputation]. *)
Definition forceEvaluation (h : HostState) (includeEnergy : bool) : list Event :=
  execute h includeEnergy
  ++ [Launch nonbondedInteractionKernel]
  ++ postComputation.

Definition isMapTorque (e : Event) : bool :=
  match e with Launch mapTorqueKernel => true | _ => false end.

Definition isTorqueSource (e : Event) : bool :=
  match e with Launch k => accumulatesTorque k | _ => false end.

Definition noMapTorque (es : list Event) : bool :=
  forallb (fun e => negb (isMapTorque e)) es.

Lemma noMapTorque_concat es1 es2 :
  noMapTorque (es1 ++ es2) = noMapTorque es1 && noMapTorque es2.
Proof. apply forallb_app. Qed.

Lemma noMapTorque_onlyIf c es :
  noMapTorque es = true -> noMapTorque (onlyIf c es) = true.
Proof. destruct c; [trivial | reflexivity]. Qed.

Lemma computeInducedField_noMap h o : noMapTorque (computeInducedField h o) = true.
Proof.
  unfold computeInducedField, forwardFFT, backwardFFT.
  destruct (exceptionAtomsInitialized h), (usePME h), (useDoublePrecision h);
    reflexivity.
Qed.

Lemma computeExtrapolatedDipoles_noMap h :
  noMapTorque (computeExtrapolatedDipoles h) = true.
Proof.
  unfold computeExtrapolatedDipoles.
  rewrite !noMapTorque_concat, computeInducedField_noMap.
  cbn [noMapTorque forallb isMapTorque negb andb]. rewrite andb_true_r.
  induction (extrapolationOrders h) as [| o os IH]; [reflexivity |].
  cbn [flat_map]. rewrite !noMapTorque_concat, computeInducedField_noMap, IH.
  reflexivity.
Qed.

Lemma reciprocalSpace_noMap h e : noMapTorque (reciprocalSpace h e) = true.
Proof.
  unfold reciprocalSpace, forwardFFT, backwardFFT.
  destruct (useDoublePrecision h), e; reflexivity.
Qed.

Lemma execute_noMap h e : noMapTorque (execute h e) = true.
Proof.
  unfold execute.
  rewrite !noMapTorque_concat, computeExtrapolatedDipoles_noMap.
  rewrite (noMapTorque_onlyIf (usePME h) _ (reciprocalSpace_noMap h e)).
  destruct (usePME h), (exceptionAtomsInitialized h), e; reflexivity.
Qed.

End Hippo.

(* ------------------------------------------------------------------ *)
(** * Extrapolated polarization *)

Module Extrapolation.

Section Machine.

Context {T : Type} `{RealOps T}.
Local Open Scope ops_scope.

(** [3*NUM_ATOMS] components per array; the polarizability and the field
    of the fixed multipoles, one entry per component; the induced-field
    operator (the field that given induced dipoles produce); the
    coefficients [force.getExtrapolationCoefficients()]. *)
Variable numComponents : nat.
Variable polarizability : list T.
Variable fixedField : list T.
Variable fieldOf : list T -> list T.
Variable coefficients : list T.

(** [initialize]: the order and the coefficient sums handed to the kernels
    as [MAX_EXTRAPOLATION_ORDER] and [EXTRAPOLATION_COEFFICIENTS_SUM]. *)
Definition maxExtrapolationOrder : nat := List.length coefficients.

Definition coefficientSum (i : nat) : T :=
  fold_left (fun sum j => sum + nth j coefficients (rofZ 0))
            (seq i (maxExtrapolationOrder - i)) (rofZ 0).

Definition EXTRAPOLATION_COEFFICIENTS_SUM : list T :=
  map coefficientSum (seq 0 maxExtrapolationOrder).

(** [maxInducedIterations] as [initialize] sets it. *)
Definition initialMaxInducedIterations (p : Host.PolarizationType)
    (mutualInducedMaxIterations : Z) : Z :=
  match p with
  | Host.Mutual => mutualInducedMaxIterations
  | _ => 0%Z
  end.

(** The arrays the extrapolation works on, and a count of the evaluations
    of the induced field. *)
Record State : Type := mkState {
  inducedDipole : list T;
  inducedField : list T;
  extrapolatedDipole : list (list T);   (* one block per order *)
  fieldEvaluations : nat }.

Inductive Step : Type :=
  | RecordDirect | Init | Evaluate | Iterate (order : Z) | Combine.

Definition times (a b : list T) : list T :=
  map (fun p => fst p * snd p) (combine a b).

Definition plus (a b : list T) : list T :=
  map (fun p => fst p + snd p) (combine a b).

Definition scaled (v : list T) (c : T) : list T := map (fun x => x * c) v.

(** Modelled from the spec: the combination kernel is not under [src/];
    the final dipole is the weighted sum of the stored orders,
    [sum += extrapolatedDipole[order]*coeff[order]] with the coefficient
    sums as weights. *)
Definition combineOrders (history : list (list T)) : list T :=
  fold_left
    (fun sum order =>
       plus sum (scaled (nth order history [])
                        (nth order EXTRAPOLATION_COEFFICIENTS_SUM (rofZ 0))))
    (seq 0 maxExtrapolationOrder)
    (repeat (rofZ 0) numComponents).

(** Modelled from the spec: the device kernels are not under [src/].  By
    section 4.5 of the specification and the comments of
    [computeExtrapolatedDipoles]: the direct dipole is the polarizability
    times the fixed field; it is stored as order 0; an evaluation leaves in
    [inducedField] the field of the current induced dipoles; an iteration
    stores the polarizability times that field as the dipole of its order;
    the final dipole is the combination of the stored orders weighted by
    the coefficient sums. *)
Definition step (s : Step) (d : State) : State :=
  match s with
  | RecordDirect =>
      mkState (times polarizability fixedField) (inducedField d)
              (extrapolatedDipole d) (fieldEvaluations d)
  | Init =>
      mkState (inducedDipole d) (inducedField d)
              (upd (extrapolatedDipole d) 0 (inducedDipole d))
              (fieldEvaluations d)
  | Evaluate =>
      mkState (inducedDipole d) (fieldOf (inducedDipole d))
              (extrapolatedDipole d) (S (fieldEvaluations d))
  | Iterate order =>
      let mu := times polarizability (inducedField d) in
      mkState mu (inducedField d)
              (upd (extrapolatedDipole d) (Z.to_nat order) mu)
              (fieldEvaluations d)
  | Combine =>
      mkState (combineOrders (extrapolatedDipole d)) (inducedField d)
              (extrapolatedDipole d) (fieldEvaluations d)
  end.

Definition steps (ss : list Step) (d : State) : State :=
  fold_left (fun d s => step s d) ss d.

(** Modelled from the spec: which launch of the AMOEBA kernel stands for
    which step (the kernels themselves are not under [src/]; the names and
    the comments of the host code tell them apart).  The induced field is
    complete when the block of [computeInducedField] ends; its evaluation
    is counted at the launch of the direct-space field kernel of the
    block. *)
Definition amoebaStep (e : @Host.Event T) : list Step :=
  match e with
  | Host.Launch Host.recordInducedDipolesKernel => [RecordDirect]
  | Host.Launch Host.initExtrapolatedKernel => [Init]
  | Host.Launch Host.computeInducedFieldKernel => [Evaluate]
  | Host.Launch (Host.iterateExtrapolatedKernel order) => [Iterate order]
  | Host.Launch Host.computeExtrapolatedKernel => [Combine]
  | _ => []
  end.

(** Modelled from the spec: the same for the launches of the HIPPO
    kernel. *)
Definition hippoStep (e : Hippo.Event) : list Step :=
  match e with
  | Hippo.Launch Hippo.recordInducedDipolesKernel => [RecordDirect]
  | Hippo.Launch Hippo.initExtrapolatedKernel => [Init]
  | Hippo.Launch Hippo.mutualFieldKernel => [Evaluate]
  | Hippo.Launch (Hippo.iterateExtrapolatedKernel order) => [Iterate order]
  | Hippo.Launch Hippo.computeExtrapolatedKernel => [Combine]
  | _ => []
  end.

Definition perform (e : @Host.Event T) (d : State) : State :=
  steps (amoebaStep e) d.

(** The dipole of each order: [alphaT] applied [k] times to the direct one. *)
Definition alphaT (mu : list T) : list T := times polarizability (fieldOf mu).

Definition directDipole : list T := times polarizability fixedField.

Definition orderDipoles (n : nat) : list (list T) :=
  map (fun k => Nat.iter k alphaT directDipole) (seq 0 n).

(** The schedule: order 0, then one evaluation and one iteration per
    further order, the combination, and one evaluation for the result. *)
Definition schedule : list Step :=
  [RecordDirect; Init]
  ++ flat_map (fun order => [Evaluate; Iterate order])
              (map Z.of_nat (seq 1 (maxExtrapolationOrder - 1)))
  ++ [Combine; Evaluate].

(** What the extrapolation leaves, starting from [d]: every order's
    dipole stored, the induced dipole their weighted combination, the
    induced field that of the final dipole, and one evaluation of the field
    per order after the first plus the one for the result. *)
Definition Extrapolated (d d' : State) : Prop :=
  extrapolatedDipole d' = orderDipoles maxExtrapolationOrder /\
  inducedDipole d' = combineOrders (orderDipoles maxExtrapolationOrder) /\
  inducedField d' = fieldOf (inducedDipole d') /\
  fieldEvaluations d'
  = (fieldEvaluations d + (maxExtrapolationOrder - 1) + 1)%nat.

Lemma steps_app ss1 ss2 d : steps (ss1 ++ ss2) d = steps ss2 (steps ss1 d).
Proof. apply fold_left_app. Qed.

Lemma upd_middle {A : Type} (l1 l2 : list A) x v :
  upd (l1 ++ x :: l2) (List.length l1) v = l1 ++ v :: l2.
Proof. induction l1 as [| a l1 IH]; simpl; [reflexivity | now rewrite IH]. Qed.

Lemma skipn_next {A : Type} (l : list A) : forall j,
  (j < List.length l)%nat -> exists x, skipn j l = x :: skipn (S j) l.
Proof.
  induction l as [| a l IH]; intros j Hj; simpl in Hj; [lia |].
  destruct j as [| j]; [now exists a |].
  destruct (IH j ltac:(lia)) as [x Hx]. exists x. exact Hx.
Qed.

Lemma orderDipoles_length n : List.length (orderDipoles n) = n.
Proof. unfold orderDipoles. now rewrite length_map, length_seq. Qed.

Lemma orderDipoles_S n :
  orderDipoles (S n) = orderDipoles n ++ [Nat.iter n alphaT directDipole].
Proof. unfold orderDipoles. now rewrite seq_S, map_app. Qed.

(** The loop over the orders, from order [j + 1] on. *)
Lemma orders_loop (history : list (list T)) (evaluations : nat) :
  forall n j field,
    (j + n < List.length history)%nat ->
    exists field',
      steps (flat_map (fun order => [Evaluate; Iterate order])
                      (map Z.of_nat (seq (S j) n)))
            (mkState (Nat.iter j alphaT directDipole) field
                     (orderDipoles (S j) ++ skipn (S j) history)
                     (evaluations + j))
      = mkState (Nat.iter (j + n) alphaT directDipole) field'
                (orderDipoles (S (j + n)) ++ skipn (S (j + n)) history)
                (evaluations + (j + n)).
Proof.
  induction n as [| n IH]; intros j field Hj.
  - exists field. rewrite Nat.add_0_r. reflexivity.
  - cbn [seq map flat_map app]. unfold steps. cbn [fold_left step].
    cbn [inducedDipole inducedField extrapolatedDipole fieldEvaluations].
    rewrite Nat2Z.id.
    destruct (skipn_next history (S j) ltac:(lia)) as [x Hx]. rewrite Hx.
    pose proof (upd_middle (orderDipoles (S j)) (skipn (S (S j)) history) x
                  (times polarizability (fieldOf (Nat.iter j alphaT directDipole))))
      as Hupd.
    rewrite orderDipoles_length in Hupd. rewrite Hupd. clear Hupd.
    change (times polarizability (fieldOf (Nat.iter j alphaT directDipole)))
      with (Nat.iter (S j) alphaT directDipole).
    replace (orderDipoles (S j) ++ Nat.iter (S j) alphaT directDipole
               :: skipn (S (S j)) history)
      with (orderDipoles (S (S j)) ++ skipn (S (S j)) history)
      by (rewrite (orderDipoles_S (S j)), <- app_assoc; reflexivity).
    replace (S (evaluations + j)) with (evaluations + S j)%nat by lia.
    destruct (IH (S j) (fieldOf (Nat.iter j alphaT directDipole)) ltac:(lia))
      as [field' Hrun].
    exists field'. unfold steps in Hrun. rewrite Hrun.
    replace (S j + n)%nat with (j + S n)%nat by lia. reflexivity.
Qed.

Lemma steps_schedule d :
  List.length (extrapolatedDipole d) = maxExtrapolationOrder ->
  Extrapolated d (steps schedule d).
Proof.
  unfold Extrapolated, schedule. destruct d as [mu field history evaluations].
  cbn [extrapolatedDipole fieldEvaluations].
  destruct maxExtrapolationOrder as [| m] eqn:Hmax; intro Hlen.
  - destruct history; [| discriminate]. cbn. repeat split. lia.
  - destruct history as [| first history]; [discriminate |].
    replace (S m - 1)%nat with m by lia. rewrite !steps_app.
    change (steps [RecordDirect; Init]
              (mkState mu field (first :: history) evaluations))
      with (mkState (Nat.iter 0 alphaT directDipole) field
              (orderDipoles 1 ++ skipn 1 (first :: history)) evaluations).
    destruct (orders_loop (first :: history) evaluations m 0 field) as [field' Hrun].
    { simpl in Hlen |- *. lia. }
    rewrite Nat.add_0_r in Hrun. rewrite Hrun.
    rewrite skipn_all2 by (simpl in Hlen |- *; lia). rewrite app_nil_r.
    cbn. repeat split. lia.
Qed.

(** The sum of the coefficients from index [i] through the last. *)
Lemma coefficientSum_suffix i :
  coefficientSum i = fold_left radd (skipn i coefficients) (rofZ 0).
Proof.
  unfold coefficientSum, maxExtrapolationOrder.
  assert (Hgen : forall (l pre : list T) acc,
             fold_left (fun sum j => sum + nth j (pre ++ l) (rofZ 0))
                       (seq (List.length pre) (List.length l)) acc
             = fold_left radd l acc).
  { induction l as [| x l IH]; intros pre acc; [reflexivity |].
    cbn [List.length seq fold_left]. rewrite nth_middle.
    specialize (IH (pre ++ [x]) (acc + x)).
    rewrite <- app_assoc, length_app, Nat.add_comm in IH. exact IH. }
  destruct (Nat.le_gt_cases i (List.length coefficients)) as [Hi | Hi].
  - specialize (Hgen (skipn i coefficients) (firstn i coefficients) (rofZ 0)).
    rewrite firstn_skipn, length_skipn, length_firstn, Nat.min_l in Hgen by exact Hi.
    exact Hgen.
  - rewrite skipn_all2 by lia.
    replace (List.length coefficients - i)%nat with 0%nat by lia. reflexivity.
Qed.

(** ** The launches of the two kernels as steps on the arrays *)

Lemma performAll_steps es : forall d,
  Host.performAll State perform es d = steps (flat_map amoebaStep es) d.
Proof.
  induction es as [| e es IH]; intro d; [reflexivity |].
  cbn [flat_map]. rewrite steps_app, <- IH. reflexivity.
Qed.

Ltac by_flags h :=
  destruct h; cbn;
  repeat match goal with
         | |- context [if ?b then _ else _] => destruct b; cbn
         | |- context [match ?p with Host.Mutual => _ | _ => _ end] =>
             destruct p; cbn
         end;
  reflexivity.

Lemma amoeba_computeInducedField (h : @Host.HostState T) :
  flat_map amoebaStep (Host.computeInducedFieldEvents h) = [Evaluate].
Proof.
  unfold Host.computeInducedFieldEvents, Host.spreadInducedDipoles,
    Host.computeForwardFFT, Host.computeInverseFFT, Host.isExtrapolated,
    Host.PolarizationType_eqb, Host.onlyIf.
  by_flags h.
Qed.

Lemma amoeba_orders (h : @Host.HostState T) (orders : list Z) :
  flat_map amoebaStep
    (flat_map (fun order => Host.computeInducedFieldEvents h
                            ++ [Host.Launch (Host.iterateExtrapolatedKernel order)])
              orders)
  = flat_map (fun order => [Evaluate; Iterate order]) orders.
Proof.
  induction orders as [| o os IH]; [reflexivity |].
  cbn [flat_map]. rewrite !flat_map_app, amoeba_computeInducedField, IH.
  reflexivity.
Qed.

Lemma amoeba_computeExtrapolatedDipoles (h : @Host.HostState T) :
  flat_map amoebaStep (Host.computeExtrapolatedDipolesEvents h)
  = [Init]
    ++ flat_map (fun order => [Evaluate; Iterate order]) (Host.extrapolationOrders h)
    ++ [Combine; Evaluate].
Proof.
  unfold Host.computeExtrapolatedDipolesEvents.
  rewrite !flat_map_app, amoeba_orders, amoeba_computeInducedField. reflexivity.
Qed.

Lemma amoeba_beforeLoop (h : @Host.HostState T) :
  Host.isExtrapolated h = true ->
  flat_map amoebaStep (Host.beforeLoop h)
  = [RecordDirect] ++ flat_map amoebaStep (Host.computeExtrapolatedDipolesEvents h).
Proof.
  intro Hext. unfold Host.beforeLoop. rewrite Hext. cbn [Host.onlyIf].
  assert (Hfixed : flat_map amoebaStep (Host.fixedMultipolesReciprocal h) = []).
  { unfold Host.fixedMultipolesReciprocal, Host.computeForwardFFT,
      Host.computeInverseFFT, Host.onlyIf. by_flags h. }
  assert (Hspread : flat_map amoebaStep (Host.spreadInducedDipoles h) = []).
  { unfold Host.spreadInducedDipoles, Host.computeForwardFFT,
      Host.computeInverseFFT, Host.onlyIf. by_flags h. }
  destruct (Host.pmeGridIsInitialized h); cbn [negb];
    rewrite !flat_map_app, ?Hfixed, ?Hspread.
  - reflexivity.
  - destruct (Host.gkKernel h); reflexivity.
Qed.

Lemma amoeba_afterLoop (h : @Host.HostState T) :
  flat_map amoebaStep (Host.afterLoop h) = [].
Proof.
  unfold Host.afterLoop, Host.finishComputation, Host.isExtrapolated,
    Host.PolarizationType_eqb, Host.onlyIf.
  by_flags h.
Qed.

Lemma extrapolationOrders_amoeba (h : @Host.HostState T) :
  Host.maxExtrapolationOrder h = Z.of_nat maxExtrapolationOrder ->
  Host.extrapolationOrders h
  = map Z.of_nat (seq 1 (maxExtrapolationOrder - 1)).
Proof.
  intro Hmax. unfold Host.extrapolationOrders. rewrite Hmax.
  replace (Z.to_nat (Z.of_nat maxExtrapolationOrder - 1))
    with (maxExtrapolationOrder - 1)%nat by lia.
  reflexivity.
Qed.

Lemma firstExecute_extrapolation (w : Host.World State) :
  let w1 := Host.firstExecute State perform w in
  Host.dev State w1 = Host.dev State w /\
  Host.isExtrapolated (Host.host State w1) = Host.isExtrapolated (Host.host State w) /\
  Host.maxExtrapolationOrder (Host.host State w1)
  = Host.maxExtrapolationOrder (Host.host State w).
Proof.
  cbv zeta. unfold Host.firstExecute.
  destruct (Host.hasInitializedScaleFactors (Host.host State w)); repeat split.
Qed.

(** [execute] of the AMOEBA kernel with Extrapolated polarization. *)
Lemma amoeba_execute_extrapolated (w : Host.World State) (m : Z) :
  Host.polarizationType (Host.host State w) = Host.Extrapolated ->
  Host.maxInducedIterations (Host.host State w)
  = initialMaxInducedIterations Host.Extrapolated m ->
  Host.maxExtrapolationOrder (Host.host State w) = Z.of_nat maxExtrapolationOrder ->
  List.length (extrapolatedDipole (Host.dev State w)) = maxExtrapolationOrder ->
  exists w' events,
    (forall downloadErrors,
       Host.execute State perform downloadErrors w = Host.Returned (rofZ 0) w') /\
    Host.trace State w' = Host.trace State w ++ events /\
    flat_map amoebaStep events = schedule /\
    Extrapolated (Host.dev State w) (Host.dev State w').
Proof.
  intros Hpol Hcap Hmax Hlen.
  destruct (firstExecute_extrapolation w) as (Hdev & Hext & Hmax1).
  set (w1 := Host.firstExecute State perform w) in *.
  set (h := Host.host State w1).
  assert (Hext1 : Host.isExtrapolated h = true).
  { unfold h. rewrite Hext. unfold Host.isExtrapolated. now rewrite Hpol. }
  assert (Hsteps : flat_map amoebaStep (Host.beforeLoop h ++ Host.afterLoop h)
                   = schedule).
  { rewrite flat_map_app, amoeba_afterLoop, app_nil_r, (amoeba_beforeLoop h Hext1),
      amoeba_computeExtrapolatedDipoles, extrapolationOrders_amoeba
      by (unfold h; now rewrite Hmax1).
    reflexivity. }
  exists (Host.withHost State (Host.set_multipolesAreValid true)
            (Host.run State perform (Host.beforeLoop h ++ Host.afterLoop h) w1)).
  exists (Host.onlyIf (negb (Host.hasInitializedScaleFactors (Host.host State w)))
            [Host.InitializeScaleFactors]
          ++ Host.beforeLoop h ++ Host.afterLoop h).
  split; [| split; [| split]].
  - intro downloadErrors. rewrite Host.execute_shape. cbv zeta. fold w1. fold h.
    unfold Host.inducedLoop.
    rewrite Host.run_host. unfold w1 at 1.
    rewrite Host.firstExecute_maxInducedIterations, Hcap. cbn [Host.inducedIterations
      initialMaxInducedIterations Z.to_nat].
    now rewrite Host.run_app.
  - cbn [Host.withHost Host.trace]. rewrite Host.run_trace. unfold w1.
    now rewrite Host.firstExecute_trace, <- app_assoc.
  - rewrite flat_map_app, Hsteps.
    destruct (Host.hasInitializedScaleFactors (Host.host State w)); reflexivity.
  - cbn [Host.withHost Host.dev]. rewrite Host.run_dev, performAll_steps, Hsteps.
    rewrite Hdev. apply steps_schedule. exact Hlen.
Qed.

Lemma hippo_computeInducedField h optOrder :
  flat_map hippoStep (Hippo.computeInducedField h optOrder) = [Evaluate].
Proof.
  unfold Hippo.computeInducedField, Hippo.forwardFFT, Hippo.backwardFFT,
    Hippo.onlyIf.
  by_flags h.
Qed.

Lemma hippo_orders h (orders : list Z) :
  flat_map hippoStep
    (flat_map (fun order => Hippo.computeInducedField h (order - 1)
                            ++ [Hippo.Launch (Hippo.iterateExtrapolatedKernel order)])
              orders)
  = flat_map (fun order => [Evaluate; Iterate order]) orders.
Proof.
  induction orders as [| o os IH]; [reflexivity |].
  cbn [flat_map]. rewrite !flat_map_app, hippo_computeInducedField, IH.
  reflexivity.
Qed.

Lemma hippo_execute h includeEnergy :
  Hippo.maxExtrapolationOrder h = Z.of_nat maxExtrapolationOrder ->
  flat_map hippoStep (Hippo.execute h includeEnergy) = schedule.
Proof.
  intro Hmax. unfold Hippo.execute, Hippo.computeExtrapolatedDipoles.
  assert (Hrecip : flat_map hippoStep (Hippo.reciprocalSpace h includeEnergy) = []).
  { unfold Hippo.reciprocalSpace, Hippo.forwardFFT, Hippo.backwardFFT,
      Hippo.onlyIf.
    destruct includeEnergy; by_flags h. }
  assert (Hpre : flat_map hippoStep
                   (Hippo.onlyIf (Hippo.usePME h)
                      (Hippo.reciprocalSpace h includeEnergy)) = []).
  { destruct (Hippo.usePME h); [exact Hrecip | reflexivity]. }
  rewrite !flat_map_app, Hpre, hippo_orders, hippo_computeInducedField.
  unfold Hippo.extrapolationOrders. rewrite Hmax.
  replace (Z.to_nat (Z.of_nat maxExtrapolationOrder - 1))
    with (maxExtrapolationOrder - 1)%nat by lia.
  unfold schedule.
  destruct (Hippo.usePME h), (Hippo.exceptionAtomsInitialized h), includeEnergy;
    cbn [Hippo.onlyIf flat_map hippoStep app]; rewrite ?app_nil_r; reflexivity.
Qed.

(** C2.  The weights handed to the kernels are the sums of the
    coefficients from their index through the last.  With Extrapolated
    polarization [execute] of the AMOEBA kernel returns whatever the
    recorded errors are (there is no convergence test), and its launches
    act on the arrays as the schedule: the direct dipole stored as order 0,
    one evaluation of the induced field and one stored dipole per further
    order, the combination, and one evaluation of the field of the result;
    the same holds of the launches of the HIPPO kernel.  After them the
    dipole stored for order [k] is the operator applied [k] times to the
    direct dipole, and the induced dipole is the combination of the stored
    dipoles with those weights. *)
Theorem extrapolated_dipoles_by_fixed_schedule :
  (forall i, (i < maxExtrapolationOrder)%nat ->
     nth i EXTRAPOLATION_COEFFICIENTS_SUM (rofZ 0)
     = fold_left radd (skipn i coefficients) (rofZ 0)) /\
  (forall (w : Host.World State) (m : Z),
     Host.polarizationType (Host.host State w) = Host.Extrapolated ->
     Host.maxInducedIterations (Host.host State w)
     = initialMaxInducedIterations Host.Extrapolated m ->
     Host.maxExtrapolationOrder (Host.host State w)
     = Z.of_nat maxExtrapolationOrder ->
     List.length (extrapolatedDipole (Host.dev State w)) = maxExtrapolationOrder ->
     exists w' events,
       (forall downloadErrors,
          Host.execute State perform downloadErrors w
          = Host.Returned (rofZ 0) w') /\
       Host.trace State w' = Host.trace State w ++ events /\
       flat_map amoebaStep events = schedule /\
       Extrapolated (Host.dev State w) (Host.dev State w')) /\
  (forall (h : Hippo.HostState) (includeEnergy : bool) (d : State),
     Hippo.maxExtrapolationOrder h = Z.of_nat maxExtrapolationOrder ->
     List.length (extrapolatedDipole d) = maxExtrapolationOrder ->
     flat_map hippoStep (Hippo.execute h includeEnergy) = schedule /\
     Extrapolated d
       (steps (flat_map hippoStep (Hippo.execute h includeEnergy)) d)).
Proof.
  split; [| split].
  - intros i Hi. unfold EXTRAPOLATION_COEFFICIENTS_SUM.
    rewrite (nth_indep _ _ (coefficientSum 0))
      by (rewrite length_map, length_seq; exact Hi).
    rewrite map_nth, seq_nth by exact Hi.
    apply coefficientSum_suffix.
  - apply amoeba_execute_extrapolated.
  - intros h includeEnergy d Hmax Hlen.
    rewrite (hippo_execute h includeEnergy Hmax).
    split; [reflexivity | now apply steps_schedule].
Qed.

End Machine.

(** ** A sample in binary64

    One atom (three components) of polarizability [0.5], fixed field
    [(1, 2, 3)], an induced-field operator that scales by [0.25], and the
    four coefficients [-0.154, 0.017, 0.658, 0.474]. *)
Definition sampleCoefficients : list float :=
  [dec (-154) 1000; dec 17 1000; dec 658 1000; dec 474 1000].
Definition samplePolarizability : list float := repeat (dec 5 10) 3.
Definition sampleFixedField : list float :=
  [float_of_Z 1; float_of_Z 2; float_of_Z 3].
Definition sampleFieldOf (mu : list float) : list float :=
  map (fun x => PrimFloat.mul x (dec 25 100)) mu.

Definition sampleHost : @Host.HostState float :=
  Host.mkHost Host.Extrapolated 0 (dec 1 100000) 4 false false true false
    false false false true true false 1 32 1 [0%nat] [].

Definition sampleWorld : Host.World (@State float) :=
  Host.mkWorld State sampleHost (mkState [] [] (repeat [] 4) 0) [].

Lemma extrapolated_dipoles_by_fixed_schedule_witness :
  exists w',
    (forall downloadErrors,
       Host.execute State
         (perform 3 samplePolarizability sampleFixedField sampleFieldOf
                  sampleCoefficients)
         downloadErrors sampleWorld
       = Host.Returned (float_of_Z 0) w') /\
    Extrapolated 3 samplePolarizability sampleFixedField sampleFieldOf
      sampleCoefficients (Host.dev State sampleWorld) (Host.dev State w').
Proof.
  destruct (proj1 (proj2 (extrapolated_dipoles_by_fixed_schedule
                            3 samplePolarizability sampleFixedField
                            sampleFieldOf sampleCoefficients))
              sampleWorld 0%Z eq_refl eq_refl eq_refl eq_refl)
    as (w' & events & Hexecute & _ & _ & Hresult).
  exists w'. split; assumption.
Defined.

(** The sample evaluated: four orders, so three evaluations of the field
    for the orders and one for the result. *)
Example extrapolation_sample :
  let d := steps 3 samplePolarizability sampleFixedField sampleFieldOf
             sampleCoefficients (schedule sampleCoefficients)
             (Host.dev State sampleWorld) in
  fieldEvaluations d = 4%nat /\
  List.length (extrapolatedDipole d) = 4%nat /\
  nth 0 (extrapolatedDipole d) [] = [dec 5 10; float_of_Z 1; dec 15 10] /\
  nth 1 (extrapolatedDipole d) [] = [dec 625 10000; dec 125 1000; dec 1875 10000].
Proof. vm_compute. repeat split. Qed.

End Extrapolation.

(* ------------------------------------------------------------------ *)
(** * The place of the torque mapping in a force evaluation *)

Module Torque.

Ltac skip_block := apply in_or_app; right.
Ltac this_block := apply in_or_app; left.

Lemma hippo_torque_sources h includeEnergy :
  (Hippo.usePME h = true ->
     In (Hippo.Launch Hippo.pmeFixedForceKernel) (Hippo.execute h includeEnergy) /\
     In (Hippo.Launch Hippo.pmeInducedForceKernel) (Hippo.execute h includeEnergy) /\
     In (Hippo.Launch Hippo.pmeSelfEnergyKernel) (Hippo.execute h includeEnergy)) /\
  (Hippo.exceptionAtomsInitialized h = true ->
     In (Hippo.Launch Hippo.computeExceptionsKernel) (Hippo.execute h includeEnergy)).
Proof.
  unfold Hippo.execute. split.
  - intros ->. cbn [Hippo.onlyIf]. split; [| split].
    + skip_block. this_block. unfold Hippo.reciprocalSpace.
      do 5 skip_block. this_block. simpl. tauto.
    + do 6 skip_block. this_block. simpl. tauto.
    + do 6 skip_block. this_block. simpl. tauto.
  - intros ->. cbn [Hippo.onlyIf]. do 7 skip_block. this_block. simpl. tauto.
Qed.

(** C5.  AMOEBA: every [execute] returns with its launches ending in the
    torque mapping followed only by the copy of the positions; all earlier
    launches come before the mapping, none of them is a mapping, and among
    them are the electrostatics kernel, with PME the reciprocal fixed and
    induced force kernels, with GK its force kernels, and with Extrapolated
    polarization the gradient correction as the very last before the
    mapping.  HIPPO: [execute] never maps torques; the evaluation ends with
    the mapping launched by the post-computation, after the launches of
    [execute] (with PME the reciprocal fixed and induced forces and the
    self energy, with exceptions the exception kernel) and after the
    nonbonded interaction kernel. *)
Theorem torque_mapping_follows_all_contributions :
  (forall (T : Type) (R : RealOps T) (Device : Type)
          (perform : Host.Event -> Device -> Device)
          (downloadErrors : Device -> list (T * T)) (w : Host.World Device),
     let h := Host.host Device (Host.firstExecute Device perform w) in
     exists (w' : Host.World Device) (before : list Host.Event),
       Host.execute Device perform downloadErrors w = Host.Returned (rofZ 0) w' /\
       Host.trace Device w' =
         Host.trace Device w
         ++ before ++ [Host.Launch Host.mapTorqueKernel; Host.CopyPosqToLastPositions] /\
       Host.noMapTorque before = true /\
       In (Host.Launch Host.electrostaticsKernel) before /\
       (Host.pmeGridIsInitialized h = true ->
          In (Host.Launch Host.pmeFixedForceKernel) before /\
          In (Host.Launch Host.pmeInducedForceKernel) before) /\
       (Host.pmeGridIsInitialized h = false -> Host.gkKernel h = true ->
          In (Host.Launch Host.gkForceKernel) before /\
          In (Host.Launch Host.ediffKernel) before) /\
       (Host.isExtrapolated h = true ->
          exists earlier,
            before = earlier ++ [Host.Launch Host.addExtrapolatedGradientKernel])) /\
  (forall (h : Hippo.HostState) (includeEnergy : bool),
     Hippo.noMapTorque (Hippo.execute h includeEnergy) = true /\
     exists before,
       Hippo.forceEvaluation h includeEnergy
         = before ++ [Hippo.Launch Hippo.mapTorqueKernel] /\
       Hippo.noMapTorque before = true /\
       (forall e, In e (Hippo.execute h includeEnergy) -> In e before) /\
       In (Hippo.Launch Hippo.nonbondedInteractionKernel) before /\
       (Hippo.usePME h = true ->
          In (Hippo.Launch Hippo.pmeFixedForceKernel) before /\
          In (Hippo.Launch Hippo.pmeInducedForceKernel) before /\
          In (Hippo.Launch Hippo.pmeSelfEnergyKernel) before) /\
       (Hippo.exceptionAtomsInitialized h = true ->
          In (Hippo.Launch Hippo.computeExceptionsKernel) before)).
Proof.
  split.
  - intros T R Device perform downloadErrors w.
    apply Host.execute_maps_torque_last.
  - intros h includeEnergy. split; [apply Hippo.execute_noMap |].
    exists (Hippo.execute h includeEnergy
            ++ [Hippo.Launch Hippo.nonbondedInteractionKernel]).
    destruct (hippo_torque_sources h includeEnergy) as [Hpme Hexc].
    split; [| split; [| split; [| split; [| split]]]].
    + unfold Hippo.forceEvaluation, Hippo.postComputation, Hippo.addTorquesToForces.
      now rewrite <- app_assoc.
    + rewrite Hippo.noMapTorque_concat, Hippo.execute_noMap. reflexivity.
    + intros e He. apply in_or_app. now left.
    + apply in_or_app. right. now left.
    + intro Hp. destruct (Hpme Hp) as (H1 & H2 & H3).
      repeat split; apply in_or_app; left; assumption.
    + intro He. apply in_or_app. left. auto.
Qed.

End Torque.

(* ------------------------------------------------------------------ *)
(** * Particle groups and identical particles ([ForceInfo]) *)

Module ForceInfo.

Local Open Scope Z_scope.

(** ** [CudaCalcAmoebaMultipoleForceKernel::ForceInfo]

    [int] division and remainder truncate toward zero: [Z.quot], [Z.rem]. *)
Definition getNumParticleGroups (numMultipoles : Z) : Z := 7 * numMultipoles.

Definition groupParticle (index : Z) : Z := Z.quot index 7.

Definition groupType (index : Z) : Z := index - 7 * groupParticle index.

(** [force.getCovalentMap(particle, CovalentType(type), particles)]. *)
Definition getParticlesInGroup (getCovalentMap : Z -> Z -> list Z) (index : Z)
    : list Z :=
  getCovalentMap (groupParticle index) (groupType index).

Definition areGroupsIdentical (group1 group2 : Z) : bool :=
  Z.rem group1 7 =? Z.rem group2 7.

(** The groups of the multipole force are the covalent maps of types 0 to
    6 of every particle, each exactly once: a group index below
    [getNumParticleGroups] splits into a particle below the number of
    multipoles and a type in [0, 7), the group [7*p + t] is the map of
    type [t] of particle [p], and two groups are identical exactly when
    their types are equal. *)
Theorem multipole_groups_enumerate_covalent_maps :
  forall (numMultipoles : Z) (getCovalentMap : Z -> Z -> list Z),
    (forall index, 0 <= index < getNumParticleGroups numMultipoles ->
       0 <= groupParticle index < numMultipoles /\
       0 <= groupType index < 7 /\
       index = 7 * groupParticle index + groupType index) /\
    (forall p t, 0 <= p < numMultipoles -> 0 <= t < 7 ->
       0 <= 7 * p + t < getNumParticleGroups numMultipoles /\
       getParticlesInGroup getCovalentMap (7 * p + t) = getCovalentMap p t) /\
    (forall group1 group2, 0 <= group1 -> 0 <= group2 ->
       areGroupsIdentical group1 group2 = true
       <-> groupType group1 = groupType group2).
Proof.
  intros n covalent. unfold getNumParticleGroups, getParticlesInGroup,
    areGroupsIdentical, groupType, groupParticle.
  split; [| split].
  - intros index Hi. rewrite Z.quot_div_nonneg by lia.
    pose proof (Z.div_mod index 7 ltac:(lia)).
    pose proof (Z.mod_pos_bound index 7 ltac:(lia)).
    repeat split; lia.
  - intros p t Hp Ht. split; [lia |].
    rewrite Z.quot_div_nonneg by lia.
    replace ((7 * p + t) / 7) with p by (apply Z.div_unique with t; lia).
    f_equal. lia.
  - intros g1 g2 H1 H2. rewrite Z.eqb_eq.
    pose proof (Z.quot_rem' g1 7). pose proof (Z.quot_rem' g2 7). lia.
Qed.

(** ** [CudaCalcHippoNonbondedForceKernel::ForceInfo] *)

Section Hippo.

Context {T : Type} `{RealOps T}.

(** What [force.getParticleParameters] returns for one particle. *)
Record ParticleParameters : Type := mkParticle {
  charge : T;
  dipole : list T;
  quadrupole : list T;
  coreCharge : T;
  alpha : T;
  epsilon : T;
  damping : T;
  c6 : T;
  pauliK : T;
  pauliQ : T;
  pauliAlpha : T;
  polarizability : T;
  axisType : Z;
  multipoleZ : Z;
  multipoleX : Z;
  multipoleY : Z }.

(** [a != b] on [double]. *)
Definition differ (a b : T) : bool := negb (reqb a b).

(** [for (i = 0; i < v1.size(); ++i) if (v1[i] != v2[i]) return false;]
    (an index outside [v2] is undefined in the source; it reads zero
    here). *)
Definition someDiffer (v1 v2 : list T) : bool :=
  existsb (fun i => differ (nth i v1 (rofZ 0)) (nth i v2 (rofZ 0)))
          (seq 0 (List.length v1)).

(** The eleven-fold test compares [epsilon1] with [epsilon1], as the
    source does. *)
Definition areParticlesIdentical (p1 p2 : ParticleParameters) : bool :=
  if differ (charge p1) (charge p2) || differ (coreCharge p1) (coreCharge p2)
     || differ (alpha p1) (alpha p2) || differ (epsilon p1) (epsilon p1)
     || differ (damping p1) (damping p2) || differ (c6 p1) (c6 p2)
     || differ (pauliK p1) (pauliK p2) || differ (pauliQ p1) (pauliQ p2)
     || differ (pauliAlpha p1) (pauliAlpha p2)
     || differ (polarizability p1) (polarizability p2)
     || negb (axisType p1 =? axisType p2)
  then false
  else if someDiffer (dipole p1) (dipole p2) then false
  else if someDiffer (quadrupole p1) (quadrupole p2) then false
  else true.

Definition withEpsilon (e : T) (p : ParticleParameters) : ParticleParameters :=
  mkParticle (charge p) (dipole p) (quadrupole p) (coreCharge p) (alpha p) e
    (damping p) (c6 p) (pauliK p) (pauliQ p) (pauliAlpha p) (polarizability p)
    (axisType p) (multipoleZ p) (multipoleX p) (multipoleY p).

(** No value is different from itself (no NaN among them). *)
Definition selfEqual (v : list T) : Prop := forall x, In x v -> reqb x x = true.

Lemma someDiffer_self v : selfEqual v -> someDiffer v v = false.
Proof.
  intro Hv. unfold someDiffer.
  destruct (existsb _ _) eqn:He; [| reflexivity].
  apply existsb_exists in He. destruct He as (i & Hi & Hd).
  apply in_seq in Hi. unfold differ in Hd.
  rewrite (Hv (nth i v (rofZ 0))) in Hd by (apply nth_In; lia). discriminate.
Qed.

(** The HIPPO test never looks at the epsilon of the second particle: the
    answer is the same whatever that epsilon is, so a particle whose
    parameters are all comparable to themselves is reported identical to
    any copy of itself with another epsilon. *)
Theorem hippo_identical_particles_ignore_epsilon :
  forall (p1 p2 : ParticleParameters) (e : T),
    areParticlesIdentical p1 (withEpsilon e p2) = areParticlesIdentical p1 p2 /\
    (selfEqual [charge p1; coreCharge p1; alpha p1; epsilon p1; damping p1;
                c6 p1; pauliK p1; pauliQ p1; pauliAlpha p1; polarizability p1] ->
     selfEqual (dipole p1) -> selfEqual (quadrupole p1) ->
     areParticlesIdentical p1 (withEpsilon e p1) = true).
Proof.
  intros p1 p2 e. split; [reflexivity |].
  intros Hs Hd Hq. unfold areParticlesIdentical, withEpsilon, differ.
  cbn [charge dipole quadrupole coreCharge alpha epsilon damping c6 pauliK
       pauliQ pauliAlpha polarizability axisType].
  rewrite !Hs by (simpl; tauto). rewrite Z.eqb_refl. cbn [negb orb].
  now rewrite (someDiffer_self _ Hd), (someDiffer_self _ Hq).
Qed.

End Hippo.

(** Two HIPPO particles in binary64 that differ in epsilon only. *)
Definition sampleParticle (eps : float) : @ParticleParameters float :=
  mkParticle (dec 5 10) [dec 1 10; dec 0 1; dec 0 1]
    (repeat (dec 0 1) 9) (dec 1 1) (dec 4 1) eps (dec 3 1) (dec 2 1)
    (dec 1 1) (dec 1 1) (dec 4 1) (dec 1 1000) 0 (-1) (-1) (-1).

Example hippo_particles_differing_in_epsilon :
  PrimFloat.eqb (dec 1 10) (dec 9 10) = false /\
  areParticlesIdentical (sampleParticle (dec 1 10)) (sampleParticle (dec 9 10)) = true /\
  areParticlesIdentical (sampleParticle PrimFloat.nan) (sampleParticle PrimFloat.nan)
  = false.
Proof. vm_compute. repeat split. Qed.

End ForceInfo.

(* ------------------------------------------------------------------ *)
(** * Parameters of the multipole force on the device
      ([initialize], [copyParametersToContext]) *)

Module Parameters.

Section Amoeba.

Context {T : Type} `{RealOps T}.
Local Open Scope ops_scope.

Variable toFloat : T -> T.

(** The body of the first loop of [initialize]: as in
    [copyParametersToContext], but the host buffer [temp] receives
    [make_double4(0, 0, 0, charge)]. *)
Definition initialMultipole (double : bool) (v : Host.HostVectors)
    (ip : nat * Host.MultipoleParameters) : @Host.HostVectors T :=
  let (i, p) := ip in
  let c := if double then Host.charge p else toFloat (Host.charge p) in
  let q := fun j => toFloat (nth j (Host.quadrupole p) (rofZ 0)) in
  Host.mkVectors
    (upd (Host.posqBuffer v) i (mkVec4 (rofZ 0) (rofZ 0) (rofZ 0) c))
    (Host.dampingAndTholeVec v
       ++ [(toFloat (Host.damping p), toFloat (Host.thole p))])
    (Host.polarizabilityVec v ++ [toFloat (Host.polarity p)])
    (Host.localDipolesVec v
       ++ map (fun j => toFloat (nth j (Host.dipole p) (rofZ 0))) (seq 0 3))
    (Host.localQuadrupolesVec v ++ [q 0%nat; q 1%nat; q 2%nat; q 4%nat; q 5%nat])
    (Host.multipoleParticlesVec v
       ++ [(Host.atomX p, Host.atomY p, Host.atomZ p, Host.axisType p)]).

(** [hasQuadrupoles = false; for (auto q : v) if (q != 0.0) hasQuadrupoles = true;] *)
Definition anyNonZero (qs : list T) : bool :=
  fold_left (fun found q => if negb (reqb q (rofZ 0)) then true else found)
            qs false.

(** What the parameter part of [initialize] computes: the flag
    [hasQuadrupoles] and the six uploads ([posqSize] is
    [posq.getSize()]). *)
Definition initializeParameters (double : bool) (posqSize paddedNumAtoms : nat)
    (force : list Host.MultipoleParameters) : bool * list (@Host.Event T) :=
  let v := fold_left (initialMultipole double)
             (combine (seq 0 (List.length force)) force)
             (Host.mkVectors (repeat Host.zeroVec4 posqSize) [] [] [] [] []) in
  let hasQuadrupoles := anyNonZero (Host.localQuadrupolesVec v) in
  let v := Host.padMultipoles (List.length force) paddedNumAtoms v in
  (hasQuadrupoles, Host.uploads v).

(** The five parameter vectors, without the position buffer. *)
Definition parameterVectors (v : @Host.HostVectors T) :=
  (Host.dampingAndTholeVec v, Host.polarizabilityVec v, Host.localDipolesVec v,
   Host.localQuadrupolesVec v, Host.multipoleParticlesVec v).

Lemma anyNonZero_someNonZero qs : anyNonZero qs = Host.someNonZero qs.
Proof.
  unfold anyNonZero, Host.someNonZero.
  assert (Hgen : forall found,
             fold_left (fun found q => if negb (reqb q (rofZ 0)) then true else found)
                       qs found
             = found || existsb (fun q => negb (reqb q (rofZ 0))) qs).
  { induction qs as [| q qs IH]; intro found; simpl.
    - now rewrite orb_false_r.
    - rewrite IH. destruct (negb (reqb q (rofZ 0))), found; reflexivity. }
  apply Hgen.
Qed.

Lemma loops_agree double (l : list (nat * Host.MultipoleParameters)) :
  forall v v', parameterVectors v = parameterVectors v' ->
    parameterVectors (fold_left (initialMultipole double) l v)
    = parameterVectors (fold_left (Host.recordMultipole toFloat double) l v').
Proof.
  induction l as [| [i p] l IH]; intros v v' Hv; [exact Hv |].
  cbn [fold_left]. apply IH. unfold parameterVectors in *.
  injection Hv as H1 H2 H3 H4 H5.
  cbn [initialMultipole Host.recordMultipole Host.dampingAndTholeVec
       Host.polarizabilityVec Host.localDipolesVec Host.localQuadrupolesVec
       Host.multipoleParticlesVec].
  now rewrite H1, H2, H3, H4, H5.
Qed.

Lemma padMultipoles_parameters n padded : forall v v',
  parameterVectors v = parameterVectors v' ->
  parameterVectors (Host.padMultipoles n padded v)
  = parameterVectors (Host.padMultipoles n padded v').
Proof.
  unfold Host.padMultipoles.
  induction (seq n (padded - n)) as [| i l IH]; intros v v' Hv; [exact Hv |].
  cbn [fold_left]. apply IH. unfold parameterVectors in *.
  injection Hv as H1 H2 H3 H4 H5.
  cbn [Host.padMultipole Host.dampingAndTholeVec Host.polarizabilityVec
       Host.localDipolesVec Host.localQuadrupolesVec Host.multipoleParticlesVec].
  now rewrite H1, H2, H3, H4, H5.
Qed.

(** ** Sizes of the uploaded vectors *)

Definition vectorLengths (v : @Host.HostVectors T) : list nat :=
  [ List.length (Host.posqBuffer v); List.length (Host.dampingAndTholeVec v);
    List.length (Host.polarizabilityVec v); List.length (Host.localDipolesVec v);
    List.length (Host.localQuadrupolesVec v);
    List.length (Host.multipoleParticlesVec v) ].

Lemma recordMultipole_lengths double (l : list (nat * Host.MultipoleParameters)) :
  forall v a b c d e f,
    vectorLengths v = [a; b; c; d; e; f] ->
    vectorLengths (fold_left (Host.recordMultipole toFloat double) l v)
    = [a; b + List.length l; c + List.length l; d + 3 * List.length l;
       e + 5 * List.length l; f + List.length l]%nat.
Proof.
  induction l as [| [i p] l IH]; intros v a b c d e f Hv.
  - cbn [List.length fold_left]. rewrite Hv. repeat (apply f_equal2; [lia |]); reflexivity.
  - cbn [fold_left List.length].
    rewrite (IH _ a (S b) (S c) (3 + d)%nat (5 + e)%nat (S f)).
    + repeat (apply f_equal2; [lia |]); reflexivity.
    + unfold vectorLengths in *. injection Hv as H1 H2 H3 H4 H5 H6.
      cbn [Host.recordMultipole Host.posqBuffer Host.dampingAndTholeVec
           Host.polarizabilityVec Host.localDipolesVec Host.localQuadrupolesVec
           Host.multipoleParticlesVec].
      rewrite upd_length, !length_app, length_map, length_seq.
      cbn [List.length]. repeat (apply f_equal2; [lia |]); reflexivity.
Qed.

Lemma padMultipole_lengths (l : list nat) :
  forall v a b c d e f,
    vectorLengths v = [a; b; c; d; e; f] ->
    vectorLengths (fold_left Host.padMultipole l v)
    = [a; b + List.length l; c + List.length l; d + 3 * List.length l;
       e + 5 * List.length l; f + List.length l]%nat.
Proof.
  induction l as [| i l IH]; intros v a b c d e f Hv.
  - cbn [List.length fold_left]. rewrite Hv. repeat (apply f_equal2; [lia |]); reflexivity.
  - cbn [fold_left List.length].
    rewrite (IH _ a (S b) (S c) (3 + d)%nat (5 + e)%nat (S f)).
    + repeat (apply f_equal2; [lia |]); reflexivity.
    + unfold vectorLengths in *. injection Hv as H1 H2 H3 H4 H5 H6.
      cbn [Host.padMultipole Host.posqBuffer Host.dampingAndTholeVec
           Host.polarizabilityVec Host.localDipolesVec Host.localQuadrupolesVec
           Host.multipoleParticlesVec].
      rewrite !length_app, !repeat_length.
      cbn [List.length]. repeat (apply f_equal2; [lia |]); reflexivity.
Qed.

(** The vectors [copyParametersToContext] uploads for a force of at most
    [paddedNumAtoms] multipoles have the sizes of the device arrays:
    [paddedNumAtoms] pairs, polarizabilities and axis entries,
    [3*paddedNumAtoms] dipole and [5*paddedNumAtoms] quadrupole values, and
    as many positions as were downloaded. *)
Theorem uploaded_vectors_fill_the_arrays :
  forall (double : bool) (paddedNumAtoms : nat)
         (force : list Host.MultipoleParameters) (buffer : list (vec4 T)),
    (List.length force <= paddedNumAtoms)%nat ->
    vectorLengths
      (Host.padMultipoles (List.length force) paddedNumAtoms
         (Host.recordMultipoles toFloat double force buffer))
    = [List.length buffer; paddedNumAtoms; paddedNumAtoms;
       (3 * paddedNumAtoms)%nat; (5 * paddedNumAtoms)%nat; paddedNumAtoms].
Proof.
  intros double padded force buffer Hle.
  unfold Host.padMultipoles, Host.recordMultipoles.
  rewrite (padMultipole_lengths _ _ (List.length buffer) (List.length force)
             (List.length force) (3 * List.length force)%nat
             (5 * List.length force)%nat (List.length force)).
  - rewrite length_seq. repeat (apply f_equal2; [lia |]); reflexivity.
  - rewrite (recordMultipole_lengths _ _ _ (List.length buffer) 0 0 0 0 0)%nat
      by reflexivity.
    rewrite length_combine, length_seq, Nat.min_id. repeat (apply f_equal2; [lia |]); reflexivity.
Qed.

(** ** Positions and charges *)

Definition storedCharge (double : bool) (p : @Host.MultipoleParameters T) : T :=
  if double then Host.charge p else toFloat (Host.charge p).

(** The pinned buffer after the loop, entry by entry. *)
Fixpoint withCharges (double : bool) (force : list Host.MultipoleParameters)
    (buffer : list (vec4 T)) : list (vec4 T) :=
  match force, buffer with
  | p :: force', q :: buffer' =>
      Host.setW (storedCharge double p) q :: withCharges double force' buffer'
  | _, _ => buffer
  end.

Lemma upd_beyond {A : Type} (l : list A) i x :
  (List.length l <= i)%nat -> upd l i x = l.
Proof.
  revert i. induction l as [| a l IH]; intros [| i] Hi; simpl in *;
    try reflexivity; try lia.
  now rewrite IH by lia.
Qed.

Lemma upd_at {A : Type} (l1 l2 : list A) x v :
  upd (l1 ++ x :: l2) (List.length l1) v = l1 ++ v :: l2.
Proof. induction l1 as [| a l1 IH]; simpl; [reflexivity | now rewrite IH]. Qed.

Lemma recordMultipole_beyond double (l : list Host.MultipoleParameters) :
  forall k v, (List.length (Host.posqBuffer v) <= k)%nat ->
    Host.posqBuffer
      (fold_left (Host.recordMultipole toFloat double)
                 (combine (seq k (List.length l)) l) v)
    = Host.posqBuffer v.
Proof.
  induction l as [| p l IH]; intros k v Hk; [reflexivity |].
  cbn [List.length seq combine fold_left]. rewrite IH.
  - cbn [Host.recordMultipole Host.posqBuffer]. now apply upd_beyond.
  - cbn [Host.recordMultipole Host.posqBuffer]. rewrite upd_length. lia.
Qed.

Lemma recordMultipole_posq double (l : list Host.MultipoleParameters) :
  forall pre rest v, Host.posqBuffer v = pre ++ rest ->
    Host.posqBuffer
      (fold_left (Host.recordMultipole toFloat double)
                 (combine (seq (List.length pre) (List.length l)) l) v)
    = pre ++ withCharges double l rest.
Proof.
  induction l as [| p l IH]; intros pre rest v Hv.
  - cbn. rewrite Hv. now destruct rest.
  - destruct rest as [| q rest].
    + rewrite recordMultipole_beyond by (rewrite Hv, length_app; simpl; lia).
      exact Hv.
    + cbn [List.length seq combine fold_left withCharges].
      replace (S (List.length pre)) with (List.length (pre ++ [Host.setW (storedCharge double p) q]))
        by (rewrite length_app; simpl; lia).
      rewrite (IH (pre ++ [Host.setW (storedCharge double p) q]) rest).
      * now rewrite <- app_assoc.
      * cbn [Host.recordMultipole Host.posqBuffer]. rewrite Hv, upd_at, nth_middle.
        now rewrite <- app_assoc.
Qed.

Lemma padMultipoles_posq n padded (v : @Host.HostVectors T) :
  Host.posqBuffer (Host.padMultipoles n padded v) = Host.posqBuffer v.
Proof.
  unfold Host.padMultipoles. revert v.
  induction (seq n (padded - n)) as [| i l IH]; intro v; [reflexivity |].
  cbn [fold_left]. now rewrite IH.
Qed.

Lemma withCharges_length double force : forall buffer,
  List.length (withCharges double force buffer) = List.length buffer.
Proof.
  induction force as [| p force IH]; intros [| q buffer]; simpl;
    try reflexivity.
  now rewrite IH.
Qed.

Lemma withCharges_nth double force : forall buffer j,
  (j < List.length buffer)%nat ->
  let old := nth j buffer Host.zeroVec4 in
  let new := nth j (withCharges double force buffer) Host.zeroVec4 in
  v4x new = v4x old /\ v4y new = v4y old /\ v4z new = v4z old /\
  v4w new = match nth_error force j with
            | Some p => storedCharge double p
            | None => v4w old
            end.
Proof.
  induction force as [| p force IH]; intros buffer j Hj; cbv zeta.
  - destruct buffer; destruct j; simpl; repeat split.
  - destruct buffer as [| q buffer]; [simpl in Hj; lia |].
    destruct j as [| j]; cbn [withCharges nth nth_error].
    + repeat split.
    + apply IH. simpl in Hj. lia.
Qed.

(** The positions [copyParametersToContext] uploads are those it
    downloaded: every entry keeps its x, y and z; the w of entry [j] is
    the charge of multipole [j] (narrowed to single precision unless the
    context is in double precision) and is left alone where the force has
    no multipole [j]. *)
Theorem parameter_update_keeps_positions :
  forall (double : bool) (paddedNumAtoms : nat)
         (force : list Host.MultipoleParameters) (buffer : list (vec4 T)),
    let v := Host.padMultipoles (List.length force) paddedNumAtoms
               (Host.recordMultipoles toFloat double force buffer) in
    last (Host.uploads v) Host.InvalidateMolecules
    = Host.Upload Host.posq (Host.Real4s (Host.posqBuffer v)) /\
    List.length (Host.posqBuffer v) = List.length buffer /\
    forall j, (j < List.length buffer)%nat ->
      let old := nth j buffer Host.zeroVec4 in
      let new := nth j (Host.posqBuffer v) Host.zeroVec4 in
      v4x new = v4x old /\ v4y new = v4y old /\ v4z new = v4z old /\
      v4w new = match nth_error force j with
                | Some p => if double then Host.charge p
                            else toFloat (Host.charge p)
                | None => v4w old
                end.
Proof.
  intros double padded force buffer v.
  assert (Hposq : Host.posqBuffer v = withCharges double force buffer).
  { unfold v. rewrite padMultipoles_posq. unfold Host.recordMultipoles.
    apply (recordMultipole_posq double force [] buffer). reflexivity. }
  split; [reflexivity |]. rewrite Hposq. split.
  - apply withCharges_length.
  - intros j Hj. apply (withCharges_nth double force buffer j Hj).
Qed.

(** ** [initialize] followed by [copyParametersToContext] *)

Variable Device : Type.
Variable perform : @Host.Event T -> Device -> Device.
Variable downloadPosq : Device -> list (vec4 T).

Lemma initializeParameters_hasQuadrupoles double posqSize padded force :
  fst (initializeParameters double posqSize padded force)
  = Host.someNonZero (Host.storedQuadrupoles toFloat force).
Proof.
  unfold initializeParameters. cbn [fst]. rewrite anyNonZero_someNonZero.
  f_equal.
  pose proof (loops_agree double (combine (seq 0 (List.length force)) force)
                (Host.mkVectors (repeat Host.zeroVec4 posqSize) [] [] [] [] [])
                (Host.mkVectors [] [] [] [] [] []) eq_refl) as Hagree.
  unfold parameterVectors in Hagree. injection Hagree as _ _ _ Hq _.
  rewrite Hq. apply (Host.recordMultipoles_quadrupoles toFloat double force []).
Qed.

(** A kernel initialised with a force accepts the same force again:
    [copyParametersToContext] returns without raising, whether or not the
    force has quadrupoles, and the five parameter vectors it uploads are
    those [initialize] uploaded. *)
Theorem initial_parameters_are_accepted_again :
  forall (force : list Host.MultipoleParameters) (posqSize : nat)
         (w : Host.World Device),
    let h := Host.host Device w in
    let initial := initializeParameters (Host.useDoublePrecision h) posqSize
                     (Host.paddedNumAtoms h) force in
    List.length force = Host.numAtoms h ->
    Host.hasQuadrupoles h = fst initial ->
    exists w' events,
      Host.copyParametersToContext Device perform downloadPosq toFloat force w
      = Host.Returned tt w' /\
      Host.trace Device w' = Host.trace Device w ++ events /\
      firstn 5 events = firstn 5 (snd initial).
Proof.
  intros force posqSize w h initial Hlen Hq.
  unfold Host.copyParametersToContext. fold h.
  rewrite <- Hlen, Nat.eqb_refl. cbn [negb].
  cbn [Host.withHost Host.host Host.set_pinnedBuffer Host.hasQuadrupoles
       Host.paddedNumAtoms].
  fold h. rewrite Hq. unfold initial.
  rewrite initializeParameters_hasQuadrupoles, Host.recordMultipoles_quadrupoles.
  rewrite andb_negb_l.
  eexists. eexists. split; [reflexivity |].
  cbn [Host.withHost Host.trace Host.emit Host.set_multipolesAreValid].
  rewrite Host.run_trace. cbn [Host.trace]. rewrite <- app_assoc.
  split; [reflexivity |].
  unfold initializeParameters. cbn [snd].
  match goal with
  | |- firstn 5 (Host.uploads ?a ++ _) = firstn 5 (Host.uploads ?b) =>
      assert (Hv : parameterVectors b = parameterVectors a)
  end.
  { apply padMultipoles_parameters. unfold Host.recordMultipoles.
    apply loops_agree. reflexivity. }
  unfold parameterVectors in Hv. injection Hv as H1 H2 H3 H4 H5.
  unfold Host.uploads. cbn [firstn app]. now rewrite H1, H2, H3, H4, H5.
Qed.

End Amoeba.

(** The sample of the host model: one multipole, two padded atoms. *)
Lemma uploaded_vectors_fill_the_arrays_witness :
  (1 <= 2)%nat /\
  vectorLengths
    (Host.padMultipoles 1 2
       (Host.recordMultipoles Host.to_single true
          [Host.sampleMultipole Host.tinyTraceless]
          (fst (Host.dev Host.SampleDevice Host.sampleWorld))))
  = [2; 2; 2; 6; 10; 2]%nat.
Proof.
  split; [lia |].
  apply (uploaded_vectors_fill_the_arrays Host.to_single true 2
           [Host.sampleMultipole Host.tinyTraceless]
           (fst (Host.dev Host.SampleDevice Host.sampleWorld))).
  simpl. lia.
Defined.

Lemma initial_parameters_are_accepted_again_witness :
  exists w' events,
    Host.copyParametersToContext Host.SampleDevice Host.samplePerform fst
      Host.to_single [Host.sampleMultipole Host.tinyTraceless] Host.sampleWorld
    = Host.Returned tt w' /\
    Host.trace Host.SampleDevice w'
    = Host.trace Host.SampleDevice Host.sampleWorld ++ events /\
    firstn 5 events
    = firstn 5 (snd (initializeParameters Host.to_single true 2 2
                       [Host.sampleMultipole Host.tinyTraceless])).
Proof.
  apply (initial_parameters_are_accepted_again Host.to_single Host.SampleDevice
           Host.samplePerform fst [Host.sampleMultipole Host.tinyTraceless] 2
           Host.sampleWorld).
  - reflexivity.
  - vm_compute. reflexivity.
Defined.

End Parameters.

(* ------------------------------------------------------------------ *)
(** * Parameters of the generalized Kirkwood force
      ([CudaCalcAmoebaGeneralizedKirkwoodForceKernel]) *)

Module Kirkwood.

Section Model.

Context {T : Type} `{RealOps T}.
Local Open Scope ops_scope.

Variable toFloat : T -> T.

(** What [force.getParticleParameters(i, charge, radius, scalingFactor)]
    returns. *)
Record ParticleParameters : Type := mkParticle {
  charge : T;
  radius : T;
  scalingFactor : T }.

Record Force : Type := mkForce {
  getNumParticles : nat;
  getParticleParameters : nat -> ParticleParameters }.

Inductive Outcome : Type :=
  | Uploaded (paramsVector : list (T * T))      (* [initialize] went through *)
  | Updated (paramsVector : list (T * T))       (* upload, [invalidateMolecules] *)
  | Thrown (message : String.string).

(** [make_float2((float) radius, (float) (scalingFactor*radius))]. *)
Definition paramsEntry (p : ParticleParameters) : T * T :=
  (toFloat (radius p), toFloat (scalingFactor p * radius p)).

(** [vector<float2> paramsVector(paddedNumAtoms)] filled for the particles
    of the force. *)
Definition paramsVector (paddedNumAtoms : nat) (force : Force) : list (T * T) :=
  fold_left (fun v i => upd v i (paramsEntry (getParticleParameters force i)))
            (seq 0 (getNumParticles force))
            (repeat (rofZ 0, rofZ 0) paddedNumAtoms).

(** The loop of [initialize]: the entry is written, then the charge is
    compared with the one of the multipole force; [None] is the [throw]. *)
Definition checkedParamsVector (paddedNumAtoms : nat) (force : Force)
    (multipoleCharge : nat -> T) : option (list (T * T)) :=
  fold_left
    (fun acc i =>
       match acc with
       | None => None
       | Some v =>
           let p := getParticleParameters force i in
           let v := upd v i (paramsEntry p) in
           if negb (reqb (charge p) (multipoleCharge i)) then None else Some v
       end)
    (seq 0 (getNumParticles force))
    (Some (repeat (rofZ 0, rofZ 0) paddedNumAtoms)).

Local Open Scope string_scope.

Definition multipleDevices : String.string :=
  "AmoebaGeneralizedKirkwoodForce does not support using multiple CUDA devices".
Definition noMultipoleForce : String.string :=
  "AmoebaGeneralizedKirkwoodForce requires the System to also contain an AmoebaMultipoleForce".
Definition chargesDiffer : String.string :=
  "AmoebaGeneralizedKirkwoodForce and AmoebaMultipoleForce must specify the same charge for every atom".
Definition particlesChanged : String.string :=
  "updateParametersInContext: The number of particles has changed".

Local Close Scope string_scope.

(** [initialize]: [numContexts] is [cu.getPlatformData().contexts.size()],
    [multipoles] the charges of the first [AmoebaMultipoleForce] of the
    system if there is one. *)
Definition initialize (numContexts paddedNumAtoms : nat)
    (multipoles : option (nat -> T)) (force : Force) : Outcome :=
  if (1 <? numContexts)%nat then Thrown multipleDevices
  else match multipoles with
       | None => Thrown noMultipoleForce
       | Some multipoleCharge =>
           match checkedParamsVector paddedNumAtoms force multipoleCharge with
           | None => Thrown chargesDiffer
           | Some v => Uploaded v
           end
       end.

Definition copyParametersToContext (numAtoms paddedNumAtoms : nat)
    (force : Force) : Outcome :=
  if negb (getNumParticles force =? numAtoms)%nat then Thrown particlesChanged
  else Updated (paramsVector paddedNumAtoms force).

Lemma checked_loop (force : Force) (multipoleCharge : nat -> T) (l : list nat) :
  forall v,
    let step := fun v i => upd v i (paramsEntry (getParticleParameters force i)) in
    let loop :=
      fold_left
        (fun acc i =>
           match acc with
           | None => None
           | Some v =>
               let p := getParticleParameters force i in
               let v := upd v i (paramsEntry p) in
               if negb (reqb (charge p) (multipoleCharge i)) then None else Some v
           end) l in
    loop None = None /\
    (forallb (fun i => reqb (charge (getParticleParameters force i))
                            (multipoleCharge i)) l = true ->
       loop (Some v) = Some (fold_left step l v)) /\
    (forallb (fun i => reqb (charge (getParticleParameters force i))
                            (multipoleCharge i)) l = false ->
       loop (Some v) = None).
Proof.
  induction l as [| i l IH]; intro v; cbv zeta.
  - repeat split. discriminate.
  - cbn [fold_left forallb].
    destruct (IH v) as (Hnone & _ & _).
    destruct (reqb (charge (getParticleParameters force i)) (multipoleCharge i));
      cbn [negb andb].
    + destruct (IH (upd v i (paramsEntry (getParticleParameters force i))))
        as (_ & Hall & Hsome).
      repeat split; assumption.
    + split; [exact Hnone |]. split; [discriminate |]. intros _. exact Hnone.
Qed.

(** [initialize] goes through exactly when a single device is used, the
    system has a multipole force and every particle's charge compares
    equal to the charge of that force; it then uploads the per-particle
    radius and scaled radius.  [copyParametersToContext] raises on a
    changed particle count and otherwise uploads the same vector for the
    same force; it does not compare the charges again. *)
Theorem kirkwood_parameters_checked_once :
  forall (numContexts numAtoms paddedNumAtoms : nat)
         (multipoles : option (nat -> T)) (force : Force),
    let agree := fun multipoleCharge =>
      forallb (fun i => reqb (charge (getParticleParameters force i))
                             (multipoleCharge i))
              (seq 0 (getNumParticles force)) in
    (forall v, initialize numContexts paddedNumAtoms multipoles force = Uploaded v
       <-> (numContexts <= 1)%nat /\
           (exists multipoleCharge,
              multipoles = Some multipoleCharge /\ agree multipoleCharge = true) /\
           v = paramsVector paddedNumAtoms force) /\
    (getNumParticles force <> numAtoms ->
       copyParametersToContext numAtoms paddedNumAtoms force
       = Thrown particlesChanged) /\
    (getNumParticles force = numAtoms ->
       copyParametersToContext numAtoms paddedNumAtoms force
       = Updated (paramsVector paddedNumAtoms force)).
Proof.
  intros numContexts numAtoms padded multipoles force agree.
  split; [| split].
  - intro v. unfold initialize.
    destruct (1 <? numContexts)%nat eqn:Hc.
    + apply Nat.ltb_lt in Hc. split; [discriminate | intros (Hle & _); lia].
    + apply Nat.ltb_ge in Hc. destruct multipoles as [multipoleCharge |].
      * unfold checkedParamsVector.
        destruct (checked_loop force multipoleCharge
                    (seq 0 (getNumParticles force))
                    (repeat (rofZ 0, rofZ 0) padded)) as (_ & Hall & Hsome).
        cbv zeta in Hall, Hsome.
        destruct (agree multipoleCharge) eqn:Hagree; unfold agree in Hagree.
        -- rewrite (Hall Hagree). fold (paramsVector padded force). split.
           ++ intro Hv. injection Hv as <-. split; [exact Hc |].
              split; [| reflexivity]. exists multipoleCharge. now split.
           ++ intros (_ & _ & ->). reflexivity.
        -- rewrite (Hsome Hagree). split; [discriminate |].
           intros (_ & (c & Hc' & Hagree') & _). injection Hc' as ->.
           unfold agree in Hagree'. congruence.
      * split; [discriminate |]. intros (_ & (c & Hc' & _) & _). discriminate.
  - intro Hne. unfold copyParametersToContext.
    apply Nat.eqb_neq in Hne. now rewrite Hne.
  - intro Heq. unfold copyParametersToContext. now rewrite Heq, Nat.eqb_refl.
Qed.

End Model.

End Kirkwood.

(* ------------------------------------------------------------------ *)
(** * Parameters of the HIPPO force on the device
      ([CudaCalcHippoNonbondedForceKernel::copyParametersToContext]) *)

Module HippoParameters.

Inductive Array : Type :=
  | coreCharge | valenceCharge | alpha | epsilon | damping | c6
  | pauliK | pauliQ | pauliAlpha | polarizability
  | multipoleParticles | localDipoles | localQuadrupoles
  | exceptionAtoms | exceptionScales (i : nat).

Section Model.

Context {T : Type} `{RealOps T}.
Local Open Scope ops_scope.

(** What [force.getExceptionParameters] returns for one exception. *)
Record ExceptionParameters : Type := mkException {
  particle1 : Z;
  particle2 : Z;
  multipoleMultipoleScale : T;
  dipoleMultipoleScale : T;
  dipoleDipoleScale : T;
  dispersionScale : T;
  repulsionScale : T;
  chargeTransferScale : T }.

(** The force as the kernel queries it. *)
Record Force : Type := mkForce {
  getNumParticles : nat;
  getParticleParameters : nat -> @ForceInfo.ParticleParameters T;
  getNumExceptions : nat;
  getExceptionParameters : nat -> ExceptionParameters }.

Inductive Payload : Type :=
  | Reals (values : list T)
  | Int4s (values : list (Z * Z * Z * Z))
  | Int2s (values : list (Z * Z)).

Inductive Event : Type :=
  | Upload (a : Array) (data : Payload)
  | InvalidateMolecules.

Record HostState : Type := mkHost {
  numParticles : nat;                  (* set by [initialize] *)
  numAtoms : nat;                      (* cu.getNumAtoms() *)
  paddedNumAtoms : nat;
  usePME : bool;
  exceptionAtomsSize : option nat;     (* [None]: not initialized *)
  multipolesAreValid : bool }.

Record World : Type := mkWorld { host : HostState; trace : list Event }.

Inductive Outcome : Type :=
  | Returned (w : World)
  | Thrown (message : String.string) (w : World).

(** The thirteen host vectors of the particle loop. *)
Record ParticleVectors : Type := mkVectors {
  coreChargeVec : list T; valenceChargeVec : list T; alphaVec : list T;
  epsilonVec : list T; dampingVec : list T; c6Vec : list T;
  pauliKVec : list T; pauliQVec : list T; pauliAlphaVec : list T;
  polarizabilityVec : list T;
  localDipolesVec : list T; localQuadrupolesVec : list T;
  multipoleParticlesVec : list (Z * Z * Z * Z) }.

Definition recordParticle (force : Force) (v : ParticleVectors) (i : nat)
    : ParticleVectors :=
  let p := getParticleParameters force i in
  let q := fun j => nth j (ForceInfo.quadrupole p) (rofZ 0) in
  mkVectors
    (coreChargeVec v ++ [ForceInfo.coreCharge p])
    (valenceChargeVec v ++ [ForceInfo.charge p - ForceInfo.coreCharge p])
    (alphaVec v ++ [ForceInfo.alpha p])
    (epsilonVec v ++ [ForceInfo.epsilon p])
    (dampingVec v ++ [ForceInfo.damping p])
    (c6Vec v ++ [ForceInfo.c6 p])
    (pauliKVec v ++ [ForceInfo.pauliK p])
    (pauliQVec v ++ [ForceInfo.pauliQ p])
    (pauliAlphaVec v ++ [ForceInfo.pauliAlpha p])
    (polarizabilityVec v ++ [ForceInfo.polarizability p])
    (localDipolesVec v
       ++ map (fun j => nth j (ForceInfo.dipole p) (rofZ 0)) (seq 0 3))
    (localQuadrupolesVec v ++ [q 0%nat; q 1%nat; q 2%nat; q 4%nat; q 5%nat])
    (multipoleParticlesVec v
       ++ [(ForceInfo.multipoleX p, ForceInfo.multipoleY p,
            ForceInfo.multipoleZ p, ForceInfo.axisType p)]).

Definition padParticle (v : ParticleVectors) (i : nat) : ParticleVectors :=
  mkVectors
    (coreChargeVec v ++ [rofZ 0]) (valenceChargeVec v ++ [rofZ 0])
    (alphaVec v ++ [rofZ 0]) (epsilonVec v ++ [rofZ 0])
    (dampingVec v ++ [rofZ 0]) (c6Vec v ++ [rofZ 0])
    (pauliKVec v ++ [rofZ 0]) (pauliQVec v ++ [rofZ 0])
    (pauliAlphaVec v ++ [rofZ 0]) (polarizabilityVec v ++ [rofZ 0])
    (localDipolesVec v ++ repeat (rofZ 0) 3)
    (localQuadrupolesVec v ++ repeat (rofZ 0) 5)
    (multipoleParticlesVec v ++ [(0, 0, 0, 0)%Z]).

Definition particleVectors (h : HostState) (force : Force) : ParticleVectors :=
  let v := fold_left (recordParticle force) (seq 0 (numParticles h))
             (mkVectors [] [] [] [] [] [] [] [] [] [] [] [] []) in
  fold_left padParticle
    (seq (numParticles h) (paddedNumAtoms h - numParticles h)) v.

Definition particleUploads (v : ParticleVectors) : list Event :=
  [ Upload coreCharge (Reals (coreChargeVec v));
    Upload valenceCharge (Reals (valenceChargeVec v));
    Upload alpha (Reals (alphaVec v));
    Upload epsilon (Reals (epsilonVec v));
    Upload damping (Reals (dampingVec v));
    Upload c6 (Reals (c6Vec v));
    Upload pauliK (Reals (pauliKVec v));
    Upload pauliQ (Reals (pauliQVec v));
    Upload pauliAlpha (Reals (pauliAlphaVec v));
    Upload polarizability (Reals (polarizabilityVec v));
    Upload multipoleParticles (Int4s (multipoleParticlesVec v));
    Upload localDipoles (Reals (localDipolesVec v));
    Upload localQuadrupoles (Reals (localQuadrupolesVec v)) ].

Definition nonZero (x : T) : bool := negb (reqb x (rofZ 0)).

(** [usePME || multipoleMultipoleScale != 0 || ... || chargeTransferScale != 0]. *)
Definition isKept (pme : bool) (e : ExceptionParameters) : bool :=
  pme || nonZero (multipoleMultipoleScale e) || nonZero (dipoleMultipoleScale e)
  || nonZero (dipoleDipoleScale e) || nonZero (dispersionScale e)
  || nonZero (repulsionScale e) || nonZero (chargeTransferScale e).

(** The exceptions the loop keeps, in order. *)
Definition keptExceptions (pme : bool) (force : Force) : list ExceptionParameters :=
  fold_left
    (fun kept i =>
       let e := getExceptionParameters force i in
       if isKept pme e then kept ++ [e] else kept)
    (seq 0 (getNumExceptions force)) [].

Definition scaleOf (i : nat) (e : ExceptionParameters) : T :=
  match i with
  | 0%nat => multipoleMultipoleScale e
  | 1%nat => dipoleMultipoleScale e
  | 2%nat => dipoleDipoleScale e
  | 3%nat => dispersionScale e
  | 4%nat => repulsionScale e
  | _ => chargeTransferScale e
  end.

Definition exceptionUploads (kept : list ExceptionParameters) : list Event :=
  Upload exceptionAtoms (Int2s (map (fun e => (particle1 e, particle2 e)) kept))
  :: map (fun i => Upload (exceptionScales i) (Reals (map (scaleOf i) kept)))
         (seq 0 6).

Local Open Scope string_scope.

Definition particlesChanged : String.string :=
  "updateParametersInContext: The number of particles has changed".
Definition exceptionsChanged : String.string :=
  "updateParametersInContext: The number of exceptions has changed".

Local Close Scope string_scope.

Definition emitAll (es : list Event) (w : World) : World :=
  mkWorld (host w) (trace w ++ es).

Definition invalidate (w : World) : World :=
  mkWorld (mkHost (numParticles (host w)) (numAtoms (host w))
                  (paddedNumAtoms (host w)) (usePME (host w))
                  (exceptionAtomsSize (host w)) false)
          (trace w ++ [InvalidateMolecules]).

Definition copyParametersToContext (force : Force) (w : World) : Outcome :=
  if negb (getNumParticles force =? numAtoms (host w))%nat
  then Thrown particlesChanged w
  else
    let w := emitAll (particleUploads (particleVectors (host w) force)) w in
    let kept := keptExceptions (usePME (host w)) force in
    if (0 <? List.length kept)%nat then
      match exceptionAtomsSize (host w) with
      | Some size =>
          if negb (size =? List.length kept)%nat
          then Thrown exceptionsChanged w
          else Returned (invalidate (emitAll (exceptionUploads kept) w))
      | None => Thrown exceptionsChanged w
      end
    else
      match exceptionAtomsSize (host w) with
      | Some _ => Thrown exceptionsChanged w
      | None => Returned (invalidate w)
      end.

(** [initialize]: [exceptionAtoms] is created only for a non-empty list,
    with one entry per kept exception. *)
Definition initialExceptionAtomsSize (pme : bool) (force : Force) : option nat :=
  let kept := keptExceptions pme force in
  if (0 <? List.length kept)%nat then Some (List.length kept) else None.

(** [copyParametersToContext] of the HIPPO kernel raises on a changed
    particle count before touching anything.  Otherwise it first uploads
    the thirteen particle arrays and only then looks at the exceptions: it
    accepts the force exactly when [exceptionAtoms] is in the state
    [initialize] gives it for this force (absent when no exception is
    kept, else one entry per kept exception).  When it does not, it raises
    with the particle arrays already overwritten, the molecules not
    invalidated and the cache flag left as it was; when it does, it uploads
    the kept exceptions if there are any, invalidates the molecules and
    marks the cached multipoles invalid. *)
Theorem hippo_update_checks_exceptions_after_uploads :
  forall (force : Force) (w : World),
    let h := host w in
    let uploads := particleUploads (particleVectors h force) in
    let kept := keptExceptions (usePME h) force in
    (getNumParticles force <> numAtoms h ->
       copyParametersToContext force w = Thrown particlesChanged w) /\
    (getNumParticles force = numAtoms h ->
     exceptionAtomsSize h <> initialExceptionAtomsSize (usePME h) force ->
       copyParametersToContext force w
       = Thrown exceptionsChanged (mkWorld h (trace w ++ uploads))) /\
    (getNumParticles force = numAtoms h ->
     exceptionAtomsSize h = initialExceptionAtomsSize (usePME h) force ->
       exists w',
         copyParametersToContext force w = Returned w' /\
         trace w' = trace w ++ uploads
                    ++ (if (0 <? List.length kept)%nat
                        then exceptionUploads kept else [])
                    ++ [InvalidateMolecules] /\
         multipolesAreValid (host w') = false).
Proof.
  intros force w h uploads kept.
  unfold copyParametersToContext, initialExceptionAtomsSize.
  fold h. cbn [emitAll host]. fold h. fold uploads. fold kept.
  split; [| split].
  - intro Hne. apply Nat.eqb_neq in Hne. now rewrite Hne.
  - intros Heq Hsize. rewrite Heq, Nat.eqb_refl. cbn [negb].
    destruct (0 <? List.length kept)%nat;
      destruct (exceptionAtomsSize h) as [size |]; try reflexivity;
      try congruence.
    destruct (size =? List.length kept)%nat eqn:Hs; [| reflexivity].
    apply Nat.eqb_eq in Hs. congruence.
  - intros Heq Hsize. rewrite Heq, Nat.eqb_refl. cbn [negb]. rewrite Hsize.
    destruct (0 <? List.length kept)%nat.
    + rewrite Nat.eqb_refl. cbn [negb]. eexists. split; [reflexivity |].
      cbn [invalidate emitAll trace host multipolesAreValid].
      rewrite <- !app_assoc. split; reflexivity.
    + eexists. split; [reflexivity |].
      cbn [invalidate emitAll trace host multipolesAreValid].
      split; [| reflexivity]. now rewrite <- app_assoc.
Qed.

End Model.

(** A sample in binary64: one particle, one exception whose six scales
    are all zero, no PME.  [initialize] keeps no exception; switching one
    scale on afterwards makes the update fail after its thirteen
    uploads. *)
Definition sampleForce (scale : float) : @Force float :=
  mkForce 1 (fun _ => ForceInfo.sampleParticle (dec 1 10)) 1
    (fun _ => mkException 0 0 scale (dec 0 1) (dec 0 1) (dec 0 1) (dec 0 1)
                          (dec 0 1)).

Definition sampleWorld : @World float :=
  mkWorld (mkHost 1 1 32 false
             (initialExceptionAtomsSize false (sampleForce (dec 0 1))) true)
          [].

Example hippo_update_sample :
  exceptionAtomsSize (host sampleWorld) = None /\
  (exists w', copyParametersToContext (sampleForce (dec 0 1)) sampleWorld
              = Returned w' /\ List.length (trace w') = 14%nat) /\
  (exists w', copyParametersToContext (sampleForce (dec 5 10)) sampleWorld
              = Thrown exceptionsChanged w' /\
              List.length (trace w') = 13%nat /\
              multipolesAreValid (host w') = true).
Proof.
  split; [vm_compute; reflexivity |]. split.
  - eexists. split; [vm_compute; reflexivity | reflexivity].
  - eexists. split; [vm_compute; reflexivity | split; reflexivity].
Qed.

End HippoParameters.

(* ------------------------------------------------------------------ *)
(** * Covalent and polarization-group flags
      ([initialize], [initializeScaleFactors]) *)

Module Flags.

Section Tiles.

(** [CudaContext::TileSize]; a flag word is an [unsigned int]. *)
Variable TileSize : nat.
Hypothesis TileSize_positive : (0 < TileSize)%nat.

(** [map<pair<int, int>, int> exclusionTileMap]: a lookup of a key that
    is not in the map inserts it with the value [0] and returns [0]. *)
Definition TileMap : Type := nat * nat -> nat.

Definition sameTile (s t : nat * nat) : bool :=
  (fst s =? fst t)%nat && (snd s =? snd t)%nat.

(** [exclusionTileMap[make_pair(tile.x, tile.y)] = i] for every [i]. *)
Definition exclusionTileMap (exclusionTiles : list (nat * nat)) : TileMap :=
  fold_left
    (fun (m : TileMap) i =>
       fun t => if sameTile t (nth i exclusionTiles (0, 0)%nat) then i else m t)
    (seq 0 (List.length exclusionTiles))
    (fun _ => 0%nat).

(** [v[k] |= f << offset]. *)
Definition orBit (v : list Z) (k : nat) (f : Z) (offset : nat) : list Z :=
  upd v k (Z.lor (nth k v 0%Z) (Z.shiftl f (Z.of_nat offset))).

(** The body of the loop over [polarizationFlagValues]. *)
Definition flagPolarization (m : TileMap) (v : list Z) (values : nat * nat)
    : list Z :=
  let (atom1, atom2) := values in
  let x := (atom1 / TileSize)%nat in
  let offset1 := (atom1 - x * TileSize)%nat in
  let y := (atom2 / TileSize)%nat in
  let offset2 := (atom2 - y * TileSize)%nat in
  if (x =? y)%nat then
    let index := (m (x, y) * TileSize)%nat in
    orBit (orBit v (index + offset1) 1 offset2) (index + offset2) 1 offset1
  else if (y <? x)%nat then
    let index := (m (x, y) * TileSize)%nat in
    orBit v (index + offset1) 1 offset2
  else
    let index := (m (y, x) * TileSize)%nat in
    orBit v (index + offset2) 1 offset1.

(** [polarizationGroupFlagsVec] after the loop; [size] is
    [nb.getExclusions().getSize()]. *)
Definition polarizationGroupFlagsVec (size : nat)
    (exclusionTiles polarizationFlagValues : list (nat * nat)) : list Z :=
  fold_left (flagPolarization (exclusionTileMap exclusionTiles))
            polarizationFlagValues (repeat 0%Z size).

(** ** The lookup *)

Lemma sameTile_eq s t : sameTile s t = true <-> s = t.
Proof.
  destruct s as [a b], t as [c d]. unfold sameTile. cbn [fst snd].
  rewrite andb_true_iff, !Nat.eqb_eq. split.
  - now intros [-> ->].
  - intro E. injection E as -> ->. now split.
Qed.

Lemma firstn_snoc {A : Type} (d : A) (l : list A) : forall n,
  (n < List.length l)%nat -> firstn (S n) l = firstn n l ++ [nth n l d].
Proof.
  induction l as [| a l IH]; intros n Hn; simpl in Hn; [lia |].
  destruct n as [| n]; [reflexivity |].
  cbn [firstn nth app]. now rewrite <- IH by lia.
Qed.

Lemma exclusionTileMap_prefix (tiles : list (nat * nat)) : forall n (m : TileMap) t,
  (n <= List.length tiles)%nat ->
  let m' := fold_left
              (fun (m : TileMap) i =>
                 fun t => if sameTile t (nth i tiles (0, 0)%nat) then i else m t)
              (seq 0 n) m in
  (In t (firstn n tiles) -> (m' t < n)%nat /\ nth (m' t) tiles (0, 0)%nat = t) /\
  (~ In t (firstn n tiles) -> m' t = m t).
Proof.
  induction n as [| n IH]; intros m t Hn; cbv zeta.
  - simpl. split; [tauto | reflexivity].
  - rewrite seq_S, fold_left_app. cbn [Nat.add fold_left].
    destruct (IH m t ltac:(lia)) as [Hin Hout]. cbv zeta in Hin, Hout.
    rewrite (firstn_snoc (0, 0)%nat tiles n) by lia.
    destruct (sameTile t (nth n tiles (0, 0)%nat)) eqn:Hs.
    + apply sameTile_eq in Hs. split.
      * intros _. split; [lia | now symmetry].
      * intro Hnot. exfalso. apply Hnot, in_or_app. right. left. now symmetry.
    + assert (Hne : nth n tiles (0, 0)%nat <> t).
      { intro E. rewrite <- E in Hs.
        assert (sameTile (nth n tiles (0, 0)%nat) (nth n tiles (0, 0)%nat) = true)
          by now apply sameTile_eq.
        congruence. }
      split.
      * intro Hi. apply in_app_or in Hi. destruct Hi as [Hi | [Hi | []]].
        -- destruct (Hin Hi). split; [lia | assumption].
        -- contradiction.
      * intro Hnot. apply Hout. intro Hi. apply Hnot, in_or_app. now left.
Qed.

(** A tile of the list is found at an index where the list holds it. *)
Lemma exclusionTileMap_found tiles t :
  In t tiles ->
  (exclusionTileMap tiles t < List.length tiles)%nat /\
  nth (exclusionTileMap tiles t) tiles (0, 0)%nat = t.
Proof.
  intro Hin. unfold exclusionTileMap.
  destruct (exclusionTileMap_prefix tiles (List.length tiles) (fun _ => 0%nat) t
              (Nat.le_refl _)) as [Hfound _].
  apply Hfound. now rewrite firstn_all.
Qed.

Lemma exclusionTileMap_injective tiles s t :
  In s tiles -> In t tiles ->
  exclusionTileMap tiles s = exclusionTileMap tiles t -> s = t.
Proof.
  intros Hs Ht E.
  destruct (exclusionTileMap_found tiles s Hs) as [_ <-].
  destruct (exclusionTileMap_found tiles t Ht) as [_ <-].
  now rewrite E.
Qed.

(** ** Bits of the flag words *)

Definition bitSet (v : list Z) (k b : nat) : bool :=
  Z.testbit (nth k v 0%Z) (Z.of_nat b).

Lemma orBit_bits v k offset j b :
  (j < List.length v)%nat ->
  bitSet (orBit v k 1 offset) j b
  = bitSet v j b || ((j =? k)%nat && (b =? offset)%nat).
Proof.
  intro Hj. unfold bitSet, orBit.
  destruct (Nat.eqb_spec j k) as [-> | Hne].
  - rewrite nth_upd_same by exact Hj.
    rewrite Z.lor_spec, Z.shiftl_1_l, Z.pow2_bits_eqb by lia.
    cbn [andb]. f_equal.
    destruct (Nat.eqb_spec b offset) as [-> | Hb].
    + apply Z.eqb_refl.
    + apply Z.eqb_neq. lia.
  - rewrite nth_upd_other by congruence. cbn [andb]. now rewrite orb_false_r.
Qed.

Lemma orBit_length v k f offset : List.length (orBit v k f offset) = List.length v.
Proof. apply upd_length. Qed.

(** The word and the bit a pair of atoms sets, as the three branches of
    the loop choose them. *)
Definition hits (m : TileMap) (values : nat * nat) (k b : nat) : bool :=
  let (atom1, atom2) := values in
  let x := (atom1 / TileSize)%nat in
  let offset1 := (atom1 - x * TileSize)%nat in
  let y := (atom2 / TileSize)%nat in
  let offset2 := (atom2 - y * TileSize)%nat in
  if (x =? y)%nat then
    ((k =? m (x, y) * TileSize + offset1)%nat && (b =? offset2)%nat)
    || ((k =? m (x, y) * TileSize + offset2)%nat && (b =? offset1)%nat)
  else if (y <? x)%nat then
    (k =? m (x, y) * TileSize + offset1)%nat && (b =? offset2)%nat
  else
    (k =? m (y, x) * TileSize + offset2)%nat && (b =? offset1)%nat.

Lemma flagPolarization_length m v values :
  List.length (flagPolarization m v values) = List.length v.
Proof.
  destruct values as [atom1 atom2]. unfold flagPolarization.
  destruct (_ =? _)%nat; [| destruct (_ <? _)%nat];
    now rewrite ?orBit_length.
Qed.

Lemma flagPolarization_bits m v values k b :
  (k < List.length v)%nat ->
  bitSet (flagPolarization m v values) k b = bitSet v k b || hits m values k b.
Proof.
  intro Hk. destruct values as [atom1 atom2]. unfold flagPolarization, hits.
  destruct (_ =? _)%nat; [| destruct (_ <? _)%nat].
  - rewrite orBit_bits by (now rewrite orBit_length).
    rewrite orBit_bits by exact Hk. now rewrite orb_assoc.
  - now apply orBit_bits.
  - now apply orBit_bits.
Qed.

Lemma flags_bits m (values : list (nat * nat)) : forall v k b,
  (k < List.length v)%nat ->
  bitSet (fold_left (flagPolarization m) values v) k b
  = bitSet v k b || existsb (fun p => hits m p k b) values.
Proof.
  induction values as [| p values IH]; intros v k b Hk.
  - simpl. now rewrite orb_false_r.
  - cbn [fold_left existsb].
    rewrite IH by (now rewrite flagPolarization_length).
    rewrite flagPolarization_bits by exact Hk. now rewrite orb_assoc.
Qed.

(** ** What the flags say *)

Lemma offset_mod n : (n - n / TileSize * TileSize = n mod TileSize)%nat.
Proof. rewrite Nat.Div0.mod_eq. f_equal. apply Nat.mul_comm. Qed.

Lemma word_index_unique i1 o1 i2 o2 :
  (o1 < TileSize)%nat -> (o2 < TileSize)%nat ->
  (i1 * TileSize + o1 = i2 * TileSize + o2)%nat -> i1 = i2 /\ o1 = o2.
Proof.
  intros H1 H2 E.
  assert (Hq1 : ((i1 * TileSize + o1) / TileSize = i1)%nat)
    by (rewrite Nat.div_add_l, Nat.div_small; lia).
  assert (Hq2 : ((i2 * TileSize + o2) / TileSize = i2)%nat)
    by (rewrite Nat.div_add_l, Nat.div_small; lia).
  assert (Hi : i1 = i2) by (rewrite <- Hq1, <- Hq2; now rewrite E).
  split; [exact Hi |]. subst i2. lia.
Qed.

Lemma atom_unique u a :
  (u / TileSize = a / TileSize)%nat -> (u mod TileSize = a mod TileSize)%nat ->
  u = a.
Proof.
  intros Hd Hm.
  rewrite (Nat.div_mod_eq u TileSize), (Nat.div_mod_eq a TileSize).
  now rewrite Hd, Hm.
Qed.

(** The tile a pair of atoms belongs to: the larger block index first. *)
Definition tileOf (values : nat * nat) : nat * nat :=
  (Nat.max (fst values / TileSize) (snd values / TileSize),
   Nat.min (fst values / TileSize) (snd values / TileSize)).

(** The words after the loop, bit by bit. *)
Lemma recorded_pairs_flagged :
  forall (size : nat) (exclusionTiles polarizationFlagValues : list (nat * nat))
         (a b : nat),
    size = (List.length exclusionTiles * TileSize)%nat ->
    (forall p, In p polarizationFlagValues -> In (tileOf p) exclusionTiles) ->
    (b / TileSize <= a / TileSize)%nat ->
    In (a / TileSize, b / TileSize)%nat exclusionTiles ->
    let word := (exclusionTileMap exclusionTiles (a / TileSize, b / TileSize)
                 * TileSize + a mod TileSize)%nat in
    bitSet (polarizationGroupFlagsVec size exclusionTiles polarizationFlagValues)
           word (b mod TileSize) = true
    <-> In (a, b) polarizationFlagValues \/ In (b, a) polarizationFlagValues.
Proof.
  intros size tiles values a b Hsize Htiles Hle Htile word.
  set (m := exclusionTileMap tiles).
  assert (Hma : (a mod TileSize < TileSize)%nat) by (apply Nat.mod_upper_bound; lia).
  assert (Hmb : (b mod TileSize < TileSize)%nat) by (apply Nat.mod_upper_bound; lia).
  destruct (exclusionTileMap_found tiles _ Htile) as [Hidx _]. fold m in Hidx.
  assert (Hword : (word < size)%nat) by (unfold word; fold m; nia).
  unfold polarizationGroupFlagsVec. fold m.
  rewrite flags_bits by (now rewrite repeat_length).
  replace (bitSet (repeat 0%Z size) word (b mod TileSize)) with false
    by (unfold bitSet; rewrite nth_repeat; now rewrite Z.testbit_0_l).
  cbn [orb]. rewrite existsb_exists. split.
  - intros ([u v] & Hin & Hhit). specialize (Htiles _ Hin).
    unfold tileOf in Htiles. cbn [fst snd] in Htiles.
    unfold hits in Hhit. rewrite !offset_mod in Hhit.
    assert (Hmu : (u mod TileSize < TileSize)%nat) by (apply Nat.mod_upper_bound; lia).
    assert (Hmv : (v mod TileSize < TileSize)%nat) by (apply Nat.mod_upper_bound; lia).
    destruct (Nat.eqb_spec (u / TileSize) (v / TileSize)) as [Hxy | Hxy].
    + rewrite <- Hxy, Nat.max_id, Nat.min_id in Htiles. rewrite <- Hxy in Hhit.
      apply orb_true_iff in Hhit.
      destruct Hhit as [Hhit | Hhit]; apply andb_true_iff in Hhit;
        destruct Hhit as [Hk Hb]; apply Nat.eqb_eq in Hk, Hb; unfold word in Hk;
        fold m in Hk; apply word_index_unique in Hk; try assumption;
        destruct Hk as [Hk Ho];
        apply (exclusionTileMap_injective tiles _ _ Htile Htiles) in Hk;
        injection Hk as Hx Hy.
      * left. replace a with u by (apply atom_unique; first [lia | congruence]).
        replace b with v by (apply atom_unique; first [lia | congruence]). exact Hin.
      * right. replace b with u by (apply atom_unique; first [lia | congruence]).
        replace a with v by (apply atom_unique; first [lia | congruence]). exact Hin.
    + destruct (Nat.ltb_spec (v / TileSize) (u / TileSize)) as [Hlt | Hge].
      * rewrite Nat.max_l, Nat.min_r in Htiles by lia.
        apply andb_true_iff in Hhit. destruct Hhit as [Hk Hb].
        apply Nat.eqb_eq in Hk, Hb. unfold word in Hk. fold m in Hk.
        apply word_index_unique in Hk; try assumption. destruct Hk as [Hk Ho].
        apply (exclusionTileMap_injective tiles _ _ Htile Htiles) in Hk.
        injection Hk as Hx Hy.
        left. replace a with u by (apply atom_unique; first [lia | congruence]).
        replace b with v by (apply atom_unique; first [lia | congruence]). exact Hin.
      * rewrite Nat.max_r, Nat.min_l in Htiles by lia.
        apply andb_true_iff in Hhit. destruct Hhit as [Hk Hb].
        apply Nat.eqb_eq in Hk, Hb. unfold word in Hk. fold m in Hk.
        apply word_index_unique in Hk; try assumption. destruct Hk as [Hk Ho].
        apply (exclusionTileMap_injective tiles _ _ Htile Htiles) in Hk.
        injection Hk as Hx Hy.
        right. replace b with u by (apply atom_unique; first [lia | congruence]).
        replace a with v by (apply atom_unique; first [lia | congruence]). exact Hin.
  - intros [Hin | Hin].
    + exists (a, b). split; [exact Hin |]. unfold hits. rewrite !offset_mod.
      fold m. fold word.
      destruct (Nat.eqb_spec (a / TileSize) (b / TileSize)) as [Hxy | Hxy].
      * now rewrite !Nat.eqb_refl.
      * destruct (Nat.ltb_spec (b / TileSize) (a / TileSize)); [| lia].
        now rewrite !Nat.eqb_refl.
    + exists (b, a). split; [exact Hin |]. unfold hits. rewrite !offset_mod.
      destruct (Nat.eqb_spec (b / TileSize) (a / TileSize)) as [Hxy | Hxy].
      * unfold word, m. rewrite Hxy, !Nat.eqb_refl. cbn [andb]. apply orb_true_r.
      * destruct (Nat.ltb_spec (a / TileSize) (b / TileSize)); [lia |].
        fold m. fold word. now rewrite !Nat.eqb_refl.
Qed.

(** After [initializeScaleFactors], for a row atom [a] and a column atom
    [b] of a tile of the exclusion list (the block of [a] not below the
    block of [b]), the bit of [b] in the polarization flag word of [a] is
    set exactly when the pair was recorded in either order.  It is assumed
    that the list holds the tile of every recorded pair and that the vector
    has one word per atom of each tile. *)
Theorem polarization_flags_mark_recorded_pairs :
  forall (size : nat) (exclusionTiles polarizationFlagValues : list (nat * nat))
         (a b : nat),
    size = (List.length exclusionTiles * TileSize)%nat ->
    (forall p, In p polarizationFlagValues -> In (tileOf p) exclusionTiles) ->
    (b / TileSize <= a / TileSize)%nat ->
    In (a / TileSize, b / TileSize)%nat exclusionTiles ->
    let word := (exclusionTileMap exclusionTiles (a / TileSize, b / TileSize)
                 * TileSize + a mod TileSize)%nat in
    bitSet (polarizationGroupFlagsVec size exclusionTiles polarizationFlagValues)
           word (b mod TileSize) = true
    <-> In (a, b) polarizationFlagValues \/ In (b, a) polarizationFlagValues.
Proof. exact recorded_pairs_flagged. Qed.

(** ** The covalent flags: two words per atom ([uint2]) *)

(** [v[k].x |= f1 << offset; v[k].y |= f2 << offset;] *)
Definition orBits (v : list (Z * Z)) (k : nat) (f1 f2 : Z) (offset : nat)
    : list (Z * Z) :=
  upd v k (Z.lor (fst (nth k v (0, 0)%Z)) (Z.shiftl f1 (Z.of_nat offset)),
           Z.lor (snd (nth k v (0, 0)%Z)) (Z.shiftl f2 (Z.of_nat offset))).

(** The body of the loop over [covalentFlagValues]. *)
Definition flagCovalent (m : TileMap) (v : list (Z * Z)) (values : nat * nat * nat)
    : list (Z * Z) :=
  let '(atom1, atom2, value) := values in
  let x := (atom1 / TileSize)%nat in
  let offset1 := (atom1 - x * TileSize)%nat in
  let y := (atom2 / TileSize)%nat in
  let offset2 := (atom2 - y * TileSize)%nat in
  let f1 := if (value =? 0)%nat || (value =? 1)%nat then 1%Z else 0%Z in
  let f2 := if (value =? 0)%nat || (value =? 2)%nat then 1%Z else 0%Z in
  if (x =? y)%nat then
    let index := (m (x, y) * TileSize)%nat in
    orBits (orBits v (index + offset1) f1 f2 offset2) (index + offset2) f1 f2 offset1
  else if (y <? x)%nat then
    let index := (m (x, y) * TileSize)%nat in
    orBits v (index + offset1) f1 f2 offset2
  else
    let index := (m (y, x) * TileSize)%nat in
    orBits v (index + offset2) f1 f2 offset1.

Definition covalentFlagsVec (size : nat) (exclusionTiles : list (nat * nat))
    (covalentFlagValues : list (nat * nat * nat)) : list (Z * Z) :=
  fold_left (flagCovalent (exclusionTileMap exclusionTiles))
            covalentFlagValues (repeat (0, 0)%Z size).

(** The pairs whose value sets the first word (values 0 and 1), and those
    that set the second (values 0 and 2). *)
Definition setsX (value : nat) : bool := (value =? 0)%nat || (value =? 1)%nat.
Definition setsY (value : nat) : bool := (value =? 0)%nat || (value =? 2)%nat.

Definition pairsWith (sets : nat -> bool) (values : list (nat * nat * nat))
    : list (nat * nat) :=
  map (fun p => (fst (fst p), snd (fst p)))
      (filter (fun p => sets (snd p)) values).

Lemma upd_map {A B : Type} (f : A -> B) (v : list A) k x :
  map f (upd v k x) = upd (map f v) k (f x).
Proof.
  revert k. induction v as [| a v IH]; intros [| k]; simpl; try reflexivity.
  now rewrite IH.
Qed.

Lemma upd_same {A : Type} (v : list A) k d : upd v k (nth k v d) = v.
Proof.
  revert k. induction v as [| a v IH]; intros [| k]; simpl; try reflexivity.
  now rewrite IH.
Qed.

Lemma orBits_fst v k f2 offset (set : bool) :
  map fst (orBits v k (if set then 1%Z else 0%Z) f2 offset)
  = if set then orBit (map fst v) k 1 offset else map fst v.
Proof.
  unfold orBits, orBit. rewrite upd_map. cbn [fst].
  replace (fst (nth k v (0, 0)%Z)) with (nth k (map fst v) 0%Z)
    by (apply (map_nth fst v (0, 0)%Z k)).
  destruct set; [reflexivity |].
  rewrite Z.shiftl_0_l, Z.lor_0_r. apply upd_same.
Qed.

Lemma orBits_snd v k f1 offset (set : bool) :
  map snd (orBits v k f1 (if set then 1%Z else 0%Z) offset)
  = if set then orBit (map snd v) k 1 offset else map snd v.
Proof.
  unfold orBits, orBit. rewrite upd_map. cbn [snd].
  replace (snd (nth k v (0, 0)%Z)) with (nth k (map snd v) 0%Z)
    by (apply (map_nth snd v (0, 0)%Z k)).
  destruct set; [reflexivity |].
  rewrite Z.shiftl_0_l, Z.lor_0_r. apply upd_same.
Qed.

Lemma covalent_words m (values : list (nat * nat * nat)) : forall v,
  map fst (fold_left (flagCovalent m) values v)
  = fold_left (flagPolarization m) (pairsWith setsX values) (map fst v) /\
  map snd (fold_left (flagCovalent m) values v)
  = fold_left (flagPolarization m) (pairsWith setsY values) (map snd v).
Proof.
  induction values as [| [[atom1 atom2] value] values IH]; intro v.
  - split; reflexivity.
  - cbn [fold_left]. destruct (IH (flagCovalent m v (atom1, atom2, value))) as [Hx Hy].
    rewrite Hx, Hy. unfold pairsWith. cbn [filter snd].
    fold (setsX value). fold (setsY value). unfold flagCovalent.
    fold (setsX value). fold (setsY value). split.
    + destruct (setsX value); cbn [map fold_left fst snd flagPolarization];
        destruct (_ =? _)%nat; [| destruct (_ <? _)%nat | | destruct (_ <? _)%nat];
        now rewrite ?(orBits_fst _ _ _ _ true), ?(orBits_fst _ _ _ _ false).
    + destruct (setsY value); cbn [map fold_left fst snd flagPolarization];
        destruct (_ =? _)%nat; [| destruct (_ <? _)%nat | | destruct (_ <? _)%nat];
        now rewrite ?(orBits_snd _ _ _ _ true), ?(orBits_snd _ _ _ _ false).
Qed.

Lemma pairsWith_In sets values a b :
  In (a, b) (pairsWith sets values)
  <-> exists value, sets value = true /\ In (a, b, value) values.
Proof.
  unfold pairsWith. rewrite in_map_iff. split.
  - intros ([[u v] value] & E & Hin). cbn [fst snd] in E. injection E as -> ->.
    apply filter_In in Hin. destruct Hin as [Hin Hs]. now exists value.
  - intros (value & Hs & Hin). exists (a, b, value). split; [reflexivity |].
    apply filter_In. now split.
Qed.

(** The same for the covalent flags: the bit in the first word is set
    exactly when the pair was recorded, in either order, with the value 0
    or 1, and the bit in the second word exactly when it was recorded with
    the value 0 or 2. *)
Theorem covalent_flags_mark_recorded_pairs :
  forall (size : nat) (exclusionTiles : list (nat * nat))
         (covalentFlagValues : list (nat * nat * nat)) (a b : nat),
    size = (List.length exclusionTiles * TileSize)%nat ->
    (forall p, In p covalentFlagValues -> In (tileOf (fst p)) exclusionTiles) ->
    (b / TileSize <= a / TileSize)%nat ->
    In (a / TileSize, b / TileSize)%nat exclusionTiles ->
    let word := (exclusionTileMap exclusionTiles (a / TileSize, b / TileSize)
                 * TileSize + a mod TileSize)%nat in
    let flags := covalentFlagsVec size exclusionTiles covalentFlagValues in
    (bitSet (map fst flags) word (b mod TileSize) = true
     <-> exists value, (value = 0 \/ value = 1)%nat /\
           (In (a, b, value) covalentFlagValues
            \/ In (b, a, value) covalentFlagValues)) /\
    (bitSet (map snd flags) word (b mod TileSize) = true
     <-> exists value, (value = 0 \/ value = 2)%nat /\
           (In (a, b, value) covalentFlagValues
            \/ In (b, a, value) covalentFlagValues)).
Proof.
  intros size tiles values a b Hsize Htiles Hle Htile word flags.
  destruct (covalent_words (exclusionTileMap tiles) values (repeat (0, 0)%Z size))
    as [Hx Hy].
  rewrite !map_repeat in Hx, Hy. cbn [fst snd] in Hx, Hy.
  assert (Hsets : forall sets p, In p (pairsWith sets values) -> In (tileOf p) tiles).
  { intros sets [u v] Hin. apply pairsWith_In in Hin.
    destruct Hin as (value & _ & Hin). exact (Htiles _ Hin). }
  assert (Hx01 : forall value, setsX value = true <-> (value = 0 \/ value = 1)%nat).
  { intro value. unfold setsX. rewrite orb_true_iff, !Nat.eqb_eq. tauto. }
  assert (Hy02 : forall value, setsY value = true <-> (value = 0 \/ value = 2)%nat).
  { intro value. unfold setsY. rewrite orb_true_iff, !Nat.eqb_eq. tauto. }
  unfold flags, covalentFlagsVec. rewrite Hx, Hy. split.
  - pose proof (recorded_pairs_flagged size tiles (pairsWith setsX values) a b
                  Hsize (Hsets setsX) Hle Htile) as Hp.
    cbv zeta in Hp. unfold polarizationGroupFlagsVec in Hp. fold word in Hp.
    rewrite Hp, !pairsWith_In. split.
    + intros [(value & Hs & Hin) | (value & Hs & Hin)]; exists value;
        (split; [now apply Hx01 | tauto]).
    + intros (value & Hs & [Hin | Hin]); [left | right]; exists value;
        (split; [now apply Hx01 | assumption]).
  - pose proof (recorded_pairs_flagged size tiles (pairsWith setsY values) a b
                  Hsize (Hsets setsY) Hle Htile) as Hp.
    cbv zeta in Hp. unfold polarizationGroupFlagsVec in Hp. fold word in Hp.
    rewrite Hp, !pairsWith_In. split.
    + intros [(value & Hs & Hin) | (value & Hs & Hin)]; exists value;
        (split; [now apply Hy02 | tauto]).
    + intros (value & Hs & [Hin | Hin]); [left | right]; exists value;
        (split; [now apply Hy02 | assumption]).
Qed.

End Tiles.

(** ** [initialize]: which pairs are recorded *)

Section Recording.

Variable TileSize : nat.

(** The covalent maps of [AmoebaMultipoleForce] that [initialize] reads. *)
Inductive CovalentType : Type :=
  | Covalent12 | Covalent13 | Covalent14 | Covalent15
  | PolarizationCovalent11 | PolarizationCovalent12.

Variable getCovalentMap : nat -> CovalentType -> list nat.

(** [std::set<int>]: ascending, without duplicates. *)
Fixpoint insert (a : nat) (s : list nat) : list nat :=
  match s with
  | [] => [a]
  | b :: s' =>
      if (a <? b)%nat then a :: s
      else if (a =? b)%nat then s
      else b :: insert a s'
  end.

(** [allAtoms.insert(atoms.begin(), atoms.end())]. *)
Definition insertAll (atoms s : list nat) : list nat :=
  fold_left (fun s a => insert a s) atoms s.

Record Recorded : Type := mkRecorded {
  covalentFlagValues : list (nat * nat * nat);
  polarizationFlagValues : list (nat * nat);
  exclusions : list (list nat) }.

(** The body of [for (int i = 0; i < numMultipoles; i++)]. *)
Definition recordAtom (r : Recorded) (i : nat) : Recorded :=
  let allAtoms := insert i [] in
  let atoms := getCovalentMap i Covalent12 in
  let allAtoms := insertAll atoms allAtoms in
  let atoms := getCovalentMap i Covalent13 in
  let allAtoms := insertAll atoms allAtoms in
  let flags := covalentFlagValues r ++ map (fun atom => (i, atom, 0%nat)) allAtoms in
  let atoms := getCovalentMap i Covalent14 in
  let allAtoms := insertAll atoms allAtoms in
  let flags := flags ++ map (fun atom => (i, atom, 1%nat)) atoms in
  let atoms := getCovalentMap i Covalent15 in
  let flags := flags ++ map (fun atom => (i, atom, 2%nat)) atoms in
  let allAtoms := insertAll atoms allAtoms in
  let atoms := getCovalentMap i PolarizationCovalent11 in
  let allAtoms := insertAll atoms allAtoms in
  let atoms12 := getCovalentMap i PolarizationCovalent12 in
  mkRecorded flags
    (polarizationFlagValues r
       ++ map (fun atom => (i, atom))
              (filter (fun atom => negb (existsb (Nat.eqb atom) atoms12)) atoms))
    (upd (exclusions r) i (nth i (exclusions r) [] ++ allAtoms)).

Definition recordAtoms (numMultipoles : nat) : Recorded :=
  fold_left recordAtom (seq 0 numMultipoles)
            (mkRecorded [] [] (repeat [] numMultipoles)).

(** [tilesWithExclusions], as the list of the pairs inserted (a set in the
    source: only membership is looked at here). *)
Definition tilesWithExclusions (exclusions : list (list nat)) : list (nat * nat) :=
  flat_map
    (fun atom1 =>
       let x := (atom1 / TileSize)%nat in
       map (fun atom2 => let y := (atom2 / TileSize)%nat in (Nat.max x y, Nat.min x y))
           (nth atom1 exclusions []))
    (seq 0 (List.length exclusions)).

Lemma insert_In a b s : In b (insert a s) <-> b = a \/ In b s.
Proof.
  induction s as [| c s IH]; simpl.
  - intuition congruence.
  - destruct (Nat.ltb_spec a c).
    + simpl. intuition congruence.
    + destruct (Nat.eqb_spec a c) as [-> | Hne].
      * simpl. intuition congruence.
      * simpl. rewrite IH. intuition congruence.
Qed.

Lemma insertAll_In atoms : forall s b,
  In b (insertAll atoms s) <-> In b atoms \/ In b s.
Proof.
  unfold insertAll. induction atoms as [| a atoms IH]; intros s b; simpl.
  - tauto.
  - rewrite IH, insert_In. intuition congruence.
Qed.

(** The atoms flagged with the value [0] for atom [i], and everything
    [allAtoms] holds at the end of the iteration. *)
Definition atomsWithin13 (i : nat) : list nat :=
  insertAll (getCovalentMap i Covalent13)
    (insertAll (getCovalentMap i Covalent12) (insert i [])).

Definition allAtomsOf (i : nat) : list nat :=
  insertAll (getCovalentMap i PolarizationCovalent11)
    (insertAll (getCovalentMap i Covalent15)
       (insertAll (getCovalentMap i Covalent14) (atomsWithin13 i))).

Definition keptPolarization (i : nat) : list nat :=
  filter (fun atom =>
            negb (existsb (Nat.eqb atom) (getCovalentMap i PolarizationCovalent12)))
         (getCovalentMap i PolarizationCovalent11).

Lemma recordAtom_eq r i :
  recordAtom r i
  = mkRecorded
      (covalentFlagValues r
         ++ map (fun atom => (i, atom, 0%nat)) (atomsWithin13 i)
         ++ map (fun atom => (i, atom, 1%nat)) (getCovalentMap i Covalent14)
         ++ map (fun atom => (i, atom, 2%nat)) (getCovalentMap i Covalent15))
      (polarizationFlagValues r ++ map (fun atom => (i, atom)) (keptPolarization i))
      (upd (exclusions r) i (nth i (exclusions r) [] ++ allAtomsOf i)).
Proof.
  unfold recordAtom, allAtomsOf, atomsWithin13, keptPolarization.
  now rewrite <- !app_assoc.
Qed.

Lemma keptPolarization_In i a :
  In a (keptPolarization i)
  <-> In a (getCovalentMap i PolarizationCovalent11)
      /\ ~ In a (getCovalentMap i PolarizationCovalent12).
Proof.
  unfold keptPolarization. rewrite filter_In, negb_true_iff.
  split; intros [H11 H12]; (split; [exact H11 |]).
  - intro Hin. assert (Hex : existsb (Nat.eqb a)
                               (getCovalentMap i PolarizationCovalent12) = true).
    { apply existsb_exists. exists a. split; [exact Hin | apply Nat.eqb_refl]. }
    congruence.
  - destruct (existsb _ _) eqn:Hex; [| reflexivity].
    apply existsb_exists in Hex. destruct Hex as [c [Hc Heq]].
    apply Nat.eqb_eq in Heq. subst c. contradiction.
Qed.

Lemma atomsWithin13_In i a :
  In a (atomsWithin13 i)
  <-> a = i \/ In a (getCovalentMap i Covalent12)
      \/ In a (getCovalentMap i Covalent13).
Proof.
  unfold atomsWithin13. rewrite !insertAll_In, insert_In. simpl. tauto.
Qed.

Lemma allAtomsOf_In i a :
  In a (allAtomsOf i)
  <-> In a (atomsWithin13 i) \/ In a (getCovalentMap i Covalent14)
      \/ In a (getCovalentMap i Covalent15)
      \/ In a (getCovalentMap i PolarizationCovalent11).
Proof. unfold allAtomsOf. rewrite !insertAll_In. tauto. Qed.

(** The state after the first [k] iterations of the loop over the atoms. *)
Lemma recordAtoms_prefix numMultipoles : forall k,
  (k <= numMultipoles)%nat ->
  let r := fold_left recordAtom (seq 0 k)
             (mkRecorded [] [] (repeat [] numMultipoles)) in
  List.length (exclusions r) = numMultipoles
  /\ (forall i, nth i (exclusions r) []
                = if (i <? k)%nat then allAtomsOf i else [])
  /\ (forall i a, In (i, a) (polarizationFlagValues r)
                  <-> (i < k)%nat /\ In a (keptPolarization i))
  /\ (forall i a value, In (i, a, value) (covalentFlagValues r)
        <-> (i < k)%nat
            /\ ((value = 0%nat /\ In a (atomsWithin13 i))
                \/ (value = 1%nat /\ In a (getCovalentMap i Covalent14))
                \/ (value = 2%nat /\ In a (getCovalentMap i Covalent15)))).
Proof.
  induction k as [| k IH]; intro Hk.
  - cbn. split; [apply repeat_length |]. split.
    + intro i. apply nth_repeat.
    + split; intros; split; intros H; try contradiction; lia.
  - cbv zeta. rewrite seq_S, fold_left_app. cbn [fold_left plus].
    pose proof (IH ltac:(lia)) as IHk. cbv zeta in IHk. clear IH.
    destruct IHk as (Hlen & Hexcl & Hpol & Hcov).
    set (rk := fold_left recordAtom (seq 0 k) _) in *.
    rewrite recordAtom_eq. cbn [exclusions polarizationFlagValues covalentFlagValues].
    split; [now rewrite upd_length |]. split; [| split].
    + intro i. destruct (Nat.eq_dec i k) as [-> | Hne].
      * rewrite nth_upd_same by lia. rewrite Hexcl.
        destruct (Nat.ltb_spec k k); [lia |].
        destruct (Nat.ltb_spec k (S k)); [reflexivity | lia].
      * rewrite nth_upd_other by congruence. rewrite Hexcl.
        destruct (Nat.ltb_spec i k), (Nat.ltb_spec i (S k)); try reflexivity; lia.
    + intros i a. rewrite in_app_iff, Hpol, in_map_iff. split.
      * intros [[Hi Ha] | [c [Heq Hc]]].
        -- split; [lia | exact Ha].
        -- injection Heq as <- <-. split; [lia | exact Hc].
      * intros [Hi Ha]. destruct (Nat.eq_dec i k) as [-> | Hne].
        -- right. exists a. split; [reflexivity | exact Ha].
        -- left. split; [lia | exact Ha].
    + intros i a value. rewrite !in_app_iff, Hcov, !in_map_iff. split.
      * intros [[Hi Ha] | [[c [Heq Hc]] | [[c [Heq Hc]] | [c [Heq Hc]]]]].
        -- split; [lia | exact Ha].
        -- injection Heq as <- <- <-. split; [lia | tauto].
        -- injection Heq as <- <- <-. split; [lia | tauto].
        -- injection Heq as <- <- <-. split; [lia | tauto].
      * intros [Hi Ha]. destruct (Nat.eq_dec i k) as [-> | Hne].
        -- right. destruct Ha as [[-> Ha] | [[-> Ha] | [-> Ha]]].
           ++ left. now exists a.
           ++ right. left. now exists a.
           ++ right. right. now exists a.
        -- left. split; [lia | exact Ha].
Qed.

Lemma recordAtoms_exclusions numMultipoles i :
  (i < numMultipoles)%nat ->
  nth i (exclusions (recordAtoms numMultipoles)) [] = allAtomsOf i.
Proof.
  intro Hi. destruct (recordAtoms_prefix numMultipoles numMultipoles (le_n _))
    as (_ & Hexcl & _). unfold recordAtoms. rewrite Hexcl.
  destruct (Nat.ltb_spec i numMultipoles); [reflexivity | lia].
Qed.

Lemma tilesWithExclusions_In excl atom1 atom2 :
  (atom1 < List.length excl)%nat ->
  In atom2 (nth atom1 excl []) ->
  In (tileOf TileSize (atom1, atom2)) (tilesWithExclusions excl).
Proof.
  intros H1 H2. unfold tilesWithExclusions. apply in_flat_map.
  exists atom1. split; [apply in_seq; lia |].
  apply in_map_iff. exists atom2. split; [reflexivity | exact H2].
Qed.

(** [initialize] records a polarization pair [(i, atom)] exactly for the
    atoms of the [PolarizationCovalent11] map of [i] that are not in its
    [PolarizationCovalent12] map: the latter takes precedence. *)
Theorem polarization_pairs_respect_precedence :
  forall (numMultipoles i atom : nat),
    In (i, atom) (polarizationFlagValues (recordAtoms numMultipoles))
    <-> (i < numMultipoles)%nat
        /\ In atom (getCovalentMap i PolarizationCovalent11)
        /\ ~ In atom (getCovalentMap i PolarizationCovalent12).
Proof.
  intros n i a.
  destruct (recordAtoms_prefix n n (le_n _)) as (_ & _ & Hpol & _).
  unfold recordAtoms. now rewrite Hpol, keptPolarization_In.
Qed.

(** [initialize] records the covalent value 0 for an atom itself and the
    atoms of its [Covalent12] and [Covalent13] maps, the value 1 for the
    atoms of its [Covalent14] map and the value 2 for those of its
    [Covalent15] map, and nothing else. *)
Theorem covalent_values_follow_the_maps :
  forall (numMultipoles i atom value : nat),
    In (i, atom, value) (covalentFlagValues (recordAtoms numMultipoles))
    <-> (i < numMultipoles)%nat
        /\ ((value = 0%nat
             /\ (atom = i \/ In atom (getCovalentMap i Covalent12)
                 \/ In atom (getCovalentMap i Covalent13)))
            \/ (value = 1%nat /\ In atom (getCovalentMap i Covalent14))
            \/ (value = 2%nat /\ In atom (getCovalentMap i Covalent15))).
Proof.
  intros n i a value.
  destruct (recordAtoms_prefix n n (le_n _)) as (_ & _ & _ & Hcov).
  unfold recordAtoms. now rewrite Hcov, atomsWithin13_In.
Qed.

(** Every pair [initialize] records, covalent or polarization, lies in a
    tile that it also puts into [tilesWithExclusions]. *)
Theorem recorded_pairs_lie_in_exclusion_tiles :
  forall (numMultipoles : nat),
    let r := recordAtoms numMultipoles in
    (forall p, In p (polarizationFlagValues r)
               -> In (tileOf TileSize p) (tilesWithExclusions (exclusions r)))
    /\ (forall p, In p (covalentFlagValues r)
                  -> In (tileOf TileSize (fst p)) (tilesWithExclusions (exclusions r))).
Proof.
  intros n r.
  destruct (recordAtoms_prefix n n (le_n _)) as (Hlen & _ & Hpol & Hcov).
  fold (recordAtoms n) in Hlen, Hpol, Hcov. fold r in Hlen, Hpol, Hcov.
  split.
  - intros [i a] Hin. apply Hpol in Hin. destruct Hin as [Hi Ha].
    apply tilesWithExclusions_In; [lia |].
    unfold r. rewrite recordAtoms_exclusions by exact Hi.
    apply allAtomsOf_In. apply keptPolarization_In in Ha. tauto.
  - intros [[i a] value] Hin. apply Hcov in Hin. destruct Hin as [Hi Ha].
    cbn [fst]. apply tilesWithExclusions_In; [lia |].
    unfold r. rewrite recordAtoms_exclusions by exact Hi.
    apply allAtomsOf_In. tauto.
Qed.

(** [initialize] followed by [initializeScaleFactors]: when the exclusion
    tiles of the nonbonded utilities hold every tile of
    [tilesWithExclusions], the polarization flag bit of column atom [b] in
    the word of row atom [a] is set exactly when one of the two atoms
    lists the other in its [PolarizationCovalent11] map and not in its
    [PolarizationCovalent12] map. *)
Theorem polarization_flags_follow_the_maps :
  forall (numMultipoles size : nat) (exclusionTiles : list (nat * nat))
         (a b : nat),
    let r := recordAtoms numMultipoles in
    (0 < TileSize)%nat ->
    size = (List.length exclusionTiles * TileSize)%nat ->
    (forall t, In t (tilesWithExclusions (exclusions r)) -> In t exclusionTiles) ->
    (b / TileSize <= a / TileSize)%nat ->
    In (a / TileSize, b / TileSize)%nat exclusionTiles ->
    let word := (exclusionTileMap exclusionTiles (a / TileSize, b / TileSize)
                 * TileSize + a mod TileSize)%nat in
    bitSet (polarizationGroupFlagsVec TileSize size exclusionTiles
              (polarizationFlagValues r))
           word (b mod TileSize) = true
    <-> ((a < numMultipoles)%nat
         /\ In b (getCovalentMap a PolarizationCovalent11)
         /\ ~ In b (getCovalentMap a PolarizationCovalent12))
        \/ ((b < numMultipoles)%nat
            /\ In a (getCovalentMap b PolarizationCovalent11)
            /\ ~ In a (getCovalentMap b PolarizationCovalent12)).
Proof.
  intros n size tiles a b r Hpos Hsize Htiles Hle Htile word.
  destruct (recordAtoms_prefix n n (le_n _)) as (Hlen & _ & Hpol & Hcov).
  fold (recordAtoms n) in Hlen, Hpol, Hcov. fold r in Hlen, Hpol, Hcov.
  assert (Hall : forall p, In p (polarizationFlagValues r) -> In (tileOf TileSize p) tiles).
  { intros [i c] Hin. apply Htiles. apply Hpol in Hin. destruct Hin as [Hi Hc].
    apply tilesWithExclusions_In; [lia |].
    unfold r. rewrite recordAtoms_exclusions by exact Hi.
    apply allAtomsOf_In. apply keptPolarization_In in Hc. tauto. }
  pose proof (recorded_pairs_flagged TileSize Hpos size tiles
                (polarizationFlagValues r) a b Hsize Hall Hle Htile) as Hp.
  cbv zeta in Hp. fold word in Hp.
  now rewrite Hp, !Hpol, !keptPolarization_In.
Qed.

End Recording.

(** ** A sample: four atoms in tiles of two *)

Definition sampleMap (i : nat) (kind : CovalentType) : list nat :=
  match kind, i with
  | Covalent12, 0%nat => [1%nat]
  | Covalent12, 1%nat => [0%nat; 2%nat]
  | Covalent12, 2%nat => [1%nat; 3%nat]
  | Covalent12, 3%nat => [2%nat]
  | Covalent13, 0%nat => [2%nat]
  | Covalent13, 1%nat => [3%nat]
  | Covalent13, 2%nat => [0%nat]
  | Covalent13, 3%nat => [1%nat]
  | Covalent14, 0%nat => [3%nat]
  | Covalent14, 3%nat => [0%nat]
  | PolarizationCovalent11, 0%nat => [1%nat; 2%nat]
  | PolarizationCovalent11, 3%nat => [2%nat; 0%nat]
  | PolarizationCovalent12, 0%nat => [2%nat]
  | _, _ => []
  end.

Definition sampleTiles : list (nat * nat) := [(0, 0); (1, 0); (1, 1)]%nat.

Definition samplePairs : list (nat * nat) := [(0, 1); (3, 2); (3, 0)]%nat.

Definition sampleValues : list (nat * nat * nat) :=
  [(0, 0, 0); (0, 1, 0); (0, 3, 1); (3, 1, 2)]%nat.

Lemma polarization_flags_mark_recorded_pairs_witness :
  bitSet (polarizationGroupFlagsVec 2 6 sampleTiles samplePairs)
         (exclusionTileMap sampleTiles (3 / 2, 0 / 2) * 2 + 3 mod 2)%nat
         (0 mod 2) = true
  <-> In (3, 0)%nat samplePairs \/ In (0, 3)%nat samplePairs.
Proof.
  apply (polarization_flags_mark_recorded_pairs 2 (Nat.lt_0_succ 1) 6
           sampleTiles samplePairs 3 0).
  - reflexivity.
  - intros p Hp. simpl in Hp.
    destruct Hp as [<- | [<- | [<- | []]]]; vm_compute; tauto.
  - vm_compute. lia.
  - vm_compute. tauto.
Defined.

Lemma covalent_flags_mark_recorded_pairs_witness :
  let flags := covalentFlagsVec 2 6 sampleTiles sampleValues in
  let word := (exclusionTileMap sampleTiles (3 / 2, 0 / 2) * 2 + 3 mod 2)%nat in
  (bitSet (map fst flags) word (0 mod 2) = true
   <-> exists value, (value = 0 \/ value = 1)%nat /\
         (In (3, 0, value)%nat sampleValues \/ In (0, 3, value)%nat sampleValues))
  /\ (bitSet (map snd flags) word (0 mod 2) = true
      <-> exists value, (value = 0 \/ value = 2)%nat /\
            (In (3, 0, value)%nat sampleValues
             \/ In (0, 3, value)%nat sampleValues)).
Proof.
  apply (covalent_flags_mark_recorded_pairs 2 (Nat.lt_0_succ 1) 6
           sampleTiles sampleValues 3 0).
  - reflexivity.
  - intros p Hp. simpl in Hp.
    destruct Hp as [<- | [<- | [<- | [<- | []]]]]; vm_compute; tauto.
  - vm_compute. lia.
  - vm_compute. tauto.
Defined.

Lemma polarization_flags_follow_the_maps_witness :
  let tiles := tilesWithExclusions 2 (exclusions (recordAtoms sampleMap 4)) in
  bitSet (polarizationGroupFlagsVec 2 (List.length tiles * 2) tiles
            (polarizationFlagValues (recordAtoms sampleMap 4)))
         (exclusionTileMap tiles (3 / 2, 0 / 2) * 2 + 3 mod 2)%nat
         (0 mod 2) = true
  <-> ((3 < 4)%nat
       /\ In 0%nat (sampleMap 3 PolarizationCovalent11)
       /\ ~ In 0%nat (sampleMap 3 PolarizationCovalent12))
      \/ ((0 < 4)%nat
          /\ In 3%nat (sampleMap 0 PolarizationCovalent11)
          /\ ~ In 3%nat (sampleMap 0 PolarizationCovalent12)).
Proof.
  intro tiles.
  apply (polarization_flags_follow_the_maps 2 sampleMap 4
           (List.length tiles * 2) tiles 3 0).
  - lia.
  - reflexivity.
  - intros t Ht. exact Ht.
  - vm_compute. lia.
  - vm_compute. tauto.
Defined.

End Flags.

(* ------------------------------------------------------------------ *)
(** * The accessors and repeated evaluations
      ([getLabFramePermanentDipoles], [getInducedDipoles],
       [getTotalDipoles], [ensureMultipolesValid], [execute]) *)

Module Accessors.

Section Order.

Context {T : Type} `{RealOps T}.

(** The accessors return the dipoles in the order of the original atom
    indices: when the first [n] entries of [cu.getAtomIndex()] are a
    rearrangement of [0 .. n-1], the vector returned has [n] entries, the
    value computed for the atom in slot [i] sits at index [order[i]], and
    nothing of what the vector held before the call is left in it. *)
Theorem dipoles_returned_in_original_order :
  forall (n : nat) (order : list nat) (value : nat -> vec3 T)
         (dipoles : list (vec3 T)),
    (n <= List.length order)%nat ->
    NoDup (firstn n order) ->
    (forall i, (i < n)%nat -> (nth i order 0%nat < n)%nat) ->
    let out := Host.placeByAtomIndex n order value dipoles in
    List.length out = n /\
    (forall i, (i < n)%nat -> nth (nth i order 0%nat) out Host.zeroVec3 = value i) /\
    (forall other, Host.placeByAtomIndex n order value other = out).
Proof.
  intros n order value dipoles Hlen Hnd Hrange out.
  assert (Hl : forall v, List.length (Host.placeByAtomIndex n order value v) = n).
  { intro v. unfold Host.placeByAtomIndex. now rewrite Host.place_length, Host.resize_length. }
  assert (Hat : forall v i, (i < n)%nat ->
            nth (nth i order 0%nat) (Host.placeByAtomIndex n order value v)
                Host.zeroVec3 = value i).
  { intros v i Hi. unfold Host.placeByAtomIndex.
    apply (Host.place_at order value n); try assumption; [lia | apply Host.resize_length]. }
  split; [apply Hl |]. split; [apply Hat |].
  intro other. apply (nth_ext _ _ Host.zeroVec3 Host.zeroVec3).
  - unfold out. now rewrite !Hl.
  - intros j Hj. rewrite Hl in Hj.
    destruct (Host.order_surjective order n j Hlen Hnd Hrange Hj) as (i & Hi & <-).
    unfold out. now rewrite !Hat.
Qed.

End Order.

Lemma dipoles_returned_in_original_order_witness :
  let value := fun i => mkVec3 (float_of_Z (Z.of_nat i)) Host.zf Host.zf in
  let out := Host.placeByAtomIndex 3 [2; 0; 1]%nat value [] in
  List.length out = 3%nat /\
  (forall i, (i < 3)%nat -> nth (nth i [2; 0; 1]%nat 0%nat) out Host.zeroVec3 = value i) /\
  (forall other, Host.placeByAtomIndex 3 [2; 0; 1]%nat value other = out).
Proof.
  intro value.
  apply (dipoles_returned_in_original_order 3 [2; 0; 1]%nat value []).
  - simpl. lia.
  - simpl. repeat constructor; simpl; intuition discriminate.
  - intros i Hi. destruct i as [| [| [| i]]]; simpl; lia.
Defined.

(** ** Evaluations and the cache *)

(** Launches and buffer clears, as opposed to uploads, the copy of the
    positions, the set-up of the scale factors and [invalidateMolecules]. *)
Definition isWork {T : Type} (e : @Host.Event T) : bool :=
  match e with
  | Host.Launch _ | Host.Clear _ => true
  | _ => false
  end.

Section Model.

Context {T : Type} `{RealOps T}.
Variable Device : Type.
Variable perform : @Host.Event T -> Device -> Device.
Variable downloadErrors : Device -> list (T * T).
Variable downloadPosq downloadLastPositions : Device -> list (vec4 T).

Definition allWork (es : list (@Host.Event T)) : bool := forallb isWork es.

Lemma allWork_app a b : allWork (a ++ b) = allWork a && allWork b.
Proof. apply forallb_app. Qed.

Lemma allWork_onlyIf c es : allWork es = true -> allWork (Host.onlyIf c es) = true.
Proof. destruct c; [exact (fun e => e) | reflexivity]. Qed.

Lemma computeInducedFieldEvents_work h :
  allWork (Host.computeInducedFieldEvents h) = true.
Proof.
  unfold Host.computeInducedFieldEvents, Host.spreadInducedDipoles,
    Host.computeForwardFFT, Host.computeInverseFFT.
  destruct (Host.isExtrapolated h), (Host.gkKernel h),
    (Host.pmeGridIsInitialized h), (Host.useDoublePrecision h); reflexivity.
Qed.

Lemma iterationEvents_work h i c : allWork (Host.iterationEvents h i c) = true.
Proof.
  unfold Host.iterationEvents. destruct (Host.gkKernel h), c; reflexivity.
Qed.

Lemma computeExtrapolatedDipolesEvents_work h :
  allWork (Host.computeExtrapolatedDipolesEvents h) = true.
Proof.
  unfold Host.computeExtrapolatedDipolesEvents.
  rewrite !allWork_app, computeInducedFieldEvents_work.
  cbn [allWork forallb isWork andb]. rewrite andb_true_r.
  induction (Host.extrapolationOrders h) as [| order l IH]; [reflexivity |].
  cbn [flat_map]. rewrite !allWork_app, computeInducedFieldEvents_work, IH.
  reflexivity.
Qed.

Lemma beforeLoop_work h : allWork (Host.beforeLoop h) = true.
Proof.
  unfold Host.beforeLoop, Host.fixedMultipolesReciprocal,
    Host.spreadInducedDipoles, Host.computeForwardFFT, Host.computeInverseFFT,
    Host.computeBornRadii.
  pose proof (computeExtrapolatedDipolesEvents_work h) as Hx.
  unfold allWork in *.
  destruct (Host.pmeGridIsInitialized h), (Host.gkKernel h),
    (Host.useDoublePrecision h), (Host.isExtrapolated h);
    cbn [negb Host.onlyIf app forallb isWork andb]; rewrite ?Hx; reflexivity.
Qed.

Lemma forcesAfterLoop_work h : allWork (Host.forcesAfterLoop h) = true.
Proof.
  unfold Host.forcesAfterLoop, Host.finishComputation.
  destruct (Host.pmeGridIsInitialized h), (Host.gkKernel h),
    (Host.includeSurfaceArea h), (Host.isExtrapolated h); reflexivity.
Qed.

Lemma iterationsFrom_work n : forall i w,
  Host.host Device (Host.iterationsFrom Device perform downloadErrors i n w)
  = Host.host Device w /\
  exists es,
    Host.trace Device (Host.iterationsFrom Device perform downloadErrors i n w)
    = Host.trace Device w ++ es /\ allWork es = true.
Proof.
  induction n as [| n IH]; intros i w.
  - split; [reflexivity |]. exists []. simpl. now rewrite app_nil_r.
  - cbn [Host.iterationsFrom].
    destruct (IH (S i) (snd (Host.iterationStep Device perform downloadErrors i w)))
      as (Hhost & es & Hes & Hwork).
    assert (Hstep : Host.host Device
                      (snd (Host.iterationStep Device perform downloadErrors i w))
                    = Host.host Device w).
    { unfold Host.iterationStep.
      now rewrite Host.iterateDipolesByDIIS_host, Host.computeInducedField_host. }
    split; [now rewrite Hhost |].
    exists (Host.computeInducedFieldEvents (Host.host Device w)
            ++ Host.iterationEvents (Host.host Device w) (Z.of_nat i)
                 (fst (Host.iterationStep Device perform downloadErrors i w))
            ++ es).
    split.
    + rewrite Hes. unfold Host.iterationStep.
      rewrite Host.iterateDipolesByDIIS_trace, Host.computeInducedField_host.
      unfold Host.computeInducedField at 1. rewrite Host.run_trace.
      now rewrite <- !app_assoc.
    + now rewrite !allWork_app, computeInducedFieldEvents_work,
        iterationEvents_work, Hwork.
Qed.

(** What one call of [execute] adds to the trace and leaves on the host. *)
Lemma execute_events w :
  exists w1 work,
    Host.execute Device perform downloadErrors w = Host.Returned (rofZ 0) w1 /\
    Host.trace Device w1
    = Host.trace Device w
      ++ Host.onlyIf (negb (Host.hasInitializedScaleFactors (Host.host Device w)))
                     [Host.InitializeScaleFactors]
      ++ work ++ [Host.CopyPosqToLastPositions] /\
    allWork work = true /\
    Host.hasInitializedScaleFactors (Host.host Device w1) = true /\
    Host.multipolesAreValid (Host.host Device w1) = true.
Proof.
  rewrite Host.execute_shape. cbv zeta.
  set (w0 := Host.firstExecute Device perform w).
  set (h := Host.host Device w0).
  destruct (Host.inducedLoop_spec Device perform downloadErrors
              (Host.run Device perform (Host.beforeLoop h) w0))
    as (n & _ & Hloop & _).
  destruct (iterationsFrom_work n 0 (Host.run Device perform (Host.beforeLoop h) w0))
    as (Hhost & es & Hes & Hwork).
  rewrite Host.run_host in Hhost. rewrite Host.run_trace in Hes.
  eexists. exists (Host.beforeLoop h ++ es ++ Host.forcesAfterLoop h
                   ++ [Host.Launch Host.mapTorqueKernel]).
  split; [reflexivity |]. split; [| split; [| split]].
  - cbn [Host.withHost Host.trace].
    rewrite Host.run_trace, Hloop, Hes. unfold w0 at 1.
    rewrite Host.firstExecute_trace, Host.afterLoop_split.
    now rewrite <- !app_assoc.
  - now rewrite !allWork_app, beforeLoop_work, Hwork, forcesAfterLoop_work.
  - cbn [Host.withHost Host.host Host.set_multipolesAreValid
         Host.hasInitializedScaleFactors].
    rewrite Host.run_host, Hloop, Hhost. unfold w0, Host.firstExecute.
    destruct (Host.hasInitializedScaleFactors (Host.host Device w)) eqn:Hinit;
      [exact Hinit | reflexivity].
  - reflexivity.
Qed.

(** An evaluation sets up the scale factors only if no earlier one did,
    and then before anything else; apart from that and the final copy of
    the positions it only launches kernels and clears buffers.  It leaves
    the scale factors marked as set up, so the evaluation after it does not
    set them up again. *)
Theorem scale_factors_set_up_once :
  forall w : Host.World Device,
    exists w1 work,
      Host.execute Device perform downloadErrors w = Host.Returned (rofZ 0) w1 /\
      Host.trace Device w1
      = Host.trace Device w
        ++ Host.onlyIf (negb (Host.hasInitializedScaleFactors (Host.host Device w)))
                       [Host.InitializeScaleFactors]
        ++ work ++ [Host.CopyPosqToLastPositions] /\
      allWork work = true /\
      exists w2 work2,
        Host.execute Device perform downloadErrors w1 = Host.Returned (rofZ 0) w2 /\
        Host.trace Device w2
        = Host.trace Device w1 ++ work2 ++ [Host.CopyPosqToLastPositions] /\
        allWork work2 = true.
Proof.
  intro w. destruct (execute_events w) as (w1 & work & Hexec & Htrace & Hwork & Hinit & _).
  exists w1, work. split; [exact Hexec |]. split; [exact Htrace |].
  split; [exact Hwork |].
  destruct (execute_events w1) as (w2 & work2 & Hexec2 & Htrace2 & Hwork2 & _).
  exists w2, work2. split; [exact Hexec2 |]. split; [| exact Hwork2].
  rewrite Htrace2, Hinit. reflexivity.
Qed.

(** The copy [cu.getPosq().copyTo(lastPositions)] leaves in
    [lastPositions] what [posq] holds, and leaves [posq] alone. *)
Hypothesis copy_writes_lastPositions :
  forall d, downloadLastPositions (perform Host.CopyPosqToLastPositions d)
            = downloadPosq d.
Hypothesis copy_keeps_posq :
  forall d, downloadPosq (perform Host.CopyPosqToLastPositions d) = downloadPosq d.

Lemma positionsDiffer_same n (p : list (vec4 T)) :
  (forall x : T, reqb x x = true) -> Host.positionsDiffer n p p = false.
Proof.
  intro Hrefl. unfold Host.positionsDiffer.
  induction (seq 0 n) as [| i l IH]; [reflexivity |].
  cbn [existsb]. now rewrite !Hrefl, IH.
Qed.

(** After an accessor has made the cache valid, the cache is stale again
    only if some coordinate of a downloaded position compares unequal to
    itself; when the comparison loop finds no difference between the
    downloaded positions and themselves, calling an accessor a second time
    evaluates nothing and leaves everything as it is. *)
Theorem valid_cache_is_not_evaluated_again :
  forall w : Host.World Device,
    exists w1,
      Host.ensureMultipolesValid Device perform downloadErrors downloadPosq
        downloadLastPositions w = Host.Returned tt w1 /\
      (Host.stale Device downloadPosq downloadLastPositions w1 = true ->
       Host.positionsDiffer (Host.numAtoms (Host.host Device w1))
         (downloadPosq (Host.dev Device w1)) (downloadPosq (Host.dev Device w1))
       = true) /\
      (Host.positionsDiffer (Host.numAtoms (Host.host Device w1))
         (downloadPosq (Host.dev Device w1)) (downloadPosq (Host.dev Device w1))
       = false ->
       Host.ensureMultipolesValid Device perform downloadErrors downloadPosq
         downloadLastPositions w1 = Host.Returned tt w1).
Proof.
  intro w.
  destruct (Host.ensureMultipolesValid_spec Device perform downloadErrors
              downloadPosq downloadLastPositions copy_writes_lastPositions
              copy_keeps_posq w) as (w1 & Hens & Hfresh & Hstale & Hvalid).
  assert (Hs1 : Host.stale Device downloadPosq downloadLastPositions w1 = true ->
                Host.positionsDiffer (Host.numAtoms (Host.host Device w1))
                  (downloadPosq (Host.dev Device w1))
                  (downloadPosq (Host.dev Device w1)) = true).
  { destruct (Host.stale Device downloadPosq downloadLastPositions w) eqn:Hs.
    - destruct (Hstale eq_refl) as [_ Hpos].
      unfold Host.stale. rewrite Hvalid, Hpos. cbn [negb orb]. exact (fun e => e).
    - rewrite (Hfresh eq_refl), Hs. discriminate. }
  exists w1. split; [exact Hens |]. split; [exact Hs1 |].
  intro Hsame.
  destruct (Host.ensureMultipolesValid_spec Device perform downloadErrors
              downloadPosq downloadLastPositions copy_writes_lastPositions
              copy_keeps_posq w1) as (w2 & Hens2 & Hfresh2 & _).
  rewrite Hens2. f_equal. apply Hfresh2.
  destruct (Host.stale Device downloadPosq downloadLastPositions w1);
    [| reflexivity].
  rewrite Hs1 in Hsame by reflexivity. discriminate.
Qed.

End Model.

(** On the sample the atom has moved: the accessor evaluates once, the
    positions it then downloads compare equal to themselves, and a second
    call changes nothing. *)
Lemma valid_cache_is_not_evaluated_again_witness :
  exists w1,
    Host.ensureMultipolesValid Host.SampleDevice Host.samplePerform
      (fun _ => []) fst snd Host.sampleWorld = Host.Returned tt w1 /\
    Host.positionsDiffer (Host.numAtoms (Host.host Host.SampleDevice w1))
      (fst (Host.dev Host.SampleDevice w1)) (fst (Host.dev Host.SampleDevice w1))
    = false /\
    Host.ensureMultipolesValid Host.SampleDevice Host.samplePerform
      (fun _ => []) fst snd w1 = Host.Returned tt w1.
Proof.
  destruct (valid_cache_is_not_evaluated_again Host.SampleDevice
              Host.samplePerform (fun _ => []) fst snd
              (fun d => match d with (p, l) => eq_refl end)
              (fun d => match d with (p, l) => eq_refl end)
              Host.sampleWorld) as (w1 & Hens & _ & Hagain).
  exists w1. split; [exact Hens |].
  assert (Hsame : Host.positionsDiffer
                    (Host.numAtoms (Host.host Host.SampleDevice w1))
                    (fst (Host.dev Host.SampleDevice w1))
                    (fst (Host.dev Host.SampleDevice w1)) = false).
  { vm_compute in Hens. injection Hens as <-. vm_compute. reflexivity. }
  split; [exact Hsame | exact (Hagain Hsame)].
Defined.

End Accessors.

(* ------------------------------------------------------------------ *)
(** * The frame of the system moments
      ([computeSystemMultipoleMoments], exact arithmetic) *)

Module MomentsFrame.

Import Moments.

Local Open Scope R_scope.

(** Every position moved by the same vector; the charges stay. *)
Definition translate (t : vec3 R) (posq : list (vec4 R)) : list (vec4 R) :=
  map (fun p => mkVec4 (v4x p + v3x t) (v4y p + v3y t) (v4z p + v3z t) (v4w p))
      posq.

(** The first loop of the function, before the division. *)
Definition massOf (velm : list (vec4 R)) (i : nat) : R :=
  if rltb 0 (v4w (nth i velm zero4)) then 1 / v4w (nth i velm zero4) else 0.

Definition addMass (posq velm : list (vec4 R)) (a : MassSum) (i : nat) : MassSum :=
  mkMassSum (totalMass a + massOf velm i)
            (com0 a + massOf velm i * v4x (nth i posq zero4))
            (com1 a + massOf velm i * v4y (nth i posq zero4))
            (com2 a + massOf velm i * v4z (nth i posq zero4)).

Definition massSums (numAtoms : nat) (posq velm : list (vec4 R)) : MassSum :=
  fold_left (addMass posq velm) (seq 0 numAtoms) (mkMassSum 0 0 0 0).

Lemma centerOfMass_eq numAtoms posq velm :
  centerOfMass numAtoms posq velm
  = let s := massSums numAtoms posq velm in
    if rltb 0 (totalMass s)
    then mkMassSum (totalMass s) (com0 s / totalMass s) (com1 s / totalMass s)
                   (com2 s / totalMass s)
    else s.
Proof. reflexivity. Qed.

Lemma totalMass_centerOfMass numAtoms posq velm :
  totalMass (centerOfMass numAtoms posq velm)
  = totalMass (massSums numAtoms posq velm).
Proof.
  rewrite centerOfMass_eq. cbv zeta.
  destruct (rltb 0 (totalMass (massSums numAtoms posq velm))); reflexivity.
Qed.

Lemma nth_translate t posq i :
  (i < List.length posq)%nat ->
  nth i (translate t posq) zero4
  = mkVec4 (v4x (nth i posq zero4) + v3x t) (v4y (nth i posq zero4) + v3y t)
           (v4z (nth i posq zero4) + v3z t) (v4w (nth i posq zero4)).
Proof.
  intro Hi. unfold translate.
  rewrite (nth_indep _ zero4
             (mkVec4 (v4x zero4 + v3x t) (v4y zero4 + v3y t) (v4z zero4 + v3z t)
                     (v4w zero4)))
    by (now rewrite length_map).
  apply (map_nth (fun p => mkVec4 (v4x p + v3x t) (v4y p + v3y t)
                                  (v4z p + v3z t) (v4w p))).
Qed.

(** The sums of the moved system: the same mass, each weighted sum larger
    by the mass times the shift. *)
Lemma massSums_translate t posq velm (l : list nat) : forall a b,
  (forall i, In i l -> (i < List.length posq)%nat) ->
  totalMass b = totalMass a ->
  com0 b = com0 a + totalMass a * v3x t ->
  com1 b = com1 a + totalMass a * v3y t ->
  com2 b = com2 a + totalMass a * v3z t ->
  let s := fold_left (addMass posq velm) l a in
  let s' := fold_left (addMass (translate t posq) velm) l b in
  totalMass s' = totalMass s /\
  com0 s' = com0 s + totalMass s * v3x t /\
  com1 s' = com1 s + totalMass s * v3y t /\
  com2 s' = com2 s + totalMass s * v3z t.
Proof.
  induction l as [| i l IH]; intros a b Hl Hm H0 H1 H2.
  - cbn. tauto.
  - cbn [fold_left]. apply IH.
    + intros k Hk. apply Hl. now right.
    + cbn. now rewrite Hm.
    + cbn. rewrite nth_translate by (apply Hl; now left). cbn. rewrite H0. ring.
    + cbn. rewrite nth_translate by (apply Hl; now left). cbn. rewrite H1. ring.
    + cbn. rewrite nth_translate by (apply Hl; now left). cbn. rewrite H2. ring.
Qed.

Lemma posqLocal_translate numAtoms posq velm t :
  (numAtoms <= List.length posq)%nat ->
  0 < totalMass (centerOfMass numAtoms posq velm) ->
  posqLocal numAtoms (translate t posq) velm = posqLocal numAtoms posq velm.
Proof.
  intros Hlen Hmass. rewrite totalMass_centerOfMass in Hmass.
  destruct (massSums_translate t posq velm (seq 0 numAtoms)
              (mkMassSum 0 0 0 0) (mkMassSum 0 0 0 0)) as (Hm & H0 & H1 & H2);
    try (cbn; ring).
  { intros i Hi. apply in_seq in Hi. lia. }
  fold (massSums numAtoms posq velm) in Hm, H0, H1, H2.
  fold (massSums numAtoms (translate t posq) velm) in Hm, H0, H1, H2.
  unfold posqLocal. rewrite !centerOfMass_eq. cbv zeta. rewrite Hm.
  assert (Hpos : rltb 0 (totalMass (massSums numAtoms posq velm)) = true).
  { cbn. destruct (Rlt_dec 0 (totalMass (massSums numAtoms posq velm)));
      [reflexivity | contradiction]. }
  rewrite Hpos. cbn [com0 com1 com2]. rewrite H0, H1, H2.
  apply map_ext_in. intros i Hi. apply in_seq in Hi.
  rewrite nth_translate by lia. cbn.
  assert (Hne : totalMass (massSums numAtoms posq velm) <> 0) by lra.
  f_equal; field; exact Hne.
Qed.

(** In exact arithmetic the thirteen moments of a system with positive
    total mass do not change when every atom is moved by the same vector:
    they are taken about the centre of mass. *)
Theorem moments_do_not_depend_on_the_origin :
  forall (numAtoms : nat) (posq velm : list (vec4 R))
         (labDipoleVec inducedDipoleVec : list (vec3 R)) (quadrupoleVec : list R)
         (t : vec3 R),
    (numAtoms <= List.length posq)%nat ->
    0 < totalMass (centerOfMass numAtoms posq velm) ->
    computeSystemMultipoleMoments numAtoms (translate t posq) velm
      labDipoleVec inducedDipoleVec quadrupoleVec
    = computeSystemMultipoleMoments numAtoms posq velm
        labDipoleVec inducedDipoleVec quadrupoleVec.
Proof.
  intros numAtoms posq velm lab ind quad t Hlen Hmass.
  unfold computeSystemMultipoleMoments.
  now rewrite posqLocal_translate.
Qed.

(** When no atom has a positive inverse mass the total mass is zero, the
    division is skipped and the centre stays at the origin. *)
Lemma massSums_massless posq velm (l : list nat) : forall a,
  (forall i, In i l -> v4w (nth i velm zero4) <= 0) ->
  fold_left (addMass posq velm) l a
  = mkMassSum (totalMass a) (com0 a) (com1 a) (com2 a).
Proof.
  induction l as [| i l IH]; intros a Hl.
  - now destruct a.
  - cbn [fold_left]. rewrite IH by (intros k Hk; apply Hl; now right).
    assert (Hz : massOf velm i = 0).
    { unfold massOf. cbn. destruct (Rlt_dec 0 (v4w (nth i velm zero4))) as [Hlt | _];
        [| reflexivity].
      specialize (Hl i (or_introl eq_refl)). lra. }
    cbn. rewrite Hz. f_equal; ring.
Qed.

(** Without any positive inverse mass the positions are not shifted at
    all: the moments are taken about the origin of the coordinates. *)
Theorem massless_system_is_not_recentred :
  forall (numAtoms : nat) (posq velm : list (vec4 R)),
    (numAtoms <= List.length posq)%nat ->
    (forall i, (i < numAtoms)%nat -> v4w (nth i velm zero4) <= 0) ->
    totalMass (centerOfMass numAtoms posq velm) = 0 /\
    posqLocal numAtoms posq velm = firstn numAtoms posq.
Proof.
  intros numAtoms posq velm Hlen Hw.
  assert (Hs : massSums numAtoms posq velm = mkMassSum 0 0 0 0).
  { unfold massSums. rewrite massSums_massless; [reflexivity |].
    intros i Hi. apply in_seq in Hi. apply Hw. lia. }
  assert (Hc : centerOfMass numAtoms posq velm = mkMassSum 0 0 0 0).
  { rewrite centerOfMass_eq. cbv zeta. rewrite Hs. cbn.
    destruct (Rlt_dec 0 0) as [Hlt | _]; [lra | reflexivity]. }
  split; [now rewrite Hc |].
  unfold posqLocal. rewrite Hc. cbn [com0 com1 com2].
  apply (nth_ext _ _ zero4 zero4).
  - rewrite length_map, length_seq, length_firstn. lia.
  - intros i Hi. rewrite length_map, length_seq in Hi.
    rewrite (nth_indep _ zero4
               ((fun i => let p := nth i posq zero4 in
                          mkVec4 (v4x p - 0) (v4y p - 0) (v4z p - 0) (v4w p)) 0%nat))
      by (now rewrite length_map, length_seq).
    rewrite (map_nth (fun i => let p := nth i posq zero4 in
                               mkVec4 (v4x p - 0) (v4y p - 0) (v4z p - 0) (v4w p))).
    rewrite seq_nth by exact Hi. cbn.
    rewrite Host.nth_firstn_lt by exact Hi.
    destruct (nth i posq zero4) as [x y z q]. cbn. f_equal; ring.
Qed.

(** Two atoms of mass 1 and 1/2 for the first, none with a mass for the
    second. *)
Definition samplePosq : list (vec4 R) := [mkVec4 1 2 3 1; mkVec4 0 1 0 (-1)].
Definition sampleVelm : list (vec4 R) := [mkVec4 0 0 0 1; mkVec4 0 0 0 2].
Definition sampleMassless : list (vec4 R) := [mkVec4 0 0 0 0; mkVec4 0 0 0 (-1)].

Lemma moments_do_not_depend_on_the_origin_witness :
  computeSystemMultipoleMoments 2 (translate (mkVec3 5 0 (-1)) samplePosq)
    sampleVelm [] [] []
  = computeSystemMultipoleMoments 2 samplePosq sampleVelm [] [] [].
Proof.
  apply (moments_do_not_depend_on_the_origin 2 samplePosq sampleVelm [] [] []
           (mkVec3 5 0 (-1))).
  - simpl. lia.
  - rewrite totalMass_centerOfMass. unfold massSums, sampleVelm. cbn.
    unfold massOf. cbn.
    destruct (Rlt_dec 0 1); [| lra]. destruct (Rlt_dec 0 2); [| lra]. lra.
Defined.

Lemma massless_system_is_not_recentred_witness :
  totalMass (centerOfMass 2 samplePosq sampleMassless) = 0 /\
  posqLocal 2 samplePosq sampleMassless = firstn 2 samplePosq.
Proof.
  apply (massless_system_is_not_recentred 2 samplePosq sampleMassless).
  - simpl. lia.
  - intros i Hi. destruct i as [| [| i]]; [cbn; lra | cbn; lra | lia].
Defined.

End MomentsFrame.

(* ------------------------------------------------------------------ *)
(** * Centre-of-mass momentum
      ([calcCenterOfMassMomentum], [removeCenterOfMassMomentum]) *)

Module Momentum.

Section Kernels.

Context {T : Type} `{RealOps T}.
Local Open Scope ops_scope.

(** [(float) v]. *)
Variable toFloat : T -> T.
Variable INVERSE_TOTAL_MASS : T.

(** [LOCAL float3 temp[64]] and the reduction that follows fix the number
    of threads of a group. *)
Definition LOCAL_SIZE : nat := 64.

Definition zero3 : vec3 T := mkVec3 (rofZ 0) (rofZ 0) (rofZ 0).
Definition zero4 : vec4 T := mkVec4 (rofZ 0) (rofZ 0) (rofZ 0) (rofZ 0).

(** [a += b] on [float3]. *)
Definition add3 (a b : vec3 T) : vec3 T :=
  mkVec3 (v3x a + v3x b) (v3y a + v3y b) (v3z a + v3z b).

(** The indices of [for (int index = start; index < n; index += stride)];
    with a positive stride the loop makes at most [n] rounds. *)
Fixpoint strided (fuel index stride n : nat) : list nat :=
  match fuel with
  | O => []
  | S fuel' =>
      if (index <? n)%nat then index :: strided fuel' (index + stride) stride n
      else []
  end.

Definition gridStride (start stride n : nat) : list nat := strided n start stride n.

(** The body of the loop of [calcCenterOfMassMomentum]. *)
Definition accumulate (velm : list (vec4 T)) (cm : vec3 T) (index : nat) : vec3 T :=
  let velocity := nth index velm zero4 in
  if negb (reqb (v4w velocity) (rofZ 0)) then
    let mass := rofZ 1 / v4w velocity in
    mkVec3 (v3x cm + toFloat (v4x velocity * mass))
           (v3y cm + toFloat (v4y velocity * mass))
           (v3z cm + toFloat (v4z velocity * mass))
  else cm.

(** [if (thread < k) temp[thread] += temp[thread+k];] in every thread. *)
Definition reduceStep (k : nat) (temp : list (vec3 T)) : list (vec3 T) :=
  map (fun thread =>
         if (thread <? k)%nat
         then add3 (nth thread temp zero3) (nth (thread + k) temp zero3)
         else nth thread temp zero3)
      (seq 0 LOCAL_SIZE).

(** The five steps down to [temp[0]] and [temp[1]], and their sum. *)
Definition reduceGroup (temp : list (vec3 T)) : vec3 T :=
  let temp := reduceStep 2 (reduceStep 4 (reduceStep 8
                (reduceStep 16 (reduceStep 32 temp)))) in
  add3 (nth 0 temp zero3) (nth 1 temp zero3).

(** [cmMomentum], one entry per group. *)
Definition calcCenterOfMassMomentum (numGroups numAtoms : nat)
    (velm : list (vec4 T)) : list (vec3 T) :=
  map (fun group =>
         reduceGroup
           (map (fun thread =>
                   fold_left (accumulate velm)
                     (gridStride (group * LOCAL_SIZE + thread)
                                 (LOCAL_SIZE * numGroups) numAtoms)
                     zero3)
                (seq 0 LOCAL_SIZE)))
      (seq 0 numGroups).

(** The velocity [removeCenterOfMassMomentum] subtracts: every group sums
    the [NUM_GROUPS] entries of [cmMomentum] again.  Each thread is taken to
    read [temp[0]] and [temp[1]] when the reduction is complete. *)
Definition centerOfMassVelocity (numGroups : nat) (cmMomentum : list (vec3 T))
    : vec3 T :=
  let temp :=
    reduceStep 2 (reduceStep 4 (reduceStep 8 (reduceStep 16 (reduceStep 32
      (map (fun thread =>
              fold_left (fun cm index => add3 cm (nth index cmMomentum zero3))
                (gridStride thread LOCAL_SIZE numGroups) zero3)
           (seq 0 LOCAL_SIZE)))))) in
  mkVec3 (INVERSE_TOTAL_MASS * (v3x (nth 0 temp zero3) + v3x (nth 1 temp zero3)))
         (INVERSE_TOTAL_MASS * (v3y (nth 0 temp zero3) + v3y (nth 1 temp zero3)))
         (INVERSE_TOTAL_MASS * (v3z (nth 0 temp zero3) + v3z (nth 1 temp zero3))).

(** [velm[index].x -= cm.x; ...] *)
Definition removeAt (cm : vec3 T) (velm : list (vec4 T)) (index : nat)
    : list (vec4 T) :=
  let v := nth index velm zero4 in
  upd velm index (mkVec4 (v4x v - v3x cm) (v4y v - v3y cm) (v4z v - v3z cm) (v4w v)).

(** [velm] after the kernel. *)
Definition removeCenterOfMassMomentum (numGroups numAtoms : nat)
    (velm : list (vec4 T)) (cmMomentum : list (vec3 T)) : list (vec4 T) :=
  let cm := centerOfMassVelocity numGroups cmMomentum in
  fold_left
    (fun velm globalId =>
       fold_left (removeAt cm)
                 (gridStride globalId (LOCAL_SIZE * numGroups) numAtoms) velm)
    (seq 0 (LOCAL_SIZE * numGroups)) velm.

End Kernels.

(** ** The atoms a launch visits *)

Lemma strided_In stride n i : (0 < stride)%nat ->
  forall fuel index, (n - index <= fuel)%nat ->
    In i (strided fuel index stride n)
    <-> (index <= i < n)%nat /\ exists j, i = (index + j * stride)%nat.
Proof.
  intro Hs. induction fuel as [| fuel IH]; intros index Hfuel.
  - cbn. split; [contradiction | intros [Hi _]; lia].
  - cbn [strided]. destruct (Nat.ltb_spec index n) as [Hlt | Hge].
    + cbn [In]. rewrite IH by lia. split.
      * intros [<- | [Hi [j ->]]].
        -- split; [lia |]. exists 0%nat. lia.
        -- split; [lia |]. exists (S j). lia.
      * intros [Hi [[| j] ->]].
        -- left. lia.
        -- right. split; [lia |]. exists j. lia.
    + split; [contradiction | intros [Hi _]; lia].
Qed.

Lemma gridStride_In start stride n i :
  (start < stride)%nat ->
  In i (gridStride start stride n) <-> (i < n)%nat /\ (i mod stride)%nat = start.
Proof.
  intro Hs. unfold gridStride. rewrite strided_In by lia. split.
  - intros [Hi [j ->]]. split; [lia |].
    rewrite Nat.Div0.mod_add. now apply Nat.mod_small.
  - intros [Hi <-]. split.
    + split; [apply Nat.Div0.mod_le | exact Hi].
    + exists (i / stride)%nat.
      pose proof (Nat.div_mod_eq i stride). lia.
Qed.

Lemma strided_NoDup stride n : (0 < stride)%nat ->
  forall fuel index, (n - index <= fuel)%nat -> NoDup (strided fuel index stride n).
Proof.
  intro Hs. induction fuel as [| fuel IH]; intros index Hfuel; [constructor |].
  cbn [strided]. destruct (Nat.ltb_spec index n); [| constructor].
  constructor; [| apply IH; lia].
  rewrite strided_In by lia. intros [Hi _]. lia.
Qed.

Lemma flat_map_NoDup {A B : Type} (f : A -> list B) (l : list A) :
  NoDup l -> (forall a, In a l -> NoDup (f a)) ->
  (forall a b x, In a l -> In b l -> In x (f a) -> In x (f b) -> a = b) ->
  NoDup (flat_map f l).
Proof.
  induction l as [| a l IH]; intros Hnd Hf Hdisj; [constructor |].
  cbn [flat_map]. inversion Hnd as [| ? ? Ha Hl]; subst.
  apply NoDup_app.
  - apply Hf. now left.
  - apply IH; [exact Hl | intros; apply Hf; now right |].
    intros b c x Hb Hc. apply Hdisj; now right.
  - intros x Hx Hin. apply in_flat_map in Hin. destruct Hin as (b & Hb & Hxb).
    assert (a = b) by (apply (Hdisj a b x); [now left | now right | assumption..]).
    subst b. contradiction.
Qed.

(** The threads of a launch visit every atom exactly once. *)
Lemma launch_visits_once stride n : (0 < stride)%nat ->
  Permutation (flat_map (fun id => gridStride id stride n) (seq 0 stride))
              (seq 0 n).
Proof.
  intro Hs. apply NoDup_Permutation.
  - apply flat_map_NoDup.
    + apply seq_NoDup.
    + intros id _. apply strided_NoDup; lia.
    + intros a b x Ha Hb Hxa Hxb. apply in_seq in Ha, Hb.
      apply gridStride_In in Hxa; [| lia]. apply gridStride_In in Hxb; [| lia].
      lia.
  - apply seq_NoDup.
  - intro i. rewrite in_flat_map, in_seq. split.
    + intros (id & Hid & Hi). apply in_seq in Hid.
      apply gridStride_In in Hi; lia.
    + intro Hi. exists (i mod stride)%nat. split.
      * apply in_seq. pose proof (Nat.mod_upper_bound i stride). lia.
      * apply gridStride_In; [apply Nat.mod_upper_bound; lia |]. split; [lia | reflexivity].
Qed.

(** ** Exact arithmetic *)

Section Exact.

Local Open Scope R_scope.

Definition vsum (l : list (vec3 R)) : vec3 R := fold_right add3 zero3 l.

Lemma add3_comm (a b : vec3 R) : add3 a b = add3 b a.
Proof. unfold add3. cbn. f_equal; ring. Qed.

Lemma add3_assoc (a b c : vec3 R) : add3 a (add3 b c) = add3 (add3 a b) c.
Proof. unfold add3. cbn. f_equal; ring. Qed.

Lemma add3_zero_l (a : vec3 R) : add3 zero3 a = a.
Proof. destruct a. unfold add3. cbn. f_equal; ring. Qed.

Lemma add3_zero_r (a : vec3 R) : add3 a zero3 = a.
Proof. now rewrite add3_comm, add3_zero_l. Qed.

Lemma vsum_app (a b : list (vec3 R)) : vsum (a ++ b) = add3 (vsum a) (vsum b).
Proof.
  induction a as [| x a IH]; cbn.
  - now rewrite add3_zero_l.
  - fold (vsum (a ++ b)). fold (vsum a). now rewrite IH, add3_assoc.
Qed.

Lemma vsum_Permutation (a b : list (vec3 R)) : Permutation a b -> vsum a = vsum b.
Proof.
  induction 1 as [| x a b _ IH | x y a | a b c _ IH1 _ IH2]; cbn.
  - reflexivity.
  - fold (vsum a). fold (vsum b). now rewrite IH.
  - fold (vsum a). rewrite !add3_assoc. f_equal. apply add3_comm.
  - now rewrite IH1.
Qed.

Lemma vsum_flat_map {A : Type} (f : A -> list (vec3 R)) (l : list A) :
  vsum (flat_map f l) = vsum (map (fun a => vsum (f a)) l).
Proof.
  induction l as [| a l IH]; [reflexivity |].
  cbn [flat_map map]. rewrite vsum_app, IH. reflexivity.
Qed.

Lemma fold_add3 (g : nat -> vec3 R) (l : list nat) : forall a,
  fold_left (fun cm index => add3 cm (g index)) l a = add3 a (vsum (map g l)).
Proof.
  induction l as [| i l IH]; intro a; cbn [fold_left map].
  - cbn. now rewrite add3_zero_r.
  - rewrite IH. cbn. fold (vsum (map g l)). now rewrite add3_assoc.
Qed.

(** What one atom adds to the momentum: [velocity*mass], nothing for an
    atom whose inverse mass is zero. *)
Definition momentumOf (velm : list (vec4 R)) (index : nat) : vec3 R :=
  accumulate (fun x => x) velm zero3 index.

Lemma accumulate_add3 (velm : list (vec4 R)) cm index :
  accumulate (fun x => x) velm cm index = add3 cm (momentumOf velm index).
Proof.
  unfold momentumOf, accumulate. cbv zeta.
  destruct (negb (reqb (v4w (nth index velm zero4)) (rofZ 0))).
  - unfold add3, zero3. cbn. f_equal; ring.
  - now rewrite add3_zero_r.
Qed.

Lemma fold_accumulate (velm : list (vec4 R)) (l : list nat) : forall a,
  fold_left (accumulate (fun x => x) velm) l a
  = add3 a (vsum (map (momentumOf velm) l)).
Proof.
  induction l as [| i l IH]; intro a; cbn [fold_left map].
  - cbn. now rewrite add3_zero_r.
  - rewrite IH, accumulate_add3. cbn. fold (vsum (map (momentumOf velm) l)).
    now rewrite add3_assoc.
Qed.

(** The sum of the first [k] entries of [temp]. *)
Definition partial (k : nat) (temp : list (vec3 R)) : vec3 R :=
  vsum (map (fun t => nth t temp zero3) (seq 0 k)).

Lemma vsum_map_add3 (f g : nat -> vec3 R) (l : list nat) :
  vsum (map (fun t => add3 (f t) (g t)) l)
  = add3 (vsum (map f l)) (vsum (map g l)).
Proof.
  induction l as [| t l IH]; cbn.
  - now rewrite add3_zero_l.
  - fold (vsum (map (fun t => add3 (f t) (g t)) l)).
    fold (vsum (map f l)). fold (vsum (map g l)). rewrite IH.
    rewrite !add3_assoc. f_equal.
    rewrite <- !add3_assoc. f_equal. apply add3_comm.
Qed.

Lemma map_seq_from {A : Type} (f : nat -> A) m : forall k,
  map f (seq k m) = map (fun t => f (t + k)%nat) (seq 0 m).
Proof.
  induction m as [| m IH]; intro k; [reflexivity |].
  cbn [seq map]. f_equal. rewrite IH, <- seq_shift, map_map.
  apply map_ext. intro t. f_equal. lia.
Qed.

Lemma partial_split k m (temp : list (vec3 R)) :
  partial (k + m) temp
  = add3 (partial k temp)
         (vsum (map (fun t => nth (t + k) temp zero3) (seq 0 m))).
Proof.
  unfold partial. rewrite seq_app, map_app, vsum_app. f_equal.
  cbn [Nat.add]. now rewrite map_seq_from.
Qed.

Lemma nth_reduceStep k (temp : list (vec3 R)) t :
  (t < LOCAL_SIZE)%nat ->
  nth t (reduceStep k temp) zero3
  = if (t <? k)%nat then add3 (nth t temp zero3) (nth (t + k) temp zero3)
    else nth t temp zero3.
Proof.
  intro Ht. unfold reduceStep.
  rewrite (nth_indep _ zero3
             ((fun thread =>
                 if (thread <? k)%nat
                 then add3 (nth thread temp zero3) (nth (thread + k) temp zero3)
                 else nth thread temp zero3) 0%nat))
    by (now rewrite length_map, length_seq).
  rewrite (map_nth (fun thread =>
                      if (thread <? k)%nat
                      then add3 (nth thread temp zero3) (nth (thread + k) temp zero3)
                      else nth thread temp zero3)).
  now rewrite seq_nth by exact Ht.
Qed.

(** One step folds the upper half of the first [2k] entries onto the
    lower half. *)
Lemma reduceStep_partial k (temp : list (vec3 R)) :
  (k <= LOCAL_SIZE)%nat ->
  partial k (reduceStep k temp) = partial (k + k) temp.
Proof.
  intro Hk. rewrite partial_split. unfold partial.
  rewrite <- vsum_map_add3. f_equal. apply map_ext_in.
  intros t Ht. apply in_seq in Ht. cbv beta.
  rewrite nth_reduceStep by lia.
  destruct (Nat.ltb_spec t k); [reflexivity | lia].
Qed.

(** The reduction adds up the 64 entries of [temp]. *)
Lemma reduce_sums (f : nat -> vec3 R) :
  reduceGroup (map f (seq 0 LOCAL_SIZE)) = vsum (map f (seq 0 LOCAL_SIZE)).
Proof.
  unfold reduceGroup. cbv zeta.
  set (temp := map f (seq 0 LOCAL_SIZE)).
  transitivity (partial 2 (reduceStep 2 (reduceStep 4 (reduceStep 8
                  (reduceStep 16 (reduceStep 32 temp)))))).
  { unfold partial. cbn [seq map vsum fold_right]. now rewrite add3_zero_r. }
  rewrite (reduceStep_partial 2), (reduceStep_partial 4), (reduceStep_partial 8),
    (reduceStep_partial 16), (reduceStep_partial 32) by (unfold LOCAL_SIZE; lia).
  reflexivity.
Qed.

(** Groups of [size] threads numbered one after the other are the
    threads [0 .. size*numGroups - 1]. *)
Lemma vsum_by_group (F : nat -> vec3 R) (size numGroups : nat) :
  vsum (map (fun group => vsum (map (fun thread => F (group * size + thread)%nat)
                                    (seq 0 size)))
            (seq 0 numGroups))
  = vsum (map F (seq 0 (size * numGroups))).
Proof.
  induction numGroups as [| g IH].
  - rewrite Nat.mul_0_r. reflexivity.
  - rewrite seq_S, map_app, vsum_app, IH. cbn [map Nat.add].
    replace (size * S g)%nat with (size * g + size)%nat by lia.
    rewrite seq_app, map_app, vsum_app. f_equal. cbn [Nat.add].
    rewrite (map_seq_from F size (size * g)). cbn [vsum fold_right].
    rewrite add3_zero_r. f_equal. apply map_ext. intro t. f_equal. lia.
Qed.

Lemma map_flat_map {A B C : Type} (f : B -> C) (g : A -> list B) (l : list A) :
  map f (flat_map g l) = flat_map (fun a => map f (g a)) l.
Proof.
  induction l as [| a l IH]; [reflexivity |].
  cbn [flat_map]. now rewrite map_app, IH.
Qed.

(** The sum over the threads of what each adds up on its atoms is the sum
    over the atoms. *)
Lemma vsum_by_thread (F : nat -> vec3 R) (stride n : nat) :
  (0 < stride)%nat ->
  vsum (map (fun id => vsum (map F (gridStride id stride n))) (seq 0 stride))
  = vsum (map F (seq 0 n)).
Proof.
  intro Hs.
  rewrite <- (vsum_flat_map (fun id => map F (gridStride id stride n))).
  rewrite <- map_flat_map. apply vsum_Permutation, Permutation_map.
  now apply launch_visits_once.
Qed.

Lemma fold_add3_vsum (l : list (vec3 R)) : fold_left add3 l zero3 = vsum l.
Proof.
  induction l as [| x l IH] using rev_ind; [reflexivity |].
  rewrite fold_left_app, vsum_app, IH. cbn. now rewrite add3_zero_r.
Qed.

Lemma calc_vsum numGroups numAtoms (velm : list (vec4 R)) :
  (0 < numGroups)%nat ->
  vsum (calcCenterOfMassMomentum (fun x => x) numGroups numAtoms velm)
  = vsum (map (momentumOf velm) (seq 0 numAtoms)).
Proof.
  intro Hg. unfold calcCenterOfMassMomentum.
  rewrite (map_ext _
             (fun group =>
                vsum (map (fun thread =>
                             (fun id => vsum (map (momentumOf velm)
                                (gridStride id (LOCAL_SIZE * numGroups) numAtoms)))
                               (group * LOCAL_SIZE + thread)%nat)
                          (seq 0 LOCAL_SIZE)))).
  - rewrite (vsum_by_group
               (fun id => vsum (map (momentumOf velm)
                                    (gridStride id (LOCAL_SIZE * numGroups) numAtoms)))).
    apply vsum_by_thread. unfold LOCAL_SIZE. lia.
  - intro group. rewrite reduce_sums. f_equal. apply map_ext. intro thread.
    now rewrite fold_accumulate, add3_zero_l.
Qed.

Lemma calc_length numGroups numAtoms (velm : list (vec4 R)) :
  List.length (calcCenterOfMassMomentum (fun x => x) numGroups numAtoms velm)
  = numGroups.
Proof. unfold calcCenterOfMassMomentum. now rewrite length_map, length_seq. Qed.

(** In exact arithmetic the entries of [cmMomentum] add up to the
    momentum of the system, [velocity*mass] summed once over every atom
    with a non-zero inverse mass, however many groups are launched
    ([velm] holding all the atoms read). *)
Theorem group_momenta_add_up_to_the_total :
  forall (numGroups numAtoms : nat) (velm : list (vec4 R)),
    (0 < numGroups)%nat ->
    (numAtoms <= List.length velm)%nat ->
    List.length (calcCenterOfMassMomentum (fun x => x) numGroups numAtoms velm)
    = numGroups /\
    fold_left add3 (calcCenterOfMassMomentum (fun x => x) numGroups numAtoms velm)
              zero3
    = fold_left (accumulate (fun x => x) velm) (seq 0 numAtoms) zero3.
Proof.
  intros numGroups numAtoms velm Hg _. split; [apply calc_length |].
  rewrite fold_add3_vsum, fold_accumulate, add3_zero_l.
  now apply calc_vsum.
Qed.

(** ** The removal *)

Definition shifted (cm : vec3 R) (v : vec4 R) : vec4 R :=
  mkVec4 (v4x v - v3x cm) (v4y v - v3y cm) (v4z v - v3z cm) (v4w v).

Lemma fold_flat_map {A B C : Type} (step : C -> B -> C) (g : A -> list B)
    (l : list A) : forall c,
  fold_left (fun c a => fold_left step (g a) c) l c
  = fold_left step (flat_map g l) c.
Proof.
  induction l as [| a l IH]; intro c; [reflexivity |].
  cbn [fold_left flat_map]. now rewrite fold_left_app, IH.
Qed.

Lemma removeAt_length cm (velm : list (vec4 R)) index :
  List.length (removeAt cm velm index) = List.length velm.
Proof. apply upd_length. Qed.

Lemma fold_removeAt cm (l : list nat) : forall (velm : list (vec4 R)),
  NoDup l -> (forall i, In i l -> (i < List.length velm)%nat) ->
  List.length (fold_left (removeAt cm) l velm) = List.length velm /\
  forall i,
    (In i l -> nth i (fold_left (removeAt cm) l velm) zero4
               = shifted cm (nth i velm zero4)) /\
    (~ In i l -> nth i (fold_left (removeAt cm) l velm) zero4 = nth i velm zero4).
Proof.
  induction l as [| k l IH]; intros velm Hnd Hl.
  - split; [reflexivity |]. intro i. split; [contradiction | reflexivity].
  - inversion Hnd as [| ? ? Hk Hnd']; subst. cbn [fold_left].
    destruct (IH (removeAt cm velm k) Hnd') as [Hlen Hnth].
    { intros i Hi. rewrite removeAt_length. apply Hl. now right. }
    rewrite removeAt_length in Hlen. split; [exact Hlen |].
    intro i. destruct (Hnth i) as [Hin Hout]. split.
    + intros [<- | Hi].
      * rewrite Hout by exact Hk. unfold removeAt.
        apply nth_upd_same. apply Hl. now left.
      * rewrite Hin by exact Hi. unfold removeAt.
        rewrite nth_upd_other; [reflexivity |]. intros ->. contradiction.
    + intro Hni. rewrite Hout by (intro Hi; apply Hni; now right).
      unfold removeAt. apply nth_upd_other. intros ->. apply Hni. now left.
Qed.

(** The sum the groups of the second kernel form again. *)
Lemma centerOfMassVelocity_eq itm numGroups (cmMomentum : list (vec3 R)) :
  let total := vsum (map (fun g => nth g cmMomentum zero3) (seq 0 numGroups)) in
  centerOfMassVelocity itm numGroups cmMomentum
  = mkVec3 (itm * v3x total) (itm * v3y total) (itm * v3z total).
Proof.
  cbv zeta. unfold centerOfMassVelocity. cbv zeta.
  pose proof (reduce_sums
                (fun thread =>
                   fold_left (fun cm index => add3 cm (nth index cmMomentum zero3))
                     (gridStride thread LOCAL_SIZE numGroups) zero3)) as Hsum.
  unfold reduceGroup in Hsum. cbv zeta in Hsum.
  set (temp := reduceStep 2 _) in *.
  assert (Htotal : add3 (nth 0 temp zero3) (nth 1 temp zero3)
                   = vsum (map (fun g => nth g cmMomentum zero3) (seq 0 numGroups))).
  { rewrite Hsum.
    rewrite (map_ext _ (fun thread =>
               vsum (map (fun g => nth g cmMomentum zero3)
                         (gridStride thread LOCAL_SIZE numGroups)))).
    - apply vsum_by_thread. unfold LOCAL_SIZE. lia.
    - intro thread. now rewrite fold_add3, add3_zero_l. }
  rewrite <- Htotal. reflexivity.
Qed.

Lemma remove_spec itm numGroups numAtoms (velm : list (vec4 R))
    (cmMomentum : list (vec3 R)) :
  (0 < numGroups)%nat ->
  (numAtoms <= List.length velm)%nat ->
  let cm := centerOfMassVelocity itm numGroups cmMomentum in
  let after := removeCenterOfMassMomentum itm numGroups numAtoms velm cmMomentum in
  List.length after = List.length velm /\
  forall i,
    nth i after zero4
    = if (i <? numAtoms)%nat then shifted cm (nth i velm zero4)
      else nth i velm zero4.
Proof.
  intros Hg Hn cm after.
  unfold after, removeCenterOfMassMomentum. cbv zeta. fold cm.
  rewrite (fold_flat_map (removeAt cm)
             (fun id => gridStride id (LOCAL_SIZE * numGroups) numAtoms)).
  assert (Hperm : Permutation
            (flat_map (fun id => gridStride id (LOCAL_SIZE * numGroups) numAtoms)
                      (seq 0 (LOCAL_SIZE * numGroups)))
            (seq 0 numAtoms)).
  { apply launch_visits_once. unfold LOCAL_SIZE. lia. }
  set (visited := flat_map _ _) in *.
  destruct (fold_removeAt cm visited velm) as [Hlen Hnth].
  { apply (Permutation_NoDup (Permutation_sym Hperm)), seq_NoDup. }
  { intros i Hi. apply (Permutation_in _ Hperm) in Hi. apply in_seq in Hi. lia. }
  split; [exact Hlen |]. intro i. destruct (Hnth i) as [Hin Hout].
  destruct (Nat.ltb_spec i numAtoms) as [Hlt | Hge].
  - apply Hin. apply (Permutation_in _ (Permutation_sym Hperm)), in_seq. lia.
  - apply Hout. intro Hi. apply (Permutation_in _ Hperm), in_seq in Hi. lia.
Qed.

(** [removeCenterOfMassMomentum] takes the same velocity,
    [INVERSE_TOTAL_MASS] times the sum of the entries of [cmMomentum],
    from every atom below [numAtoms], whether it has a mass or not; it
    leaves the inverse masses and the padding entries alone. *)
Theorem removal_shifts_every_atom_alike :
  forall (itm : R) (numGroups numAtoms : nat) (velm : list (vec4 R))
         (cmMomentum : list (vec3 R)),
    (0 < numGroups <= List.length cmMomentum)%nat ->
    (numAtoms <= List.length velm)%nat ->
    let total := vsum (map (fun g => nth g cmMomentum zero3) (seq 0 numGroups)) in
    let cm := mkVec3 (itm * v3x total) (itm * v3y total) (itm * v3z total) in
    let after := removeCenterOfMassMomentum itm numGroups numAtoms velm cmMomentum in
    List.length after = List.length velm /\
    forall i,
      nth i after zero4
      = if (i <? numAtoms)%nat then shifted cm (nth i velm zero4)
        else nth i velm zero4.
Proof.
  intros itm numGroups numAtoms velm cmMomentum [Hg _] Hn total cm after.
  pose proof (remove_spec itm numGroups numAtoms velm cmMomentum Hg Hn) as Hspec.
  cbv zeta in Hspec. rewrite centerOfMassVelocity_eq in Hspec.
  exact Hspec.
Qed.

(** ** Both kernels *)

(** The mass of an atom as [calcCenterOfMassMomentum] takes it. *)
Definition massOf (velm : list (vec4 R)) (index : nat) : R :=
  if negb (reqb (v4w (nth index velm zero4)) 0) then 1 / v4w (nth index velm zero4)
  else 0.

Definition totalMass (numAtoms : nat) (velm : list (vec4 R)) : R :=
  fold_right Rplus 0 (map (massOf velm) (seq 0 numAtoms)).

Lemma momentumOf_shifted (velm after : list (vec4 R)) cm i :
  nth i after zero4 = shifted cm (nth i velm zero4) ->
  momentumOf after i
  = mkVec3 (v3x (momentumOf velm i) - v3x cm * massOf velm i)
           (v3y (momentumOf velm i) - v3y cm * massOf velm i)
           (v3z (momentumOf velm i) - v3z cm * massOf velm i).
Proof.
  intro Hi. unfold momentumOf, accumulate, massOf. cbv zeta. rewrite Hi.
  cbn [shifted v4w v4x v4y v4z].
  change (@rofZ R RealOps_R 0) with 0. change (@rofZ R RealOps_R 1) with 1.
  destruct (negb (reqb (v4w (nth i velm zero4)) 0));
    unfold zero3; cbn [v3x v3y v3z rofZ radd rsub rmul rdiv RealOps_R];
    f_equal; ring.
Qed.

Lemma vsum_shifted (velm after : list (vec4 R)) cm (l : list nat) :
  (forall i, In i l -> nth i after zero4 = shifted cm (nth i velm zero4)) ->
  let P := vsum (map (momentumOf velm) l) in
  let M := fold_right Rplus 0 (map (massOf velm) l) in
  vsum (map (momentumOf after) l)
  = mkVec3 (v3x P - v3x cm * M) (v3y P - v3y cm * M) (v3z P - v3z cm * M).
Proof.
  induction l as [| i l IH]; intro Hl; cbv zeta.
  - cbn [map vsum fold_right]. unfold zero3.
    cbn [v3x v3y v3z rofZ RealOps_R]. f_equal; ring.
  - cbn [map vsum fold_right]. fold (vsum (map (momentumOf after) l)).
    fold (vsum (map (momentumOf velm) l)).
    rewrite IH by (intros k Hk; apply Hl; now right).
    rewrite (momentumOf_shifted velm after cm i) by (apply Hl; now left).
    unfold add3. cbn [v3x v3y v3z]. cbn [RealOps_R radd]. f_equal; ring.
Qed.

Lemma map_nth_seq {A : Type} (l : list A) d :
  map (fun i => nth i l d) (seq 0 (List.length l)) = l.
Proof.
  apply (nth_ext _ _ d d).
  - now rewrite length_map, length_seq.
  - intros i Hi. rewrite length_map, length_seq in Hi.
    rewrite (nth_indep _ d ((fun i => nth i l d) 0%nat))
      by (now rewrite length_map, length_seq).
    rewrite (map_nth (fun i => nth i l d)). now rewrite seq_nth.
Qed.

(** In exact arithmetic, with [INVERSE_TOTAL_MASS] the inverse of the
    summed masses, the two kernels one after the other leave a system
    without momentum: the entries [calcCenterOfMassMomentum] would then
    record add up to zero. *)
Theorem removal_leaves_no_momentum :
  forall (itm : R) (numGroups numAtoms : nat) (velm : list (vec4 R)),
    (0 < numGroups)%nat ->
    (numAtoms <= List.length velm)%nat ->
    itm * totalMass numAtoms velm = 1 ->
    let cmMomentum :=
      calcCenterOfMassMomentum (fun x => x) numGroups numAtoms velm in
    let after :=
      removeCenterOfMassMomentum itm numGroups numAtoms velm cmMomentum in
    fold_left add3 (calcCenterOfMassMomentum (fun x => x) numGroups numAtoms after)
              zero3
    = zero3.
Proof.
  intros itm numGroups numAtoms velm Hg Hn Hitm cmMomentum after.
  rewrite fold_add3_vsum, calc_vsum by exact Hg.
  destruct (remove_spec itm numGroups numAtoms velm cmMomentum Hg Hn)
    as [_ Hnth]. fold after in Hnth.
  rewrite (vsum_shifted velm after (centerOfMassVelocity itm numGroups cmMomentum)).
  - cbv zeta. rewrite centerOfMassVelocity_eq. cbv zeta.
    assert (Htotal : vsum (map (fun g => nth g cmMomentum zero3) (seq 0 numGroups))
                     = vsum (map (momentumOf velm) (seq 0 numAtoms))).
    { rewrite <- (calc_length numGroups numAtoms velm) at 1.
      fold cmMomentum. rewrite map_nth_seq. unfold cmMomentum.
      now apply calc_vsum. }
    rewrite Htotal. fold (totalMass numAtoms velm).
    set (P := vsum (map (momentumOf velm) (seq 0 numAtoms))).
    cbn [v3x v3y v3z]. unfold zero3. cbn [rofZ RealOps_R].
    assert (Hzero : forall p, p - itm * p * totalMass numAtoms velm = 0).
    { intro p.
      replace (p - itm * p * totalMass numAtoms velm)
        with (p * (1 - itm * totalMass numAtoms velm)) by ring.
      rewrite Hitm. ring. }
    now rewrite !Hzero.
  - intros i Hi. apply in_seq in Hi. rewrite Hnth.
    destruct (Nat.ltb_spec i numAtoms); [reflexivity | lia].
Qed.

End Exact.

(** Two atoms of unit mass and a massless site, in one group. *)
Definition sampleVelm : list (vec4 R) :=
  [mkVec4 1 0 0 1; mkVec4 3 2 0 1; mkVec4 0 0 0 0]%R.

Lemma group_momenta_add_up_to_the_total_witness :
  List.length (calcCenterOfMassMomentum (fun x => x) 1 3 sampleVelm) = 1%nat /\
  fold_left add3 (calcCenterOfMassMomentum (fun x => x) 1 3 sampleVelm) zero3
  = fold_left (accumulate (fun x => x) sampleVelm) (seq 0 3) zero3.
Proof.
  apply (group_momenta_add_up_to_the_total 1 3 sampleVelm); simpl; lia.
Defined.

Lemma removal_shifts_every_atom_alike_witness :
  let total := vsum (map (fun g => nth g [mkVec3 4 2 0]%R zero3) (seq 0 1)) in
  let cm := mkVec3 (/ 2 * v3x total)%R (/ 2 * v3y total)%R (/ 2 * v3z total)%R in
  let after := removeCenterOfMassMomentum (/ 2)%R 1 3 sampleVelm [mkVec3 4 2 0]%R in
  List.length after = List.length sampleVelm /\
  forall i,
    nth i after zero4
    = if (i <? 3)%nat then shifted cm (nth i sampleVelm zero4)
      else nth i sampleVelm zero4.
Proof.
  apply (removal_shifts_every_atom_alike (/ 2)%R 1 3 sampleVelm [mkVec3 4 2 0]%R).
  - simpl. lia.
  - simpl. lia.
Defined.

Lemma removal_leaves_no_momentum_witness :
  fold_left add3
    (calcCenterOfMassMomentum (fun x => x) 1 3
       (removeCenterOfMassMomentum (/ 2)%R 1 3 sampleVelm
          (calcCenterOfMassMomentum (fun x => x) 1 3 sampleVelm)))
    zero3
  = zero3.
Proof.
  apply (removal_leaves_no_momentum (/ 2)%R 1 3 sampleVelm).
  - lia.
  - simpl. lia.
  - unfold totalMass, massOf, sampleVelm.
    cbn [seq map fold_right nth v4w reqb RealOps_R].
    destruct (Req_dec_T 1 0) as [H10 | _]; [lra |].
    destruct (Req_dec_T 0 0) as [_ | H00]; [| lra].
    cbn [negb]. lra.
Defined.

End Momentum.

(* ------------------------------------------------------------------ *)
(** * HIP arrays and kernel arguments ([HipArray], [HipKernel]) *)

Module Hip.

Local Open Scope Z_scope.

(** [hipError_t]; [hipSuccess] is zero. *)
Definition hipSuccess : Z := 0.

(** ** [HipArray] *)

Record HipArray : Type := mkArray {
  pointer : Z;                  (* 0 is the null pointer *)
  ownsMemory : bool;
  size : Z;
  elementSize : Z;
  name : String.string }.

(** The exceptions of the class; the texts that embed
    [HipContext::getErrorString] keep its argument instead. *)
Inductive Message : Type :=
  | AlreadyInitialized      (* "HipArray has already been initialized" *)
  | NotInitialized          (* "HipArray has not been initialized" *)
  | CannotResize            (* "Cannot resize an array that does not own its storage" *)
  | SizeMismatch (name dest : String.string)
  | ErrorCreating (name : String.string) (result : Z)
  | ErrorDeleting (name : String.string) (result : Z)
  | ErrorUploading (name : String.string) (result : Z)
  | ErrorDownloading (name : String.string) (result : Z)
  | ErrorCopying (name dest : String.string) (result : Z).

(** What the device did in a call: the bytes it was asked to move, or the
    allocation and release of storage. *)
Inductive DeviceCall : Type :=
  | hipMalloc (bytes : Z)
  | hipFree (pointer : Z)
  | hipMemcpyHtoD (pointer bytes : Z) (async : bool)
  | hipMemcpyDtoH (pointer bytes : Z) (async : bool)
  | hipMemcpyDtoDAsync (dest source bytes : Z).

Record Outcome : Type := mkOutcome {
  array : HipArray;
  thrown : option Message;
  device : list DeviceCall }.

(** [size*elementSize], the number of bytes handed to the device: the
    product of two [int]s is an [int], which wraps to 32 bits in two's
    complement when it leaves the range (the language leaves the overflow
    undefined), and the parameter it is passed to is a [size_t], so a
    negative product becomes a number near [2^64]. *)
Definition intProduct (a b : Z) : Z := (a * b + 2 ^ 31) mod 2 ^ 32 - 2 ^ 31.

Definition to_size_t (n : Z) : Z := n mod 2 ^ 64.

Definition byteCount (size elementSize : Z) : Z :=
  to_size_t (intProduct size elementSize).

(** [HipArray::HipArray()]: the sizes are not set. *)
Definition HipArray_new (size elementSize : Z) : HipArray :=
  mkArray 0 false size elementSize String.EmptyString.

(** [initialize]; [result] is what [hipMalloc] returns and [allocated] the
    value it leaves in [pointer]. *)
Definition initialize (a : HipArray) (size elementSize : Z) (name : String.string)
    (result allocated : Z) : Outcome :=
  if negb (pointer a =? 0) then mkOutcome a (Some AlreadyInitialized) []
  else
    let a := mkArray allocated true size elementSize name in
    mkOutcome a
      (if negb (result =? hipSuccess) then Some (ErrorCreating name result) else None)
      [hipMalloc (byteCount size elementSize)].

Definition resize (a : HipArray) (newSize : Z) (freeResult result allocated : Z)
    : Outcome :=
  if pointer a =? 0 then mkOutcome a (Some NotInitialized) []
  else if negb (ownsMemory a) then mkOutcome a (Some CannotResize) []
  else if negb (freeResult =? hipSuccess)
  then mkOutcome a (Some (ErrorDeleting (name a) freeResult)) [hipFree (pointer a)]
  else
    let o := initialize (mkArray 0 (ownsMemory a) (size a) (elementSize a) (name a))
               newSize (elementSize a) (name a) result allocated in
    mkOutcome (array o) (thrown o) (hipFree (pointer a) :: device o).

Definition upload (a : HipArray) (blocking : bool) (result : Z) : Outcome :=
  if pointer a =? 0 then mkOutcome a (Some NotInitialized) []
  else mkOutcome a
         (if negb (result =? hipSuccess)
          then Some (ErrorUploading (name a) result) else None)
         [hipMemcpyHtoD (pointer a) (byteCount (size a) (elementSize a)) (negb blocking)].

Definition download (a : HipArray) (blocking : bool) (result : Z) : Outcome :=
  if pointer a =? 0 then mkOutcome a (Some NotInitialized) []
  else mkOutcome a
         (if negb (result =? hipSuccess)
          then Some (ErrorDownloading (name a) result) else None)
         [hipMemcpyDtoH (pointer a) (byteCount (size a) (elementSize a)) (negb blocking)].

Definition copyTo (a dest : HipArray) (result : Z) : Outcome :=
  if pointer a =? 0 then mkOutcome a (Some NotInitialized) []
  else if negb (size dest =? size a) || negb (elementSize dest =? elementSize a)
  then mkOutcome a (Some (SizeMismatch (name a) (name dest))) []
  else mkOutcome a
         (if negb (result =? hipSuccess)
          then Some (ErrorCopying (name a) (name dest) result) else None)
         [hipMemcpyDtoDAsync (pointer dest) (pointer a) (byteCount (size a) (elementSize a))].

(** A call of one of the functions, with the answers of the device. *)
Inductive Call : Type :=
  | Initialize (size elementSize : Z) (name : String.string) (result allocated : Z)
  | Resize (size : Z) (freeResult result allocated : Z)
  | Upload (blocking : bool) (result : Z)
  | Download (blocking : bool) (result : Z)
  | CopyTo (dest : HipArray) (result : Z).

Definition call (a : HipArray) (c : Call) : Outcome :=
  match c with
  | Initialize s e n r p => initialize a s e n r p
  | Resize s f r p => resize a s f r p
  | Upload b r => upload a b r
  | Download b r => download a b r
  | CopyTo d r => copyTo a d r
  end.

(** The calls one after the other, whether or not they raise (the caller
    may catch), with everything raised on the way. *)
Fixpoint calls (a : HipArray) (cs : list Call) : HipArray * list Message :=
  match cs with
  | [] => (a, [])
  | c :: cs =>
      let o := call a c in
      let (a', ms) := calls (array o) cs in
      (a', match thrown o with Some m => m :: ms | None => ms end)
  end.

Definition owning (a : HipArray) : Prop := pointer a <> 0 -> ownsMemory a = true.

Lemma call_owning a c : owning a -> owning (array (call a c)).
Proof.
  intro Ha. unfold owning in *.
  destruct c as [s e n r p | s f r p | b r | b r | d r]; cbn [call].
  - unfold initialize. destruct (pointer a =? 0); cbn; [reflexivity | exact Ha].
  - unfold resize, initialize.
    destruct (pointer a =? 0) eqn:Hp; cbn [negb array]; [exact Ha |].
    destruct (ownsMemory a) eqn:Hown; cbn [negb array];
      [| rewrite Hown; exact Ha].
    destruct (f =? hipSuccess); cbn; [reflexivity | now rewrite Hown].
  - unfold upload. destruct (pointer a =? 0); exact Ha.
  - unfold download. destruct (pointer a =? 0); exact Ha.
  - unfold copyTo. destruct (pointer a =? 0); [exact Ha |].
    destruct (_ || _); exact Ha.
Qed.

Lemma call_CannotResize a c :
  owning a -> thrown (call a c) <> Some CannotResize.
Proof.
  intro Ha. unfold owning in Ha.
  destruct c as [s e n r p | s f r p | b r | b r | d r]; cbn [call].
  - unfold initialize. destruct (pointer a =? 0); cbn; [| discriminate].
    destruct (r =? hipSuccess); discriminate.
  - unfold resize, initialize.
    destruct (Z.eqb_spec (pointer a) 0) as [Hp | Hp]; cbn; [discriminate |].
    rewrite (Ha Hp). cbn.
    destruct (f =? hipSuccess); cbn; [| discriminate].
    destruct (r =? hipSuccess); discriminate.
  - unfold upload. destruct (pointer a =? 0); cbn; [discriminate |].
    destruct (r =? hipSuccess); discriminate.
  - unfold download. destruct (pointer a =? 0); cbn; [discriminate |].
    destruct (r =? hipSuccess); discriminate.
  - unfold copyTo. destruct (pointer a =? 0); cbn; [discriminate |].
    destruct (_ || _); cbn; [discriminate |].
    destruct (r =? hipSuccess); discriminate.
Qed.

Lemma calls_owning cs : forall a,
  owning a ->
  owning (fst (calls a cs)) /\ ~ In CannotResize (snd (calls a cs)).
Proof.
  induction cs as [| c cs IH]; intros a Ha.
  - split; [exact Ha | exact (fun f => f)].
  - cbn [calls].
    destruct (IH (array (call a c)) (call_owning a c Ha)) as [Ho Hn].
    destruct (calls (array (call a c)) cs) as [a' ms]. cbn [fst snd] in *.
    split; [exact Ho |].
    pose proof (call_CannotResize a c Ha) as Hc.
    destruct (thrown (call a c)) as [m |]; [| exact Hn].
    intros [-> | Hin]; [now apply Hc | now apply Hn].
Qed.

(** Whatever is called on an array made by the default constructor, and
    whatever the device answers, an array with storage owns it: [resize]
    never raises "Cannot resize an array that does not own its storage". *)
Theorem array_with_storage_owns_it :
  forall (size elementSize : Z) (cs : list Call),
    let r := calls (HipArray_new size elementSize) cs in
    (pointer (fst r) <> 0 -> ownsMemory (fst r) = true) /\
    ~ In CannotResize (snd r).
Proof.
  intros s e cs r. apply calls_owning. intro Hp. now cbn in Hp.
Qed.

Lemma byteCount_small size elementSize :
  0 <= size * elementSize < 2 ^ 31 ->
  byteCount size elementSize = size * elementSize.
Proof.
  intro Hr. unfold byteCount, intProduct, to_size_t.
  rewrite (Z.mod_small (size * elementSize + 2 ^ 31)) by lia.
  rewrite Z.mod_small by lia. lia.
Qed.

(** A [resize] that goes through keeps the element size and the name,
    records the new size and asks the device to release the old storage
    and then to allocate [size*elementSize] bytes: the product as an [int]
    converted to [size_t], which is the number of bytes of the elements
    when that is below [2^31].  When the release fails nothing changes;
    when the allocation fails the new size is already recorded and the
    pointer is what [hipMalloc] left, so an array left with a null pointer
    counts as not initialised: [upload] raises without calling the device
    and [initialize] is accepted again. *)
Theorem resize_releases_then_allocates :
  forall (a : HipArray) (newSize freeResult result allocated : Z),
    pointer a <> 0 -> ownsMemory a = true ->
    let o := resize a newSize freeResult result allocated in
    (freeResult <> hipSuccess ->
       o = mkOutcome a (Some (ErrorDeleting (name a) freeResult))
             [hipFree (pointer a)]) /\
    (freeResult = hipSuccess ->
       array o = mkArray allocated true newSize (elementSize a) (name a) /\
       device o
       = [hipFree (pointer a);
          hipMalloc (((newSize * elementSize a + 2 ^ 31) mod 2 ^ 32 - 2 ^ 31)
                     mod 2 ^ 64)] /\
       (0 <= newSize * elementSize a < 2 ^ 31 ->
        device o = [hipFree (pointer a); hipMalloc (newSize * elementSize a)]) /\
       (thrown o = None <-> result = hipSuccess) /\
       (allocated = 0 ->
          (forall blocking r,
             upload (array o) blocking r
             = mkOutcome (array o) (Some NotInitialized) []) /\
          (forall s e n r p,
             thrown (initialize (array o) s e n r p) <> Some AlreadyInitialized))).
Proof.
  intros a newSize f r p Hp Hown o. subst o. unfold resize, initialize.
  destruct (Z.eqb_spec (pointer a) 0) as [H0 | _]; [contradiction |].
  rewrite Hown. cbn [negb]. split.
  - intro Hf. destruct (Z.eqb_spec f hipSuccess); [contradiction | reflexivity].
  - intros ->. cbn [Z.eqb hipSuccess negb pointer array device thrown].
    split; [reflexivity |]. split; [reflexivity |]. split; [| split].
    + intro Hsmall. now rewrite byteCount_small.
    + destruct (Z.eqb_spec r hipSuccess) as [-> | Hr]; cbn [negb].
      * split; reflexivity.
      * split; [discriminate | contradiction].
    + intros ->. split.
      * intros blocking r0. reflexivity.
      * intros s e n r0 p0. unfold initialize. cbn [pointer Z.eqb negb thrown].
        destruct (negb (r0 =? hipSuccess)); discriminate.
Qed.

Lemma resize_releases_then_allocates_witness :
  let a := mkArray 4096 true 10 4 String.EmptyString in
  let o := resize a 20 0 2 0 in
  (0 <> hipSuccess ->
     o = mkOutcome a (Some (ErrorDeleting (name a) 0)) [hipFree (pointer a)]) /\
  (0 = hipSuccess ->
     array o = mkArray 0 true 20 (elementSize a) (name a) /\
     device o
     = [hipFree (pointer a);
        hipMalloc (((20 * elementSize a + 2 ^ 31) mod 2 ^ 32 - 2 ^ 31)
                   mod 2 ^ 64)] /\
     (0 <= 20 * elementSize a < 2 ^ 31 ->
      device o = [hipFree (pointer a); hipMalloc (20 * elementSize a)]) /\
     (thrown o = None <-> 2 = hipSuccess) /\
     (0 = 0 ->
        (forall blocking r,
           upload (array o) blocking r
           = mkOutcome (array o) (Some NotInitialized) []) /\
        (forall s e n r p,
           thrown (initialize (array o) s e n r p) <> Some AlreadyInitialized))).
Proof.
  intro a.
  apply (resize_releases_then_allocates a 20 0 2 0).
  - simpl. lia.
  - reflexivity.
Defined.

(** Six hundred million elements of four bytes: the product leaves the
    range of [int] and the device is asked for nearly [2^64] bytes. *)
Example byteCount_samples :
  byteCount 20 4 = 80 /\
  byteCount 600000000 4 = 18446744071814584320 /\
  device (initialize (HipArray_new 0 0) 600000000 4 String.EmptyString 2 0)
  = [hipMalloc 18446744071814584320].
Proof. vm_compute. repeat split; reflexivity. Qed.

(** ** [HipKernel] *)

Section Kernel.

(** A byte of a primitive argument and the zero byte; an argument slot is
    a [double4], 32 bytes. *)
Variable byte : Type.
Variable zeroByte : byte.

Definition sizeofDouble4 : Z := 32.

Record HipKernel : Type := mkKernel {
  primitiveArgs : list (list byte);
  arrayArgs : list (option HipArray) }.    (* [None] is [NULL] *)

(** "Unsupported value type for kernel argument" *)
Inductive KernelOutcome : Type :=
  | Done (k : HipKernel)
  | Unsupported (k : HipKernel).

Definition kernelOf (o : KernelOutcome) : HipKernel :=
  match o with Done k | Unsupported k => k end.

Definition addEmptyArg (k : HipKernel) : HipKernel :=
  mkKernel (primitiveArgs k ++ [repeat zeroByte (Z.to_nat sizeofDouble4)])
           (arrayArgs k ++ [None]).

Definition setArrayArg (k : HipKernel) (index : nat) (value : HipArray)
    : HipKernel :=
  mkKernel (primitiveArgs k) (upd (arrayArgs k) index (Some value)).

(** [memcpy(&slot, value, size)]: the first [size] bytes are replaced. *)
Definition memcpy (slot value : list byte) (size : nat) : list byte :=
  firstn size value ++ skipn size slot.

(** [size > sizeof(double4)] compares an [int] with a [size_t]: the [int]
    is converted, so a negative size is above every bound. *)
Definition tooLarge (size : Z) : bool := (size <? 0) || (sizeofDouble4 <? size).

Definition setPrimitiveArg (k : HipKernel) (index : nat) (value : list byte)
    (size : Z) : KernelOutcome :=
  if tooLarge size then Unsupported k
  else Done (mkKernel
               (upd (primitiveArgs k) index
                    (memcpy (nth index (primitiveArgs k) []) value (Z.to_nat size)))
               (upd (arrayArgs k) index None)).

Definition addArrayArg (k : HipKernel) (value : HipArray) : HipKernel :=
  let index := List.length (arrayArgs k) in
  setArrayArg (addEmptyArg k) index value.

Definition addPrimitiveArg (k : HipKernel) (value : list byte) (size : Z)
    : KernelOutcome :=
  let index := List.length (arrayArgs k) in
  setPrimitiveArg (addEmptyArg k) index value size.

(** What [execute] points [argPointers[i]] at. *)
Inductive Argument : Type :=
  | DevicePointerOf (a : HipArray)
  | Primitive (bytes : list byte).

Definition argPointers (k : HipKernel) : list Argument :=
  map (fun i => match nth i (arrayArgs k) None with
                | Some a => DevicePointerOf a
                | None => Primitive (nth i (primitiveArgs k) [])
                end)
      (seq 0 (List.length (arrayArgs k))).

(** The calls that build and change the argument list. *)
Inductive KernelCall : Type :=
  | AddArrayArg (value : HipArray)
  | AddPrimitiveArg (value : list byte) (size : Z)
  | SetArrayArg (index : nat) (value : HipArray)
  | SetPrimitiveArg (index : nat) (value : list byte) (size : Z).

Definition isAdd (c : KernelCall) : bool :=
  match c with AddArrayArg _ | AddPrimitiveArg _ _ => true | _ => false end.

(** A call on a kernel; indexing outside the argument list is undefined. *)
Definition kernelCall (k : HipKernel) (c : KernelCall) : option KernelOutcome :=
  match c with
  | AddArrayArg value => Some (Done (addArrayArg k value))
  | AddPrimitiveArg value size => Some (addPrimitiveArg k value size)
  | SetArrayArg index value =>
      if (index <? List.length (arrayArgs k))%nat
      then Some (Done (setArrayArg k index value)) else None
  | SetPrimitiveArg index value size =>
      if (index <? List.length (arrayArgs k))%nat
      then Some (setPrimitiveArg k index value size) else None
  end.

(** The calls one after the other, the caller going on after an exception. *)
Fixpoint kernelCalls (k : HipKernel) (cs : list KernelCall) : option HipKernel :=
  match cs with
  | [] => Some k
  | c :: cs =>
      match kernelCall k c with
      | Some o => kernelCalls (kernelOf o) cs
      | None => None
      end
  end.

Definition slots (k : HipKernel) : Prop :=
  List.length (primitiveArgs k) = List.length (arrayArgs k).

Lemma kernelCall_slots k c o :
  slots k -> kernelCall k c = Some o ->
  slots (kernelOf o) /\
  List.length (arrayArgs (kernelOf o))
  = (List.length (arrayArgs k) + if isAdd c then 1 else 0)%nat.
Proof.
  unfold slots. intros Hk Hc.
  destruct c as [value | value size | index value | index value size];
    cbn [kernelCall isAdd] in *.
  - injection Hc as <-. cbn. rewrite !upd_length, !length_app. cbn. lia.
  - injection Hc as <-. unfold addPrimitiveArg, setPrimitiveArg. cbv zeta.
    destruct (tooLarge size); cbn; rewrite ?upd_length, !length_app; cbn; lia.
  - destruct (index <? _)%nat; [| discriminate]. injection Hc as <-.
    cbn. rewrite upd_length. lia.
  - destruct (index <? _)%nat; [| discriminate]. injection Hc as <-.
    unfold setPrimitiveArg. destruct (tooLarge size); cbn;
      rewrite ?upd_length; lia.
Qed.

(** The argument list has one slot for every [add] call made, also for an
    [addPrimitiveArg] that raised: the empty slot is appended before the
    size is looked at.  [execute] passes that many arguments. *)
Theorem every_add_call_leaves_a_slot :
  forall (cs : list KernelCall) (k : HipKernel),
    kernelCalls (mkKernel [] []) cs = Some k ->
    List.length (primitiveArgs k) = List.length (arrayArgs k) /\
    List.length (argPointers k) = List.length (filter isAdd cs) /\
    (forall value size,
       tooLarge size = true ->
       addPrimitiveArg k value size = Unsupported (addEmptyArg k) /\
       argPointers (addEmptyArg k)
       = argPointers k ++ [Primitive (repeat zeroByte 32)]).
Proof.
  intros cs k Hrun.
  assert (Hgen : forall cs k0 k,
            slots k0 -> kernelCalls k0 cs = Some k ->
            slots k /\
            List.length (arrayArgs k)
            = (List.length (arrayArgs k0) + List.length (filter isAdd cs))%nat).
  { clear. induction cs as [| c cs IH]; intros k0 k Hk0 Hrun; cbn [kernelCalls] in Hrun.
    - injection Hrun as <-. cbn. split; [exact Hk0 | lia].
    - destruct (kernelCall k0 c) as [o |] eqn:Hc; [| discriminate].
      destruct (kernelCall_slots k0 c o Hk0 Hc) as [Ho Hlen].
      destruct (IH (kernelOf o) k Ho Hrun) as [Hk Hl]. split; [exact Hk |].
      rewrite Hl, Hlen. cbn [filter]. destruct (isAdd c); cbn; lia. }
  destruct (Hgen cs (mkKernel [] []) k eq_refl Hrun) as [Hslots Hlen].
  cbn in Hlen. split; [exact Hslots |]. split.
  { unfold argPointers. now rewrite length_map, length_seq. }
  intros value size Hlarge. split.
  { unfold addPrimitiveArg, setPrimitiveArg. cbv zeta. now rewrite Hlarge. }
  unfold argPointers, addEmptyArg. cbn [arrayArgs primitiveArgs].
  rewrite length_app. cbn [List.length]. rewrite Nat.add_1_r, seq_S, map_app.
  cbn [map Nat.add]. f_equal.
  - apply map_ext_in. intros i Hi. apply in_seq in Hi.
    rewrite !app_nth1 by (unfold slots in Hslots; lia). reflexivity.
  - rewrite nth_middle. unfold slots in Hslots. rewrite <- Hslots, nth_middle.
    reflexivity.
Qed.

(** [setPrimitiveArg] with an accepted size and a value of at least
    [size] bytes: the slot becomes a primitive argument even if it held an
    array, its first [size] bytes are those of the value and the bytes
    after them are what the slot held before; no other argument changes. *)
Theorem primitive_argument_overwrites_a_prefix :
  forall (k : HipKernel) (index : nat) (value : list byte) (size : Z),
    List.length (primitiveArgs k) = List.length (arrayArgs k) ->
    (index < List.length (arrayArgs k))%nat ->
    tooLarge size = false ->
    (Z.to_nat size <= List.length value)%nat ->
    let old := nth index (primitiveArgs k) [] in
    exists k',
      setPrimitiveArg k index value size = Done k' /\
      List.length (argPointers k') = List.length (argPointers k) /\
      nth index (argPointers k') (Primitive [])
      = Primitive (firstn (Z.to_nat size) value ++ skipn (Z.to_nat size) old) /\
      forall i, i <> index ->
        nth i (argPointers k') (Primitive []) = nth i (argPointers k) (Primitive []).
Proof.
  intros k index value size Hslots Hindex Hsize Hvalue old.
  unfold setPrimitiveArg. rewrite Hsize. eexists. split; [reflexivity |].
  set (k' := mkKernel _ _).
  assert (Hlen : List.length (arrayArgs k') = List.length (arrayArgs k)).
  { unfold k'. cbn. apply upd_length. }
  assert (Hnth : forall j kk, (j < List.length (arrayArgs kk))%nat ->
            nth j (argPointers kk) (Primitive [])
            = match nth j (arrayArgs kk) None with
              | Some a => DevicePointerOf a
              | None => Primitive (nth j (primitiveArgs kk) [])
              end).
  { intros j kk Hj. unfold argPointers.
    rewrite (nth_indep _ (Primitive [])
               ((fun i => match nth i (arrayArgs kk) None with
                          | Some a => DevicePointerOf a
                          | None => Primitive (nth i (primitiveArgs kk) [])
                          end) 0%nat))
      by (now rewrite length_map, length_seq).
    rewrite (map_nth (fun i => match nth i (arrayArgs kk) None with
                               | Some a => DevicePointerOf a
                               | None => Primitive (nth i (primitiveArgs kk) [])
                               end)).
    now rewrite seq_nth. }
  split; [| split].
  - unfold argPointers. now rewrite !length_map, !length_seq.
  - rewrite Hnth by lia. unfold k'. cbn [arrayArgs primitiveArgs].
    rewrite !nth_upd_same by lia. reflexivity.
  - intros i Hi. destruct (Nat.lt_ge_cases i (List.length (arrayArgs k))) as [Hlt | Hge].
    + rewrite !Hnth by lia. unfold k'. cbn [arrayArgs primitiveArgs].
      now rewrite !nth_upd_other by congruence.
    + rewrite !nth_overflow; [reflexivity | |];
        unfold argPointers; rewrite length_map, length_seq; lia.
Qed.

End Kernel.

Lemma every_add_call_leaves_a_slot_witness :
  let a := mkArray 4096 true 10 4 String.EmptyString in
  let cs := [AddArrayArg Z a; AddPrimitiveArg Z [1; 2; 3; 4] 40;
             AddPrimitiveArg Z [1; 2; 3; 4] 4] in
  exists k,
    kernelCalls Z 0 (mkKernel Z [] []) cs = Some k /\
    List.length (argPointers Z k) = 3%nat.
Proof.
  intros a cs. eexists. split; [reflexivity |].
  apply (every_add_call_leaves_a_slot Z 0 cs). reflexivity.
Defined.

Lemma primitive_argument_overwrites_a_prefix_witness :
  let a := mkArray 4096 true 10 4 String.EmptyString in
  let k := addArrayArg Z 0 (mkKernel Z [] []) a in
  exists k',
    setPrimitiveArg Z k 0 [7; 8] 2 = Done Z k' /\
    List.length (argPointers Z k') = List.length (argPointers Z k) /\
    nth 0 (argPointers Z k') (Primitive Z [])
    = Primitive Z (firstn (Z.to_nat 2) [7; 8]
                   ++ skipn (Z.to_nat 2) (nth 0 (primitiveArgs Z k) [])) /\
    forall i, i <> 0%nat ->
      nth i (argPointers Z k') (Primitive Z [])
      = nth i (argPointers Z k) (Primitive Z []).
Proof.
  intros a k.
  apply (primitive_argument_overwrites_a_prefix Z k 0 [7; 8] 2).
  - reflexivity.
  - simpl. lia.
  - reflexivity.
  - simpl. lia.
Defined.

End Hip.

(* ------------------------------------------------------------------ *)
(** * Tiles, warps and exclusion bits ([computeField] of
      [hippoComputeField.cu]) *)

Module Tiles.

Local Open Scope Z_scope.

Definition TILE_SIZE : Z := 32.

(** [unsigned int] arithmetic. *)
Definition uint32 (z : Z) : Z := z mod 2 ^ 32.

(** ** The exclusion tiles of a warp *)

Section Warps.

Variables FIRST_EXCLUSION_TILE LAST_EXCLUSION_TILE : Z.
Variable totalWarps : Z.

(** [FIRST_EXCLUSION_TILE+warp*(LAST_EXCLUSION_TILE-FIRST_EXCLUSION_TILE)/totalWarps],
    all in [unsigned int]. *)
Definition bound (warp : Z) : Z :=
  uint32 (FIRST_EXCLUSION_TILE
          + Z.quot (uint32 (warp * uint32 (LAST_EXCLUSION_TILE - FIRST_EXCLUSION_TILE)))
                   totalWarps).

Definition firstExclusionTile (warp : Z) : Z := bound warp.
Definition lastExclusionTile (warp : Z) : Z := bound (uint32 (warp + 1)).

(** [for (int pos = firstExclusionTile; pos < lastExclusionTile; pos++)] *)
Definition processes (warp pos : Z) : Prop :=
  firstExclusionTile warp <= pos < lastExclusionTile warp.

Hypothesis tiles_ordered : 0 <= FIRST_EXCLUSION_TILE <= LAST_EXCLUSION_TILE.
Hypothesis tiles_fit : LAST_EXCLUSION_TILE < 2 ^ 31.
Hypothesis some_warp : 0 < totalWarps < 2 ^ 32.
Hypothesis no_overflow :
  totalWarps * (LAST_EXCLUSION_TILE - FIRST_EXCLUSION_TILE) < 2 ^ 32.

Lemma uint32_small z : 0 <= z < 2 ^ 32 -> uint32 z = z.
Proof. intro Hz. unfold uint32. now apply Z.mod_small. Qed.

Lemma bound_exact warp :
  0 <= warp <= totalWarps ->
  bound warp
  = FIRST_EXCLUSION_TILE
    + warp * (LAST_EXCLUSION_TILE - FIRST_EXCLUSION_TILE) / totalWarps /\
  FIRST_EXCLUSION_TILE <= bound warp <= LAST_EXCLUSION_TILE.
Proof.
  intro Hw. unfold bound.
  set (n := LAST_EXCLUSION_TILE - FIRST_EXCLUSION_TILE) in *.
  assert (Hn : 0 <= n) by (unfold n; lia).
  assert (Hwn : 0 <= warp * n <= totalWarps * n) by nia.
  rewrite (uint32_small n) by lia.
  rewrite (uint32_small (warp * n)) by lia.
  rewrite Z.quot_div_nonneg by lia.
  assert (Hq : 0 <= warp * n / totalWarps <= n).
  { split; [apply Z.div_pos; lia |].
    apply Z.div_le_upper_bound; [lia | nia]. }
  rewrite uint32_small by (unfold n in *; lia).
  unfold n in *. split; [reflexivity | lia].
Qed.

Lemma bound_mono w1 w2 :
  0 <= w1 <= w2 -> w2 <= totalWarps -> bound w1 <= bound w2.
Proof.
  intros H1 H2.
  destruct (bound_exact w1 ltac:(lia)) as [-> _].
  destruct (bound_exact w2 ltac:(lia)) as [-> _].
  apply Z.add_le_mono_l, Z.div_le_mono; [lia | nia].
Qed.

Lemma next_warp warp : 0 <= warp < totalWarps -> uint32 (warp + 1) = warp + 1.
Proof. intro Hw. apply uint32_small. lia. Qed.

(** The warps share the exclusion tiles out: the ranges follow one
    another from [FIRST_EXCLUSION_TILE] to [LAST_EXCLUSION_TILE]. *)
Lemma ranges_chain :
  firstExclusionTile 0 = FIRST_EXCLUSION_TILE /\
  lastExclusionTile (totalWarps - 1) = LAST_EXCLUSION_TILE /\
  (forall warp, 0 <= warp < totalWarps ->
     lastExclusionTile warp = firstExclusionTile (warp + 1) /\
     firstExclusionTile warp <= lastExclusionTile warp).
Proof.
  unfold firstExclusionTile, lastExclusionTile. split; [| split].
  - destruct (bound_exact 0 ltac:(lia)) as [-> _].
    rewrite Z.mul_0_l, Z.div_0_l by lia. lia.
  - rewrite next_warp by lia. replace (totalWarps - 1 + 1) with totalWarps by lia.
    destruct (bound_exact totalWarps ltac:(lia)) as [-> _].
    rewrite Z.mul_comm, Z.div_mul by lia. lia.
  - intros warp Hw. rewrite next_warp by lia. split; [reflexivity |].
    apply bound_mono; lia.
Qed.

Lemma processes_spec warp pos :
  0 <= warp < totalWarps ->
  processes warp pos
  <-> warp * (LAST_EXCLUSION_TILE - FIRST_EXCLUSION_TILE)
      < (pos - FIRST_EXCLUSION_TILE + 1) * totalWarps
      <= (warp + 1) * (LAST_EXCLUSION_TILE - FIRST_EXCLUSION_TILE).
Proof.
  intro Hw. unfold processes, firstExclusionTile, lastExclusionTile.
  rewrite next_warp by lia.
  destruct (bound_exact warp ltac:(lia)) as [-> _].
  destruct (bound_exact (warp + 1) ltac:(lia)) as [-> _].
  set (n := LAST_EXCLUSION_TILE - FIRST_EXCLUSION_TILE).
  assert (HW : 0 < totalWarps) by lia.
  pose proof (Z.div_mod (warp * n) totalWarps ltac:(lia)) as Hd1.
  pose proof (Z.mod_pos_bound (warp * n) totalWarps HW) as Hr1.
  pose proof (Z.div_mod ((warp + 1) * n) totalWarps ltac:(lia)) as Hd2.
  pose proof (Z.mod_pos_bound ((warp + 1) * n) totalWarps HW) as Hr2.
  split.
  - intros [H1 H2]. split; nia.
  - intros [H1 H2]. split.
    + assert (warp * n / totalWarps < pos - FIRST_EXCLUSION_TILE + 1).
      { apply Z.div_lt_upper_bound; [lia | nia]. }
      lia.
    + assert (pos - FIRST_EXCLUSION_TILE + 1 <= (warp + 1) * n / totalWarps).
      { apply Z.div_le_lower_bound; [lia | nia]. }
      lia.
Qed.

Lemma one_warp_per_tile :
  (forall warp pos, 0 <= warp < totalWarps -> processes warp pos ->
     FIRST_EXCLUSION_TILE <= pos < LAST_EXCLUSION_TILE) /\
  (forall pos, FIRST_EXCLUSION_TILE <= pos < LAST_EXCLUSION_TILE ->
     exists warp, 0 <= warp < totalWarps /\ processes warp pos /\
       forall other, 0 <= other < totalWarps -> processes other pos ->
                     other = warp).
Proof.
  split.
  - intros warp pos Hw Hp. unfold processes, firstExclusionTile,
      lastExclusionTile in Hp. rewrite next_warp in Hp by lia.
    destruct (bound_exact warp ltac:(lia)) as [_ H1].
    destruct (bound_exact (warp + 1) ltac:(lia)) as [_ H2]. lia.
  - intros pos Hpos.
    set (n := LAST_EXCLUSION_TILE - FIRST_EXCLUSION_TILE).
    set (a := (pos - FIRST_EXCLUSION_TILE + 1) * totalWarps).
    assert (Hn : 0 < n) by (unfold n; lia).
    pose proof (Z.div_mod (a - 1) n ltac:(lia)) as Hd.
    pose proof (Z.mod_pos_bound (a - 1) n Hn) as Hr.
    assert (Ha : 1 <= a <= n * totalWarps) by (unfold a, n; nia).
    exists ((a - 1) / n).
    assert (Hw : 0 <= (a - 1) / n < totalWarps).
    { split; [apply Z.div_pos; lia |].
      apply Z.div_lt_upper_bound; [lia | nia]. }
    split; [exact Hw |]. split.
    + apply processes_spec; [exact Hw |]. fold n. fold a. nia.
    + intros other Ho Hother. apply processes_spec in Hother; [| exact Ho].
      fold n in Hother. fold a in Hother.
      destruct (Z.lt_trichotomy other ((a - 1) / n)) as [Hlt | [Heq | Hgt]];
        [| exact Heq |].
      * assert ((other + 1) * n <= (a - 1) / n * n)
          by (apply Z.mul_le_mono_nonneg_r; lia).
        lia.
      * assert (((a - 1) / n + 1) * n <= other * n)
          by (apply Z.mul_le_mono_nonneg_r; lia).
        lia.
Qed.

End Warps.

(** The exclusion tiles are shared out among the warps: every position
    from [FIRST_EXCLUSION_TILE] up to [LAST_EXCLUSION_TILE] is in the loop
    of exactly one warp, and no warp goes outside this range, as long as
    [totalWarps*(LAST_EXCLUSION_TILE-FIRST_EXCLUSION_TILE)] fits an
    [unsigned int]. *)
Theorem every_exclusion_tile_has_one_warp :
  forall (FIRST_EXCLUSION_TILE LAST_EXCLUSION_TILE totalWarps : Z),
    0 <= FIRST_EXCLUSION_TILE <= LAST_EXCLUSION_TILE ->
    LAST_EXCLUSION_TILE < 2 ^ 31 ->
    0 < totalWarps < 2 ^ 32 ->
    totalWarps * (LAST_EXCLUSION_TILE - FIRST_EXCLUSION_TILE) < 2 ^ 32 ->
    (forall warp pos,
       0 <= warp < totalWarps ->
       processes FIRST_EXCLUSION_TILE LAST_EXCLUSION_TILE totalWarps warp pos ->
       FIRST_EXCLUSION_TILE <= pos < LAST_EXCLUSION_TILE) /\
    (forall pos, FIRST_EXCLUSION_TILE <= pos < LAST_EXCLUSION_TILE ->
       exists warp, 0 <= warp < totalWarps /\
         processes FIRST_EXCLUSION_TILE LAST_EXCLUSION_TILE totalWarps warp pos /\
         forall other, 0 <= other < totalWarps ->
           processes FIRST_EXCLUSION_TILE LAST_EXCLUSION_TILE totalWarps other pos ->
           other = warp).
Proof.
  intros first last warps Hordered Hfit Hwarps Hproduct.
  exact (one_warp_per_tile first last warps Hordered Hfit Hwarps Hproduct).
Qed.

Lemma every_exclusion_tile_has_one_warp_witness :
  (forall warp pos,
     0 <= warp < 4 -> processes 0 10 4 warp pos -> 0 <= pos < 10) /\
  (forall pos, 0 <= pos < 10 ->
     exists warp, 0 <= warp < 4 /\ processes 0 10 4 warp pos /\
       forall other, 0 <= other < 4 -> processes 0 10 4 other pos ->
                     other = warp).
Proof.
  apply (every_exclusion_tile_has_one_warp 0 10 4); simpl; lia.
Defined.


(** ** The exclusion bits of an off-diagonal tile *)

(** [x << s] on [unsigned int].  A shift by the full width (thread 0 of a
    warp shifts by [TILE_SIZE]) is left open by the language: the device
    gives zero or takes the count modulo 32. *)
Definition shl (wraps : bool) (x s : Z) : Z :=
  if s <? 32 then uint32 (Z.shiftl x s)
  else if wraps then uint32 (Z.shiftl x (s mod 32)) else 0.

(** [excl = (excl >> tgx) | (excl << (TILE_SIZE - tgx))] *)
Definition rotated (wraps : bool) (excl tgx : Z) : Z :=
  Z.lor (Z.shiftr excl tgx) (shl wraps excl (TILE_SIZE - tgx)).

(** [excl] and [tj] after [j] rounds of
    [excl >>= 1; tj = (tj + 1) & (TILE_SIZE - 1);]. *)
Fixpoint rounds (j : nat) (excl tj : Z) : Z * Z :=
  match j with
  | O => (excl, tj)
  | S j' => rounds j' (Z.shiftr excl 1) (Z.land (tj + 1) (TILE_SIZE - 1))
  end.

(** [!(excl & 0x1)] *)
Definition isExcluded (excl : Z) : bool := Z.land excl 1 =? 0.

Lemma rounds_spec j : forall excl tj,
  0 <= tj < 32 ->
  rounds j excl tj = (Z.shiftr excl (Z.of_nat j), (tj + Z.of_nat j) mod 32).
Proof.
  induction j as [| j IH]; intros excl tj Htj.
  - cbn [rounds Z.of_nat]. rewrite Z.shiftr_0_r, Z.add_0_r.
    now rewrite Z.mod_small by lia.
  - cbn [rounds]. change (TILE_SIZE - 1) with (Z.ones 5).
    rewrite Z.land_ones by lia. change (2 ^ 5) with 32.
    rewrite IH by (apply Z.mod_pos_bound; lia).
    rewrite Z.shiftr_shiftr by lia. rewrite Z.add_mod_idemp_l by lia.
    f_equal; f_equal; lia.
Qed.

Lemma isExcluded_bit excl : isExcluded excl = negb (Z.testbit excl 0).
Proof.
  unfold isExcluded. change 1 with (Z.ones 1). rewrite Z.land_ones by lia.
  change (2 ^ 1) with 2. rewrite <- Z.bit0_mod.
  destruct (Z.testbit excl 0); reflexivity.
Qed.

Lemma high_bits_clear excl k :
  0 <= excl < 2 ^ 32 -> 32 <= k -> Z.testbit excl k = false.
Proof.
  intros He Hk. rewrite <- (Z.mod_small excl (2 ^ 32)) by lia.
  apply Z.mod_pow2_bits_high. lia.
Qed.

Lemma rotated_bit wraps excl tgx j :
  0 <= excl < 2 ^ 32 -> 0 <= tgx < 32 -> 0 <= j < 32 ->
  Z.testbit (rotated wraps excl tgx) j = Z.testbit excl ((tgx + j) mod 32).
Proof.
  intros He Ht Hj. unfold rotated, shl, TILE_SIZE.
  rewrite Z.lor_spec, Z.shiftr_spec by lia.
  destruct (Z.ltb_spec (32 - tgx) 32) as [Hs | Hs].
  - unfold uint32. rewrite Z.mod_pow2_bits_low, Z.shiftl_spec by lia.
    destruct (Z_lt_ge_dec (j + tgx) 32) as [Hlow | Hhigh].
    + rewrite (Z.testbit_neg_r excl (j - (32 - tgx))) by lia.
      rewrite orb_false_r, Z.mod_small by lia. f_equal. lia.
    + rewrite (high_bits_clear excl (j + tgx)) by lia. cbn [orb].
      f_equal. apply (Z.mod_unique (tgx + j) 32 1); lia.
  - assert (tgx = 0) by lia. subst tgx.
    rewrite Z.add_0_r, Z.add_0_l, (Z.mod_small j 32) by lia.
    destruct wraps; [| now rewrite Z.bits_0, orb_false_r].
    change (32 - 0) with 32. rewrite Z.mod_same, Z.shiftl_0_r by lia.
    unfold uint32. rewrite (Z.mod_small excl) by lia. apply orb_diag.
Qed.

(** In round [j] of an off-diagonal tile, thread [tgx] of the warp works
    on the atom in slot [(tgx + j) mod 32] of the other block, and the bit
    of [excl] it tests is the bit of that slot in the exclusion word it
    loaded, whichever way the device treats the shift by 32 of thread 0.
    In one round no two threads work on the same slot, and over the 32
    rounds a thread works on every slot once. *)
Theorem exclusion_bit_follows_the_atom :
  forall (wraps : bool) (excl tgx : Z) (j : nat),
    0 <= excl < 2 ^ 32 -> 0 <= tgx < 32 -> (j < 32)%nat ->
    let state := rounds j (rotated wraps excl tgx) tgx in
    snd state = (tgx + Z.of_nat j) mod 32 /\
    isExcluded (fst state) = negb (Z.testbit excl (snd state)) /\
    (forall other, 0 <= other < 32 -> other <> tgx ->
       snd (rounds j (rotated wraps excl other) other) <> snd state) /\
    (forall i, (i < 32)%nat -> i <> j ->
       snd (rounds i (rotated wraps excl tgx) tgx) <> snd state).
Proof.
  intros wraps excl tgx j He Ht Hj state. subst state.
  rewrite rounds_spec by lia. cbn [fst snd]. split; [reflexivity |]. split.
  - rewrite isExcluded_bit, Z.shiftr_spec, Z.add_0_l by lia.
    now rewrite rotated_bit by lia.
  - split.
    + intros other Ho Hne. rewrite rounds_spec by lia. cbn [snd]. intro Heq.
      apply Hne.
      pose proof (Z.div_mod (other + Z.of_nat j) 32 ltac:(lia)) as H1.
      pose proof (Z.div_mod (tgx + Z.of_nat j) 32 ltac:(lia)) as H2.
      pose proof (Z.mod_pos_bound (tgx + Z.of_nat j) 32 ltac:(lia)) as H3.
      rewrite Heq in H1. lia.
    + intros i Hi Hne. rewrite rounds_spec by lia. cbn [snd]. intro Heq.
      apply Hne.
      pose proof (Z.div_mod (tgx + Z.of_nat i) 32 ltac:(lia)) as H1.
      pose proof (Z.div_mod (tgx + Z.of_nat j) 32 ltac:(lia)) as H2.
      pose proof (Z.mod_pos_bound (tgx + Z.of_nat j) 32 ltac:(lia)) as H3.
      rewrite Heq in H1. lia.
Qed.

Lemma exclusion_bit_follows_the_atom_witness :
  let state := rounds 3 (rotated false 2147483649 30) 30 in
  snd state = (30 + Z.of_nat 3) mod 32 /\
  isExcluded (fst state) = negb (Z.testbit 2147483649 (snd state)) /\
  (forall other, 0 <= other < 32 -> other <> 30 ->
     snd (rounds 3 (rotated false 2147483649 other) other) <> snd state) /\
  (forall i, (i < 32)%nat -> i <> 3%nat ->
     snd (rounds i (rotated false 2147483649 30) 30) <> snd state).
Proof.
  apply (exclusion_bit_follows_the_atom false 2147483649 30 3); simpl; lia.
Defined.

(** ** The tile of a position (no cutoff) *)

(** [int] arithmetic. *)
Definition int32 (z : Z) : Z := (z + 2 ^ 31) mod 2 ^ 32 - 2 ^ 31.

(** [y*(y+1)/2] *)
Definition half (y : Z) : Z := Z.quot (int32 (y * int32 (y + 1))) 2.

(** [x = (pos-y*NUM_BLOCKS+y*(y+1)/2)] *)
Definition tileX (NUM_BLOCKS pos y : Z) : Z :=
  int32 (int32 (pos - int32 (y * NUM_BLOCKS)) + half y).

(** The tile of [pos]; [y] is the value of
    [(int) floor(NUM_BLOCKS+0.5f-SQRT((NUM_BLOCKS+0.5f)*(NUM_BLOCKS+0.5f)-2*pos))]. *)
Definition tileOf (NUM_BLOCKS pos y : Z) : Z * Z :=
  let x := tileX NUM_BLOCKS pos y in
  if (x <? y) || (NUM_BLOCKS <=? x) then
    let y := int32 (y + (if x <? y then -1 else 1)) in
    (tileX NUM_BLOCKS pos y, y)
  else (x, y).

(** [tile.x + tile.y*NUM_BLOCKS - tile.y*(tile.y+1)/2], the position of
    a tile as the kernel numbers the exclusion tiles it skips. *)
Definition tileIndex (NUM_BLOCKS x y : Z) : Z :=
  int32 (int32 (x + int32 (y * NUM_BLOCKS)) - half y).

Lemma int32_small z : - 2 ^ 31 <= z < 2 ^ 31 -> int32 z = z.
Proof. intro Hz. unfold int32. rewrite Z.mod_small by lia. lia. Qed.

Lemma product_bound a b n :
  -1 <= a <= n -> 0 <= b <= n + 1 -> 0 <= n -> - (n + 1) <= a * b <= n * (n + 1).
Proof.
  intros Ha Hb Hn. destruct (Z_lt_ge_dec a 0) as [Hneg | Hpos].
  - assert (a = -1) by lia. subst a. nia.
  - split; [nia |]. apply Z.mul_le_mono_nonneg; lia.
Qed.

Lemma half_exact y :
  -1 <= y <= 2 ^ 15 -> 2 * half y = y * (y + 1) /\ 0 <= half y <= 2 ^ 29 + 2 ^ 14.
Proof.
  intro Hy. unfold half.
  rewrite (int32_small (y + 1)) by lia.
  assert (Hp : 0 <= y * (y + 1) <= 2 ^ 15 * (2 ^ 15 + 1)).
  { destruct (Z_lt_ge_dec y 0) as [Hneg | Hpos].
    - assert (y = -1) by lia. subst y. cbn. lia.
    - split; [apply Z.mul_nonneg_nonneg; lia |].
      apply Z.mul_le_mono_nonneg; lia. }
  rewrite int32_small by (cbn in Hp |- *; lia).
  rewrite Z.quot_div_nonneg by lia.
  assert (Heven : (y * (y + 1)) mod 2 = 0).
  { rewrite Zmod_even, Z.even_mul, Z.even_add. cbn [Z.even].
    destruct (Z.even y); reflexivity. }
  pose proof (Z.div_mod (y * (y + 1)) 2 ltac:(lia)) as Hd.
  rewrite Heven in Hd. split; [lia |]. cbn in Hp. lia.
Qed.

Lemma tileX_exact NUM_BLOCKS pos y :
  0 < NUM_BLOCKS <= 2 ^ 15 -> -1 <= y <= NUM_BLOCKS ->
  0 <= pos <= 2 ^ 30 + 2 ^ 15 ->
  tileX NUM_BLOCKS pos y = pos - y * NUM_BLOCKS + half y.
Proof.
  intros Hn Hy Hpos. unfold tileX.
  destruct (half_exact y ltac:(lia)) as [_ Hh].
  pose proof (product_bound y NUM_BLOCKS (2 ^ 15) ltac:(lia) ltac:(lia) ltac:(lia))
    as Hp.
  cbn in Hp, Hh, Hpos.
  rewrite (int32_small (y * NUM_BLOCKS)) by (cbn; lia).
  rewrite (int32_small (pos - y * NUM_BLOCKS)) by (cbn; lia).
  apply int32_small. cbn. lia.
Qed.

Lemma tileIndex_exact NUM_BLOCKS x y :
  0 < NUM_BLOCKS <= 2 ^ 15 -> 0 <= y <= x -> x < NUM_BLOCKS ->
  tileIndex NUM_BLOCKS x y = x + y * NUM_BLOCKS - half y /\
  0 <= tileIndex NUM_BLOCKS x y <= 2 ^ 30 + 2 ^ 15.
Proof.
  intros Hn Hy Hx. unfold tileIndex.
  destruct (half_exact y ltac:(lia)) as [Hh Hhb].
  pose proof (product_bound y NUM_BLOCKS (2 ^ 15) ltac:(lia) ltac:(lia) ltac:(lia))
    as Hp.
  assert (Hrow : y * (y + 1) <= 2 * (y * NUM_BLOCKS)).
  { replace (2 * (y * NUM_BLOCKS)) with (y * (2 * NUM_BLOCKS)) by ring.
    apply Z.mul_le_mono_nonneg_l; lia. }
  assert (Hlast : y * NUM_BLOCKS <= (NUM_BLOCKS - 1) * NUM_BLOCKS)
    by (apply Z.mul_le_mono_nonneg_r; lia).
  assert (Hsq : (NUM_BLOCKS - 1) * NUM_BLOCKS <= (2 ^ 15 - 1) * 2 ^ 15)
    by (apply Z.mul_le_mono_nonneg; lia).
  cbn in Hp, Hhb, Hsq.
  rewrite (int32_small (y * NUM_BLOCKS)) by (cbn; lia).
  rewrite (int32_small (x + y * NUM_BLOCKS)) by (cbn; lia).
  rewrite int32_small by (cbn; lia).
  split; [reflexivity |]. cbn. lia.
Qed.

Lemma half_next y : -1 <= y < 2 ^ 15 -> half (y + 1) = half y + y + 1.
Proof.
  intro Hy. destruct (half_exact y ltac:(lia)) as [H1 _].
  destruct (half_exact (y + 1) ltac:(lia)) as [H2 _]. lia.
Qed.

(** When the square-root formula gives the row of a tile or misses it by
    one, the kernel gets the tile whose position it was given: the test
    [x < y || x >= NUM_BLOCKS] finds a wrong row and its direction, for up
    to [2^15] blocks (where nothing overflows an [int]). *)
Theorem tile_is_recovered_from_its_position :
  forall (NUM_BLOCKS x y estimate : Z),
    0 < NUM_BLOCKS <= 2 ^ 15 ->
    0 <= y <= x -> x < NUM_BLOCKS ->
    y - 1 <= estimate <= y + 1 ->
    tileOf NUM_BLOCKS (tileIndex NUM_BLOCKS x y) estimate = (x, y).
Proof.
  intros n x y e Hn Hy Hx He.
  destruct (tileIndex_exact n x y Hn Hy Hx) as [Hpos Hrange].
  set (pos := tileIndex n x y) in *.
  assert (Hgood : tileX n pos y = x).
  { rewrite tileX_exact by lia. lia. }
  unfold tileOf. cbv zeta.
  assert (Hcases : e = y \/ e = y + 1 \/ e = y - 1) by lia.
  destruct Hcases as [-> | [-> | ->]].
  - rewrite Hgood.
    destruct (Z.ltb_spec x y); [lia |]. destruct (Z.leb_spec n x); [lia |].
    reflexivity.
  - assert (Hx1 : tileX n pos (y + 1) = x - n + y + 1).
    { rewrite tileX_exact by lia. rewrite half_next by lia. lia. }
    rewrite Hx1. destruct (Z.ltb_spec (x - n + y + 1) (y + 1)); [| lia].
    cbn [orb]. rewrite int32_small by lia.
    replace (y + 1 + -1) with y by lia. now rewrite Hgood.
  - assert (Hx1 : tileX n pos (y - 1) = x + n - y).
    { rewrite tileX_exact by lia.
      pose proof (half_next (y - 1) ltac:(lia)) as Hh.
      replace (y - 1 + 1) with y in Hh by lia. lia. }
    rewrite Hx1. destruct (Z.ltb_spec (x + n - y) (y - 1)); [lia |].
    destruct (Z.leb_spec n (x + n - y)); [| lia].
    cbn [orb]. rewrite int32_small by lia.
    replace (y - 1 + 1) with y by lia. now rewrite Hgood.
Qed.

Lemma tile_is_recovered_from_its_position_witness :
  tileOf 4 (tileIndex 4 3 1) 2 = (3, 1).
Proof.
  apply (tile_is_recovered_from_its_position 4 3 1 2); simpl; lia.
Defined.

End Tiles.

(* ------------------------------------------------------------------ *)
(** * The range of the damping factors
      ([computeDirectFieldDampingFactors], [computeMutualFieldDampingFactors]) *)

Module DampingRange.

Local Open Scope R_scope.

(** The polynomial of [fdamp7] and its derivative. *)
Definition poly7 (x : R) : R := 1 + x + x ^ 2 / 2 + x ^ 3 / 6 + x ^ 4 / 30.
Definition poly7' (x : R) : R :=
  0 + 1 + INR 2 * x ^ 1 / 2 + INR 3 * x ^ 2 / 6 + INR 4 * x ^ 3 / 30.

(** What [fdamp7] is in [x = alpha*r]. *)
Definition screened (x : R) : R := 1 - poly7 x * exp (- x).

Lemma poly7_deriv x : derivable_pt_lim poly7 x (poly7' x).
Proof.
  unfold poly7, poly7'.
  repeat first
    [ exact (derivable_pt_lim_pow _ _)
    | exact (derivable_pt_lim_id _)
    | exact (derivable_pt_lim_const _ _)
    | apply Damping.dlim_plus
    | apply Damping.dlim_div_const ].
Qed.

Lemma screened_deriv x :
  derivable_pt_lim screened x ((x ^ 3 / 30 + x ^ 4 / 30) * exp (- x)).
Proof.
  unfold screened.
  apply (Damping.dlim_eq _ x
           (0 - (poly7' x * exp (- x) + poly7 x * (- exp (- x))))).
  - unfold poly7, poly7'. cbn [INR]. field.
  - apply Damping.dlim_minus; [apply derivable_pt_lim_const |].
    apply (derivable_pt_lim_mult poly7 (fun u => exp (- u)));
      [apply poly7_deriv | apply Damping.dlim_exp_neg].
Qed.

Lemma screened_nonneg x : 0 <= x -> 0 <= screened x.
Proof.
  intros [Hpos | <-].
  - destruct (MVT_cor2 screened
                (fun c => (c ^ 3 / 30 + c ^ 4 / 30) * exp (- c)) 0 x Hpos
                (fun c _ => screened_deriv c)) as (c & Heq & Hc).
    assert (H0 : screened 0 = 0).
    { unfold screened, poly7. rewrite Ropp_0, exp_0. field. }
    rewrite H0 in Heq.
    assert (Hd : 0 <= (c ^ 3 / 30 + c ^ 4 / 30) * exp (- c)).
    { apply Rmult_le_pos; [| left; apply exp_pos].
      assert (0 <= c ^ 3) by (apply pow_le; lra).
      assert (0 <= c ^ 4) by (apply pow_le; lra). lra. }
    assert (0 <= (c ^ 3 / 30 + c ^ 4 / 30) * exp (- c) * (x - 0))
      by (apply Rmult_le_pos; lra).
    lra.
  - unfold screened, poly7. rewrite Ropp_0, exp_0. right. field.
Qed.

(** For [alpha*r >= 0] the three direct-field damping factors lie in
    [[0, 1)] and fall from [fdamp3] to [fdamp7]; all three are zero at
    zero separation. *)
Theorem direct_damping_factors_are_fractions :
  forall alpha r : R,
    0 <= alpha * r ->
    let '(fdamp3, fdamp5, fdamp7) :=
      Damping.computeDirectFieldDampingFactors alpha r in
    0 <= fdamp7 /\ fdamp7 <= fdamp5 /\ fdamp5 <= fdamp3 /\ fdamp3 < 1 /\
    (alpha * r = 0 -> fdamp3 = 0 /\ fdamp5 = 0 /\ fdamp7 = 0).
Proof.
  intros alpha r Hx. unfold Damping.computeDirectFieldDampingFactors. cbv zeta.
  set (x := alpha * r) in *.
  pose proof (exp_pos (- x)) as He.
  assert (H2 : 0 <= x * x) by (apply Rmult_le_pos; lra).
  assert (H3 : 0 <= x * x * x) by (apply Rmult_le_pos; lra).
  assert (H4 : 0 <= x * x * (x * x)) by (apply Rmult_le_pos; lra).
  pose proof (screened_nonneg x Hx) as H7. unfold screened, poly7 in H7.
  replace (x ^ 2) with (x * x) in H7 by ring.
  replace (x ^ 3) with (x * x * x) in H7 by ring.
  replace (x ^ 4) with (x * x * (x * x)) in H7 by ring.
  split; [| split; [| split; [| split]]].
  - lra.
  - assert (0 <= x * x * (x * x) * (1 / 30) * exp (- x))
      by (apply Rmult_le_pos; lra). lra.
  - assert (0 <= x * x * x * (1 / 6) * exp (- x))
      by (apply Rmult_le_pos; lra). lra.
  - assert (0 < (1 + x + x * x * (1 / 2)) * exp (- x))
      by (apply Rmult_lt_0_compat; lra). lra.
  - intro Hz. rewrite Hz, Ropp_0, exp_0. repeat split; field.
Qed.

Lemma direct_damping_factors_are_fractions_witness :
  let '(fdamp3, fdamp5, fdamp7) := Damping.computeDirectFieldDampingFactors 2 1 in
  0 <= fdamp7 /\ fdamp7 <= fdamp5 /\ fdamp5 <= fdamp3 /\ fdamp3 < 1 /\
  (2 * 1 = 0 -> fdamp3 = 0 /\ fdamp5 = 0 /\ fdamp7 = 0).
Proof.
  apply (direct_damping_factors_are_fractions 2 1). lra.
Defined.

(** In exact arithmetic, at zero separation both mutual-field damping
    factors are zero, for equal exponents and for exponents of different
    squares. *)
Theorem mutual_damping_vanishes_at_contact :
  forall alphaI alphaJ : R,
    alphaI = alphaJ \/ alphaI * alphaI <> alphaJ * alphaJ ->
    Damping.computeMutualFieldDampingFactors exp Ropp alphaI alphaJ 0 = (0, 0).
Proof.
  intros aI aJ Ha. rewrite Damping.mutual_exact; cbv zeta.
  destruct (Req_dec_T aI aJ) as [Heq | Hne]; cbv zeta.
  - rewrite !Rmult_0_r, Ropp_0, exp_0. f_equal; field.
  - destruct Ha as [Heq | Hsq]; [contradiction |].
    rewrite !Rmult_0_r, Ropp_0, exp_0.
    assert (aJ * aJ - aI * aI <> 0) by lra.
    assert (aI * aI - aJ * aJ <> 0) by lra.
    f_equal; field; lra.
Qed.

Lemma mutual_damping_vanishes_at_contact_witness :
  Damping.computeMutualFieldDampingFactors exp Ropp 1 2 0 = (0, 0).
Proof.
  apply (mutual_damping_vanishes_at_contact 1 2). right. lra.
Defined.

End DampingRange.
